(** * Polaris: a verification development for the engine core

    Shallow embedding of the Polaris chess engine core (bitboards, position,
    move generation, staged move ordering, evaluation, pawn cache, UCI win-rate
    model, JSF random numbers) together with the properties proved about it. *)

From Stdlib Require Import ZArith List Bool Lia Sorted SpecFloat Permutation.
Import ListNotations.

Local Open Scope Z_scope.

(** ** Fixed-width integers

    The engine's [u64], [u32] are unsigned machine integers; they are modelled
    as [Z] with the wrap-around written out. [Score] is [i32]: signed
    overflow is undefined in C++, and the model wraps in two's complement as
    the compiled code does. *)

Definition u64 (x : Z) : Z := x mod 2 ^ 64.
Definition u32 (x : Z) : Z := x mod 2 ^ 32.
Definition i32 (x : Z) : Z := (x + 2 ^ 31) mod 2 ^ 32 - 2 ^ 31.

(** The values an [i32] holds. *)
Definition in_i32 (x : Z) : Prop := - 2 ^ 31 <= x < 2 ^ 31.

(** [std::rotl] on a 64-bit value. *)
Definition rotl64 (x k : Z) : Z :=
  u64 (Z.lor (Z.shiftl x k) (Z.shiftr x (64 - k))).

Lemma u64_range x : 0 <= u64 x < 2 ^ 64.
Proof. unfold u64. apply Z.mod_pos_bound. lia. Qed.

Lemma u32_range x : 0 <= u32 x < 2 ^ 32.
Proof. unfold u32. apply Z.mod_pos_bound. lia. Qed.

Lemma u32_small x : 0 <= x < 2 ^ 32 -> u32 x = x.
Proof. intros H. unfold u32. now apply Z.mod_small. Qed.

Lemma u64_small x : 0 <= x < 2 ^ 64 -> u64 x = x.
Proof. intros H. unfold u64. now apply Z.mod_small. Qed.


Lemma i32_range x : in_i32 (i32 x).
Proof.
  unfold in_i32, i32.
  pose proof (Z.mod_pos_bound (x + 2 ^ 31) (2 ^ 32) ltac:(lia)). lia.
Qed.

(** ** util/rng.h: [Jsf64Rng] *)

Module Jsf64Rng.

Record state : Type := mkState { m_a : Z; m_b : Z; m_c : Z; m_d : Z }.

(** [u64 nextU64()] *)
Definition nextU64 (s : state) : Z * state :=
  let e := u64 (m_a s - rotl64 (m_b s) 7) in
  let a := Z.lxor (m_b s) (rotl64 (m_c s) 13) in
  let b := u64 (m_c s + rotl64 (m_d s) 37) in
  let c := u64 (m_d s + e) in
  let d := u64 (e + a) in
  (d, mkState a b c d).

(** The constructor: [m_a{0xF1EA5EED}], the other words are the seed, then
    twenty warm-up rounds. *)
Fixpoint warmup (n : nat) (s : state) : state :=
  match n with
  | O => s
  | S k => warmup k (snd (nextU64 s))
  end.

Definition make (seed : Z) : state :=
  warmup 20 (mkState 0xF1EA5EED seed seed seed).

(** [u32 nextU32()] *)
Definition nextU32 (s : state) : Z * state :=
  let '(r, s') := nextU64 s in (u32 (Z.shiftr r 32), s').

(** The rejection loop of [nextU32(u32 bound)]:
    [while (l < t) { x = nextU32(); m = u64(x) * u64(bound); l = u32(m); }].
    The loop has no bound in the source; [fuel] counts the iterations the
    model is allowed to take. *)
Fixpoint reject (fuel : nat) (bound t : Z) (m l : Z) (s : state)
  : option (Z * state) :=
  if l <? t then
    match fuel with
    | O => None
    | S k =>
        let '(x, s') := nextU32 s in
        let m' := u64 (x * bound) in
        let l' := u32 m' in
        reject k bound t m' l' s'
    end
  else Some (m, s).

(** The threshold [t] computed from [-bound] in 32-bit arithmetic. *)
Definition threshold (bound : Z) : Z :=
  let t := u32 (- bound) in
  if t >=? bound then
    let t := u32 (t - bound) in
    if t >=? bound then t mod bound else t
  else t.

(** [u32 nextU32(u32 bound)] *)
Definition nextU32_bounded (fuel : nat) (s : state) (bound : Z)
  : option (Z * state) :=
  if bound =? 0 then Some (0, s)
  else
    let '(x, s1) := nextU32 s in
    let m := u64 (x * bound) in
    let l := u32 m in
    if l <? bound then
      match reject fuel bound (threshold bound) m l s1 with
      | Some (m', s') => Some (u32 (Z.shiftr m' 32), s')
      | None => None
      end
    else Some (u32 (Z.shiftr m 32), s1).

End Jsf64Rng.

(** ** Bitboards

    A bitboard is a [u64] with one bit per square, least significant bit a1,
    [square = rank * 8 + file]. *)

Abbreviation Bitboard := Z (only parsing).
Abbreviation Square := Z (only parsing).

(** [Square::None], the sentinel after h8. *)
Definition Square_None : Square := 64.

Definition AllSquares : Bitboard := 0xFFFFFFFFFFFFFFFF.

Definition band (a b : Bitboard) : Bitboard := Z.land a b.
Definition bor (a b : Bitboard) : Bitboard := Z.lor a b.
Definition bxor (a b : Bitboard) : Bitboard := Z.lxor a b.
(** [~b] on 64 bits. *)
Definition bnot (b : Bitboard) : Bitboard := Z.ldiff AllSquares b.

Declare Scope bb_scope.
Delimit Scope bb_scope with bb.
Infix "&&&" := band (at level 40, left associativity) : bb_scope.
Infix "|||" := bor (at level 50, left associativity) : bb_scope.
Infix "^^^" := bxor (at level 50, left associativity) : bb_scope.
Notation "~~ b" := (bnot b) (at level 35, right associativity) : bb_scope.
Local Open Scope bb_scope.

(** Modelled from the spec: bitboard.h is absent from the sources. The
    vocabulary below follows section 4.1: [fromSquare], [empty], [popcount],
    lowest-bit extraction, the eight one-step shifts masked against the file
    boundaries, and the fills. *)
Definition fromSquare (s : Square) : Bitboard := Z.shiftl 1 s.
Definition squareBit (s : Square) : Bitboard := fromSquare s.

Definition empty (b : Bitboard) : bool := b =? 0.

(** The squares of a bitboard, lowest first: the order in which
    [popLowestSquare] hands them out. *)
Fixpoint pos_squares (p : positive) (i : Z) : list Square :=
  match p with
  | xH => [i]
  | xO q => pos_squares q (i + 1)
  | xI q => i :: pos_squares q (i + 1)
  end.

Definition squares (b : Bitboard) : list Square :=
  match b with
  | Zpos p => pos_squares p 0
  | _ => []
  end.

Definition popcount (b : Bitboard) : Z := Z.of_nat (length (squares b)).

(** [multiple()]: more than one bit set. *)
Definition multiple (b : Bitboard) : bool := 1 <? popcount b.

Definition lowestSquare (b : Bitboard) : Square :=
  match squares b with
  | s :: _ => s
  | [] => Square_None
  end.

(** The board left once the lowest bit is cleared. *)
Definition clearLowest (b : Bitboard) : Bitboard := b &&& (b - 1).

(** The lowest bit as a bitboard of its own. *)
Definition lowestBit (b : Bitboard) : Bitboard := b &&& u64 (- b).

Definition FileA : Bitboard := 0x0101010101010101.
Definition FileH : Bitboard := 0x8080808080808080.
Definition Rank1 : Bitboard := 0x00000000000000FF.
Definition Rank8 : Bitboard := 0xFF00000000000000.
Definition LightSquares : Bitboard := 0x55AA55AA55AA55AA.
Definition DarkSquares : Bitboard := 0xAA55AA55AA55AA55.

(** [boards::Files[f]] *)
Definition Files (f : Z) : Bitboard := Z.shiftl FileA f.
(** [boards::Ranks[r]] *)
Definition Ranks (r : Z) : Bitboard := Z.shiftl Rank1 (8 * r).

Definition shiftUp (b : Bitboard) : Bitboard := u64 (Z.shiftl b 8).
Definition shiftDown (b : Bitboard) : Bitboard := Z.shiftr b 8.
(** Towards the a-file: the h-file is cleared after the shift. *)
Definition shiftLeft (b : Bitboard) : Bitboard := Z.shiftr b 1 &&& ~~ FileH.
(** Towards the h-file: the a-file is cleared after the shift. *)
Definition shiftRight (b : Bitboard) : Bitboard := u64 (Z.shiftl b 1) &&& ~~ FileA.
Definition shiftUpLeft (b : Bitboard) : Bitboard := u64 (Z.shiftl b 7) &&& ~~ FileH.
Definition shiftUpRight (b : Bitboard) : Bitboard := u64 (Z.shiftl b 9) &&& ~~ FileA.
Definition shiftDownLeft (b : Bitboard) : Bitboard := Z.shiftr b 9 &&& ~~ FileH.
Definition shiftDownRight (b : Bitboard) : Bitboard := Z.shiftr b 7 &&& ~~ FileA.

(** Fills: shift repeatedly and accumulate; seven steps reach the edge. *)
Fixpoint fill_with (step : Bitboard -> Bitboard) (n : nat) (b : Bitboard)
  : Bitboard :=
  match n with
  | O => b
  | S k => fill_with step k (b ||| step b)
  end.

Definition fillUp (b : Bitboard) : Bitboard := fill_with shiftUp 7 b.
Definition fillDown (b : Bitboard) : Bitboard := fill_with shiftDown 7 b.
Definition fillFile (b : Bitboard) : Bitboard := fillUp b ||| fillDown b.

(** ** Core types *)

Inductive Color : Type := Black | White.

Definition oppColor (c : Color) : Color :=
  match c with Black => White | White => Black end.

Definition Color_eqb (a b : Color) : bool :=
  match a, b with
  | Black, Black | White, White => true
  | _, _ => false
  end.

Inductive BasePiece : Type := Pawn | Knight | Bishop | Rook | Queen | King.

Definition BasePiece_eqb (a b : BasePiece) : bool :=
  match a, b with
  | Pawn, Pawn | Knight, Knight | Bishop, Bishop
  | Rook, Rook | Queen, Queen | King, King => true
  | _, _ => false
  end.

(** The six base pieces in the order of the enumeration. *)
Definition allBasePieces : list BasePiece :=
  [Pawn; Knight; Bishop; Rook; Queen; King].

(** The thirteen piece codes: a coloured base piece, or [Piece::None]. *)
Inductive Piece : Type :=
| Piece_None
| colorPiece (p : BasePiece) (c : Color).

Definition Piece_eqb (a b : Piece) : bool :=
  match a, b with
  | Piece_None, Piece_None => true
  | colorPiece p c, colorPiece q d => BasePiece_eqb p q && Color_eqb c d
  | _, _ => false
  end.

Definition flipPieceColor (p : Piece) : Piece :=
  match p with
  | Piece_None => Piece_None
  | colorPiece b c => colorPiece b (oppColor c)
  end.

(** Relative directions: "up" is towards rank 8 for white and towards rank 1
    for black; left and right keep their file sense. *)
Definition shiftUpRelative (us : Color) (b : Bitboard) : Bitboard :=
  match us with Black => shiftDown b | White => shiftUp b end.
Definition shiftDownRelative (us : Color) (b : Bitboard) : Bitboard :=
  match us with Black => shiftUp b | White => shiftDown b end.
Definition shiftUpLeftRelative (us : Color) (b : Bitboard) : Bitboard :=
  match us with Black => shiftDownLeft b | White => shiftUpLeft b end.
Definition shiftUpRightRelative (us : Color) (b : Bitboard) : Bitboard :=
  match us with Black => shiftDownRight b | White => shiftUpRight b end.
Definition fillUpRelative (us : Color) (b : Bitboard) : Bitboard :=
  match us with Black => fillDown b | White => fillUp b end.
Definition fillDownRelative (us : Color) (b : Bitboard) : Bitboard :=
  match us with Black => fillUp b | White => fillDown b end.

(** [offsets::up<Us>()] and its diagonal companions: the square distance a
    piece covers under the relative shift of the same name. *)
Definition offset_up (us : Color) : Z :=
  match us with Black => -8 | White => 8 end.
Definition offset_upLeft (us : Color) : Z :=
  match us with Black => -9 | White => 7 end.
Definition offset_upRight (us : Color) : Z :=
  match us with Black => -7 | White => 9 end.

Definition squareRank (s : Square) : Z := s / 8.
Definition squareFile (s : Square) : Z := s mod 8.
Definition toSquare (rank file : Z) : Square := rank * 8 + file.
Definition relativeRank (us : Color) (rank : Z) : Z :=
  match us with Black => 7 - rank | White => rank end.

(** [boards::promotionRank<Us>()] *)
Definition promotionRank (us : Color) : Bitboard :=
  match us with Black => Rank1 | White => Rank8 end.
(** [boards::rank<Us>(idx)] *)
Definition rankRelative (us : Color) (idx : Z) : Bitboard :=
  Ranks (relativeRank us idx).

Definition chebyshev (a b : Square) : Z :=
  Z.max (Z.abs (squareFile a - squareFile b))
        (Z.abs (squareRank a - squareRank b)).

(** A tapered score: a midgame and an endgame value. *)
Record TaperedScore : Type := S_ { midgame : Z; endgame : Z }.

Definition ts_add (a b : TaperedScore) : TaperedScore :=
  S_ (midgame a + midgame b) (endgame a + endgame b).
Definition ts_sub (a b : TaperedScore) : TaperedScore :=
  S_ (midgame a - midgame b) (endgame a - endgame b).
Definition ts_scale (a : TaperedScore) (k : Z) : TaperedScore :=
  S_ (midgame a * k) (endgame a * k).
Definition ts_zero : TaperedScore := S_ 0 0.

Declare Scope ts_scope.
Delimit Scope ts_scope with ts.
Infix "+" := ts_add : ts_scope.
Infix "-" := ts_sub : ts_scope.
Infix "*" := ts_scale : ts_scope.

(** Packed moves. The source keeps the four fields in one 16-bit word, the
    all-zero word being [NullMove]; the fields are kept apart here and
    [Move_raw] gives the word. *)
Inductive MoveType : Type := Standard | Promotion | Castling | EnPassant.

Definition MoveType_eqb (a b : MoveType) : bool :=
  match a, b with
  | Standard, Standard | Promotion, Promotion
  | Castling, Castling | EnPassant, EnPassant => true
  | _, _ => false
  end.

Definition MoveType_idx (t : MoveType) : Z :=
  match t with Standard => 0 | Promotion => 1 | Castling => 2 | EnPassant => 3 end.

Record Move : Type := mkMove {
  src : Square;
  dst : Square;
  targetIdx : Z;
  type : MoveType
}.

Definition Move_raw (m : Move) : Z :=
  Z.lor (Z.lor (Z.shiftl (src m) 10) (Z.shiftl (dst m) 4))
        (Z.lor (Z.shiftl (targetIdx m) 2) (MoveType_idx (type m))).

Definition NullMove : Move := mkMove 0 0 0 Standard.

Definition Move_eqb (a b : Move) : bool :=
  (src a =? src b) && (dst a =? dst b) && (targetIdx a =? targetIdx b)
  && MoveType_eqb (type a) (type b).

(** [explicit operator bool]: a move is true unless it is [NullMove]. *)
Definition Move_isSome (m : Move) : bool := negb (Move_eqb m NullMove).

(** Promotion targets are stored as an index counted from the knight. *)
Definition targetIdx_of (p : BasePiece) : Z :=
  match p with
  | Knight => 0 | Bishop => 1 | Rook => 2 | Queen => 3
  | Pawn => 0 | King => 0
  end.

Definition Move_standard (s d : Square) : Move := mkMove s d 0 Standard.
Definition Move_promotion (s d : Square) (t : BasePiece) : Move :=
  mkMove s d (targetIdx_of t) Promotion.
Definition Move_castling (s d : Square) : Move := mkMove s d 0 Castling.
Definition Move_enPassant (s d : Square) : Move := mkMove s d 0 EnPassant.

(** ** position/boards.h: [PositionBoards] *)

Record PositionBoards : Type := mkBoards {
  m_colors : Color -> Bitboard;
  m_boards : BasePiece -> Bitboard
}.

Module Boards.

Definition forColor (b : PositionBoards) (c : Color) : Bitboard := m_colors b c.
Definition forPiece (b : PositionBoards) (p : BasePiece) : Bitboard := m_boards b p.
Definition forPieceOf (b : PositionBoards) (p : BasePiece) (c : Color) : Bitboard :=
  m_boards b p &&& forColor b c.

Definition blackOccupancy (b : PositionBoards) : Bitboard := m_colors b Black.
Definition whiteOccupancy (b : PositionBoards) : Bitboard := m_colors b White.
Definition occupancyOf (b : PositionBoards) (c : Color) : Bitboard := m_colors b c.
Definition occupancy (b : PositionBoards) : Bitboard :=
  m_colors b Black ||| m_colors b White.

Definition pawns (b : PositionBoards) : Bitboard := forPiece b Pawn.
Definition knights (b : PositionBoards) : Bitboard := forPiece b Knight.
Definition bishops (b : PositionBoards) : Bitboard := forPiece b Bishop.
Definition rooks (b : PositionBoards) : Bitboard := forPiece b Rook.
Definition queens (b : PositionBoards) : Bitboard := forPiece b Queen.
Definition kings (b : PositionBoards) : Bitboard := forPiece b King.

Definition blackPawns (b : PositionBoards) := pawns b &&& blackOccupancy b.
Definition whitePawns (b : PositionBoards) := pawns b &&& whiteOccupancy b.
Definition blackKnights (b : PositionBoards) := knights b &&& blackOccupancy b.
Definition whiteKnights (b : PositionBoards) := knights b &&& whiteOccupancy b.
Definition blackBishops (b : PositionBoards) := bishops b &&& blackOccupancy b.
Definition whiteBishops (b : PositionBoards) := bishops b &&& whiteOccupancy b.
Definition blackRooks (b : PositionBoards) := rooks b &&& blackOccupancy b.
Definition whiteRooks (b : PositionBoards) := rooks b &&& whiteOccupancy b.
Definition blackQueens (b : PositionBoards) := queens b &&& blackOccupancy b.
Definition whiteQueens (b : PositionBoards) := queens b &&& whiteOccupancy b.
Definition blackKings (b : PositionBoards) := kings b &&& blackOccupancy b.
Definition whiteKings (b : PositionBoards) := kings b &&& whiteOccupancy b.

Definition minors (b : PositionBoards) : Bitboard := knights b ||| bishops b.
Definition blackMinors (b : PositionBoards) := minors b &&& blackOccupancy b.
Definition whiteMinors (b : PositionBoards) := minors b &&& whiteOccupancy b.

Definition majors (b : PositionBoards) : Bitboard := rooks b ||| queens b.
Definition blackMajors (b : PositionBoards) := majors b &&& blackOccupancy b.
Definition whiteMajors (b : PositionBoards) := majors b &&& whiteOccupancy b.

Definition nonPk (b : PositionBoards) : Bitboard := minors b ||| majors b.
Definition blackNonPk (b : PositionBoards) := nonPk b &&& blackOccupancy b.
Definition whiteNonPk (b : PositionBoards) := nonPk b &&& whiteOccupancy b.

(** The colour-templated accessors, [pawns<C>()] and the like. *)
Definition pawnsT (c : Color) (b : PositionBoards) : Bitboard :=
  match c with Black => blackPawns b | White => whitePawns b end.
Definition knightsT (c : Color) (b : PositionBoards) : Bitboard :=
  match c with Black => blackKnights b | White => whiteKnights b end.
Definition bishopsT (c : Color) (b : PositionBoards) : Bitboard :=
  match c with Black => blackBishops b | White => whiteBishops b end.
Definition rooksT (c : Color) (b : PositionBoards) : Bitboard :=
  match c with Black => blackRooks b | White => whiteRooks b end.
Definition queensT (c : Color) (b : PositionBoards) : Bitboard :=
  match c with Black => blackQueens b | White => whiteQueens b end.
Definition kingsT (c : Color) (b : PositionBoards) : Bitboard :=
  match c with Black => blackKings b | White => whiteKings b end.
Definition minorsT (c : Color) (b : PositionBoards) : Bitboard :=
  match c with Black => blackMinors b | White => whiteMinors b end.
Definition majorsT (c : Color) (b : PositionBoards) : Bitboard :=
  match c with Black => blackMajors b | White => whiteMajors b end.
Definition nonPkT (c : Color) (b : PositionBoards) : Bitboard :=
  match c with Black => blackNonPk b | White => whiteNonPk b end.

(** The accessors taking the colour at run time, [pawns(color)] and the like. *)
Definition pawnsOf (b : PositionBoards) (c : Color) := forPieceOf b Pawn c.
Definition knightsOf (b : PositionBoards) (c : Color) := forPieceOf b Knight c.
Definition bishopsOf (b : PositionBoards) (c : Color) := forPieceOf b Bishop c.
Definition rooksOf (b : PositionBoards) (c : Color) := forPieceOf b Rook c.
Definition queensOf (b : PositionBoards) (c : Color) := forPieceOf b Queen c.
Definition kingsOf (b : PositionBoards) (c : Color) := forPieceOf b King c.

(** [pieceAt(square)]. The source asserts that a square set in a colour board
    is set in a piece board and declares the other case unreachable; it does
    not arise on well-formed boards, and the model answers [Piece::None]
    there. *)
Definition pieceAt (b : PositionBoards) (s : Square) : Piece :=
  let bit := fromSquare s in
  let find c :=
    match filter (fun p => negb (empty (forPiece b p &&& bit))) allBasePieces with
    | p :: _ => colorPiece p c
    | [] => Piece_None
    end in
  if negb (empty (blackOccupancy b &&& bit)) then find Black
  else if negb (empty (whiteOccupancy b &&& bit)) then find White
  else Piece_None.

End Boards.

(** ** position/position.h: [BoardState] and [Position] *)

Record CastlingRooks : Type := mkCastlingRooks {
  blackShort : Square;
  blackLong : Square;
  whiteShort : Square;
  whiteLong : Square
}.

Record BoardState : Type := mkBoardState {
  boards : PositionBoards;
  key : Z;
  pawnKey : Z;
  material : TaperedScore;
  checkers : Bitboard;
  phase : Z;
  castlingRooks : CastlingRooks;
  lastMove : Move;
  halfmove : Z;
  captured : Piece;
  enPassant : Square;
  kings : Color -> Square
}.

(** The value-initialised [BoardState{}]. *)
Definition BoardState_default : BoardState :=
  mkBoardState (mkBoards (fun _ => 0) (fun _ => 0)) 0 0 ts_zero 0 0
    (mkCastlingRooks Square_None Square_None Square_None Square_None)
    NullMove 0 Piece_None Square_None (fun _ => Square_None).

(** [m_states] and [m_hashes] are vectors; the lists keep the vector order,
    oldest entry first, so that [back()] is the last element. *)
Record Position : Type := mkPosition {
  m_blackToMove : bool;
  m_fullmove : Z;
  m_states : list BoardState;
  m_hashes : list Z
}.

Module Pos.

Definition currState (pos : Position) : BoardState :=
  last (m_states pos) BoardState_default.

Definition boards (pos : Position) : PositionBoards := boards (currState pos).
Definition toMove (pos : Position) : Color :=
  if m_blackToMove pos then Black else White.
Definition opponent (pos : Position) : Color :=
  if m_blackToMove pos then White else Black.
Definition castlingRooks (pos : Position) := castlingRooks (currState pos).
Definition enPassant (pos : Position) : Square := enPassant (currState pos).
Definition material (pos : Position) : TaperedScore := material (currState pos).
Definition halfmove (pos : Position) : Z := halfmove (currState pos).
Definition key (pos : Position) : Z := key (currState pos).
Definition pawnKey (pos : Position) : Z := pawnKey (currState pos).
Definition blackKing (pos : Position) : Square := kings (currState pos) Black.
Definition whiteKing (pos : Position) : Square := kings (currState pos) White.
Definition king (pos : Position) (c : Color) : Square := kings (currState pos) c.
Definition oppKing (pos : Position) (c : Color) : Square :=
  kings (currState pos) (oppColor c).
Definition checkers (pos : Position) : Bitboard := checkers (currState pos).
Definition isCheck (pos : Position) : bool := negb (empty (checkers pos)).

(** [interpScore]: the products, the difference and the sum are [Score]
    operations; C++ integer division truncates towards zero. *)
Definition interpScore (pos : Position) (score : TaperedScore) : Z :=
  i32 (i32 (midgame score * phase (currState pos))
       + i32 (endgame score * i32 (24 - phase (currState pos)))) ÷ 24.

(** The backwards scan of [isDrawn] over [m_hashes]:
    [if (m_hashes[i] == currKey && --repetitionsLeft == 0) return true;]
    [hs] is the vector read from its end. *)
Fixpoint repetitionScan (hs : list Z) (currKey : Z) (repetitionsLeft : Z) : bool :=
  match hs with
  | [] => false
  | h :: rest =>
      if h =? currKey then
        let repetitionsLeft := repetitionsLeft - 1 in
        if repetitionsLeft =? 0 then true
        else repetitionScan rest currKey repetitionsLeft
      else repetitionScan rest currKey repetitionsLeft
  end.

Definition isDrawn (pos : Position) (threefold : bool) : bool :=
  if 100 <=? halfmove pos then true
  else
    let currKey := key pos in
    let repetitionsLeft := if threefold then 2 else 1 in
    if repetitionScan (rev (m_hashes pos)) currKey repetitionsLeft then true
    else
      let b := boards pos in
      if negb (empty (Boards.pawns b)) || negb (empty (Boards.majors b)) then false
      else if empty (Boards.nonPk b) then true
      else if (empty (Boards.blackNonPk b)
               && (Boards.whiteNonPk b =? Boards.whiteMinors b)
               && negb (multiple (Boards.whiteMinors b)))
              || (empty (Boards.whiteNonPk b)
                  && (Boards.blackNonPk b =? Boards.blackMinors b)
                  && negb (multiple (Boards.blackMinors b)))
      then true
      else if ((Boards.blackNonPk b =? Boards.blackBishops b)
               && (Boards.whiteNonPk b =? Boards.whiteBishops b))
              && negb (multiple (Boards.blackBishops b))
              && negb (multiple (Boards.whiteBishops b))
              && negb (Bool.eqb (empty (Boards.blackBishops b &&& LightSquares))
                                (empty (Boards.whiteBishops b &&& LightSquares)))
      then true
      else false.

Definition isLikelyDrawn (pos : Position) : bool :=
  let b := boards pos in
  if negb (empty (Boards.pawns b)) || negb (empty (Boards.majors b)) then false
  else if (empty (Boards.blackNonPk b)
           && (Boards.whiteNonPk b =? Boards.whiteKnights b)
           && (popcount (Boards.whiteKnights b) <? 3))
          || (empty (Boards.whiteNonPk b)
              && (Boards.blackNonPk b =? Boards.blackKnights b)
              && (popcount (Boards.blackKnights b) <? 3))
  then true
  else if negb (empty (Boards.nonPk b)) then
    if negb (multiple (Boards.whiteMinors b)) && negb (multiple (Boards.blackMinors b))
    then true
    else if (Boards.nonPk b =? Boards.bishops b)
            && (((popcount (Boards.whiteBishops b) <? 3)
                 && negb (multiple (Boards.blackBishops b)))
                || ((popcount (Boards.blackBishops b) <? 3)
                    && negb (multiple (Boards.whiteBishops b))))
    then true
    else false
  else false.

End Pos.

(** ** Collaborators that are declared outside the modelled sources

    The attack tables (attacks/attacks.h), the rays (rays.h) and the global
    options (opts.h) are used by the code below but defined elsewhere; the
    code is modelled over arbitrary ones. *)

Record AttackTables : Type := mkAttackTables {
  KnightAttacks : Square -> Bitboard;
  KingAttacks : Square -> Bitboard;
  getPawnAttacks : Square -> Color -> Bitboard;
  getRookAttacks : Square -> Bitboard -> Bitboard;
  getBishopAttacks : Square -> Bitboard -> Bitboard;
  rayBetween : Square -> Square -> Bitboard
}.

Definition getKnightAttacks (t : AttackTables) (s : Square) : Bitboard :=
  KnightAttacks t s.
Definition getKingAttacks (t : AttackTables) (s : Square) : Bitboard :=
  KingAttacks t s.
(** Queen attacks are the union of bishop and rook attacks. *)
Definition getQueenAttacks (t : AttackTables) (s : Square) (occ : Bitboard)
  : Bitboard :=
  getBishopAttacks t s occ ||| getRookAttacks t s occ.

Record GlobalOptions : Type := mkOptions {
  chess960 : bool;
  underpromotions : bool
}.

Record ScoredMove : Type := mkScored { move : Move; score : Z }.

(** [ScoredMoveList] is a fixed-capacity vector; [push] appends. The capacity
    is not modelled. *)
Abbreviation ScoredMoveList := (list ScoredMove) (only parsing).

Definition push (l : ScoredMoveList) (m : Move) : ScoredMoveList :=
  l ++ [mkScored m 0].

(** ** position/position.h, continued: attack queries *)

Section PositionAttacks.

Variable t : AttackTables.

Definition allAttackersTo (pos : Position) (square : Square)
  (occupancy : Bitboard) : Bitboard :=
  let b := Pos.boards pos in
  let attackers := 0 in
  let queens := Boards.queens b in
  let rooks := queens ||| Boards.rooks b in
  let attackers := attackers ||| (rooks &&& getRookAttacks t square occupancy) in
  let bishops := queens ||| Boards.bishops b in
  let attackers :=
    attackers ||| (bishops &&& getBishopAttacks t square occupancy) in
  let attackers :=
    attackers ||| (Boards.blackPawns b &&& getPawnAttacks t square White) in
  let attackers :=
    attackers ||| (Boards.whitePawns b &&& getPawnAttacks t square Black) in
  let knights := Boards.knights b in
  let attackers := attackers ||| (knights &&& getKnightAttacks t square) in
  let kings := Boards.kings b in
  attackers ||| (kings &&& getKingAttacks t square).

Definition attackersTo (pos : Position) (square : Square) (attacker : Color)
  : Bitboard :=
  let b := Pos.boards pos in
  let attackers := 0 in
  let occ := Boards.occupancy b in
  let queens := Boards.queensOf b attacker in
  let rooks := queens ||| Boards.rooksOf b attacker in
  let attackers := attackers ||| (rooks &&& getRookAttacks t square occ) in
  let bishops := queens ||| Boards.bishopsOf b attacker in
  let attackers := attackers ||| (bishops &&& getBishopAttacks t square occ) in
  let pawns := Boards.pawnsOf b attacker in
  let attackers :=
    attackers ||| (pawns &&& getPawnAttacks t square (oppColor attacker)) in
  let knights := Boards.knightsOf b attacker in
  let attackers := attackers ||| (knights &&& getKnightAttacks t square) in
  let kings := Boards.kingsOf b attacker in
  attackers ||| (kings &&& getKingAttacks t square).

Definition isAttacked (pos : Position) (square : Square) (attacker : Color)
  : bool :=
  let b := Pos.boards pos in
  let occ := Boards.occupancy b in
  if negb (empty (Boards.knightsOf b attacker &&& getKnightAttacks t square))
  then true
  else if negb (empty (Boards.pawnsOf b attacker
                       &&& getPawnAttacks t square (oppColor attacker)))
  then true
  else if negb (empty (Boards.kingsOf b attacker &&& getKingAttacks t square))
  then true
  else
    let queens := Boards.queensOf b attacker in
    if negb (empty ((queens ||| Boards.bishopsOf b attacker)
                    &&& getBishopAttacks t square occ))
    then true
    else if negb (empty ((queens ||| Boards.rooksOf b attacker)
                         &&& getRookAttacks t square occ))
    then true
    else false.

Definition anyAttacked (pos : Position) (sqs : Bitboard) (attacker : Color)
  : bool :=
  existsb (fun square => isAttacked pos square attacker) (squares sqs).

(** [calcCheckers] *)
Definition calcCheckers (pos : Position) : Bitboard :=
  let color := Pos.toMove pos in
  attackersTo pos (Pos.king pos color) (oppColor color).

End PositionAttacks.

(** ** movegen.cpp *)

Section MoveGeneration.

Variable t : AttackTables.
Variable g_opts : GlobalOptions.

(** [pushStandards(dst, offset, board)] *)
Definition pushStandards_offset (l : ScoredMoveList) (offset : Z) (board : Bitboard)
  : ScoredMoveList :=
  fold_left (fun l dstSquare =>
               let srcSquare := dstSquare - offset in
               push l (Move_standard srcSquare dstSquare))
            (squares board) l.

(** [pushStandards(dst, srcSquare, board)] *)
Definition pushStandards (l : ScoredMoveList) (srcSquare : Square) (board : Bitboard)
  : ScoredMoveList :=
  fold_left (fun l dstSquare => push l (Move_standard srcSquare dstSquare))
            (squares board) l.

Definition pushQueenPromotions (noisy : ScoredMoveList) (offset : Z)
  (board : Bitboard) : ScoredMoveList :=
  fold_left (fun l dstSquare =>
               let srcSquare := dstSquare - offset in
               push l (Move_promotion srcSquare dstSquare Queen))
            (squares board) noisy.

Definition pushUnderpromotions (quiet : ScoredMoveList) (offset : Z)
  (board : Bitboard) : ScoredMoveList :=
  fold_left (fun l dstSquare =>
               let srcSquare := dstSquare - offset in
               let l := push l (Move_promotion srcSquare dstSquare Knight) in
               if underpromotions g_opts then
                 let l := push l (Move_promotion srcSquare dstSquare Rook) in
                 push l (Move_promotion srcSquare dstSquare Bishop)
               else l)
            (squares board) quiet.

Definition pushCastling (l : ScoredMoveList) (srcSquare dstSquare : Square)
  : ScoredMoveList :=
  push l (Move_castling srcSquare dstSquare).

Definition pushEnPassants (noisy : ScoredMoveList) (offset : Z) (board : Bitboard)
  : ScoredMoveList :=
  fold_left (fun l dstSquare =>
               let srcSquare := dstSquare - offset in
               push l (Move_enPassant srcSquare dstSquare))
            (squares board) noisy.

(** [generatePawnsNoisy_<Us>] *)
Definition generatePawnsNoisy_ (us : Color) (noisy : ScoredMoveList)
  (pos : Position) (dstMask : Bitboard) : ScoredMoveList :=
  let them := oppColor us in
  let PromotionRank := promotionRank us in
  let ForwardOffset := offset_up us in
  let LeftOffset := offset_upLeft us in
  let RightOffset := offset_upRight us in
  let b := Pos.boards pos in
  let theirs := Boards.occupancyOf b them in
  let forwardDstMask := dstMask &&& PromotionRank &&& ~~ theirs in
  let pawns := Boards.pawnsT us b in
  let leftAttacks := shiftUpLeftRelative us pawns &&& dstMask in
  let rightAttacks := shiftUpRightRelative us pawns &&& dstMask in
  let noisy :=
    pushQueenPromotions noisy LeftOffset (leftAttacks &&& theirs &&& PromotionRank) in
  let noisy :=
    pushQueenPromotions noisy RightOffset (rightAttacks &&& theirs &&& PromotionRank) in
  let forwards := shiftUpRelative us pawns &&& forwardDstMask in
  let noisy := pushQueenPromotions noisy ForwardOffset forwards in
  let noisy :=
    pushStandards_offset noisy LeftOffset (leftAttacks &&& theirs &&& ~~ PromotionRank) in
  let noisy :=
    pushStandards_offset noisy RightOffset (rightAttacks &&& theirs &&& ~~ PromotionRank) in
  if negb (Pos.enPassant pos =? Square_None) then
    let epMask := fromSquare (Pos.enPassant pos) in
    let noisy := pushEnPassants noisy LeftOffset (leftAttacks &&& epMask) in
    pushEnPassants noisy RightOffset (rightAttacks &&& epMask)
  else noisy.

Definition generatePawnsNoisy (noisy : ScoredMoveList) (pos : Position)
  (dstMask : Bitboard) : ScoredMoveList :=
  match Pos.toMove pos with
  | Black => generatePawnsNoisy_ Black noisy pos dstMask
  | White => generatePawnsNoisy_ White noisy pos dstMask
  end.

(** [generatePawnsQuiet_<Us>] *)
Definition generatePawnsQuiet_ (us : Color) (quiet : ScoredMoveList)
  (b : PositionBoards) (dstMask occ : Bitboard) : ScoredMoveList :=
  let them := oppColor us in
  let PromotionRank := promotionRank us in
  let ThirdRank := rankRelative us 2 in
  let ForwardOffset := offset_up us in
  let DoubleOffset := ForwardOffset * 2 in
  let LeftOffset := offset_upLeft us in
  let RightOffset := offset_upRight us in
  let theirs := Boards.occupancyOf b them in
  let forwardDstMask := dstMask &&& ~~ theirs in
  let pawns := Boards.pawnsT us b in
  let leftAttacks := shiftUpLeftRelative us pawns &&& dstMask in
  let rightAttacks := shiftUpRightRelative us pawns &&& dstMask in
  let quiet :=
    pushUnderpromotions quiet LeftOffset (leftAttacks &&& theirs &&& PromotionRank) in
  let quiet :=
    pushUnderpromotions quiet RightOffset (rightAttacks &&& theirs &&& PromotionRank) in
  let forwards := shiftUpRelative us pawns &&& ~~ occ in
  let singles := forwards &&& forwardDstMask in
  let quiet := pushUnderpromotions quiet ForwardOffset (singles &&& PromotionRank) in
  let singles := singles &&& ~~ PromotionRank in
  let forwards := forwards &&& ThirdRank in
  let doubles := shiftUpRelative us forwards &&& forwardDstMask in
  let quiet := pushStandards_offset quiet DoubleOffset doubles in
  pushStandards_offset quiet ForwardOffset singles.

Definition generatePawnsQuiet (quiet : ScoredMoveList) (pos : Position)
  (dstMask occ : Bitboard) : ScoredMoveList :=
  match Pos.toMove pos with
  | Black => generatePawnsQuiet_ Black quiet (Pos.boards pos) dstMask occ
  | White => generatePawnsQuiet_ White quiet (Pos.boards pos) dstMask occ
  end.

(** [precalculated<Piece, Attacks>] *)
Definition precalculated (piece : BasePiece) (Attacks : Square -> Bitboard)
  (l : ScoredMoveList) (pos : Position) (dstMask : Bitboard) : ScoredMoveList :=
  let us := Pos.toMove pos in
  let pieces := Boards.forPieceOf (Pos.boards pos) piece us in
  fold_left (fun l srcSquare =>
               let attacks := Attacks srcSquare in
               pushStandards l srcSquare (attacks &&& dstMask))
            (squares pieces) l.

Definition generateKnights (l : ScoredMoveList) (pos : Position)
  (dstMask : Bitboard) : ScoredMoveList :=
  precalculated Knight (KnightAttacks t) l pos dstMask.

Definition generateFrcCastling (l : ScoredMoveList) (pos : Position)
  (occupancy : Bitboard) (king kingDst rook rookDst : Square) : ScoredMoveList :=
  let toKingDst := rayBetween t king kingDst in
  let toRook := rayBetween t king rook in
  let occ := occupancy ^^^ squareBit king ^^^ squareBit rook in
  if empty (occ &&& (toKingDst ||| toRook ||| squareBit kingDst ||| squareBit rookDst))
     && negb (anyAttacked t pos (toKingDst ||| squareBit kingDst) (Pos.opponent pos))
  then pushCastling l king rook
  else l.

Definition Square_A1 : Square := 0.
Definition Square_C1 : Square := 2.
Definition Square_D1 : Square := 3.
Definition Square_F1 : Square := 5.
Definition Square_G1 : Square := 6.
Definition Square_H1 : Square := 7.
Definition Square_A8 : Square := 56.
Definition Square_C8 : Square := 58.
Definition Square_D8 : Square := 59.
Definition Square_F8 : Square := 61.
Definition Square_G8 : Square := 62.
Definition Square_H8 : Square := 63.

(** [generateKings<Castling>] *)
Definition generateKings (castling : bool) (l : ScoredMoveList) (pos : Position)
  (dstMask : Bitboard) : ScoredMoveList :=
  let l := precalculated King (KingAttacks t) l pos dstMask in
  if castling then
    if negb (Pos.isCheck pos) then
      let cr := Pos.castlingRooks pos in
      let occupancy := Boards.occupancy (Pos.boards pos) in
      if chess960 g_opts then
        match Pos.toMove pos with
        | Black =>
            let l :=
              if negb (blackShort cr =? Square_None) then
                generateFrcCastling l pos occupancy (Pos.blackKing pos) Square_G8
                  (blackShort cr) Square_F8
              else l in
            if negb (blackLong cr =? Square_None) then
              generateFrcCastling l pos occupancy (Pos.blackKing pos) Square_C8
                (blackLong cr) Square_D8
            else l
        | White =>
            let l :=
              if negb (whiteShort cr =? Square_None) then
                generateFrcCastling l pos occupancy (Pos.whiteKing pos) Square_G1
                  (whiteShort cr) Square_F1
              else l in
            if negb (whiteLong cr =? Square_None) then
              generateFrcCastling l pos occupancy (Pos.whiteKing pos) Square_C1
                (whiteLong cr) Square_D1
            else l
        end
      else
        match Pos.toMove pos with
        | Black =>
            let l :=
              if negb (blackShort cr =? Square_None)
                 && empty (occupancy &&& 0x6000000000000000)
                 && negb (isAttacked t pos Square_F8 White)
              then pushCastling l (Pos.blackKing pos) Square_H8
              else l in
            if negb (blackLong cr =? Square_None)
               && empty (occupancy &&& 0x0E00000000000000)
               && negb (isAttacked t pos Square_D8 White)
            then pushCastling l (Pos.blackKing pos) Square_A8
            else l
        | White =>
            let l :=
              if negb (whiteShort cr =? Square_None)
                 && empty (occupancy &&& 0x0000000000000060)
                 && negb (isAttacked t pos Square_F1 Black)
              then pushCastling l (Pos.whiteKing pos) Square_H1
              else l in
            if negb (whiteLong cr =? Square_None)
               && empty (occupancy &&& 0x000000000000000E)
               && negb (isAttacked t pos Square_D1 Black)
            then pushCastling l (Pos.whiteKing pos) Square_A1
            else l
        end
    else l
  else l.

Definition generateSliders (l : ScoredMoveList) (pos : Position)
  (dstMask : Bitboard) : ScoredMoveList :=
  let b := Pos.boards pos in
  let us := Pos.toMove pos in
  let them := oppColor us in
  let ours := Boards.forColor b us in
  let theirs := Boards.forColor b them in
  let occupancy := ours ||| theirs in
  let queens := Boards.queensOf b us in
  let rooks := queens ||| Boards.rooksOf b us in
  let bishops := queens ||| Boards.bishopsOf b us in
  let l :=
    fold_left (fun l src =>
                 let attacks := getRookAttacks t src occupancy in
                 pushStandards l src (attacks &&& dstMask))
              (squares rooks) l in
  fold_left (fun l src =>
               let attacks := getBishopAttacks t src occupancy in
               pushStandards l src (attacks &&& dstMask))
            (squares bishops) l.

Definition generateNoisy (noisy : ScoredMoveList) (pos : Position)
  : ScoredMoveList :=
  let b := Pos.boards pos in
  let us := Pos.toMove pos in
  let them := oppColor us in
  let ours := Boards.forColor b us in
  let kingDstMask := Boards.forColor b them in
  let dstMask := kingDstMask in
  let '(epMask, epPawn) :=
    if negb (Pos.enPassant pos =? Square_None) then
      let epMask := fromSquare (Pos.enPassant pos) in
      (epMask, match us with Black => shiftUp epMask | White => shiftDown epMask end)
    else (0, 0) in
  let promos := ~~ ours &&& (match us with Black => Rank1 | White => Rank8 end) in
  let pawnDstMask := kingDstMask ||| epMask ||| promos in
  if Pos.isCheck pos then
    if multiple (Pos.checkers pos) then
      generateKings false noisy pos kingDstMask
    else
      let dstMask := Pos.checkers pos in
      let pawnDstMask :=
        kingDstMask
        ||| (promos &&& rayBetween t (Pos.king pos us)
                                     (lowestSquare (Pos.checkers pos))) in
      let pawnDstMask :=
        if negb (empty (Pos.checkers pos &&& epPawn)) then pawnDstMask ||| epMask
        else pawnDstMask in
      let noisy := generateSliders noisy pos dstMask in
      let noisy := generatePawnsNoisy noisy pos pawnDstMask in
      let noisy := generateKnights noisy pos dstMask in
      generateKings false noisy pos kingDstMask
  else
    let noisy := generateSliders noisy pos dstMask in
    let noisy := generatePawnsNoisy noisy pos pawnDstMask in
    let noisy := generateKnights noisy pos dstMask in
    generateKings false noisy pos kingDstMask.

Definition generateQuiet (quiet : ScoredMoveList) (pos : Position)
  : ScoredMoveList :=
  let b := Pos.boards pos in
  let us := Pos.toMove pos in
  let them := oppColor us in
  let ours := Boards.forColor b us in
  let theirs := Boards.forColor b them in
  let kingDstMask := ~~ (ours ||| theirs) in
  let dstMask := kingDstMask in
  let pawnDstMask := kingDstMask in
  if Pos.isCheck pos then
    if multiple (Pos.checkers pos) then
      generateKings false quiet pos kingDstMask
    else
      let dstMask :=
        rayBetween t (Pos.king pos us) (lowestSquare (Pos.checkers pos)) in
      let pawnDstMask := dstMask in
      let pawnDstMask := pawnDstMask ||| (Pos.checkers pos &&& promotionRank us) in
      let quiet := generateSliders quiet pos dstMask in
      let quiet := generatePawnsQuiet quiet pos pawnDstMask (ours ||| theirs) in
      let quiet := generateKnights quiet pos dstMask in
      generateKings true quiet pos kingDstMask
  else
    let pawnDstMask := pawnDstMask ||| promotionRank us in
    let quiet := generateSliders quiet pos dstMask in
    let quiet := generatePawnsQuiet quiet pos pawnDstMask (ours ||| theirs) in
    let quiet := generateKnights quiet pos dstMask in
    generateKings true quiet pos kingDstMask.

Definition generateAll (l : ScoredMoveList) (pos : Position) : ScoredMoveList :=
  let b := Pos.boards pos in
  let us := Pos.toMove pos in
  let kingDstMask := ~~ Boards.forColor b (Pos.toMove pos) in
  let dstMask := kingDstMask in
  let '(epMask, epPawn) :=
    if negb (Pos.enPassant pos =? Square_None) then
      let epMask := fromSquare (Pos.enPassant pos) in
      (epMask, match Pos.toMove pos with
               | Black => shiftUp epMask
               | White => shiftDown epMask
               end)
    else (0, 0) in
  let pawnDstMask := kingDstMask in
  if Pos.isCheck pos then
    if multiple (Pos.checkers pos) then
      generateKings false l pos kingDstMask
    else
      let dstMask :=
        Pos.checkers pos
        ||| rayBetween t (Pos.king pos us) (lowestSquare (Pos.checkers pos)) in
      let pawnDstMask := dstMask in
      let pawnDstMask :=
        if negb (empty (Pos.checkers pos &&& epPawn)) then pawnDstMask ||| epMask
        else pawnDstMask in
      let l := generateSliders l pos dstMask in
      let l := generatePawnsNoisy l pos pawnDstMask in
      let l := generatePawnsQuiet l pos dstMask (Boards.occupancy b) in
      let l := generateKnights l pos dstMask in
      generateKings true l pos kingDstMask
  else
    let l := generateSliders l pos dstMask in
    let l := generatePawnsNoisy l pos pawnDstMask in
    let l := generatePawnsQuiet l pos dstMask (Boards.occupancy b) in
    let l := generateKnights l pos dstMask in
    generateKings true l pos kingDstMask.

End MoveGeneration.

(** ** history.h, see.h, eval/material.h and position.cpp

    Modelled from the spec: history.h is absent from the sources. Section 4.5
    describes a butterfly table keyed by (moving piece, destination), which
    also holds the countermove, and continuation tables keyed by an earlier
    move; their contents belong to the search driver and are arbitrary here. *)

Record HistoryMove : Type := mkHistoryMove {
  hm_moving : Piece;
  hm_dst : Square
}.

Definition HistoryMove_none : HistoryMove := mkHistoryMove Piece_None Square_None.

(** [explicit operator bool] of a history move. *)
Definition HistoryMove_isSome (h : HistoryMove) : bool :=
  negb (Piece_eqb (hm_moving h) Piece_None).

Definition HistoryMove_from (b : PositionBoards) (m : Move) : HistoryMove :=
  mkHistoryMove (Boards.pieceAt b (src m)) (dst m).

Record HistoryTable : Type := mkHistoryTable {
  entry_score : HistoryMove -> Z;
  entry_countermove : HistoryMove -> Move;
  contEntry_score : HistoryMove -> HistoryMove -> Z
}.

(** What the staged iterator calls and the sources do not define:
    [see::see], [Position::isPseudolegal] (position.cpp), [eval::pieceValue]
    and [eval::values::Pawn] (eval/material.h). *)
Record Collaborators : Type := mkCollaborators {
  see : Position -> Move -> bool;
  isPseudolegal : Position -> Move -> bool;
  pieceValue : Piece -> TaperedScore;
  values_Pawn : TaperedScore
}.

(** ** movegen.h: the staged move generator *)

Module MovegenStage.
Definition Start : Z := 0.
Definition Hash : Z := Start + 1.
Definition GoodNoisy : Z := Hash + 1.
Definition Killer : Z := GoodNoisy + 1.
Definition Countermove : Z := Killer + 1.
Definition Quiet : Z := Countermove + 1.
Definition BadNoisy : Z := Quiet + 1.
Definition End : Z := BadNoisy + 1.
End MovegenStage.

Record MoveGenerator : Type := mkMoveGenerator {
  m_pos : Position;
  m_stage : Z;
  m_moves : list ScoredMove;
  m_hashMove : Move;
  m_prevMove : HistoryMove;
  m_prevPrevMove : HistoryMove;
  m_killer : Move;
  m_countermove : Move;
  m_history : option HistoryTable;
  m_idx : Z;
  m_noisyEnd : Z;
  m_goodNoisyEnd : Z
}.

Definition set_stage (g : MoveGenerator) (v : Z) : MoveGenerator :=
  mkMoveGenerator (m_pos g) v (m_moves g) (m_hashMove g) (m_prevMove g)
    (m_prevPrevMove g) (m_killer g) (m_countermove g) (m_history g) (m_idx g)
    (m_noisyEnd g) (m_goodNoisyEnd g).

Definition set_moves (g : MoveGenerator) (v : list ScoredMove) : MoveGenerator :=
  mkMoveGenerator (m_pos g) (m_stage g) v (m_hashMove g) (m_prevMove g)
    (m_prevPrevMove g) (m_killer g) (m_countermove g) (m_history g) (m_idx g)
    (m_noisyEnd g) (m_goodNoisyEnd g).

Definition set_countermove (g : MoveGenerator) (v : Move) : MoveGenerator :=
  mkMoveGenerator (m_pos g) (m_stage g) (m_moves g) (m_hashMove g) (m_prevMove g)
    (m_prevPrevMove g) (m_killer g) v (m_history g) (m_idx g)
    (m_noisyEnd g) (m_goodNoisyEnd g).

Definition set_idx (g : MoveGenerator) (v : Z) : MoveGenerator :=
  mkMoveGenerator (m_pos g) (m_stage g) (m_moves g) (m_hashMove g) (m_prevMove g)
    (m_prevPrevMove g) (m_killer g) (m_countermove g) (m_history g) v
    (m_noisyEnd g) (m_goodNoisyEnd g).

Definition set_noisyEnd (g : MoveGenerator) (v : Z) : MoveGenerator :=
  mkMoveGenerator (m_pos g) (m_stage g) (m_moves g) (m_hashMove g) (m_prevMove g)
    (m_prevPrevMove g) (m_killer g) (m_countermove g) (m_history g) (m_idx g)
    v (m_goodNoisyEnd g).

Definition set_goodNoisyEnd (g : MoveGenerator) (v : Z) : MoveGenerator :=
  mkMoveGenerator (m_pos g) (m_stage g) (m_moves g) (m_hashMove g) (m_prevMove g)
    (m_prevPrevMove g) (m_killer g) (m_countermove g) (m_history g) (m_idx g)
    (m_noisyEnd g) v.

(** The constructor: the list is cleared, every counter starts at zero, the
    countermove is [NullMove] until the countermove stage looks it up. *)
Definition MoveGenerator_new (pos : Position) (killer : Move) (hashMove : Move)
  (prevMove prevPrevMove : HistoryMove) (history : option HistoryTable)
  : MoveGenerator :=
  mkMoveGenerator pos MovegenStage.Start [] hashMove prevMove prevPrevMove
    killer NullMove history 0 0 0.

Definition size (l : list ScoredMove) : Z := Z.of_nat (length l).

(** [m_moves[i]] *)
Definition at_ (l : list ScoredMove) (i : Z) : ScoredMove :=
  nth (Z.to_nat i) l (mkScored NullMove 0).

(** [m_moves[i] = v] *)
Fixpoint set_at (l : list ScoredMove) (i : nat) (v : ScoredMove)
  : list ScoredMove :=
  match l, i with
  | [], _ => []
  | _ :: rest, O => v :: rest
  | x :: rest, S k => x :: set_at rest k v
  end.

(** [PromoScores], indexed by the promotion target counted from the knight. *)
Definition PromoScores : list Z := [1; -2; -1; 2].

Definition GoodNoisyThreshold : Z := -4 * 2000 * 2000.

Section StagedGenerator.

Variable t : AttackTables.
Variable g_opts : GlobalOptions.
Variable c : Collaborators.

(** The body of the loop of [scoreNoisy], for one entry. *)
Definition scoreNoisyMove (pos : Position) (sm : ScoredMove) : ScoredMove :=
  let b := Pos.boards pos in
  let mv := move sm in
  let srcValue := midgame (pieceValue c (Boards.pieceAt b (src mv))) in
  let dstValue :=
    if MoveType_eqb (type mv) EnPassant then midgame (values_Pawn c)
    else midgame (pieceValue c (Boards.pieceAt b (dst mv))) in
  let score := (dstValue - srcValue) * 2000 + dstValue in
  let score :=
    if MoveType_eqb (type mv) Promotion
    then score + nth (Z.to_nat (targetIdx mv)) PromoScores 0 * 2000 * 2000
    else score in
  let score :=
    if (0 <? dstValue) && negb (see c pos mv)
    then score - 8 * 2000 * 2000
    else score in
  mkScored mv score.

(** [scoreNoisy]: the entries from [m_idx] on are scored. *)
Definition scoreNoisy (g : MoveGenerator) : MoveGenerator :=
  let k := Z.to_nat (m_idx g) in
  set_moves g (firstn k (m_moves g)
               ++ map (scoreNoisyMove (m_pos g)) (skipn k (m_moves g))).

(** The body of the loop of [scoreQuiet]. *)
Definition scoreQuietMove (g : MoveGenerator) (sm : ScoredMove) : ScoredMove :=
  let b := Pos.boards (m_pos g) in
  let mv := move sm in
  let score :=
    match m_history g with
    | Some h =>
        let historyMove := HistoryMove_from b mv in
        let score := entry_score h historyMove in
        let score :=
          if HistoryMove_isSome (m_prevMove g)
          then score + contEntry_score h (m_prevMove g) historyMove
          else score in
        if HistoryMove_isSome (m_prevPrevMove g)
        then score + contEntry_score h (m_prevPrevMove g) historyMove
        else score
    | None => score sm
    end in
  let score :=
    if MoveType_eqb (type mv) Promotion
    then score + nth (Z.to_nat (targetIdx mv)) PromoScores 0 * 2000
    else score in
  mkScored mv score.

(** [scoreQuiet]: the entries from [m_noisyEnd] on are scored. *)
Definition scoreQuiet (g : MoveGenerator) : MoveGenerator :=
  let k := Z.to_nat (m_noisyEnd g) in
  set_moves g (firstn k (m_moves g)
               ++ map (scoreQuietMove g) (skipn k (m_moves g))).

(** [std::stable_sort] with the comparator [a.score > b.score]: equal scores
    keep their order. *)
Fixpoint insertByScore (x : ScoredMove) (l : list ScoredMove) : list ScoredMove :=
  match l with
  | [] => [x]
  | y :: rest =>
      if score x <? score y then y :: insertByScore x rest
      else x :: y :: rest
  end.

Definition stableSortByScore (l : list ScoredMove) : list ScoredMove :=
  fold_right insertByScore [] l.

(** [std::find_if]: how many entries come before the first one satisfying
    [p]. *)
Fixpoint findIf (p : ScoredMove -> bool) (l : list ScoredMove) : Z :=
  match l with
  | [] => 0
  | x :: rest => if p x then 0 else 1 + findIf p rest
  end.

Definition genNoisy (g : MoveGenerator) : MoveGenerator :=
  let g := set_moves g (generateNoisy t g_opts (m_moves g) (m_pos g)) in
  let g := scoreNoisy g in
  let k := Z.to_nat (m_idx g) in
  let g := set_moves g (firstn k (m_moves g)
                        ++ stableSortByScore (skipn k (m_moves g))) in
  let g := set_noisyEnd g (size (m_moves g)) in
  set_goodNoisyEnd g
    (m_idx g + findIf (fun v => score v <? GoodNoisyThreshold)
                      (skipn k (m_moves g))).

Definition genQuiet (g : MoveGenerator) : MoveGenerator :=
  let g := set_moves g (generateQuiet t g_opts (m_moves g) (m_pos g)) in
  let g := scoreQuiet g in
  set_goodNoisyEnd g 9999.

(** The scan of [findNext] for the best score from [m_idx + 1] on; a later
    entry wins only with a strictly larger score. *)
Fixpoint scanBest (l : list ScoredMove) (i : Z) (best : Z) (bestScore : Z) : Z :=
  match l with
  | [] => best
  | x :: rest =>
      if bestScore <? score x then scanBest rest (i + 1) i (score x)
      else scanBest rest (i + 1) best bestScore
  end.

Definition findNext (g : MoveGenerator) : Move * MoveGenerator :=
  if m_stage g =? MovegenStage.GoodNoisy then
    (move (at_ (m_moves g) (m_idx g)), set_idx g (m_idx g + 1))
  else
    let best :=
      scanBest (skipn (Z.to_nat (m_idx g + 1)) (m_moves g)) (m_idx g + 1)
        (m_idx g) (score (at_ (m_moves g) (m_idx g))) in
    let g :=
      if negb (best =? m_idx g) then
        let a := at_ (m_moves g) (m_idx g) in
        let b := at_ (m_moves g) best in
        set_moves g (set_at (set_at (m_moves g) (Z.to_nat (m_idx g)) b)
                            (Z.to_nat best) a)
      else g in
    (move (at_ (m_moves g) (m_idx g)), set_idx g (m_idx g + 1)).

(** The inner loop of [next]:
    [while (m_idx == m_moves.size() || m_idx == m_goodNoisyEnd)], which steps
    through the stages. [inl m] is a [return m] from inside the switch, [inr]
    leaves the loop. The stage grows with every turn and the loop returns
    once it passes [End]; [fuel] bounds the turns of the model. *)
Fixpoint stages (Quiescence : bool) (fuel : nat) (g : MoveGenerator)
  : option (Move * MoveGenerator + MoveGenerator) :=
  if (m_idx g =? size (m_moves g)) || (m_idx g =? m_goodNoisyEnd g) then
    match fuel with
    | O => None
    | S k =>
        let g := set_stage g (m_stage g + 1) in
        if m_stage g =? MovegenStage.Hash then
          if Move_isSome (m_hashMove g) then Some (inl (m_hashMove g, g))
          else stages Quiescence k g
        else if m_stage g =? MovegenStage.GoodNoisy then
          let g := genNoisy g in
          let g := if Quiescence then set_stage g MovegenStage.End else g in
          stages Quiescence k g
        else if m_stage g =? MovegenStage.Killer then
          if Move_isSome (m_killer g)
             && negb (Move_eqb (m_killer g) (m_hashMove g))
             && isPseudolegal c (m_pos g) (m_killer g)
          then Some (inl (m_killer g, g))
          else stages Quiescence k g
        else if m_stage g =? MovegenStage.Countermove then
          match m_history g with
          | Some h =>
              if HistoryMove_isSome (m_prevMove g) then
                let g := set_countermove g (entry_countermove h (m_prevMove g)) in
                if Move_isSome (m_countermove g)
                   && negb (Move_eqb (m_countermove g) (m_hashMove g))
                   && negb (Move_eqb (m_countermove g) (m_killer g))
                   && isPseudolegal c (m_pos g) (m_countermove g)
                then Some (inl (m_countermove g, g))
                else stages Quiescence k g
              else stages Quiescence k g
          | None => stages Quiescence k g
          end
        else if m_stage g =? MovegenStage.Quiet then
          stages Quiescence k (genQuiet g)
        else if m_stage g =? MovegenStage.BadNoisy then
          stages Quiescence k g
        else Some (inl (NullMove, g))
    end
  else Some (inr g).

(** [Move next()]. The outer [while (true)] ends when a move is returned;
    every turn that does not return has consumed one entry of the list. *)
Fixpoint next (Quiescence : bool) (fuel : nat) (g : MoveGenerator)
  : option (Move * MoveGenerator) :=
  match fuel with
  | O => None
  | S k =>
      match stages Quiescence 16 g with
      | None => None
      | Some (inl r) => Some r
      | Some (inr g) =>
          if m_idx g =? size (m_moves g) then Some (NullMove, g)
          else
            let '(mv, g) := findNext g in
            if negb (Move_eqb mv (m_hashMove g))
               && negb (Move_eqb mv (m_killer g))
               && negb (Move_eqb mv (m_countermove g))
            then Some (mv, g)
            else next Quiescence k g
      end
  end.

(** The moves of successive calls to [next], up to and without the first
    [NullMove]. *)
Fixpoint drain (Quiescence : bool) (calls : nat) (g : MoveGenerator)
  : list Move :=
  match calls with
  | O => []
  | S k =>
      match next Quiescence 512 g with
      | Some (mv, g') =>
          if Move_isSome mv then mv :: drain Quiescence k g' else []
      | None => []
      end
  end.

End StagedGenerator.

(** ** eval/eval.cpp *)

Module Evaluation.

Local Open Scope ts_scope.

Definition S (mg eg : Z) : TaperedScore := S_ mg eg.

(** pawn structure *)
Definition DoubledPawn := S (-18) (-25).
Definition DoubledGappedPawn := S (-4) (-18).
Definition PawnDefender := S 17 14.
Definition OpenPawn := S (-11) (-7).

Definition PawnPhalanx : list TaperedScore :=
  [S 0 0; S 3 5; S 22 10; S 25 25; S 44 61; S 118 136; S 23 259].
Definition Passer : list TaperedScore :=
  [S 0 0; S 0 7; S (-4) 14; S (-13) 45; S 12 66; S 8 138; S 48 152].
Definition DefendedPasser : list TaperedScore :=
  [S 0 0; S 0 0; S 4 (-9); S 5 (-11); S 8 0; S 33 15; S 154 (-12)].
Definition BlockedPasser : list TaperedScore :=
  [S 0 0; S (-9) (-3); S (-9) 3; S (-5) (-8); S (-13) (-24); S 5 (-87);
   S 29 (-138)].
Definition CandidatePasser : list TaperedScore :=
  [S 0 0; S 7 (-3); S 1 0; S 3 12; S 20 16; S 46 60; S 0 0].

Definition DoubledPasser := S 17 (-26).
Definition PasserHelper := S (-8) 13.

(** pawns *)
Definition PawnAttackingMinor := S 52 17.
Definition PawnAttackingRook := S 98 (-31).
Definition PawnAttackingQueen := S 57 (-16).
Definition PasserSquareRule := S 12 102.

(** minors *)
Definition MinorBehindPawn := S 5 18.
Definition MinorAttackingRook := S 40 0.
Definition MinorAttackingQueen := S 27 3.

(** knights, bishops, rooks *)
Definition KnightOutpost := S 25 16.
Definition BishopPair := S 26 59.
Definition RookOnOpenFile := S 41 2.
Definition RookOnSemiOpenFile := S 15 9.
Definition RookSupportingPasser := S 17 14.
Definition RookAttackingQueen := S 55 (-23).

(** kings *)
Definition KingOnOpenFile := S (-71) 2.
Definition KingOnSemiOpenFile := S (-30) 18.

(** mobility *)
Definition KnightMobility : list TaperedScore :=
  [S (-42) (-12); S (-23) (-8); S (-12) (-5); S (-8) 0; S 3 3; S 8 11;
   S 16 10; S 20 9; S 36 (-8)].
Definition BishopMobility : list TaperedScore :=
  [S (-53) 5; S (-38) (-13); S (-26) (-23); S (-18) (-16); S (-9) (-8);
   S (-5) 0; S 0 7; S 3 9; S 2 13; S 11 9; S 21 3; S 46 0; S 7 24;
   S 58 (-10)].
Definition RookMobility : list TaperedScore :=
  [S (-42) (-38); S (-29) (-15); S (-23) (-15); S (-18) (-11); S (-17) (-7);
   S (-11) (-4); S (-9) 2; S (-4) 4; S 5 7; S 11 9; S 14 12; S 23 14;
   S 25 18; S 42 11; S 34 11].
Definition QueenMobility : list TaperedScore :=
  [S (-31) 63; S (-31) 222; S (-32) 89; S (-33) 53; S (-31) 49;
   S (-24) (-23); S (-20) (-58); S (-17) (-68); S (-14) (-66); S (-8) (-73);
   S (-7) (-59); S (-3) (-49); S (-4) (-45); S 4 (-40); S 5 (-29);
   S 0 (-14); S 0 (-4); S 16 (-18); S 12 (-5); S 27 (-9); S 33 (-5);
   S 64 (-19); S 44 (-3); S 83 (-12); S 35 4; S 41 0; S (-42) 62;
   S (-66) 57].

(** [Table[i]]; the tables are indexed inside their bounds on legal
    positions, the model reads zero outside. *)
Definition idx (table : list TaperedScore) (i : Z) : TaperedScore :=
  nth (Z.to_nat i) table ts_zero.

(** [generateAntiPasserMasks<Us>()[i]] *)
Definition AntiPasserMasks (us : Color) (i : Square) : Bitboard :=
  let d := fromSquare i in
  let d := d ||| (shiftLeft d ||| shiftRight d) in
  fillUpRelative us (shiftUpRelative us d).

(** [generatePawnHelperMasks<Us>()[i]] *)
Definition PawnHelperMasks (us : Color) (i : Square) : Bitboard :=
  let d := fromSquare i in
  let d := shiftLeft d ||| shiftRight d in
  fillDownRelative us (shiftDownRelative us d).

Record EvalData : Type := mkEvalData {
  pawnAttacks : Bitboard;
  semiOpen : Bitboard;
  available : Bitboard;
  passers : Bitboard;
  pawnStructure : TaperedScore;
  pawns : TaperedScore;
  knights : TaperedScore;
  bishops : TaperedScore;
  rooks : TaperedScore;
  queens : TaperedScore;
  kings : TaperedScore;
  mobility : TaperedScore;
  hanging : TaperedScore;
  pinned : TaperedScore;
  kingSafety : TaperedScore
}.

Definition EvalData_zero : EvalData :=
  mkEvalData 0 0 0 0 ts_zero ts_zero ts_zero ts_zero ts_zero ts_zero ts_zero
    ts_zero ts_zero ts_zero ts_zero.

(** Field updates, [d.field = v]. *)
Definition with_pawnAttacks (d : EvalData) (v : Bitboard) : EvalData :=
  mkEvalData v (semiOpen d) (available d) (passers d) (pawnStructure d)
    (pawns d) (knights d) (bishops d) (rooks d) (queens d) (kings d)
    (mobility d) (hanging d) (pinned d) (kingSafety d).
Definition with_semiOpen (d : EvalData) (v : Bitboard) : EvalData :=
  mkEvalData (pawnAttacks d) v (available d) (passers d) (pawnStructure d)
    (pawns d) (knights d) (bishops d) (rooks d) (queens d) (kings d)
    (mobility d) (hanging d) (pinned d) (kingSafety d).
Definition with_available (d : EvalData) (v : Bitboard) : EvalData :=
  mkEvalData (pawnAttacks d) (semiOpen d) v (passers d) (pawnStructure d)
    (pawns d) (knights d) (bishops d) (rooks d) (queens d) (kings d)
    (mobility d) (hanging d) (pinned d) (kingSafety d).
Definition with_passers (d : EvalData) (v : Bitboard) : EvalData :=
  mkEvalData (pawnAttacks d) (semiOpen d) (available d) v (pawnStructure d)
    (pawns d) (knights d) (bishops d) (rooks d) (queens d) (kings d)
    (mobility d) (hanging d) (pinned d) (kingSafety d).
Definition with_pawnStructure (d : EvalData) (v : TaperedScore) : EvalData :=
  mkEvalData (pawnAttacks d) (semiOpen d) (available d) (passers d) v
    (pawns d) (knights d) (bishops d) (rooks d) (queens d) (kings d)
    (mobility d) (hanging d) (pinned d) (kingSafety d).
Definition with_pawns (d : EvalData) (v : TaperedScore) : EvalData :=
  mkEvalData (pawnAttacks d) (semiOpen d) (available d) (passers d)
    (pawnStructure d) v (knights d) (bishops d) (rooks d) (queens d) (kings d)
    (mobility d) (hanging d) (pinned d) (kingSafety d).
Definition with_knights (d : EvalData) (v : TaperedScore) : EvalData :=
  mkEvalData (pawnAttacks d) (semiOpen d) (available d) (passers d)
    (pawnStructure d) (pawns d) v (bishops d) (rooks d) (queens d) (kings d)
    (mobility d) (hanging d) (pinned d) (kingSafety d).
Definition with_bishops (d : EvalData) (v : TaperedScore) : EvalData :=
  mkEvalData (pawnAttacks d) (semiOpen d) (available d) (passers d)
    (pawnStructure d) (pawns d) (knights d) v (rooks d) (queens d) (kings d)
    (mobility d) (hanging d) (pinned d) (kingSafety d).
Definition with_rooks (d : EvalData) (v : TaperedScore) : EvalData :=
  mkEvalData (pawnAttacks d) (semiOpen d) (available d) (passers d)
    (pawnStructure d) (pawns d) (knights d) (bishops d) v (queens d) (kings d)
    (mobility d) (hanging d) (pinned d) (kingSafety d).
Definition with_kings (d : EvalData) (v : TaperedScore) : EvalData :=
  mkEvalData (pawnAttacks d) (semiOpen d) (available d) (passers d)
    (pawnStructure d) (pawns d) (knights d) (bishops d) (rooks d) (queens d) v
    (mobility d) (hanging d) (pinned d) (kingSafety d).
Definition with_mobility (d : EvalData) (v : TaperedScore) : EvalData :=
  mkEvalData (pawnAttacks d) (semiOpen d) (available d) (passers d)
    (pawnStructure d) (pawns d) (knights d) (bishops d) (rooks d) (queens d)
    (kings d) v (hanging d) (pinned d) (kingSafety d).

(** [ours.pawnStructure += v] and the like. *)
Definition add_pawnStructure (d : EvalData) (v : TaperedScore) : EvalData :=
  with_pawnStructure d (pawnStructure d + v).
Definition add_pawns (d : EvalData) (v : TaperedScore) : EvalData :=
  with_pawns d (pawns d + v).
Definition add_knights (d : EvalData) (v : TaperedScore) : EvalData :=
  with_knights d (knights d + v).
Definition add_bishops (d : EvalData) (v : TaperedScore) : EvalData :=
  with_bishops d (bishops d + v).
Definition add_rooks (d : EvalData) (v : TaperedScore) : EvalData :=
  with_rooks d (rooks d + v).
Definition add_kings (d : EvalData) (v : TaperedScore) : EvalData :=
  with_kings d (kings d + v).
Definition add_mobility (d : EvalData) (v : TaperedScore) : EvalData :=
  with_mobility d (mobility d + v).

(** [evalPawnStructure<Us>] *)
Definition evalPawnStructure (us : Color) (pos : Position)
  (ours theirs : EvalData) : EvalData :=
  let them := oppColor us in
  let b := Pos.boards pos in
  let ourPawns := Boards.pawnsT us b in
  let theirPawns := Boards.pawnsT them b in
  let up := shiftUpRelative us ourPawns in
  let doubledPawns := up &&& ourPawns in
  let ours := add_pawnStructure ours (DoubledPawn * popcount doubledPawns) in
  let ours :=
    add_pawnStructure ours
      (DoubledGappedPawn * popcount (shiftUpRelative us up &&& ourPawns)) in
  let ours :=
    add_pawnStructure ours
      (PawnDefender * popcount (pawnAttacks ours &&& ourPawns)) in
  let ours :=
    add_pawnStructure ours
      (OpenPawn * popcount (ourPawns &&& ~~ fillDownRelative us theirPawns
                            &&& ~~ pawnAttacks ours)) in
  let phalanx := ourPawns &&& shiftLeft ourPawns in
  let ours :=
    fold_left (fun ours square =>
                 let rank := relativeRank us (squareRank square) in
                 add_pawnStructure ours (idx PawnPhalanx rank))
              (squares phalanx) ours in
  fold_left
    (fun ours square =>
       let pawn := fromSquare square in
       let rank := relativeRank us (squareRank square) in
       let antiPassers := theirPawns &&& AntiPasserMasks us square in
       if empty antiPassers then
         let ours := add_pawnStructure ours (idx Passer rank) in
         let ours :=
           if negb (empty (pawn &&& pawnAttacks ours))
           then add_pawnStructure ours (idx DefendedPasser rank)
           else ours in
         let ours :=
           if negb (empty (pawn &&& doubledPawns))
           then add_pawnStructure ours DoubledPasser
           else ours in
         let helpers := ourPawns &&& PawnHelperMasks us square in
         let ours := add_pawnStructure ours (PasserHelper * popcount helpers) in
         with_passers ours (passers ours ||| pawn)
       else if negb (empty (pawn &&& semiOpen theirs)) then
         let stop := shiftUpRelative us pawn in
         let levers :=
           antiPassers
           &&& (shiftUpLeftRelative us pawn ||| shiftUpRightRelative us pawn) in
         if antiPassers =? levers then
           add_pawnStructure ours (idx CandidatePasser rank)
         else
           let telelevers :=
             antiPassers
             &&& (shiftUpLeftRelative us stop ||| shiftUpRightRelative us stop) in
           let helpers := ourPawns &&& (shiftLeft pawn ||| shiftRight pawn) in
           if (antiPassers =? telelevers)
              || (popcount telelevers <=? popcount helpers)
           then add_pawnStructure ours (idx CandidatePasser rank)
           else ours
       else ours)
    (squares ourPawns) ours.

Section WithTables.

Variable t : AttackTables.

(** [evalPawns<Us>] *)
Definition evalPawns (us : Color) (pos : Position) (ours theirs : EvalData)
  : EvalData :=
  let them := oppColor us in
  let b := Pos.boards pos in
  let ours :=
    add_pawns ours
      (PawnAttackingMinor * popcount (pawnAttacks ours &&& Boards.minorsT them b)) in
  let ours :=
    add_pawns ours
      (PawnAttackingRook * popcount (pawnAttacks ours &&& Boards.rooksT them b)) in
  let ours :=
    add_pawns ours
      (PawnAttackingQueen * popcount (pawnAttacks ours &&& Boards.queensT them b)) in
  fold_left
    (fun ours square =>
       let passer := fromSquare square in
       let rank := relativeRank us (squareRank square) in
       let promotion := toSquare (relativeRank us 7) (squareFile square) in
       let ours :=
         if empty (Boards.nonPkT them b)
            && (Z.min 5 (chebyshev square promotion)
                + (if Color_eqb us (Pos.toMove pos) then 1 else 0)
                <? chebyshev (Pos.king pos them) promotion)
         then add_pawns ours PasserSquareRule
         else ours in
       if negb (empty (shiftUpRelative us passer &&& Boards.occupancy b))
       then add_pawns ours (idx BlockedPasser rank)
       else ours)
    (squares (passers ours)) ours.

(** [evalKnights<Us>] *)
Definition evalKnights (us : Color) (pos : Position) (ours theirs : EvalData)
  : EvalData :=
  let them := oppColor us in
  let b := Pos.boards pos in
  let knights := Boards.knightsT us b in
  if empty knights then ours
  else
    let ours :=
      add_knights ours
        (MinorBehindPawn
         * popcount (shiftUpRelative us knights &&& Boards.pawnsT us b)) in
    fold_left
      (fun ours square =>
         let knight := fromSquare square in
         let ours :=
           if empty (AntiPasserMasks us square
                     &&& ~~ Files (squareFile square)
                     &&& Boards.pawnsT them b)
              && negb (empty (knight &&& pawnAttacks ours))
           then add_knights ours KnightOutpost
           else ours in
         let attacks := getKnightAttacks t square in
         let ours :=
           add_knights ours
             (MinorAttackingRook * popcount (attacks &&& Boards.rooksT them b)) in
         let ours :=
           add_knights ours
             (MinorAttackingQueen * popcount (attacks &&& Boards.queensT them b)) in
         add_mobility ours
           (idx KnightMobility (popcount (attacks &&& available ours))))
      (squares knights) ours.

(** [evalBishops<Us>] *)
Definition evalBishops (us : Color) (pos : Position) (ours theirs : EvalData)
  : EvalData :=
  let them := oppColor us in
  let b := Pos.boards pos in
  let bishops := Boards.bishopsT us b in
  if empty bishops then ours
  else
    let ours :=
      add_bishops ours
        (MinorBehindPawn
         * popcount (shiftUpRelative us bishops &&& Boards.pawnsT us b)) in
    let ours :=
      if negb (empty (bishops &&& DarkSquares))
         && negb (empty (bishops &&& LightSquares))
      then add_bishops ours BishopPair
      else ours in
    let occupancy := Boards.occupancy b in
    let xrayOcc := occupancy ^^^ Boards.bishopsT us b ^^^ Boards.queensT us b in
    fold_left
      (fun ours square =>
         let attacks := getBishopAttacks t square occupancy in
         let ours :=
           add_bishops ours
             (MinorAttackingRook * popcount (attacks &&& Boards.rooksT them b)) in
         let ours :=
           add_bishops ours
             (MinorAttackingQueen * popcount (attacks &&& Boards.queensT them b)) in
         let mobilityAttacks := getBishopAttacks t square xrayOcc in
         add_mobility ours
           (idx BishopMobility (popcount (mobilityAttacks &&& available ours))))
      (squares bishops) ours.

(** [evalRooks<Us>]; [m_openFiles] is handed in. *)
Definition evalRooks (m_openFiles : Bitboard) (us : Color) (pos : Position)
  (ours theirs : EvalData) : EvalData :=
  let them := oppColor us in
  let b := Pos.boards pos in
  let rooks := Boards.rooksT us b in
  if empty rooks then ours
  else
    let occupancy := Boards.occupancy b in
    let xrayOcc := occupancy ^^^ Boards.rooksT us b ^^^ Boards.queensT us b in
    fold_left
      (fun ours square =>
         let rook := fromSquare square in
         let ours :=
           if negb (empty (rook &&& m_openFiles))
           then add_rooks ours RookOnOpenFile
           else if negb (empty (rook &&& semiOpen ours))
           then add_rooks ours RookOnSemiOpenFile
           else ours in
         let ours :=
           if negb (empty (fillUpRelative us rook &&& passers ours))
           then add_rooks ours RookSupportingPasser
           else ours in
         let attacks := getRookAttacks t square occupancy in
         let ours :=
           add_rooks ours
             (RookAttackingQueen * popcount (attacks &&& Boards.queensT them b)) in
         let mobilityAttacks := getRookAttacks t square xrayOcc in
         add_mobility ours
           (idx RookMobility (popcount (mobilityAttacks &&& available ours))))
      (squares rooks) ours.

(** [evalQueens<Us>] *)
Definition evalQueens (us : Color) (pos : Position) (ours theirs : EvalData)
  : EvalData :=
  let b := Pos.boards pos in
  let queens := Boards.queensT us b in
  if empty queens then ours
  else
    let occupancy := Boards.occupancy b in
    let xrayOcc :=
      occupancy ^^^ Boards.bishopsT us b ^^^ Boards.rooksT us b
      ^^^ Boards.queensT us b in
    fold_left
      (fun ours square =>
         let mobilityAttacks := getQueenAttacks t square xrayOcc in
         add_mobility ours
           (idx QueenMobility (popcount (mobilityAttacks &&& available ours))))
      (squares queens) ours.

(** [evalKing<Us>] *)
Definition evalKing (m_openFiles : Bitboard) (us : Color) (pos : Position)
  (ours theirs : EvalData) : EvalData :=
  let king := Boards.kingsT us (Pos.boards pos) in
  if negb (empty (king &&& m_openFiles)) then add_kings ours KingOnOpenFile
  else if negb (empty (king &&& semiOpen ours)) then add_kings ours KingOnSemiOpenFile
  else ours.

(** [evalHangingAndPinned<Us>] and [evalKingSafety<Us>] are empty in the
    source. *)
Definition evalHangingAndPinned (us : Color) (pos : Position)
  (ours theirs : EvalData) : EvalData := ours.
Definition evalKingSafety (us : Color) (pos : Position)
  (ours theirs : EvalData) : EvalData := ours.

(** Modelled from the spec: the pawn cache class is declared outside the
    modelled sources. Section 4.7: a direct-mapped table of a power-of-two
    size, probed at [pawn_key & mask]; an entry holds the key, the
    white-minus-black structure score and the passers. *)
Record PawnCacheEntry : Type := mkEntry {
  entry_key : Z;
  entry_eval : TaperedScore;
  entry_passers : Bitboard
}.

Definition PawnCacheEntry_empty : PawnCacheEntry := mkEntry 0 ts_zero 0.

Abbreviation PawnCache := (list PawnCacheEntry) (only parsing).

Definition probeIndex (cache : PawnCache) (key : Z) : nat :=
  Z.to_nat (Z.land key (Z.of_nat (length cache) - 1)).

(** [pawnCache->probe(key)], read. *)
Definition probe (cache : PawnCache) (key : Z) : PawnCacheEntry :=
  nth (probeIndex cache key) cache PawnCacheEntry_empty.

Fixpoint replace_nth (l : list PawnCacheEntry) (i : nat) (v : PawnCacheEntry)
  : list PawnCacheEntry :=
  match l, i with
  | [], _ => []
  | _ :: rest, O => v :: rest
  | x :: rest, Datatypes.S k => x :: replace_nth rest k v
  end.

(** Writing through the reference that [probe] returned. *)
Definition store (cache : PawnCache) (key : Z) (e : PawnCacheEntry) : PawnCache :=
  replace_nth cache (probeIndex cache key) e.

Record Evaluator : Type := mkEvaluator {
  m_cachedPawnStructureEval : bool;
  m_blackData : EvalData;
  m_whiteData : EvalData;
  m_openFiles : Bitboard;
  m_total : TaperedScore;
  m_final : Z
}.

(** The constructor [Evaluator::Evaluator(pos, pawnCache)] is modelled in
    the order of its text: the attack, semi-open and available boards; the
    pawn structure, through the cache when there is one; the piece terms; the
    total; the final score. *)

(** The two [EvalData] records and [m_openFiles] before any term is scored. *)
Definition initialData (pos : Position) : EvalData * EvalData * Bitboard :=
  let b := Pos.boards pos in
  let blackPawns := Boards.blackPawns b in
  let whitePawns := Boards.whitePawns b in
  let blackPawnLeftAttacks := shiftDownLeft blackPawns in
  let blackPawnRightAttacks := shiftDownRight blackPawns in
  let blackData :=
    with_pawnAttacks EvalData_zero (blackPawnLeftAttacks ||| blackPawnRightAttacks) in
  let whitePawnLeftAttacks := shiftUpLeft whitePawns in
  let whitePawnRightAttacks := shiftUpRight whitePawns in
  let whiteData :=
    with_pawnAttacks EvalData_zero (whitePawnLeftAttacks ||| whitePawnRightAttacks) in
  let blackData := with_semiOpen blackData (~~ fillFile blackPawns) in
  let whiteData := with_semiOpen whiteData (~~ fillFile whitePawns) in
  let blackData :=
    with_available blackData
      (~~ (Boards.blackOccupancy b ||| pawnAttacks whiteData)) in
  let whiteData :=
    with_available whiteData
      (~~ (Boards.whiteOccupancy b ||| pawnAttacks blackData)) in
  let openFiles := semiOpen blackData &&& semiOpen whiteData in
  (blackData, whiteData, openFiles).

(** [if (pawnCache) { ... } else { ... }]: the pawn structure of both sides,
    from the cache on a hit, computed and stored on a miss, computed without
    a cache. The first component is [m_cachedPawnStructureEval]. *)
Definition pawnStructureStage (pos : Position) (blackData whiteData : EvalData)
  (pawnCache : option PawnCache)
  : bool * EvalData * EvalData * option PawnCache :=
  let b := Pos.boards pos in
  match pawnCache with
  | Some cache =>
      let cacheEntry := probe cache (Pos.pawnKey pos) in
      if entry_key cacheEntry =? Pos.pawnKey pos then
        let whiteData := with_pawnStructure whiteData (entry_eval cacheEntry) in
        let blackData :=
          with_passers blackData
            (entry_passers cacheEntry &&& Boards.blackOccupancy b) in
        let whiteData :=
          with_passers whiteData
            (entry_passers cacheEntry &&& Boards.whiteOccupancy b) in
        (true, blackData, whiteData, Some cache)
      else
        let blackData := evalPawnStructure Black pos blackData whiteData in
        let whiteData := evalPawnStructure White pos whiteData blackData in
        let cacheEntry :=
          mkEntry (Pos.pawnKey pos)
                  (pawnStructure whiteData - pawnStructure blackData)
                  (passers blackData ||| passers whiteData) in
        (false, blackData, whiteData,
         Some (store cache (Pos.pawnKey pos) cacheEntry))
  | None =>
      let blackData := evalPawnStructure Black pos blackData whiteData in
      let whiteData := evalPawnStructure White pos whiteData blackData in
      (false, blackData, whiteData, None)
  end.

(** The calls from [evalPawns<Color::Black>] to [evalKingSafety<Color::White>]. *)
Definition pieceStage (pos : Position) (openFiles : Bitboard)
  (blackData whiteData : EvalData) : EvalData * EvalData :=
  let blackData := evalPawns Black pos blackData whiteData in
  let whiteData := evalPawns White pos whiteData blackData in
  let blackData := evalKnights Black pos blackData whiteData in
  let whiteData := evalKnights White pos whiteData blackData in
  let blackData := evalBishops Black pos blackData whiteData in
  let whiteData := evalBishops White pos whiteData blackData in
  let blackData := evalRooks openFiles Black pos blackData whiteData in
  let whiteData := evalRooks openFiles White pos whiteData blackData in
  let blackData := evalQueens Black pos blackData whiteData in
  let whiteData := evalQueens White pos whiteData blackData in
  let blackData := evalKing openFiles Black pos blackData whiteData in
  let whiteData := evalKing openFiles White pos whiteData blackData in
  let blackData := evalHangingAndPinned Black pos blackData whiteData in
  let whiteData := evalHangingAndPinned White pos whiteData blackData in
  let blackData := evalKingSafety Black pos blackData whiteData in
  let whiteData := evalKingSafety White pos whiteData blackData in
  (blackData, whiteData).

(** [m_total]: the material and the white-minus-black terms. *)
Definition totalOf (pos : Position) (blackData whiteData : EvalData)
  : TaperedScore :=
  let total := Pos.material pos in
  let total := total + (pawnStructure whiteData - pawnStructure blackData) in
  let total := total + (pawns whiteData - pawns blackData) in
  let total := total + (knights whiteData - knights blackData) in
  let total := total + (bishops whiteData - bishops blackData) in
  let total := total + (rooks whiteData - rooks blackData) in
  let total := total + (queens whiteData - queens blackData) in
  let total := total + (kings whiteData - kings blackData) in
  let total := total + (mobility whiteData - mobility blackData) in
  let total := total + (hanging whiteData - hanging blackData) in
  let total := total + (pinned whiteData - pinned blackData) in
  total + (kingSafety whiteData - kingSafety blackData).

(** [m_final]: interpolation, halfmove scaling, likely-draw scaling. *)
Definition finalOf (pos : Position) (total : TaperedScore) : Z :=
  let final := Pos.interpScore pos total in
  let final := (i32 (final * i32 (200 - Pos.halfmove pos)) ÷ 200)%Z in
  if Pos.isLikelyDrawn pos then (final ÷ 8)%Z else final.

Definition evaluate (pos : Position) (pawnCache : option PawnCache)
  : Evaluator * option PawnCache :=
  let '(blackData, whiteData, openFiles) := initialData pos in
  let '(cached, blackData, whiteData, pawnCache) :=
    pawnStructureStage pos blackData whiteData pawnCache in
  let '(blackData, whiteData) := pieceStage pos openFiles blackData whiteData in
  let total := totalOf pos blackData whiteData in
  (mkEvaluator cached blackData whiteData openFiles total (finalOf pos total),
   pawnCache).

(** What a miss computes and stores: the pawn structure of both sides on
    fresh records, and the cache entry made of it. *)
Definition structureOf (pos : Position) : EvalData * EvalData :=
  let '(blackData, whiteData, _) := initialData pos in
  let blackData := evalPawnStructure Black pos blackData whiteData in
  let whiteData := evalPawnStructure White pos whiteData blackData in
  (blackData, whiteData).

Definition computedEntry (pos : Position) : PawnCacheEntry :=
  let '(blackData, whiteData) := structureOf pos in
  mkEntry (Pos.pawnKey pos)
          (pawnStructure whiteData - pawnStructure blackData)
          (passers blackData ||| passers whiteData).

(** [Score staticEval(pos, pawnCache)]; [Tempo] is defined in eval.h. *)
Definition staticEval (Tempo : Z) (pos : Position) (pawnCache : option PawnCache)
  : Z * option PawnCache :=
  let '(ev, pawnCache) := evaluate pos pawnCache in
  (i32 (i32 (m_final ev
             * (match Pos.toMove pos with Black => -1 | White => 1 end))
        + Tempo)%Z,
   pawnCache).

End WithTables.

End Evaluation.

(** ** Concrete tables

    Modelled from the spec: attacks/attacks.h and rays.h are absent from the
    sources. Section 4.1 fixes what the tables hold (knight, king and pawn
    attack sets; slider attacks over an occupancy; the squares strictly
    between two aligned squares), not how they are indexed; they are computed
    here by walking the board. The example positions are run on them. *)

Module ModelTables.

Definition knightAttacks (s : Square) : Bitboard :=
  let b := fromSquare s in
  shiftUp (shiftUpLeft b) ||| shiftUp (shiftUpRight b)
  ||| shiftLeft (shiftUpLeft b) ||| shiftRight (shiftUpRight b)
  ||| shiftDown (shiftDownLeft b) ||| shiftDown (shiftDownRight b)
  ||| shiftLeft (shiftDownLeft b) ||| shiftRight (shiftDownRight b).

Definition kingAttacks (s : Square) : Bitboard :=
  let b := fromSquare s in
  shiftUp b ||| shiftDown b ||| shiftLeft b ||| shiftRight b
  ||| shiftUpLeft b ||| shiftUpRight b ||| shiftDownLeft b ||| shiftDownRight b.

(** The squares a pawn of colour [c] on [s] attacks. *)
Definition pawnAttacks (s : Square) (c : Color) : Bitboard :=
  let b := fromSquare s in
  shiftUpLeftRelative c b ||| shiftUpRightRelative c b.

(** Walk from [b] in one direction; the first occupied square is attacked and
    stops the walk. *)
Fixpoint slide (step : Bitboard -> Bitboard) (n : nat) (b occ : Bitboard)
  : Bitboard :=
  match n with
  | O => 0
  | S k =>
      let nb := step b in
      if empty nb then 0
      else if negb (empty (nb &&& occ)) then nb
      else nb ||| slide step k nb occ
  end.

Definition rookAttacks (s : Square) (occ : Bitboard) : Bitboard :=
  let b := fromSquare s in
  slide shiftUp 7 b occ ||| slide shiftDown 7 b occ
  ||| slide shiftLeft 7 b occ ||| slide shiftRight 7 b occ.

Definition bishopAttacks (s : Square) (occ : Bitboard) : Bitboard :=
  let b := fromSquare s in
  slide shiftUpLeft 7 b occ ||| slide shiftUpRight 7 b occ
  ||| slide shiftDownLeft 7 b occ ||| slide shiftDownRight 7 b occ.

(** Walk from [cur] towards [target]; the squares passed on the way. *)
Fixpoint between (step : Bitboard -> Bitboard) (n : nat)
  (cur target acc : Bitboard) : option Bitboard :=
  match n with
  | O => None
  | S k =>
      let nb := step cur in
      if empty nb then None
      else if nb =? target then Some acc
      else between step k nb target (acc ||| nb)
  end.

Definition ray (a b : Square) : Bitboard :=
  let from := fromSquare a in
  let to := fromSquare b in
  let try step := between step 7 from to 0 in
  match
    filter (fun o => match o with Some _ => true | None => false end)
      (map try [shiftUp; shiftDown; shiftLeft; shiftRight;
                shiftUpLeft; shiftUpRight; shiftDownLeft; shiftDownRight])
  with
  | Some r :: _ => r
  | _ => 0
  end.

Definition tables : AttackTables :=
  mkAttackTables knightAttacks kingAttacks pawnAttacks rookAttacks
    bishopAttacks ray.

End ModelTables.

Definition standardOptions : GlobalOptions := mkOptions false false.

(** ** Well-formed boards

    The invariants of [PositionBoards] (section 3 of the specification), as a
    check that can be run: every board fits 64 bits, the two colours do not
    overlap, the piece boards do not overlap, and a square is occupied by a
    colour exactly when it carries a piece. *)

Definition in_u64 (b : Z) : bool := (0 <=? b) && (b <? 2 ^ 64).

Definition disjoint_from (b : PositionBoards) (p : BasePiece) : bool :=
  forallb (fun q => BasePiece_eqb p q || (m_boards b p &&& m_boards b q =? 0))
          allBasePieces.

Definition wf_boardsb (b : PositionBoards) : bool :=
  in_u64 (m_colors b Black) && in_u64 (m_colors b White)
  && forallb (fun p => in_u64 (m_boards b p)) allBasePieces
  && (m_colors b Black &&& m_colors b White =? 0)
  && forallb (disjoint_from b) allBasePieces
  && (fold_right (fun p acc => m_boards b p ||| acc) 0 allBasePieces
      =? Boards.occupancy b).

(** ** Material signatures

    The number of pieces of one kind and colour, and the material
    configurations that [isDrawn] names in its comments. *)

Definition pieceCount (b : PositionBoards) (c : Color) (p : BasePiece) : Z :=
  popcount (Boards.forPieceOf b p c).

(** Colour [c] has nothing but its king. *)
Definition bareKing (b : PositionBoards) (c : Color) : Prop :=
  pieceCount b c Pawn = 0 /\ pieceCount b c Knight = 0
  /\ pieceCount b c Bishop = 0 /\ pieceCount b c Rook = 0
  /\ pieceCount b c Queen = 0.

(** Colour [c] has its king and one knight or one bishop. *)
Definition loneMinor (b : PositionBoards) (c : Color) : Prop :=
  pieceCount b c Pawn = 0 /\ pieceCount b c Rook = 0
  /\ pieceCount b c Queen = 0
  /\ pieceCount b c Knight + pieceCount b c Bishop = 1.

(** Colour [c] has its king and one bishop. *)
Definition loneBishop (b : PositionBoards) (c : Color) : Prop :=
  pieceCount b c Pawn = 0 /\ pieceCount b c Knight = 0
  /\ pieceCount b c Rook = 0 /\ pieceCount b c Queen = 0
  /\ pieceCount b c Bishop = 1.

(** a1 is dark; a square is light when rank and file add up to an odd number. *)
Definition isLightSquare (s : Square) : bool :=
  Z.odd (squareRank s + squareFile s).

Definition material_KK (b : PositionBoards) : Prop :=
  bareKing b White /\ bareKing b Black.

Definition material_KNK_KBK (b : PositionBoards) : Prop :=
  (loneMinor b White /\ bareKing b Black)
  \/ (loneMinor b Black /\ bareKing b White).

Definition material_KBKB_opposite (b : PositionBoards) : Prop :=
  loneBishop b White /\ loneBishop b Black
  /\ exists sw sb,
      In sw (squares (Boards.whiteBishops b))
      /\ In sb (squares (Boards.blackBishops b))
      /\ isLightSquare sw <> isLightSquare sb.

(** How often a key occurs among the recorded keys. *)
Definition occurrences (k : Z) (hs : list Z) : Z :=
  Z.of_nat (count_occ Z.eq_dec hs k).

(** ** Building positions

    [PositionBoards::setPiece] toggles the square in the piece board and in the
    colour board; example positions are set up with it, square by square. *)

Definition Color_eq_dec (a b : Color) : {a = b} + {a <> b}.
Proof. decide equality. Defined.

Definition BasePiece_eq_dec (a b : BasePiece) : {a = b} + {a <> b}.
Proof. decide equality. Defined.

Definition setPiece (b : PositionBoards) (s : Square) (p : BasePiece) (c : Color)
  : PositionBoards :=
  let mask := fromSquare s in
  mkBoards
    (fun c' => if Color_eq_dec c' c then m_colors b c' ^^^ mask else m_colors b c')
    (fun p' => if BasePiece_eq_dec p' p then m_boards b p' ^^^ mask else m_boards b p').

Definition emptyBoards : PositionBoards := mkBoards (fun _ => 0) (fun _ => 0).

Definition setup (pieces : list (Square * BasePiece * Color)) : PositionBoards :=
  fold_left (fun b '(s, p, c) => setPiece b s p c) pieces emptyBoards.

(** Square names. *)
Definition sq (file rank : Z) : Square := toSquare (rank - 1) file.
Definition fa := 0.
Definition fb := 1.
Definition fc := 2.
Definition fd := 3.
Definition fe := 4.
Definition ff := 5.
Definition fg := 6.
Definition fh := 7.

Definition noCastling : CastlingRooks :=
  mkCastlingRooks Square_None Square_None Square_None Square_None.

(** A board state around given boards: the king squares are read off the
    boards, material and phase are supplied by the caller. *)
Definition stateOf (b : PositionBoards) (chk : Bitboard) (ep : Square)
  (hm : Z) (k pk : Z) (cr : CastlingRooks) (mat : TaperedScore) (ph : Z)
  : BoardState :=
  mkBoardState b k pk mat chk ph cr NullMove hm Piece_None ep
    (fun c => lowestSquare (Boards.forPieceOf b King c)).

(** King and bishop each, the bishops on c1 (dark) and c8 (light); no earlier
    keys, clock at 0, white to move. *)
Definition kbkb_boards : PositionBoards :=
  setup [(sq fe 1, King, White); (sq fc 1, Bishop, White);
         (sq fe 8, King, Black); (sq fc 8, Bishop, Black)].

Definition kbkb_position : Position :=
  mkPosition false 1
    [stateOf kbkb_boards 0 Square_None 0 0x1234 0x77 noCastling ts_zero 2] [].

(** Scenario 4 of the specification: [8/8/8/8/8/k7/p7/K7 w - - 0 1]. *)
Definition kpk_boards : PositionBoards :=
  setup [(sq fa 1, King, White); (sq fa 3, King, Black); (sq fa 2, Pawn, Black)].

Definition kpk_position : Position :=
  mkPosition false 1
    [stateOf kpk_boards 0 Square_None 0 0x5678 0x99 noCastling ts_zero 0] [].

(** A one-state position around given boards, with the checkers computed by
    [calcCheckers] over the concrete tables. *)
Definition positionOf (b : PositionBoards) (blackToMove : bool) (ep : Square)
  (cr : CastlingRooks) (hm : Z) (hashes : list Z) : Position :=
  let st := stateOf b 0 ep hm 0 0 cr ts_zero 0 in
  let pos0 := mkPosition blackToMove 1 [st] hashes in
  let chk := calcCheckers ModelTables.tables pos0 in
  mkPosition blackToMove 1 [stateOf b chk ep hm 0 0 cr ts_zero 0] hashes.

(** White: Ka1, Pb7. Black: Ra8, Nc8, Kg7. White to move, checked by the rook
    on a8 along the a-file. *)
Definition rookCheck_boards : PositionBoards :=
  setup [(sq fa 1, King, White); (sq fb 7, Pawn, White);
         (sq fa 8, Rook, Black); (sq fc 8, Knight, Black);
         (sq fg 7, King, Black)].

Definition rookCheck_position : Position :=
  positionOf rookCheck_boards false Square_None noCastling 0 [].

(** White: Ka1, Ng1, Pb7. Black: Ra8, Bh8, Ke8. White to move, checked twice:
    by the rook along the a-file and by the bishop along the long diagonal. *)
Definition doubleCheck_boards : PositionBoards :=
  setup [(sq fa 1, King, White); (sq fg 1, Knight, White);
         (sq fb 7, Pawn, White);
         (sq fa 8, Rook, Black); (sq fh 8, Bishop, Black);
         (sq fe 8, King, Black)].

Definition doubleCheck_position : Position :=
  positionOf doubleCheck_boards false Square_None noCastling 0 [].

(** ** Concrete collaborators for the examples

    Modelled from the spec: see.h, eval/material.h and position.cpp are absent
    from the sources. The examples run the staged generator with a static
    exchange evaluation after section 4.4 (captures on the destination square
    by the least valuable attacker in turn, each side free to stop), with
    [isPseudolegal] accepting the moves the generators produce for the
    position (section 8), and with sample midgame values in the usual order. *)

Module ModelCollaborators.

Definition baseValue (p : BasePiece) : Z :=
  match p with
  | Pawn => 100 | Knight => 320 | Bishop => 330
  | Rook => 500 | Queen => 900 | King => 0
  end.

Definition pieceValue (p : Piece) : TaperedScore :=
  match p with
  | Piece_None => ts_zero
  | colorPiece bp _ => S_ (baseValue bp) (baseValue bp)
  end.

(** In an exchange the king counts as beyond price. *)
Definition exchangeValue (p : BasePiece) : Z :=
  match p with King => 100000 | _ => baseValue p end.

Definition leastValuableAttacker (b : PositionBoards) (attackers : Bitboard)
  (side : Color) : option (BasePiece * Square) :=
  match
    filter (fun p => negb (empty (Boards.forPieceOf b p side &&& attackers)))
      allBasePieces
  with
  | p :: _ => Some (p, lowestSquare (Boards.forPieceOf b p side &&& attackers))
  | [] => None
  end.

(** The best the side to move can win on [square], where a piece worth
    [prize] stands: capture with the least valuable attacker and face the
    reply, or leave it. *)
Fixpoint exchange (fuel : nat) (pos : Position) (square : Square)
  (occ : Bitboard) (side : Color) (prize : Z) : Z :=
  match fuel with
  | O => 0
  | S k =>
      let attackers := allAttackersTo ModelTables.tables pos square occ &&& occ in
      match leastValuableAttacker (Pos.boards pos) attackers side with
      | None => 0
      | Some (p, s) =>
          Z.max 0 (prize - exchange k pos square (occ &&& ~~ fromSquare s)
                             (oppColor side) (exchangeValue p))
      end
  end.

Definition see (pos : Position) (m : Move) : bool :=
  let b := Pos.boards pos in
  let victim :=
    if MoveType_eqb (type m) EnPassant then baseValue Pawn
    else midgame (pieceValue (Boards.pieceAt b (dst m))) in
  let mover :=
    match Boards.pieceAt b (src m) with
    | colorPiece p _ => exchangeValue p
    | Piece_None => 0
    end in
  let occ := Boards.occupancy b &&& ~~ fromSquare (src m) in
  0 <=? victim - exchange 32 pos (dst m) occ (Pos.opponent pos) mover.

Definition isPseudolegal (pos : Position) (m : Move) : bool :=
  existsb (fun sm => Move_eqb (move sm) m)
          (generateAll ModelTables.tables standardOptions [] pos).

Definition collaborators : Collaborators :=
  mkCollaborators see isPseudolegal pieceValue (S_ (baseValue Pawn) (baseValue Pawn)).

End ModelCollaborators.

(** White: Ke1, Nf3. Black: Kg8, pawn e5, undefended. White to move; black's
    last move brought the king to g8. *)
Definition knightFork_boards : PositionBoards :=
  setup [(sq fe 1, King, White); (sq ff 3, Knight, White);
         (sq fg 8, King, Black); (sq fe 5, Pawn, Black)].

Definition knightFork_position : Position :=
  positionOf knightFork_boards false Square_None noCastling 1 [].

Definition kingToG8 : HistoryMove := mkHistoryMove (colorPiece King Black) (sq fg 8).

(** A history whose countermove to "king to g8" is the knight move f3-e5,
    stored when e5 was empty; all scores are zero. *)
Definition knightFork_history : HistoryTable :=
  mkHistoryTable (fun _ => 0)
    (fun h => if Piece_eqb (hm_moving h) (colorPiece King Black)
                 && (hm_dst h =? sq fg 8)
              then Move_standard (sq ff 3) (sq fe 5) else NullMove)
    (fun _ _ => 0).

(** White: Ke1, Qd1, Nf3. Black: Kg8, pawns d5, e5, e6. White to move: the
    queen can take the pawn on d5, which the pawn on e6 defends; the knight
    can take the pawn on e5, which nothing defends. *)
Definition exchange_boards : PositionBoards :=
  setup [(sq fe 1, King, White); (sq fd 1, Queen, White);
         (sq ff 3, Knight, White);
         (sq fg 8, King, Black); (sq fd 5, Pawn, Black);
         (sq fe 5, Pawn, Black); (sq fe 6, Pawn, Black)].

Definition exchange_position : Position :=
  positionOf exchange_boards false Square_None noCastling 0 [].

(** The total reached from two records entering the piece stage. *)
Definition stageTotal (t : AttackTables) (pos : Position) (openFiles : Bitboard)
  (bd wd : Evaluation.EvalData) : TaperedScore :=
  Evaluation.totalOf pos
    (fst (Evaluation.pieceStage t pos openFiles bd wd))
    (snd (Evaluation.pieceStage t pos openFiles bd wd)).

(** A pawn cache of four entries, empty, and the same cache after the pawn
    structure of [kpk_position] has been stored under its pawn key 0x99. *)
Definition kpk_coldCache : list Evaluation.PawnCacheEntry :=
  repeat Evaluation.PawnCacheEntry_empty 4.

Definition kpk_warmCache : list Evaluation.PawnCacheEntry :=
  [Evaluation.PawnCacheEntry_empty;
   Evaluation.mkEntry 0x99 (S_ (-37) (-145)) 0x100;
   Evaluation.PawnCacheEntry_empty;
   Evaluation.PawnCacheEntry_empty].

(** ** uci.cpp: the win-rate model

    [f64] is IEEE binary64: [spec_float] with a mantissa of 53 bits and the
    infinities at exponent 1024; every operation rounds to nearest, ties to
    even. *)
Module uci.

Abbreviation f64 := spec_float (only parsing).

Definition f64_add : f64 -> f64 -> f64 := SFadd 53 1024.

Definition f64_sub : f64 -> f64 -> f64 := SFsub 53 1024.

Definition f64_mul : f64 -> f64 -> f64 := SFmul 53 1024.

Definition f64_div : f64 -> f64 -> f64 := SFdiv 53 1024.

(** [static_cast<f64>] of an integer, also an integer literal such as
    [240.0]. *)
Definition f64_of_int (z : Z) : f64 := binary_normalize 53 1024 z 0 false.

(** The decimal literal [digits * 10^-scale]. Both [digits] and [10^scale]
    are below [2^53], so binary64 holds them exactly and their correctly
    rounded quotient is the double nearest to the literal. *)
Definition f64_literal (digits scale : Z) : f64 :=
  f64_div (f64_of_int digits) (f64_of_int (10 ^ scale)).

(** [std::min(a, b)] is [(b < a) ? b : a]. *)
Definition std_min (a b : f64) : f64 := if SFltb b a then b else a.

(** [std::clamp(v, lo, hi)] is [(v < lo) ? lo : (hi < v) ? hi : v]. *)
Definition std_clamp (v lo hi : f64) : f64 :=
  if SFltb v lo then lo else if SFltb hi v then hi else v.

(** [static_cast<i32>] of a double: truncation toward zero, undefined when
    the truncated value is not an [i32]. *)
Definition static_cast_i32 (x : f64) : option Z :=
  match x with
  | S754_zero _ => Some 0
  | S754_finite s m e =>
      let magnitude :=
        if 0 <=? e then Z.shiftl (Zpos m) e else Z.shiftr (Zpos m) (- e) in
      let v := if s then - magnitude else magnitude in
      if (- 2 ^ 31 <=? v) && (v <? 2 ^ 31) then Some v else None
  | _ => None
  end.

(** [std::reduce(first, last)]: the sum of the elements from [0.0], here
    taken from left to right. *)
Definition std_reduce (l : list f64) : f64 :=
  fold_left f64_add l (S754_zero false).

Definition As : list f64 :=
  [f64_literal (-1647359643) 8; f64_literal 12509292680 8;
   f64_literal (-15078265049) 8; f64_literal 13346169058 8].

Definition Bs : list f64 :=
  [f64_literal (-1064392182) 8; f64_literal 6880469735 8;
   f64_literal (-9863536151) 8; f64_literal 10012391368 8].

(** [static_assert(uci::NormalizationK == static_cast<i32>(std::reduce(As.begin(), As.end())))].
    The constant is declared in uci.h; the assertion is the condition under
    which uci.cpp compiles. *)
Definition static_assert_NormalizationK (NormalizationK : Z) : bool :=
  match static_cast_i32 (std_reduce As) with
  | Some sum => NormalizationK =? sum
  | None => false
  end.

(** [const auto m = std::min(240.0, static_cast<f64>(ply)) / 64.0] *)
Definition winRateModel_m (ply : Z) : f64 :=
  f64_div (std_min (f64_of_int 240) (f64_of_int ply)) (f64_of_int 64).

(** [(((Cs[0] * m + Cs[1]) * m + Cs[2]) * m) + Cs[3]] *)
Definition cubic (Cs : list f64) (m : f64) : f64 :=
  let c i := nth i Cs S754_nan in
  f64_add (f64_mul (f64_add (f64_mul (f64_add (f64_mul (c 0%nat) m) (c 1%nat)) m)
                      (c 2%nat)) m)
          (c 3%nat).

(** [i32 winRateModel(Score povScore, u32 ply)], over the [std::exp] of the
    platform. *)
Definition winRateModel (std_exp : f64 -> f64) (povScore ply : Z) : option Z :=
  let m := winRateModel_m ply in
  let a := cubic As m in
  let b := cubic Bs m in
  let x := std_clamp (f64_of_int povScore) (f64_of_int (-4000)) (f64_of_int 4000) in
  static_cast_i32
    (f64_add (f64_literal 5 1)
       (f64_div (f64_of_int 1000)
          (f64_add (f64_of_int 1) (std_exp (f64_div (f64_sub a x) b))))).

(** The rational a finite double stands for, as a numerator and a positive
    denominator. *)
Definition f64_fraction (x : f64) : option (Z * Z) :=
  match x with
  | S754_zero _ => Some (0, 1)
  | S754_finite s m e =>
      let n := if s then Zneg m else Zpos m in
      Some (if 0 <=? e then (n * 2 ^ e, 1) else (n, 2 ^ (- e)))
  | _ => None
  end.

(** [x] is exactly [num / den]. *)
Definition f64_is (x : f64) (num den : Z) : bool :=
  match f64_fraction x with
  | Some (n, d) => n * den =? num * d
  | None => false
  end.

End uci.

(** ** position/boards.h, continued: the other updates

    Like [setPiece] above, the updates take the base piece [p] and the colour
    [c] of the piece [colorPiece p c] they are called with. *)

(** [movePiece(src, dst, piece)] *)
Definition movePiece (b : PositionBoards) (src dst : Square) (p : BasePiece)
  (c : Color) : PositionBoards :=
  let mask := fromSquare src ||| fromSquare dst in
  mkBoards
    (fun c' => if Color_eq_dec c' c then m_colors b c' ^^^ mask else m_colors b c')
    (fun p' => if BasePiece_eq_dec p' p then m_boards b p' ^^^ mask else m_boards b p').

(** [moveAndChangePiece(src, dst, moving, target)]: the bit of [src] is
    cleared in the board of the moving piece, then the bit of [dst] is set in
    the board of [target]. *)
Definition moveAndChangePiece (b : PositionBoards) (src dst : Square)
  (p : BasePiece) (c : Color) (target : BasePiece) : PositionBoards :=
  let cleared p' :=
    if BasePiece_eq_dec p' p then Z.ldiff (m_boards b p') (fromSquare src)
    else m_boards b p' in
  let mask := fromSquare src ||| fromSquare dst in
  mkBoards
    (fun c' => if Color_eq_dec c' c then m_colors b c' ^^^ mask else m_colors b c')
    (fun p' => if BasePiece_eq_dec p' target then cleared p' ||| fromSquare dst
               else cleared p').

(** [removePiece(square, piece)] *)
Definition removePiece (b : PositionBoards) (s : Square) (p : BasePiece)
  (c : Color) : PositionBoards :=
  mkBoards
    (fun c' => if Color_eq_dec c' c then Z.ldiff (m_colors b c') (fromSquare s)
               else m_colors b c')
    (fun p' => if BasePiece_eq_dec p' p then Z.ldiff (m_boards b p') (fromSquare s)
               else m_boards b p').

(** Two boards with the same bitboards. *)
Definition sameBoards (a b : PositionBoards) : Prop :=
  (forall c, m_colors a c = m_colors b c)
  /\ (forall p, m_boards a p = m_boards b p).

(** ** Specification-level definitions

    The forms in which the properties below are stated: the lists of moves a
    generator appends, the shapes of check evasions, the score of a noisy
    move, and the part of an evaluation record the pawn structure leaves
    alone. *)

(** Every product the rejection loop can return is one of those above. *)
Definition hi_product (bound m : Z) : Prop :=
  exists x, 0 <= x < 2 ^ 32 /\ m = u64 (x * bound).

Definition scored (m : Move) : ScoredMove := mkScored m 0.

(** The moves of one piece standing on [s] to the squares of [b]. *)
Definition standardsFrom (s : Square) (b : Bitboard) : list ScoredMove :=
  flat_map (fun d => [scored (Move_standard s d)]) (squares b).

(** The moves arriving on the squares of [b] by a step of [offset]. *)
Definition standardsBy (offset : Z) (b : Bitboard) : list ScoredMove :=
  flat_map (fun d => [scored (Move_standard (d - offset) d)]) (squares b).

Definition queenPromotionsBy (offset : Z) (b : Bitboard) : list ScoredMove :=
  flat_map (fun d => [scored (Move_promotion (d - offset) d Queen)]) (squares b).

Definition enPassantsBy (offset : Z) (b : Bitboard) : list ScoredMove :=
  flat_map (fun d => [scored (Move_enPassant (d - offset) d)]) (squares b).

Definition underpromotionsBy (o : GlobalOptions) (offset : Z) (b : Bitboard)
  : list ScoredMove :=
  flat_map (fun d =>
              scored (Move_promotion (d - offset) d Knight)
              :: (if underpromotions o
                  then [scored (Move_promotion (d - offset) d Rook);
                        scored (Move_promotion (d - offset) d Bishop)]
                  else []))
           (squares b).

(** The moves of the pieces on [pieces] according to an attack table. *)
Definition tableMoves (Attacks : Square -> Bitboard) (pieces dstMask : Bitboard)
  : list ScoredMove :=
  flat_map (fun s => standardsFrom s (Attacks s &&& dstMask)) (squares pieces).

(** The rook-like and the bishop-like moves of the side to move; queens take
    part in both. *)
Definition sliderMoves (t : AttackTables) (pos : Position) (dstMask : Bitboard)
  : list ScoredMove :=
  let b := Pos.boards pos in
  let us := Pos.toMove pos in
  let occupancy := Boards.forColor b us ||| Boards.forColor b (oppColor us) in
  let queens := Boards.queensOf b us in
  tableMoves (fun s => getRookAttacks t s occupancy)
             (queens ||| Boards.rooksOf b us) dstMask
  ++ tableMoves (fun s => getBishopAttacks t s occupancy)
                (queens ||| Boards.bishopsOf b us) dstMask.

(** The king table moves of the side to move onto the squares of [dstMask]. *)
Definition kingMoves (t : AttackTables) (pos : Position) (dstMask : Bitboard)
  : list ScoredMove :=
  tableMoves (KingAttacks t)
    (Boards.forPieceOf (Pos.boards pos) King (Pos.toMove pos)) dstMask.



Section EvasionForms.

Variable t : AttackTables.
Variable pos : Position.

Let b := Pos.boards pos.
Let us := Pos.toMove pos.
Let K := Pos.king pos us.
Let chk := Pos.checkers pos.
Let ours := Boards.forColor b us.
Let theirs := Boards.forColor b (oppColor us).
Let ray := rayBetween t K (lowestSquare chk).




End EvasionForms.


(** The score of a noisy move in the words of the specification: the victim's
    midgame value (a pawn for en passant) against the attacker's, a bias for
    promotions, a penalty for captures that lose the exchange. *)
Definition victimValue (c : Collaborators) (pos : Position) (m : Move) : Z :=
  match type m with
  | EnPassant => midgame (values_Pawn c)
  | _ => midgame (pieceValue c (Boards.pieceAt (Pos.boards pos) (dst m)))
  end.

Definition attackerValue (c : Collaborators) (pos : Position) (m : Move) : Z :=
  midgame (pieceValue c (Boards.pieceAt (Pos.boards pos) (src m))).

(** The promotion bias: queen, knight, rook, bishop in falling order. *)
Definition promoScore (target : BasePiece) : Z :=
  match target with
  | Queen => 2 | Knight => 1 | Rook => -1 | Bishop => -2
  | Pawn | King => 0
  end.

Definition promoBias (m : Move) : Z :=
  match type m with
  | Promotion => nth (Z.to_nat (targetIdx m)) PromoScores 0
  | _ => 0
  end.

(** The capture has a victim and the exchange evaluation calls it losing. *)
Definition losingCapture (c : Collaborators) (pos : Position) (m : Move) : bool :=
  (0 <? victimValue c pos m) && negb (see c pos m).

Definition noisyScore (c : Collaborators) (pos : Position) (m : Move) : Z :=
  (victimValue c pos m - attackerValue c pos m) * 2000 + victimValue c pos m
  + promoBias m * 2000 * 2000
  - (if losingCapture c pos m then 8 * 2000 * 2000 else 0).

Definition scoreDescending : ScoredMove -> ScoredMove -> Prop :=
  fun a b => score b <= score a.

(** What [evalPawnStructure] leaves alone: everything but [pawnStructure]
    and [passers]. *)
Definition frame (d : Evaluation.EvalData) : Evaluation.EvalData :=
  Evaluation.with_passers (Evaluation.with_pawnStructure d ts_zero) 0.

(** The material for which [isLikelyDrawn] answers yes, by its comments:
    no pawns, rooks or queens, and one side bare against at most two
    knights, or at most one minor piece each, or bishops only with at most
    two against at most one. *)
Definition material_likelyDrawn (b : PositionBoards) : Prop :=
  let cnt := pieceCount b in
  (forall c, cnt c Pawn = 0 /\ cnt c Rook = 0 /\ cnt c Queen = 0)
  /\ ((cnt Black Knight + cnt Black Bishop = 0
       /\ cnt White Bishop = 0 /\ cnt White Knight <= 2)
      \/ (cnt White Knight + cnt White Bishop = 0
          /\ cnt Black Bishop = 0 /\ cnt Black Knight <= 2)
      \/ (cnt White Knight + cnt White Bishop <= 1
          /\ cnt Black Knight + cnt Black Bishop <= 1)
      \/ (cnt White Knight = 0 /\ cnt Black Knight = 0
          /\ ((cnt White Bishop <= 2 /\ cnt Black Bishop <= 1)
              \/ (cnt Black Bishop <= 2 /\ cnt White Bishop <= 1)))).

(** The bits of one square in the two colour boards and the six piece
    boards, and what well-formed boards require of them: not both colours,
    at most one piece, a piece exactly under a colour. *)
Definition bitsAt (b : PositionBoards) (i : Z) : list bool * list bool :=
  (map (fun c => Z.testbit (m_colors b c) i) [Black; White],
   map (fun p => Z.testbit (m_boards b p) i) allBasePieces).

Definition countTrue (l : list bool) : nat := length (filter (fun x => x) l).

Definition okBits (bits : list bool * list bool) : bool :=
  let '(colours, pieces) := bits in
  (countTrue colours <=? 1)%nat && (countTrue pieces <=? 1)%nat
  && Nat.eqb (countTrue colours) (countTrue pieces).

(** What the generators rely on outside check: the colour boards fit 64
    bits and do not overlap, and an en-passant square, when set, is vacant
    and not on the promotion rank of the side to move. *)
Definition generatorInvariant (pos : Position) : bool :=
  let b := Pos.boards pos in
  let us := Pos.toMove pos in
  let ep := Pos.enPassant pos in
  in_u64 (m_colors b Black) && in_u64 (m_colors b White)
  && (m_colors b Black &&& m_colors b White =? 0)
  && ((ep =? Square_None)
      || ((0 <=? ep)
          && negb (Z.testbit (Boards.occupancy b) ep)
          && negb (Z.testbit (promotionRank us) ep))).

(** The castling moves of [generateKings<true>]; they do not depend on the
    destination mask. *)
Definition castlingMoves (t : AttackTables) (o : GlobalOptions) (pos : Position)
  : list ScoredMove :=
  generateKings t o true [] pos 0.

(** Modelled from the spec: move.h is absent. The promotion target is kept
    as an index counted from the knight, the order of [PromoScores] in
    movegen.h; [target()] reads it back. *)
Definition Move_target (m : Move) : BasePiece :=
  nth (Z.to_nat (targetIdx m)) [Knight; Bishop; Rook; Queen] Knight.

(** position/position.h, continued: queries about a move. *)
Module PosMove.

(** [lastMove()] *)
Definition lastMove (pos : Position) : Move :=
  match m_states pos with
  | [] => NullMove
  | _ => lastMove (Pos.currState pos)
  end.

(** [captureTarget(move)] *)
Definition captureTarget (pos : Position) (m : Move) : Piece :=
  match type m with
  | Castling => Piece_None
  | EnPassant => flipPieceColor (Boards.pieceAt (Pos.boards pos) (src m))
  | _ => Boards.pieceAt (Pos.boards pos) (dst m)
  end.

(** [isNoisy(move)] *)
Definition isNoisy (pos : Position) (m : Move) : bool :=
  negb (MoveType_eqb (type m) Castling)
  && (MoveType_eqb (type m) EnPassant
      || BasePiece_eqb (Move_target m) Queen
      || negb (Piece_eqb (Boards.pieceAt (Pos.boards pos) (dst m)) Piece_None)).

End PosMove.

(** White: Ke1, Pb7. Black: Ra8, Kg8. White to move, not in check; the pawn
    can promote on b8 or by taking the rook. *)
Definition pawnOnSeventh_boards : PositionBoards :=
  setup [(sq fe 1, King, White); (sq fb 7, Pawn, White);
         (sq fa 8, Rook, Black); (sq fg 8, King, Black)].

Definition pawnOnSeventh_position : Position :=
  positionOf pawnOnSeventh_boards false Square_None noCastling 0 [].

(** The moves a staged generator may still hand out from its list, [G]
    holding of the moves the generators produce for its position. *)
Definition listed (G : Position -> Move -> Prop) (g : MoveGenerator) (mv : Move)
  : Prop :=
  mv = NullMove
  \/ G (m_pos g) mv
  \/ exists sm, In sm (m_moves g) /\ move sm = mv.

(** The moves a staged generator hands out ahead of the generated ones. *)
Definition ordered (g : MoveGenerator) (mv : Move) : Prop :=
  mv = NullMove
  \/ mv = m_hashMove g
  \/ mv = m_killer g
  \/ exists h, m_history g = Some h /\ mv = entry_countermove h (m_prevMove g).

(** [g'] continues [g]: the search data are the same and the list holds
    moves of [g] or generated ones. *)
Definition continues (G : Position -> Move -> Prop) (g g' : MoveGenerator)
  : Prop :=
  m_pos g' = m_pos g
  /\ m_hashMove g' = m_hashMove g
  /\ m_killer g' = m_killer g
  /\ m_history g' = m_history g
  /\ m_prevMove g' = m_prevMove g
  /\ forall sm, In sm (m_moves g') -> listed G g (move sm).

(** The noisy moves of a position as [genNoisy] leaves them on an empty
    list: scored, then sorted. *)
Definition sortedNoisy (t : AttackTables) (o : GlobalOptions) (c : Collaborators)
  (pos : Position) : list ScoredMove :=
  stableSortByScore (map (scoreNoisyMove c pos) (generateNoisy t o [] pos)).

(** A quiescence generator before [genNoisy] has run. *)
Definition quiescenceStart (pos : Position) (hashMove : Move) (g : MoveGenerator)
  : Prop :=
  (m_stage g = MovegenStage.Start \/ m_stage g = MovegenStage.Hash)
  /\ m_moves g = [] /\ m_idx g = 0
  /\ m_pos g = pos /\ m_hashMove g = hashMove.

(** A quiescence generator after [genNoisy] has run. *)
Definition quiescenceRun (t : AttackTables) (o : GlobalOptions)
  (c : Collaborators) (pos : Position) (hashMove : Move) (g : MoveGenerator)
  : Prop :=
  MovegenStage.End <= m_stage g
  /\ m_moves g = sortedNoisy t o c pos
  /\ m_goodNoisyEnd g
     = findIf (fun v => score v <? GoodNoisyThreshold) (sortedNoisy t o c pos)
  /\ 0 <= m_idx g <= m_goodNoisyEnd g
  /\ m_pos g = pos /\ m_hashMove g = hashMove.

(** What the quiescence generator hands out from its list. *)
Definition goodNoisy (t : AttackTables) (o : GlobalOptions) (c : Collaborators)
  (pos : Position) (mv : Move) : Prop :=
  exists sm, In sm (generateNoisy t o [] pos) /\ move sm = mv
             /\ GoodNoisyThreshold <= score (scoreNoisyMove c pos sm).

(** *** Properties of [Jsf64Rng] *)

Lemma nextU32_range s : 0 <= fst (Jsf64Rng.nextU32 s) < 2 ^ 32.
Proof.
  unfold Jsf64Rng.nextU32.
  destruct (Jsf64Rng.nextU64 s) as [r s']. cbn [fst]. apply u32_range.
Qed.

(** A product of a 32-bit draw with [bound], shifted down by 32 bits, lies
    below [bound]. *)
Lemma mul_hi_below x bound :
  0 <= x < 2 ^ 32 -> 0 < bound < 2 ^ 32 ->
  0 <= u32 (Z.shiftr (u64 (x * bound)) 32) < bound.
Proof.
  intros Hx Hb.
  assert (Hm : 0 <= x * bound < 2 ^ 32 * bound) by nia.
  rewrite u64_small by (change (2 ^ 64) with (2 ^ 32 * 2 ^ 32); nia).
  rewrite Z.shiftr_div_pow2 by lia.
  assert (Hq : 0 <= x * bound / 2 ^ 32 < bound).
  { split.
    - apply Z.div_pos; lia.
    - apply Z.div_lt_upper_bound; lia. }
  rewrite u32_small by lia. exact Hq.
Qed.


Lemma reject_hi_product fuel bound t :
  forall m l s m' s',
    hi_product bound m ->
    Jsf64Rng.reject fuel bound t m l s = Some (m', s') ->
    hi_product bound m'.
Proof.
  induction fuel as [|k IH]; intros m l s m' s' Hm; cbn [Jsf64Rng.reject].
  - destruct (l <? t); [discriminate|]. intros [= <- _]. exact Hm.
  - destruct (l <? t).
    + pose proof (nextU32_range s) as Hx.
      destruct (Jsf64Rng.nextU32 s) as [x s1]. cbn [fst] in Hx.
      apply IH. exists x. split; [exact Hx | reflexivity].
    + intros [= <- _]. exact Hm.
Qed.

(** C10. For every internal state, [nextU32(0)] returns 0 (without drawing),
    and for every bound greater than 0 (a [u32]), whenever [nextU32(bound)]
    returns, the value it returns is strictly below the bound. *)
Theorem nextU32_bounded_below :
  (forall fuel s, Jsf64Rng.nextU32_bounded fuel s 0 = Some (0, s)) /\
  (forall fuel s bound r s',
      0 < bound < 2 ^ 32 ->
      Jsf64Rng.nextU32_bounded fuel s bound = Some (r, s') ->
      0 <= r < bound).
Proof.
  split.
  - intros fuel s. reflexivity.
  - intros fuel s bound r s' Hb.
    unfold Jsf64Rng.nextU32_bounded.
    destruct (Z.eqb_spec bound 0) as [->|_]; [lia|].
    pose proof (nextU32_range s) as Hx.
    destruct (Jsf64Rng.nextU32 s) as [x s1]. cbn [fst] in Hx. cbv zeta.
    destruct (u32 (u64 (x * bound)) <? bound).
    + destruct (Jsf64Rng.reject fuel bound (Jsf64Rng.threshold bound)
                  (u64 (x * bound)) (u32 (u64 (x * bound))) s1)
        as [[m' s2]|] eqn:Hrej; [|discriminate].
      intros [= <- _].
      apply reject_hi_product in Hrej.
      * destruct Hrej as (x' & Hx' & ->). now apply mul_hi_below.
      * exists x. split; [exact Hx | reflexivity].
    + intros [= <- _]. now apply mul_hi_below.
Qed.

(** The bound at a concrete generator: seed 42, bound 10, one spare draw. *)
Lemma nextU32_bounded_below_witness :
  exists r s', Jsf64Rng.nextU32_bounded 1 (Jsf64Rng.make 42) 10 = Some (r, s')
               /\ 0 <= r < 10.
Proof.
  destruct (Jsf64Rng.nextU32_bounded 1 (Jsf64Rng.make 42) 10) as [[r s']|] eqn:E.
  - exists r, s'. split; [reflexivity|].
    apply (proj2 nextU32_bounded_below 1%nat (Jsf64Rng.make 42) 10 r s');
      [lia | exact E].
  - vm_compute in E. discriminate.
Defined.

(** *** Bitboard facts *)

Lemma pos_squares_In p : forall i s,
  In s (pos_squares p i) <-> i <= s /\ Z.testbit (Zpos p) (s - i) = true.
Proof.
  induction p as [q IH|q IH|]; intros i s; cbn [pos_squares In].
  - rewrite IH. change (Zpos q~1) with (2 * Zpos q + 1).
    split.
    + intros [<-|[Hle Hb]].
      * split; [lia|]. rewrite Z.sub_diag. apply Z.testbit_odd_0.
      * split; [lia|].
        replace (s - i) with (Z.succ (s - (i + 1))) by lia.
        rewrite Z.testbit_odd_succ by lia. exact Hb.
    + intros [Hle Hb].
      destruct (Z.eq_dec i s) as [->|Hne]; [now left|right].
      split; [lia|].
      replace (s - i) with (Z.succ (s - (i + 1))) in Hb by lia.
      rewrite Z.testbit_odd_succ in Hb by lia. exact Hb.
  - rewrite IH. change (Zpos q~0) with (2 * Zpos q).
    split.
    + intros [Hle Hb]. split; [lia|].
      replace (s - i) with (Z.succ (s - (i + 1))) by lia.
      rewrite Z.testbit_even_succ by lia. exact Hb.
    + intros [Hle Hb].
      destruct (Z.eq_dec i s) as [->|Hne].
      * rewrite Z.sub_diag, Z.testbit_even_0 in Hb. discriminate.
      * split; [lia|].
        replace (s - i) with (Z.succ (s - (i + 1))) in Hb by lia.
        rewrite Z.testbit_even_succ in Hb by lia. exact Hb.
  - split.
    + intros [<-|[]]. split; [lia|]. now rewrite Z.sub_diag.
    + intros [Hle Hb].
      destruct (Z.eq_dec i s) as [->|Hne]; [now left|exfalso].
      replace (s - i) with (Z.succ (s - i - 1)) in Hb by lia.
      change 1 with (2 * 0 + 1) in Hb.
      rewrite Z.testbit_odd_succ, Z.testbit_0_l in Hb by lia. discriminate.
Qed.

(** The squares of a bitboard are the positions of its set bits. *)
Lemma squares_In b s :
  In s (squares b) <-> 0 <= b /\ 0 <= s /\ Z.testbit b s = true.
Proof.
  destruct b as [|p|p]; cbn [squares].
  - rewrite Z.testbit_0_l. split; [intros []|intros (_ & _ & H); discriminate].
  - rewrite pos_squares_In, Z.sub_0_r. split; [intros []|intros (_ & ? & ?)]; auto.
    split; [lia|auto].
  - split; [intros []|intros (H & _)]. lia.
Qed.

Lemma pos_squares_length p : forall i j,
  length (pos_squares p i) = length (pos_squares p j).
Proof.
  induction p as [q IH|q IH|]; intros i j; cbn [pos_squares length]; auto.
Qed.

Lemma popcount_nonneg b : 0 <= popcount b.
Proof. unfold popcount. lia. Qed.

Lemma popcount_0_iff b : 0 <= b -> (popcount b = 0 <-> b = 0).
Proof.
  intros Hb. unfold popcount. destruct b as [|p|p]; cbn [squares length]; try lia.
  split; [|discriminate]. destruct p; cbn [pos_squares length]; try lia.
  intros H. exfalso. clear Hb. revert H. generalize (0 + 1).
  induction p as [q IH|q IH|]; intros i; cbn [pos_squares length]; try lia.
  apply IH.
Qed.

Lemma empty_iff b : empty b = true <-> b = 0.
Proof. unfold empty. apply Z.eqb_eq. Qed.

Lemma empty_popcount b : 0 <= b -> empty b = (popcount b =? 0).
Proof.
  intros Hb. unfold empty.
  destruct (Z.eqb_spec b 0) as [->|Hne]; [reflexivity|].
  symmetry. apply Z.eqb_neq. rewrite popcount_0_iff; assumption.
Qed.

(** Counting the bits of a disjoint union. *)
Lemma pos_popcount_lor p : forall q i,
  Pos.land p q = 0%N ->
  length (pos_squares (Pos.lor p q) i)
  = (length (pos_squares p i) + length (pos_squares q i))%nat.
Proof.
  induction p as [p IH|p IH|]; intros [q|q|] i H; cbn in H |- *;
    try discriminate;
    try (destruct (Pos.land p q) eqn:E; try discriminate;
         rewrite (IH q (i + 1) E); lia);
    try lia.
  all: try (rewrite (pos_squares_length _ (i + 1) (i + 1)); lia).
Qed.

Lemma popcount_lor a b :
  0 <= a -> 0 <= b -> a &&& b = 0 -> popcount (a ||| b) = popcount a + popcount b.
Proof.
  unfold band, bor, popcount. intros Ha Hb H.
  destruct a as [|p|p], b as [|q|q]; try lia; cbn [Z.lor squares length];
    try lia.
  cbn [Z.land] in H.
  rewrite (pos_popcount_lor p q 0); [lia|].
  destruct (Pos.land p q); [reflexivity|discriminate].
Qed.

(** Pointwise reasoning on bitboards: an equation between boards is an
    equation between their bits. *)
Ltac bits_at i :=
  repeat match goal with
         | H : @eq Z _ _ |- _ =>
             apply (f_equal (fun z => Z.testbit z i)) in H; cbv beta in H;
             repeat first [ rewrite Z.land_spec in H | rewrite Z.lor_spec in H
                          | rewrite Z.ldiff_spec in H | rewrite Z.lxor_spec in H
                          | rewrite Z.bits_0 in H ]
         end.

Ltac bits_cases :=
  repeat match goal with
         | |- context [Z.testbit ?x ?i] =>
             let t := fresh "t" in
             set (t := Z.testbit x i) in *; clearbody t; destruct t
         | H : context [Z.testbit ?x ?i] |- _ =>
             let t := fresh "t" in
             set (t := Z.testbit x i) in *; clearbody t; destruct t
         end;
  cbn in *; try congruence.

Ltac bitblast :=
  unfold band, bor, bxor in *;
  apply Z.bits_inj'; let i := fresh "i" in let Hi := fresh "Hi" in
  intros i Hi; bits_at i;
  repeat first [ rewrite Z.land_spec | rewrite Z.lor_spec
               | rewrite Z.ldiff_spec | rewrite Z.lxor_spec
               | rewrite Z.bits_0 ];
  bits_cases.

Lemma band_nonneg a b : 0 <= a -> 0 <= a &&& b.
Proof. intros H. unfold band. apply Z.land_nonneg. now left. Qed.

Lemma bor_nonneg a b : 0 <= a -> 0 <= b -> 0 <= a ||| b.
Proof. intros Ha Hb. unfold bor. now apply Z.lor_nonneg. Qed.

(** A board inside the occupancy splits into its black and its white part. *)
Lemma popcount_split x bl wh :
  0 <= x -> bl &&& wh = 0 -> x &&& (bl ||| wh) = x ->
  popcount x = popcount (x &&& bl) + popcount (x &&& wh).
Proof.
  intros Hx Hd Hs.
  rewrite <- popcount_lor; try now apply band_nonneg.
  - f_equal. clear Hx. bitblast.
  - clear Hx Hs. bitblast.
Qed.

Lemma popcount_lor_land x y c :
  0 <= x -> 0 <= y -> x &&& y = 0 ->
  popcount ((x ||| y) &&& c) = popcount (x &&& c) + popcount (y &&& c).
Proof.
  intros Hx Hy Hd.
  rewrite <- popcount_lor; try now apply band_nonneg.
  - f_equal. clear Hx Hy Hd. bitblast.
  - clear Hx Hy. bitblast.
Qed.

(** [x | y == x] exactly when [y] adds nothing, for disjoint boards. *)
Lemma lor_eqb_left x y :
  0 <= x -> 0 <= y -> x &&& y = 0 -> ((x ||| y) =? x) = (popcount y =? 0).
Proof.
  intros Hx Hy Hd.
  destruct (Z.eqb_spec (popcount y) 0) as [E|E].
  - apply (proj1 (popcount_0_iff y Hy)) in E. subst y.
    apply Z.eqb_eq. unfold bor. apply Z.lor_0_r.
  - apply Z.eqb_neq. intros Heq. apply E.
    pose proof (popcount_lor x y Hx Hy Hd) as Hp. rewrite Heq in Hp. lia.
Qed.

Lemma multiple_popcount b : multiple b = (1 <? popcount b).
Proof. reflexivity. Qed.

(** *** Well-formed boards, unpacked *)

Lemma in_u64_spec b : in_u64 b = true -> 0 <= b < 2 ^ 64.
Proof. unfold in_u64. rewrite andb_true_iff. lia. Qed.

Lemma BasePiece_eqb_eq p q : BasePiece_eqb p q = true <-> p = q.
Proof. destruct p, q; cbn; split; congruence. Qed.

Lemma Color_eqb_eq a b : Color_eqb a b = true <-> a = b.
Proof. destruct a, b; cbn; split; congruence. Qed.

Lemma wf_boards_elim b :
  wf_boardsb b = true ->
  (forall c, 0 <= m_colors b c < 2 ^ 64)
  /\ (forall p, 0 <= m_boards b p < 2 ^ 64)
  /\ m_colors b Black &&& m_colors b White = 0
  /\ (forall p q, p <> q -> m_boards b p &&& m_boards b q = 0)
  /\ m_boards b Pawn ||| (m_boards b Knight ||| (m_boards b Bishop
       ||| (m_boards b Rook ||| (m_boards b Queen ||| (m_boards b King ||| 0)))))
     = m_colors b Black ||| m_colors b White.
Proof.
  unfold wf_boardsb. rewrite !andb_true_iff, !forallb_forall.
  intros [[[[[Hb Hw] Hp] Hc] Hd] Ho].
  repeat split.
  - destruct c; now apply in_u64_spec.
  - destruct c; now apply in_u64_spec.
  - apply in_u64_spec, Hp. destruct p; cbn; tauto.
  - apply in_u64_spec, Hp. destruct p; cbn; tauto.
  - now apply Z.eqb_eq.
  - intros p q Hne.
    assert (Hin : forall r, In r allBasePieces) by (intros r; destruct r; cbn; tauto).
    specialize (Hd p (Hin p)). unfold disjoint_from in Hd.
    rewrite forallb_forall in Hd. specialize (Hd q (Hin q)).
    apply orb_true_iff in Hd. destruct Hd as [Hd|Hd].
    + apply BasePiece_eqb_eq in Hd. contradiction.
    + now apply Z.eqb_eq.
  - apply Z.eqb_eq in Ho. exact Ho.
Qed.

(** *** [isDrawn] *)

Lemma repetitionScan_spec hs k : forall n,
  1 <= n -> Pos.repetitionScan hs k n = (n <=? occurrences k hs).
Proof.
  unfold occurrences.
  induction hs as [|h rest IH]; intros n Hn; cbn [Pos.repetitionScan count_occ].
  - symmetry. apply Z.leb_gt. cbn. lia.
  - destruct (Z.eqb_spec h k) as [->|Hne].
    + destruct (Z.eq_dec k k) as [_|]; [|contradiction].
      destruct (Z.eqb_spec (n - 1) 0) as [E|E].
      * symmetry. apply Z.leb_le. lia.
      * rewrite IH by lia.
        destruct (Z.leb_spec (n - 1) (Z.of_nat (count_occ Z.eq_dec rest k)));
          symmetry; [apply Z.leb_le|apply Z.leb_gt]; lia.
    + destruct (Z.eq_dec h k) as [|_]; [contradiction|]. now apply IH.
Qed.

Lemma occurrences_rev k hs : occurrences k (rev hs) = occurrences k hs.
Proof. unfold occurrences. now rewrite count_occ_rev. Qed.

Section MaterialCounts.

Variable b : PositionBoards.
Hypothesis Hwf : wf_boardsb b = true.

Let cnt := pieceCount b.

Lemma piece_in_occupancy p :
  m_boards b p &&& (m_colors b Black ||| m_colors b White) = m_boards b p.
Proof.
  destruct (wf_boards_elim b Hwf) as (_ & _ & _ & _ & Ho).
  clear Hwf cnt. destruct p; bitblast.
Qed.

Lemma popcount_piece p :
  popcount (m_boards b p) = cnt Black p + cnt White p.
Proof.
  destruct (wf_boards_elim b Hwf) as (_ & Hp & Hc & _ & _).
  unfold cnt, pieceCount, Boards.forPieceOf, Boards.forColor.
  apply popcount_split; [apply Hp | exact Hc | apply piece_in_occupancy].
Qed.

Lemma pieces_disjoint p q : p <> q -> m_boards b p &&& m_boards b q = 0.
Proof. destruct (wf_boards_elim b Hwf) as (_ & _ & _ & Hd & _). apply Hd. Qed.

Lemma piece_nonneg p : 0 <= m_boards b p.
Proof. destruct (wf_boards_elim b Hwf) as (_ & Hp & _). apply Hp. Qed.

Lemma color_nonneg c : 0 <= m_colors b c.
Proof. destruct (wf_boards_elim b Hwf) as (Hc & _). apply Hc. Qed.

Lemma empty_pawns :
  empty (Boards.pawns b) = (cnt Black Pawn + cnt White Pawn =? 0).
Proof.
  unfold Boards.pawns, Boards.forPiece.
  rewrite empty_popcount by apply piece_nonneg. now rewrite popcount_piece.
Qed.

Lemma minors_majors_disjoint :
  (m_boards b Knight ||| m_boards b Bishop)
  &&& (m_boards b Rook ||| m_boards b Queen) = 0.
Proof.
  pose proof (pieces_disjoint Knight Rook ltac:(discriminate)).
  pose proof (pieces_disjoint Knight Queen ltac:(discriminate)).
  pose proof (pieces_disjoint Bishop Rook ltac:(discriminate)).
  pose proof (pieces_disjoint Bishop Queen ltac:(discriminate)).
  clear Hwf cnt. bitblast.
Qed.

Lemma popcount_majors_of c :
  popcount (Boards.majors b &&& m_colors b c) = cnt c Rook + cnt c Queen.
Proof.
  unfold Boards.majors, Boards.rooks, Boards.queens, Boards.forPiece.
  apply popcount_lor_land; try apply piece_nonneg.
  apply pieces_disjoint. discriminate.
Qed.

Lemma popcount_minors_of c :
  popcount (Boards.minors b &&& m_colors b c) = cnt c Knight + cnt c Bishop.
Proof.
  unfold Boards.minors, Boards.knights, Boards.bishops, Boards.forPiece.
  apply popcount_lor_land; try apply piece_nonneg.
  apply pieces_disjoint. discriminate.
Qed.

Lemma popcount_nonPk_of c :
  popcount (Boards.nonPk b &&& m_colors b c)
  = cnt c Knight + cnt c Bishop + cnt c Rook + cnt c Queen.
Proof.
  unfold Boards.nonPk.
  rewrite popcount_lor_land.
  - rewrite popcount_minors_of, popcount_majors_of. lia.
  - apply bor_nonneg; apply piece_nonneg.
  - apply bor_nonneg; apply piece_nonneg.
  - apply minors_majors_disjoint.
Qed.

Lemma empty_majors :
  empty (Boards.majors b)
  = (cnt Black Rook + cnt White Rook + cnt Black Queen + cnt White Queen =? 0).
Proof.
  unfold Boards.majors, Boards.rooks, Boards.queens, Boards.forPiece.
  rewrite empty_popcount by (apply bor_nonneg; apply piece_nonneg).
  rewrite popcount_lor, !popcount_piece; try apply piece_nonneg.
  - f_equal. lia.
  - apply pieces_disjoint. discriminate.
Qed.

Lemma empty_nonPk :
  empty (Boards.nonPk b)
  = (cnt Black Knight + cnt Black Bishop + cnt Black Rook + cnt Black Queen
     + (cnt White Knight + cnt White Bishop + cnt White Rook + cnt White Queen)
     =? 0).
Proof.
  assert (Hn : 0 <= Boards.nonPk b)
    by (repeat apply bor_nonneg; apply piece_nonneg).
  rewrite empty_popcount by exact Hn.
  rewrite (popcount_split (Boards.nonPk b) (m_colors b Black) (m_colors b White)).
  - now rewrite !popcount_nonPk_of.
  - exact Hn.
  - destruct (wf_boards_elim b Hwf) as (_ & _ & Hc & _). exact Hc.
  - pose proof (piece_in_occupancy Knight). pose proof (piece_in_occupancy Bishop).
    pose proof (piece_in_occupancy Rook). pose proof (piece_in_occupancy Queen).
    unfold Boards.nonPk, Boards.minors, Boards.majors, Boards.knights,
      Boards.bishops, Boards.rooks, Boards.queens, Boards.forPiece.
    clear Hwf cnt Hn. bitblast.
Qed.

Lemma empty_nonPk_of c :
  empty (Boards.nonPk b &&& m_colors b c)
  = (cnt c Knight + cnt c Bishop + cnt c Rook + cnt c Queen =? 0).
Proof.
  rewrite empty_popcount.
  - now rewrite popcount_nonPk_of.
  - apply band_nonneg. repeat apply bor_nonneg; apply piece_nonneg.
Qed.

Lemma multiple_minors_of c :
  multiple (Boards.minors b &&& m_colors b c) = (1 <? cnt c Knight + cnt c Bishop).
Proof. unfold multiple. now rewrite popcount_minors_of. Qed.

Lemma multiple_bishops_of c :
  multiple (Boards.bishops b &&& m_colors b c) = (1 <? cnt c Bishop).
Proof. reflexivity. Qed.

Lemma nonPk_eqb_minors c :
  (Boards.nonPk b &&& m_colors b c =? Boards.minors b &&& m_colors b c)
  = (cnt c Rook + cnt c Queen =? 0).
Proof.
  rewrite <- popcount_majors_of.
  rewrite <- (lor_eqb_left (Boards.minors b &&& m_colors b c)).
  - f_equal. unfold Boards.nonPk. clear Hwf cnt. bitblast.
  - apply band_nonneg, bor_nonneg; apply piece_nonneg.
  - apply band_nonneg, bor_nonneg; apply piece_nonneg.
  - pose proof minors_majors_disjoint.
    unfold Boards.minors, Boards.majors, Boards.knights,
      Boards.bishops, Boards.rooks, Boards.queens, Boards.forPiece.
    clear Hwf cnt. bitblast.
Qed.

Lemma nonPk_eqb_bishops c :
  (Boards.nonPk b &&& m_colors b c =? Boards.bishops b &&& m_colors b c)
  = (cnt c Knight + cnt c Rook + cnt c Queen =? 0).
Proof.
  set (rest := m_boards b Knight ||| (m_boards b Rook ||| m_boards b Queen)).
  assert (Hrest : popcount (rest &&& m_colors b c)
                  = cnt c Knight + cnt c Rook + cnt c Queen).
  { unfold rest. rewrite popcount_lor_land.
    - fold (Boards.majors b). rewrite popcount_majors_of.
      unfold cnt, pieceCount, Boards.forPieceOf, Boards.forColor. lia.
    - apply piece_nonneg.
    - apply bor_nonneg; apply piece_nonneg.
    - pose proof (pieces_disjoint Knight Rook ltac:(discriminate)).
      pose proof (pieces_disjoint Knight Queen ltac:(discriminate)).
      clear Hwf cnt rest. bitblast. }
  rewrite <- Hrest.
  rewrite <- (lor_eqb_left (Boards.bishops b &&& m_colors b c)).
  - f_equal. unfold Boards.nonPk, Boards.minors, Boards.majors, Boards.knights,
      Boards.bishops, Boards.rooks, Boards.queens, Boards.forPiece, rest.
    clear Hwf cnt Hrest rest. bitblast.
  - apply band_nonneg, piece_nonneg.
  - apply band_nonneg. unfold rest. repeat apply bor_nonneg; apply piece_nonneg.
  - pose proof (pieces_disjoint Bishop Knight ltac:(discriminate)).
    pose proof (pieces_disjoint Bishop Rook ltac:(discriminate)).
    pose proof (pieces_disjoint Bishop Queen ltac:(discriminate)).
    unfold Boards.bishops, Boards.forPiece, rest.
    clear Hwf cnt Hrest rest. bitblast.
Qed.

End MaterialCounts.

Lemma testbit_below_64 x s :
  0 <= x < 2 ^ 64 -> Z.testbit x s = true -> s < 64.
Proof.
  intros Hx Hb. destruct (Z.lt_ge_cases s 64) as [|Hge]; [assumption|exfalso].
  rewrite <- (Z.mod_small x (2 ^ 64)) in Hb by assumption.
  rewrite Z.mod_pow2_bits_high in Hb by lia. discriminate.
Qed.

Lemma LightSquares_testbit s :
  0 <= s < 64 -> Z.testbit LightSquares s = isLightSquare s.
Proof.
  intros Hs.
  assert (Hall : forallb (fun n => Bool.eqb (Z.testbit LightSquares (Z.of_nat n))
                                           (isLightSquare (Z.of_nat n)))
                         (seq 0 64) = true) by (vm_compute; reflexivity).
  rewrite forallb_forall in Hall.
  specialize (Hall (Z.to_nat s)). rewrite Z2Nat.id in Hall by lia.
  apply eqb_prop, Hall, in_seq. lia.
Qed.

Lemma single_square x : popcount x = 1 -> exists s, squares x = [s].
Proof.
  unfold popcount. destruct (squares x) as [|s [|t rest]]; cbn [length]; try lia.
  intros _. now exists s.
Qed.

Lemma nonzero_has_square x : 0 <= x -> x <> 0 -> exists s, In s (squares x).
Proof.
  intros Hx Hne. destruct (squares x) as [|s rest] eqn:E.
  - exfalso. apply Hne. apply popcount_0_iff; [assumption|].
    unfold popcount. now rewrite E.
  - exists s. now left.
Qed.

(** A board with one bishop meets the light squares exactly when that bishop
    stands on one. *)
Lemma empty_land_light x s :
  0 <= x < 2 ^ 64 -> squares x = [s] ->
  empty (x &&& LightSquares) = negb (isLightSquare s).
Proof.
  intros Hx Hs.
  assert (Hin : In s (squares x)) by (rewrite Hs; now left).
  apply squares_In in Hin. destruct Hin as (_ & Hs0 & Hbit).
  pose proof (testbit_below_64 x s Hx Hbit) as Hs64.
  rewrite <- LightSquares_testbit by lia.
  destruct (Z.testbit LightSquares s) eqn:HL; cbn [negb].
  - unfold empty. apply Z.eqb_neq. intros H0.
    apply (f_equal (fun z => Z.testbit z s)) in H0. cbv beta in H0.
    unfold band in H0. rewrite Z.land_spec, Hbit, HL, Z.bits_0 in H0.
    discriminate.
  - apply empty_iff.
    destruct (Z.eq_dec (x &&& LightSquares) 0) as [|Hne]; [assumption|exfalso].
    destruct (nonzero_has_square (x &&& LightSquares)) as [t Ht];
      [apply band_nonneg; lia | assumption |].
    apply squares_In in Ht. destruct Ht as (_ & Ht0 & Htb).
    unfold band in Htb. rewrite Z.land_spec in Htb.
    apply andb_true_iff in Htb. destruct Htb as [Hxt HLt].
    assert (Hint : In t (squares x)) by (apply squares_In; repeat split; lia || assumption).
    rewrite Hs in Hint. destruct Hint as [<-|[]]. congruence.
Qed.

Lemma forPieceOf_range b :
  wf_boardsb b = true ->
  forall p c, 0 <= m_boards b p &&& m_colors b c < 2 ^ 64.
Proof.
  intros Hwf p c. destruct (wf_boards_elim b Hwf) as (Hcol & Hpc & _).
  split; [apply band_nonneg, Hpc|].
  assert (E : m_boards b p &&& m_colors b c
              = (m_boards b p &&& m_colors b c) mod 2 ^ 64).
  { unfold band. rewrite <- Z.land_ones, <- Z.land_assoc, Z.land_ones by lia.
    now rewrite (Z.mod_small (m_colors b c)) by apply Hcol. }
  rewrite E. apply Z.mod_pos_bound. lia.
Qed.

(** With fewer than 100 reversible half-moves and no repetition, [isDrawn]
    answers by material alone. *)
Lemma isDrawn_by_material pos (threefold : bool) :
  wf_boardsb (Pos.boards pos) = true ->
  Pos.halfmove pos < 100 ->
  occurrences (Pos.key pos) (m_hashes pos) < (if threefold then 2 else 1) ->
  (Pos.isDrawn pos threefold = true
   <-> material_KK (Pos.boards pos) \/ material_KNK_KBK (Pos.boards pos)
       \/ material_KBKB_opposite (Pos.boards pos)).
Proof.
  intros Hwf Hhm Hrep.
  unfold Pos.isDrawn.
  destruct (Z.leb_spec 100 (Pos.halfmove pos)) as [|_]; [lia|].
  rewrite repetitionScan_spec, occurrences_rev by (destruct threefold; lia).
  destruct (Z.leb_spec (if threefold then 2 else 1)
              (occurrences (Pos.key pos) (m_hashes pos))) as [|_]; [lia|].
  cbv zeta. set (b := Pos.boards pos) in *.
  unfold Boards.blackNonPk, Boards.whiteNonPk, Boards.blackMinors,
    Boards.whiteMinors, Boards.blackBishops, Boards.whiteBishops,
    Boards.blackOccupancy, Boards.whiteOccupancy.
  rewrite (empty_pawns b Hwf), (empty_majors b Hwf), (empty_nonPk b Hwf),
    !(empty_nonPk_of b Hwf), !(nonPk_eqb_minors b Hwf),
    !(nonPk_eqb_bishops b Hwf), !(multiple_minors_of b Hwf),
    !multiple_bishops_of.
  unfold material_KK, material_KNK_KBK, material_KBKB_opposite,
    bareKing, loneMinor, loneBishop.
  assert (Hbb : 0 <= Boards.bishops b &&& m_colors b Black < 2 ^ 64)
    by apply (forPieceOf_range b Hwf).
  assert (Hwb : 0 <= Boards.bishops b &&& m_colors b White < 2 ^ 64)
    by apply (forPieceOf_range b Hwf).
  assert (HcBb : popcount (Boards.bishops b &&& m_colors b Black)
                 = pieceCount b Black Bishop) by reflexivity.
  assert (HcBw : popcount (Boards.bishops b &&& m_colors b White)
                 = pieceCount b White Bishop) by reflexivity.
  unfold Boards.whiteBishops, Boards.blackBishops, Boards.whiteOccupancy,
    Boards.blackOccupancy.
  pose proof (popcount_nonneg (Boards.forPieceOf b Pawn Black)).
  pose proof (popcount_nonneg (Boards.forPieceOf b Pawn White)).
  pose proof (popcount_nonneg (Boards.forPieceOf b Knight Black)).
  pose proof (popcount_nonneg (Boards.forPieceOf b Knight White)).
  pose proof (popcount_nonneg (Boards.forPieceOf b Bishop Black)).
  pose proof (popcount_nonneg (Boards.forPieceOf b Bishop White)).
  pose proof (popcount_nonneg (Boards.forPieceOf b Rook Black)).
  pose proof (popcount_nonneg (Boards.forPieceOf b Rook White)).
  pose proof (popcount_nonneg (Boards.forPieceOf b Queen Black)).
  pose proof (popcount_nonneg (Boards.forPieceOf b Queen White)).
  fold (pieceCount b Black Pawn) in *. fold (pieceCount b White Pawn) in *.
  fold (pieceCount b Black Knight) in *. fold (pieceCount b White Knight) in *.
  fold (pieceCount b Black Bishop) in *. fold (pieceCount b White Bishop) in *.
  fold (pieceCount b Black Rook) in *. fold (pieceCount b White Rook) in *.
  fold (pieceCount b Black Queen) in *. fold (pieceCount b White Queen) in *.
  set (B := Boards.bishops b &&& m_colors b Black) in *.
  set (W := Boards.bishops b &&& m_colors b White) in *.
  (* the light-square test, when both sides have one bishop *)
  assert (Hlight :
    pieceCount b Black Bishop = 1 -> pieceCount b White Bishop = 1 ->
    (negb (Bool.eqb (empty (B &&& LightSquares)) (empty (W &&& LightSquares))) = true
     <-> exists sw sb, In sw (squares W) /\ In sb (squares B)
                       /\ isLightSquare sw <> isLightSquare sb)).
  { intros H1b H1w.
    destruct (single_square B) as [sb Hsb]; [lia|].
    destruct (single_square W) as [sw Hsw]; [lia|].
    rewrite (empty_land_light B sb Hbb Hsb), (empty_land_light W sw Hwb Hsw).
    rewrite Hsb, Hsw. split.
    - intros Hne. exists sw, sb. repeat split; try now left.
      destruct (isLightSquare sw), (isLightSquare sb); cbn in Hne; congruence.
    - intros (sw' & sb' & [<-|[]] & [<-|[]] & Hne).
      destruct (isLightSquare sw), (isLightSquare sb); cbn; congruence. }
  set (cPb := pieceCount b Black Pawn) in *. set (cPw := pieceCount b White Pawn) in *.
  set (cNb := pieceCount b Black Knight) in *. set (cNw := pieceCount b White Knight) in *.
  set (cBb := pieceCount b Black Bishop) in *. set (cBw := pieceCount b White Bishop) in *.
  set (cRb := pieceCount b Black Rook) in *. set (cRw := pieceCount b White Rook) in *.
  set (cQb := pieceCount b Black Queen) in *. set (cQw := pieceCount b White Queen) in *.
  clearbody cPb cPw cNb cNw cBb cBw cRb cRw cQb cQw.
  clear HcBb HcBw Hbb Hwb.
  destruct (Z.eqb_spec (cPb + cPw) 0) as [HP|HP]; cbn [negb orb];
    [|split; [discriminate|intros [?|[[[? ?]|[? ?]]|(? & ? & ?)]]; lia]].
  destruct (Z.eqb_spec (cRb + cRw + cQb + cQw) 0) as [HM|HM]; cbn [negb orb];
    [|split; [discriminate|intros [[? ?]|[[[? ?]|[? ?]]|(? & ? & ?)]]; lia]].
  assert (cPb = 0) by lia. assert (cPw = 0) by lia.
  assert (cRb = 0) by lia. assert (cRw = 0) by lia.
  assert (cQb = 0) by lia. assert (cQw = 0) by lia.
  subst cPb cPw cRb cRw cQb cQw. clear HP HM.
  rewrite !Z.add_0_r. cbn [Z.eqb andb].
  destruct (Z.eqb_spec (cNb + cBb + (cNw + cBw)) 0) as [HN|HN].
  { split; [intros _|reflexivity]. left. lia. }
  rewrite !andb_true_r.
  destruct (Z.eqb_spec (cNb + cBb) 0) as [Hb0|Hb0]; cbn [andb orb].
  { (* black is bare *)
    destruct (Z.ltb_spec 1 (cNw + cBw)) as [Hw|Hw]; cbn [negb orb].
    - destruct (Z.eqb_spec (cNw + cBw) 0) as [?|_]; [lia|]. cbn [andb orb].
      destruct (Z.eqb_spec cNb 0) as [_|?]; [|lia].
      destruct (Z.eqb_spec cNw 0) as [Hn|Hn]; cbn [andb].
      + destruct (Z.ltb_spec 1 cBb) as [?|_]; [lia|].
        destruct (Z.ltb_spec 1 cBw) as [_|?]; [|lia]. cbn [negb andb].
        split; [discriminate|intros [?|[[?|?]|(? & ? & ?)]]; lia].
      + split; [discriminate|intros [?|[[?|?]|(? & ? & ?)]]; lia].
    - split; [intros _|reflexivity]. right. left. left. lia. }
  destruct (Z.eqb_spec (cNw + cBw) 0) as [Hw0|Hw0]; cbn [andb orb].
  { (* white is bare *)
    destruct (Z.ltb_spec 1 (cNb + cBb)) as [Hb|Hb]; cbn [negb orb].
    - destruct (Z.eqb_spec cNb 0) as [Hn|Hn]; cbn [andb].
      + destruct (Z.eqb_spec cNw 0) as [_|?]; [|lia]. cbn [andb].
        destruct (Z.ltb_spec 1 cBb) as [_|?]; [|lia]. cbn [negb andb].
        split; [discriminate|intros [?|[[?|?]|(? & ? & ?)]]; lia].
      + split; [discriminate|intros [?|[[?|?]|(? & ? & ?)]]; lia].
    - split; [intros _|reflexivity]. right. left. right. lia. }
  (* both sides have minors *)
  destruct (Z.eqb_spec cNb 0) as [Hnb|Hnb]; cbn [andb];
    [|split; [discriminate|intros [?|[[?|?]|(? & ? & ?)]]; lia]].
  destruct (Z.eqb_spec cNw 0) as [Hnw|Hnw]; cbn [andb];
    [|split; [discriminate|intros [?|[[?|?]|(? & ? & ?)]]; lia]].
  subst cNb cNw. rewrite !Z.add_0_l in *.
  destruct (Z.ltb_spec 1 cBb) as [Hb|Hb]; cbn [negb andb];
    [split; [discriminate|intros [?|[[?|?]|(? & ? & ?)]]; lia]|].
  destruct (Z.ltb_spec 1 cBw) as [Hw|Hw]; cbn [negb andb];
    [split; [discriminate|intros [?|[[?|?]|(? & ? & ?)]]; lia]|].
  match goal with
  | |- (if ?c then true else false) = true <-> _ =>
      replace (if c then true else false) with c by (destruct c; reflexivity)
  end.
  rewrite Hlight by lia.
  split.
  - intros Hex. right. right. repeat split; try lia. exact Hex.
  - intros [?|[[?|?]|(? & ? & Hex)]]; try lia. exact Hex.
Qed.

(** C5. [isDrawn(threefold)] is true exactly when the halfmove clock has
    reached 100, or the current key has occurred often enough (the recorded
    keys hold the earlier positions, the current position counts as one more
    occurrence: 3 in all for threefold, 2 otherwise), or the material is KK,
    KNK or KBK, or KBKB with the bishops on squares of opposite colours. *)
Theorem isDrawn_iff pos (threefold : bool) :
  wf_boardsb (Pos.boards pos) = true ->
  (Pos.isDrawn pos threefold = true
   <-> 100 <= Pos.halfmove pos
       \/ (if threefold then 3 else 2)
          <= occurrences (Pos.key pos) (m_hashes pos) + 1
       \/ material_KK (Pos.boards pos)
       \/ material_KNK_KBK (Pos.boards pos)
       \/ material_KBKB_opposite (Pos.boards pos)).
Proof.
  intros Hwf.
  destruct (Z.le_gt_cases 100 (Pos.halfmove pos)) as [Hhm|Hhm].
  { split; [intros _; now left|intros _].
    unfold Pos.isDrawn. now apply Z.leb_le in Hhm as ->. }
  destruct (Z.le_gt_cases (if threefold then 2 else 1)
              (occurrences (Pos.key pos) (m_hashes pos))) as [Hrep|Hrep].
  { split; [intros _; right; left; destruct threefold; lia|intros _].
    unfold Pos.isDrawn.
    destruct (100 <=? Pos.halfmove pos); [reflexivity|].
    rewrite repetitionScan_spec, occurrences_rev by (destruct threefold; lia).
    now apply Z.leb_le in Hrep as ->. }
  rewrite (isDrawn_by_material pos threefold Hwf Hhm)
    by (destruct threefold; lia).
  split.
  - intros H. right. right. exact H.
  - intros [H|[H|H]]; [lia | destruct threefold; lia | exact H].
Qed.

(** King and bishop against king and bishop on the other colour is drawn. *)
Lemma isDrawn_iff_witness :
  Pos.isDrawn kbkb_position false = true
  <-> 100 <= Pos.halfmove kbkb_position
      \/ 2 <= occurrences (Pos.key kbkb_position) (m_hashes kbkb_position) + 1
      \/ material_KK (Pos.boards kbkb_position)
      \/ material_KNK_KBK (Pos.boards kbkb_position)
      \/ material_KBKB_opposite (Pos.boards kbkb_position).
Proof.
  apply (isDrawn_iff kbkb_position false). vm_compute. reflexivity.
Defined.

Example isDrawn_kbkb : Pos.isDrawn kbkb_position false = true.
Proof. vm_compute. reflexivity. Qed.

Example isDrawn_kpk :
  Pos.isDrawn kpk_position false = false
  /\ Pos.isLikelyDrawn kpk_position = false.
Proof. vm_compute. auto. Qed.

(** A position met once before is drawn for the search ([threefold = false])
    but not yet for the game. *)
Example isDrawn_repetition :
  let pos := mkPosition false 1 (m_states kpk_position) [0x5678; 0x1; 0x2] in
  Pos.isDrawn pos false = true /\ Pos.isDrawn pos true = false.
Proof. vm_compute. auto. Qed.

(** *** Bits of shifted boards *)

Lemma AllSquares_testbit i : 0 <= i -> Z.testbit AllSquares i = (i <? 64).
Proof.
  intros Hi. change AllSquares with (Z.ones 64).
  rewrite Z.testbit_ones by lia.
  destruct (Z.leb_spec 0 i); [reflexivity|lia].
Qed.

Lemma bnot_spec b i :
  0 <= i -> Z.testbit (~~ b) i = (i <? 64) && negb (Z.testbit b i).
Proof.
  intros Hi. unfold bnot. now rewrite Z.ldiff_spec, AllSquares_testbit.
Qed.

Lemma u64_testbit x i : 0 <= i -> Z.testbit (u64 x) i = (i <? 64) && Z.testbit x i.
Proof.
  intros Hi. unfold u64.
  destruct (Z.ltb_spec i 64).
  - now rewrite Z.mod_pow2_bits_low by lia.
  - now rewrite Z.mod_pow2_bits_high by lia.
Qed.

Lemma fromSquare_testbit s i :
  0 <= s -> 0 <= i -> Z.testbit (fromSquare s) i = (i =? s).
Proof.
  intros Hs Hi. unfold fromSquare. rewrite Z.shiftl_spec by lia.
  destruct (Z.eqb_spec i s) as [->|Hne].
  - now rewrite Z.sub_diag.
  - destruct (Z.lt_ge_cases i s).
    + now rewrite Z.testbit_neg_r by lia.
    + replace (i - s) with (Z.succ (i - s - 1)) by lia.
      change 1 with (2 * 0 + 1).
      now rewrite Z.testbit_odd_succ, Z.testbit_0_l by lia.
Qed.

Lemma squares_fromSquare s : 0 <= s -> forall x, In x (squares (fromSquare s)) -> x = s.
Proof.
  intros Hs x Hx. apply squares_In in Hx. destruct Hx as (_ & Hx0 & Hb).
  rewrite fromSquare_testbit in Hb by lia. now apply Z.eqb_eq.
Qed.

Lemma In_squares_band a b s :
  In s (squares (a &&& b)) -> Z.testbit a s = true /\ Z.testbit b s = true.
Proof.
  intros H. apply squares_In in H. destruct H as (_ & _ & H).
  unfold band in H. rewrite Z.land_spec in H. now apply andb_true_iff.
Qed.

Lemma In_squares_testbit a s : In s (squares a) -> Z.testbit a s = true.
Proof. intros H. now apply squares_In in H. Qed.

Lemma In_squares_nonneg a s : In s (squares a) -> 0 <= s.
Proof. intros H. now apply squares_In in H. Qed.

Lemma band_testbit a b s : Z.testbit (a &&& b) s = Z.testbit a s && Z.testbit b s.
Proof. apply Z.land_spec. Qed.

Lemma bor_testbit a b s : Z.testbit (a ||| b) s = Z.testbit a s || Z.testbit b s.
Proof. apply Z.lor_spec. Qed.

Lemma shiftUp_testbit x d :
  0 <= d -> Z.testbit (shiftUp x) d = (d <? 64) && Z.testbit x (d - 8).
Proof.
  intros Hd. unfold shiftUp. rewrite u64_testbit by lia.
  now rewrite Z.shiftl_spec by lia.
Qed.

Lemma shiftDown_testbit x d : 0 <= d -> Z.testbit (shiftDown x) d = Z.testbit x (d + 8).
Proof. intros Hd. unfold shiftDown. now rewrite Z.shiftr_spec by lia. Qed.

Lemma shiftUpLeft_src x d :
  0 <= d -> Z.testbit (shiftUpLeft x) d = true -> Z.testbit x (d - 7) = true.
Proof.
  intros Hd. unfold shiftUpLeft. rewrite band_testbit, u64_testbit by lia.
  rewrite Z.shiftl_spec by lia. rewrite !andb_true_iff. tauto.
Qed.

Lemma shiftUpRight_src x d :
  0 <= d -> Z.testbit (shiftUpRight x) d = true -> Z.testbit x (d - 9) = true.
Proof.
  intros Hd. unfold shiftUpRight. rewrite band_testbit, u64_testbit by lia.
  rewrite Z.shiftl_spec by lia. rewrite !andb_true_iff. tauto.
Qed.

Lemma shiftDownLeft_src x d :
  0 <= d -> Z.testbit (shiftDownLeft x) d = true -> Z.testbit x (d + 9) = true.
Proof.
  intros Hd. unfold shiftDownLeft. rewrite band_testbit.
  rewrite Z.shiftr_spec by lia. rewrite !andb_true_iff. tauto.
Qed.

Lemma shiftDownRight_src x d :
  0 <= d -> Z.testbit (shiftDownRight x) d = true -> Z.testbit x (d + 7) = true.
Proof.
  intros Hd. unfold shiftDownRight. rewrite band_testbit.
  rewrite Z.shiftr_spec by lia. rewrite !andb_true_iff. tauto.
Qed.

(** The relative diagonal shifts move a pawn by the offset of the same name. *)
Lemma shiftUpLeftRelative_src us x d :
  0 <= d -> Z.testbit (shiftUpLeftRelative us x) d = true ->
  Z.testbit x (d - offset_upLeft us) = true.
Proof.
  destruct us; cbn [shiftUpLeftRelative offset_upLeft]; intros Hd H.
  - replace (d - -9) with (d + 9) by lia. now apply shiftDownLeft_src.
  - now apply shiftUpLeft_src.
Qed.

Lemma shiftUpRightRelative_src us x d :
  0 <= d -> Z.testbit (shiftUpRightRelative us x) d = true ->
  Z.testbit x (d - offset_upRight us) = true.
Proof.
  destruct us; cbn [shiftUpRightRelative offset_upRight]; intros Hd H.
  - replace (d - -7) with (d + 7) by lia. now apply shiftDownRight_src.
  - now apply shiftUpRight_src.
Qed.

Lemma shiftUpRelative_src us x d :
  0 <= d -> Z.testbit (shiftUpRelative us x) d = true ->
  Z.testbit x (d - offset_up us) = true.
Proof.
  destruct us; cbn [shiftUpRelative offset_up]; intros Hd H.
  - replace (d - -8) with (d + 8) by lia. now rewrite shiftDown_testbit in H.
  - rewrite shiftUp_testbit in H by assumption.
    now apply andb_true_iff in H as [_ H].
Qed.

Lemma Ranks_testbit r d :
  0 <= r -> 0 <= d -> Z.testbit (Ranks r) d = (8 * r <=? d) && (d <? 8 * r + 8).
Proof.
  intros Hr Hd. unfold Ranks. rewrite Z.shiftl_spec by lia.
  change Rank1 with (Z.ones 8).
  destruct (Z.leb_spec (8 * r) d).
  - rewrite Z.testbit_ones by lia.
    destruct (Z.leb_spec 0 (d - 8 * r)); [|lia]. cbn [andb].
    destruct (Z.ltb_spec (d - 8 * r) 8), (Z.ltb_spec d (8 * r + 8)); lia || reflexivity.
  - now rewrite Z.testbit_neg_r by lia.
Qed.

Lemma promotionRank_testbit us d :
  0 <= d ->
  Z.testbit (promotionRank us) d
  = match us with
    | Black => d <? 8
    | White => (56 <=? d) && (d <? 64)
    end.
Proof.
  intros Hd. destruct us; cbn [promotionRank].
  - change Rank1 with (Ranks 0). rewrite Ranks_testbit by lia.
    destruct (Z.leb_spec (8 * 0) d); [reflexivity|lia].
  - change Rank8 with (Ranks 7). now rewrite Ranks_testbit by lia.
Qed.

(** A double push never reaches the promotion rank. *)
Lemma double_push_not_promotion us x d :
  0 <= d ->
  Z.testbit (shiftUpRelative us (x &&& rankRelative us 2)) d = true ->
  Z.testbit (promotionRank us) d = false.
Proof.
  intros Hd. rewrite promotionRank_testbit by lia.
  destruct us; unfold shiftUpRelative, rankRelative, relativeRank.
  - rewrite shiftDown_testbit, band_testbit, Ranks_testbit by lia.
    rewrite !andb_true_iff. intros (_ & H1 & H2).
    apply Z.leb_le in H1. apply Z.ltb_ge. lia.
  - rewrite shiftUp_testbit, band_testbit by lia.
    rewrite !andb_true_iff. intros (_ & _ & H).
    destruct (Z.le_gt_cases 8 d) as [H8|H8].
    + rewrite Ranks_testbit in H by lia. apply andb_true_iff in H.
      destruct H as [H1 H2]. apply Z.ltb_lt in H2.
      destruct (Z.leb_spec 56 d); [lia|reflexivity].
    + destruct (Z.leb_spec 56 d); [lia|reflexivity].
Qed.

(** *** What the generators append *)

Lemma fold_left_append {A B} (f : list B -> A -> list B) (g : A -> list B) :
  (forall l a, f l a = l ++ g a) ->
  forall xs l, fold_left f xs l = l ++ flat_map g xs.
Proof.
  intros Hf xs. induction xs as [|a xs IH]; intros l; cbn [fold_left flat_map].
  - now rewrite app_nil_r.
  - now rewrite IH, Hf, app_assoc.
Qed.


Lemma pushStandards_app l s b : pushStandards l s b = l ++ standardsFrom s b.
Proof. unfold pushStandards, standardsFrom. now apply fold_left_append. Qed.

Lemma pushStandards_offset_app l off b :
  pushStandards_offset l off b = l ++ standardsBy off b.
Proof. unfold pushStandards_offset, standardsBy. now apply fold_left_append. Qed.

Lemma pushQueenPromotions_app l off b :
  pushQueenPromotions l off b = l ++ queenPromotionsBy off b.
Proof. unfold pushQueenPromotions, queenPromotionsBy. now apply fold_left_append. Qed.

Lemma pushEnPassants_app l off b :
  pushEnPassants l off b = l ++ enPassantsBy off b.
Proof. unfold pushEnPassants, enPassantsBy. now apply fold_left_append. Qed.

Lemma pushUnderpromotions_app o l off b :
  pushUnderpromotions o l off b = l ++ underpromotionsBy o off b.
Proof.
  unfold pushUnderpromotions, underpromotionsBy. apply fold_left_append.
  intros l' d. cbv zeta. unfold push.
  destruct (underpromotions o); [|reflexivity].
  now rewrite <- !app_assoc.
Qed.


Lemma precalculated_app piece Attacks l pos dstMask :
  precalculated piece Attacks l pos dstMask
  = l ++ tableMoves Attacks
           (Boards.forPieceOf (Pos.boards pos) piece (Pos.toMove pos)) dstMask.
Proof.
  unfold precalculated, tableMoves. apply fold_left_append.
  intros l' s. apply pushStandards_app.
Qed.



Lemma generateSliders_app t l pos dstMask :
  generateSliders t l pos dstMask = l ++ sliderMoves t pos dstMask.
Proof.
  unfold generateSliders, sliderMoves, tableMoves. cbv zeta.
  set (occ := Boards.forColor _ _ ||| Boards.forColor _ _).
  rewrite (fold_left_append
             (fun l0 src0 => pushStandards l0 src0 (getBishopAttacks t src0 occ &&& dstMask))
             (fun s => standardsFrom s (getBishopAttacks t s occ &&& dstMask)))
    by (intros; apply pushStandards_app).
  rewrite (fold_left_append
             (fun l0 src0 => pushStandards l0 src0 (getRookAttacks t src0 occ &&& dstMask))
             (fun s => standardsFrom s (getRookAttacks t s occ &&& dstMask)))
    by (intros; apply pushStandards_app).
  now rewrite app_assoc.
Qed.

Lemma generatePawnsNoisy_app l pos dstMask :
  generatePawnsNoisy l pos dstMask = l ++ generatePawnsNoisy [] pos dstMask.
Proof.
  unfold generatePawnsNoisy, generatePawnsNoisy_.
  destruct (Pos.toMove pos); cbv zeta;
    destruct (negb (Pos.enPassant pos =? Square_None));
    rewrite ?pushEnPassants_app, ?pushStandards_offset_app,
      ?pushQueenPromotions_app, ?app_nil_l, <- ?app_assoc; reflexivity.
Qed.

Lemma generatePawnsQuiet_app o l pos dstMask occ :
  generatePawnsQuiet o l pos dstMask occ
  = l ++ generatePawnsQuiet o [] pos dstMask occ.
Proof.
  unfold generatePawnsQuiet, generatePawnsQuiet_.
  destruct (Pos.toMove pos); cbv zeta;
    rewrite ?pushStandards_offset_app, ?pushUnderpromotions_app,
      ?app_nil_l, <- ?app_assoc; reflexivity.
Qed.

(** Without castling, [generateKings] is the king table alone. *)
Lemma generateKings_false t o l pos dstMask :
  generateKings t o false l pos dstMask
  = l ++ tableMoves (KingAttacks t)
           (Boards.forPieceOf (Pos.boards pos) King (Pos.toMove pos)) dstMask.
Proof. unfold generateKings. cbv zeta. apply precalculated_app. Qed.


Lemma In_standardsFrom s b x :
  In x (standardsFrom s b)
  <-> exists d, In d (squares b) /\ x = scored (Move_standard s d).
Proof.
  unfold standardsFrom. rewrite in_flat_map. split.
  - intros (d & Hd & [<-|[]]). now exists d.
  - intros (d & Hd & ->). exists d. split; [assumption|now left].
Qed.

Lemma In_standardsBy off b x :
  In x (standardsBy off b)
  <-> exists d, In d (squares b) /\ x = scored (Move_standard (d - off) d).
Proof.
  unfold standardsBy. rewrite in_flat_map. split.
  - intros (d & Hd & [<-|[]]). now exists d.
  - intros (d & Hd & ->). exists d. split; [assumption|now left].
Qed.

Lemma In_queenPromotionsBy off b x :
  In x (queenPromotionsBy off b)
  <-> exists d, In d (squares b) /\ x = scored (Move_promotion (d - off) d Queen).
Proof.
  unfold queenPromotionsBy. rewrite in_flat_map. split.
  - intros (d & Hd & [<-|[]]). now exists d.
  - intros (d & Hd & ->). exists d. split; [assumption|now left].
Qed.

Lemma In_enPassantsBy off b x :
  In x (enPassantsBy off b)
  <-> exists d, In d (squares b) /\ x = scored (Move_enPassant (d - off) d).
Proof.
  unfold enPassantsBy. rewrite in_flat_map. split.
  - intros (d & Hd & [<-|[]]). now exists d.
  - intros (d & Hd & ->). exists d. split; [assumption|now left].
Qed.

Lemma In_underpromotionsBy o off b x :
  In x (underpromotionsBy o off b) ->
  exists d p, In d (squares b) /\ p <> Queen /\ p <> Pawn /\ p <> King
              /\ x = scored (Move_promotion (d - off) d p).
Proof.
  unfold underpromotionsBy. rewrite in_flat_map.
  intros (d & Hd & [<-|Hx]).
  - exists d, Knight. repeat split; try discriminate; assumption.
  - destruct (underpromotions o); [|contradiction].
    destruct Hx as [<-|[<-|[]]].
    + exists d, Rook. repeat split; try discriminate; assumption.
    + exists d, Bishop. repeat split; try discriminate; assumption.
Qed.

Lemma In_tableMoves Attacks pieces dstMask x :
  In x (tableMoves Attacks pieces dstMask)
  <-> exists s d, In s (squares pieces)
                  /\ In d (squares (Attacks s &&& dstMask))
                  /\ x = scored (Move_standard s d).
Proof.
  unfold tableMoves. rewrite in_flat_map. split.
  - intros (s & Hs & Hx). apply In_standardsFrom in Hx.
    destruct Hx as (d & Hd & ->). now exists s, d.
  - intros (s & d & Hs & Hd & ->). exists s. split; [assumption|].
    apply In_standardsFrom. now exists d.
Qed.



(** *** Double check *)

Lemma multiple_isCheck pos : multiple (Pos.checkers pos) = true -> Pos.isCheck pos = true.
Proof.
  unfold Pos.isCheck, multiple, empty. intros H.
  destruct (Z.eqb_spec (Pos.checkers pos) 0) as [E|]; [|reflexivity].
  rewrite E in H. discriminate.
Qed.


Lemma kingMoves_source t pos dstMask sm :
  In sm (kingMoves t pos dstMask) ->
  type (move sm) = Standard
  /\ In (src (move sm))
        (squares (Boards.forPieceOf (Pos.boards pos) King (Pos.toMove pos)))
  /\ Z.testbit (KingAttacks t (src (move sm))) (dst (move sm)) = true
  /\ Z.testbit dstMask (dst (move sm)) = true.
Proof.
  unfold kingMoves. rewrite In_tableMoves. intros (s & d & Hs & Hd & ->).
  apply In_squares_band in Hd. cbn. tauto.
Qed.

(** C2. In double check [generateNoisy], [generateQuiet] and [generateAll]
    append the king moves and nothing else: every move they emit starts on a
    square of the mover's king board, which is the king square [kings[us]] of
    the position whenever the two agree. *)
Theorem double_check_only_king_moves t o pos l :
  multiple (Pos.checkers pos) = true ->
  let b := Pos.boards pos in
  let us := Pos.toMove pos in
  let ours := Boards.forColor b us in
  let theirs := Boards.forColor b (oppColor us) in
  generateNoisy t o l pos = l ++ kingMoves t pos theirs
  /\ generateQuiet t o l pos = l ++ kingMoves t pos (~~ (ours ||| theirs))
  /\ generateAll t o l pos = l ++ kingMoves t pos (~~ ours)
  /\ (forall dstMask sm,
        In sm (kingMoves t pos dstMask) ->
        type (move sm) = Standard
        /\ In (src (move sm)) (squares (Boards.forPieceOf b King us))
        /\ (Boards.forPieceOf b King us = fromSquare (Pos.king pos us) ->
            0 <= Pos.king pos us ->
            src (move sm) = Pos.king pos us)).
Proof.
  intros Hm b us ours theirs.
  pose proof (multiple_isCheck pos Hm) as Hc.
  repeat split.
  - unfold generateNoisy. cbv zeta.
    destruct (negb (Pos.enPassant pos =? Square_None));
      rewrite Hc, Hm; apply generateKings_false.
  - unfold generateQuiet. cbv zeta. rewrite Hc, Hm. apply generateKings_false.
  - unfold generateAll. cbv zeta.
    destruct (negb (Pos.enPassant pos =? Square_None));
      rewrite Hc, Hm; apply generateKings_false.
  - now apply kingMoves_source in H.
  - now apply kingMoves_source in H.
  - intros Hk Hk0. apply kingMoves_source in H.
    destruct H as (_ & Hs & _). fold b us in Hs. rewrite Hk in Hs.
    now apply squares_fromSquare in Hs.
Qed.

(** Checked by rook and bishop at once, white has the king moves a1-a2,
    a1-b1 (quiet; b2 is covered but pseudo-legal) and no capture. *)
Lemma double_check_only_king_moves_witness :
  generateNoisy ModelTables.tables standardOptions [] doubleCheck_position = []
  /\ map move (generateQuiet ModelTables.tables standardOptions [] doubleCheck_position)
     = [Move_standard (sq fa 1) (sq fb 1); Move_standard (sq fa 1) (sq fa 2);
        Move_standard (sq fa 1) (sq fb 2)]
  /\ map move (generateAll ModelTables.tables standardOptions [] doubleCheck_position)
     = [Move_standard (sq fa 1) (sq fb 1); Move_standard (sq fa 1) (sq fa 2);
        Move_standard (sq fa 1) (sq fb 2)].
Proof.
  destruct (double_check_only_king_moves ModelTables.tables standardOptions
              doubleCheck_position [] ltac:(vm_compute; reflexivity))
    as (Hn & Hq & Ha & _).
  rewrite Hn, Hq, Ha. vm_compute. auto.
Defined.

(** *** The pawn generators *)

Lemma targetIdx_of_under p : p <> Queen -> targetIdx_of p <> 3.
Proof. destruct p; cbn; intros H; congruence || lia. Qed.



(** *** Single check *)
















(** *** The staged generator *)

(** One turn of the stage loop at the hash stage. *)
Lemma stages_hash t o c (q : bool) (fuel : nat) (g : MoveGenerator) :
  m_idx g = size (m_moves g) ->
  m_stage g = MovegenStage.Start ->
  Move_isSome (m_hashMove g) = true ->
  stages t o c q (S fuel) g
  = Some (inl (m_hashMove g, set_stage g MovegenStage.Hash)).
Proof.
  intros Hidx Hstage Hsome. cbn [stages].
  rewrite Hidx, Z.eqb_refl. cbn [orb].
  cbn [m_stage m_hashMove set_stage]. rewrite Hstage, Hsome. reflexivity.
Qed.

(** The first call of [next] hands out any hash move that is not [NullMove];
    [isPseudolegal] is not consulted at the hash stage. *)
Lemma next_hash_unchecked t o c (q : bool) (fuel : nat) pos killer hashMove
  prevMove prevPrevMove history :
  Move_isSome hashMove = true ->
  next t o c q (S fuel)
    (MoveGenerator_new pos killer hashMove prevMove prevPrevMove history)
  = Some (hashMove,
          set_stage (MoveGenerator_new pos killer hashMove prevMove
                       prevPrevMove history)
                    MovegenStage.Hash).
Proof.
  intros Hsome.
  cbn [next].
  rewrite (stages_hash t o c q 15); reflexivity || assumption.
Qed.

(** C4, at a failing input. In the position with Ke1, Nf3 against Kg8 and
    pawn e5 the stored hash move a1-a8 is not pseudo-legal (a1 is empty), and
    the first call of [next] yields it all the same. *)
Theorem hash_move_yielded_without_check :
  let hashMove := Move_standard (sq fa 1) (sq fa 8) in
  let g := MoveGenerator_new knightFork_position NullMove hashMove
             HistoryMove_none HistoryMove_none None in
  Move_isSome hashMove = true
  /\ ModelCollaborators.isPseudolegal knightFork_position hashMove = false
  /\ option_map fst
       (next ModelTables.tables standardOptions ModelCollaborators.collaborators
          false 1 g)
     = Some hashMove.
Proof. vm_compute. auto. Qed.

(** C3, at a failing input. Same position; black's last move was the king to
    g8 and the history holds f3-e5 as countermove to it. [next] yields the
    capture f3xe5 at the good-noisy stage, while [m_countermove] is still
    [NullMove], and yields it again at the countermove stage. *)
Theorem countermove_yielded_twice :
  let capture := Move_standard (sq ff 3) (sq fe 5) in
  let g := MoveGenerator_new knightFork_position NullMove NullMove
             kingToG8 HistoryMove_none (Some knightFork_history) in
  map (fun m => (src m, dst m))
      (firstn 3 (drain ModelTables.tables standardOptions
                   ModelCollaborators.collaborators false 64 g))
  = [(sq ff 3, sq fe 5); (sq ff 3, sq fe 5); (sq ff 3, sq fg 1)]
  /\ ~ NoDup (drain ModelTables.tables standardOptions
                ModelCollaborators.collaborators false 64 g).
Proof.
  cbv zeta. split; [vm_compute; reflexivity|].
  intros Hnd.
  assert (E : exists rest,
             drain ModelTables.tables standardOptions
               ModelCollaborators.collaborators false 64
               (MoveGenerator_new knightFork_position NullMove NullMove
                  kingToG8 HistoryMove_none (Some knightFork_history))
             = Move_standard (sq ff 3) (sq fe 5)
               :: Move_standard (sq ff 3) (sq fe 5) :: rest)
    by (eexists; vm_compute; reflexivity).
  destruct E as [rest E]. rewrite E in Hnd.
  inversion Hnd as [|x l Hnotin _]. apply Hnotin. now left.
Qed.

(** *** Noisy scoring *)


Lemma scoreNoisyMove_spec c pos sm :
  scoreNoisyMove c pos sm = mkScored (move sm) (noisyScore c pos (move sm)).
Proof.
  unfold scoreNoisyMove, noisyScore, losingCapture, promoBias, victimValue,
    attackerValue. cbv zeta.
  destruct (type (move sm)); cbn [MoveType_eqb];
    match goal with
    | |- context [if ?b then _ else _] => destruct b
    end; f_equal; lia.
Qed.

(** [PromoScores] read through [targetIdx_of] is the bias of the target. *)
Lemma PromoScores_target p :
  p <> Pawn -> p <> King ->
  nth (Z.to_nat (targetIdx_of p)) PromoScores 0 = promoScore p.
Proof. destruct p; intros; try contradiction; reflexivity. Qed.


Lemma insertByScore_In x l y : In y (insertByScore x l) <-> y = x \/ In y l.
Proof.
  induction l as [|z l IH]; cbn [insertByScore In].
  - intuition.
  - destruct (score x <? score z); cbn [In]; rewrite ?IH; intuition.
Qed.

Lemma stableSortByScore_In l y : In y (stableSortByScore l) <-> In y l.
Proof.
  induction l as [|x l IH]; cbn [stableSortByScore fold_right In]; [tauto|].
  fold (stableSortByScore l). rewrite insertByScore_In, IH. intuition.
Qed.

Lemma insertByScore_sorted x l :
  StronglySorted scoreDescending l ->
  StronglySorted scoreDescending (insertByScore x l).
Proof.
  induction l as [|z l IH]; intros Hs; cbn [insertByScore].
  - repeat constructor.
  - inversion Hs as [|? ? Hl Hz]; subst.
    destruct (Z.ltb_spec (score x) (score z)).
    + constructor; [now apply IH|].
      apply Forall_forall. intros y Hy. apply insertByScore_In in Hy.
      destruct Hy as [->|Hy].
      * unfold scoreDescending. lia.
      * rewrite Forall_forall in Hz. now apply Hz.
    + constructor; [assumption|].
      constructor; [unfold scoreDescending; lia|].
      rewrite Forall_forall in Hz |- *. intros y Hy.
      specialize (Hz y Hy). unfold scoreDescending in *. lia.
Qed.

Lemma stableSortByScore_sorted l :
  StronglySorted scoreDescending (stableSortByScore l).
Proof.
  induction l as [|x l IH]; cbn [stableSortByScore fold_right].
  - constructor.
  - now apply insertByScore_sorted.
Qed.

(** On a list in falling order [find_if] splits the entries at or above the
    threshold from those below it. *)
Lemma findIf_boundary T l :
  StronglySorted scoreDescending l ->
  forall i sm, nth_error l i = Some sm ->
               (score sm < T <-> findIf (fun v => score v <? T) l <= Z.of_nat i).
Proof.
  induction l as [|x l IH]; intros Hs i sm Hnth.
  - destruct i; discriminate.
  - inversion Hs as [|? ? Hl Hx]; subst. cbn [findIf].
    destruct (Z.ltb_spec (score x) T) as [Hlt|Hge].
    + split; [lia|intros _].
      destruct i as [|i]; cbn [nth_error] in Hnth.
      * now inversion Hnth; subst.
      * apply nth_error_In in Hnth. rewrite Forall_forall in Hx.
        specialize (Hx sm Hnth). unfold scoreDescending in Hx. lia.
    + destruct i as [|i]; cbn [nth_error] in Hnth.
      * inversion Hnth; subst.
        assert (0 <= findIf (fun v => score v <? T) l).
        { clear. induction l as [|y l IH]; cbn [findIf]; [lia|].
          destruct (score y <? T); lia. }
        lia.
      * rewrite (IH Hl i sm Hnth). lia.
Qed.

(** [genNoisy] on a fresh generator: the noisy moves, scored and sorted. *)
Lemma genNoisy_fresh t o c pos killer hashMove prevMove prevPrevMove history :
  let g := genNoisy t o c
             (MoveGenerator_new pos killer hashMove prevMove prevPrevMove history) in
  let sorted := stableSortByScore
                  (map (scoreNoisyMove c pos) (generateNoisy t o [] pos)) in
  m_moves g = sorted
  /\ m_goodNoisyEnd g = findIf (fun v => score v <? GoodNoisyThreshold) sorted
  /\ m_noisyEnd g = size sorted.
Proof.
  cbv zeta. unfold genNoisy, scoreNoisy, MoveGenerator_new.
  cbn [m_moves m_idx m_pos m_goodNoisyEnd m_noisyEnd set_moves set_noisyEnd
         set_goodNoisyEnd Z.to_nat firstn skipn app Z.add].
  repeat split.
Qed.

(** C7. On a fresh generator [genNoisy] gives every noisy move the score
    [(victim - attacker) * 2000 + victim], with the pawn as victim of an
    en-passant capture and no victim on an empty square; a promotion adds
    its bias times [2000 * 2000], queen above knight above rook above bishop;
    a capture with a victim that the exchange evaluation calls losing is
    charged [8 * 2000 * 2000], which puts its score below the threshold that
    ends the good noisy moves, and after the sort exactly the entries from
    [m_goodNoisyEnd] on are below that threshold. The midgame values are
    assumed to lie in [0, 3998]. *)
Theorem noisy_scoring t o c pos killer hashMove prevMove prevPrevMove history :
  (forall p, 0 <= midgame (pieceValue c p) <= 3998) ->
  0 <= midgame (values_Pawn c) <= 3998 ->
  midgame (pieceValue c Piece_None) = 0 ->
  let g := genNoisy t o c
             (MoveGenerator_new pos killer hashMove prevMove prevPrevMove history) in
  (forall sm, In sm (m_moves g)
              <-> exists m, In m (map move (generateNoisy t o [] pos))
                            /\ sm = mkScored m (noisyScore c pos m))
  /\ (forall s d p, p <> Pawn -> p <> King ->
                    promoBias (Move_promotion s d p) = promoScore p)
  /\ promoScore Bishop < promoScore Rook < promoScore Knight
  /\ promoScore Knight < promoScore Queen
  /\ (forall m, type m = EnPassant -> victimValue c pos m = midgame (values_Pawn c))
  /\ (forall m, type m <> EnPassant ->
                Boards.pieceAt (Pos.boards pos) (dst m) = Piece_None ->
                victimValue c pos m = 0)
  /\ (forall m, losingCapture c pos m = true ->
                noisyScore c pos m < GoodNoisyThreshold)
  /\ (forall i sm, nth_error (m_moves g) i = Some sm ->
                   (score sm < GoodNoisyThreshold
                    <-> m_goodNoisyEnd g <= Z.of_nat i)).
Proof.
  intros Hval Hpawn Hnone g.
  destruct (genNoisy_fresh t o c pos killer hashMove prevMove prevPrevMove history)
    as (Hmoves & Hgood & _).
  fold g in Hmoves, Hgood.
  repeat split.
  - rewrite Hmoves. intros H. apply stableSortByScore_In, in_map_iff in H.
    destruct H as (sm0 & <- & Hin). exists (move sm0).
    split; [now apply in_map|apply scoreNoisyMove_spec].
  - rewrite Hmoves. intros (m & Hm & ->). apply stableSortByScore_In.
    apply in_map_iff in Hm. destruct Hm as (sm0 & <- & Hin).
    apply in_map_iff. exists sm0. split; [apply scoreNoisyMove_spec|assumption].
  - intros s d p Hp Hk. unfold promoBias. cbn [type Move_promotion targetIdx].
    now apply PromoScores_target.
  - intros m Hty. unfold victimValue. now rewrite Hty.
  - intros m Hty Hempty. unfold victimValue. rewrite Hempty, Hnone.
    destruct (type m); congruence.
  - intros m Hlose. unfold noisyScore. rewrite Hlose.
    assert (Hv : 0 <= victimValue c pos m <= 3998).
    { unfold victimValue. destruct (type m); auto. }
    assert (Ha : 0 <= attackerValue c pos m <= 3998) by apply Hval.
    assert (Hb : promoBias m <= 2).
    { unfold promoBias. destruct (type m); try lia.
      destruct (Z.to_nat (targetIdx m)) as [|[|[|[|[|n]]]]]; cbn; lia. }
    unfold GoodNoisyThreshold. lia.
  - rewrite Hgood. rewrite Hmoves in H.
    apply (findIf_boundary _ _ (stableSortByScore_sorted _) _ _ H).
  - rewrite Hgood. rewrite Hmoves in H.
    apply (findIf_boundary _ _ (stableSortByScore_sorted _) _ _ H).
Qed.

Lemma model_values_bounded p :
  0 <= midgame (pieceValue ModelCollaborators.collaborators p) <= 3998.
Proof. destruct p as [|bp col]; [|destruct bp]; cbn; lia. Qed.

(** Knight takes the loose pawn above the threshold, queen takes the guarded
    pawn below it: the good noisy moves end after the first entry. *)
Lemma noisy_scoring_witness :
  let g := genNoisy ModelTables.tables standardOptions
             ModelCollaborators.collaborators
             (MoveGenerator_new exchange_position NullMove NullMove
                HistoryMove_none HistoryMove_none None) in
  m_moves g
  = [mkScored (Move_standard (sq ff 3) (sq fe 5)) (-439900);
     mkScored (Move_standard (sq fd 1) (sq fd 5)) (-33599900)]
  /\ m_goodNoisyEnd g = 1
  /\ (forall i sm, nth_error (m_moves g) i = Some sm ->
                   (score sm < GoodNoisyThreshold
                    <-> m_goodNoisyEnd g <= Z.of_nat i)).
Proof.
  cbv zeta. split; [vm_compute; reflexivity|]. split; [vm_compute; reflexivity|].
  apply (noisy_scoring ModelTables.tables standardOptions
           ModelCollaborators.collaborators exchange_position NullMove NullMove
           HistoryMove_none HistoryMove_none None).
  - exact model_values_bounded.
  - cbn. lia.
  - reflexivity.
Defined.

(** *** Evaluation *)



(** Past the [i32] range the interpolation wraps: a midgame value of
    [100000000] at phase 24 comes out negative. *)
Example interpScore_wraps :
  Pos.interpScore
    (mkPosition false 1
       [stateOf kpk_boards 0 Square_None 0 0 0 noCastling ts_zero 24] [])
    (S_ 100000000 0)
  = -78956970.
Proof. vm_compute. reflexivity. Qed.

(** *** The pawn cache *)

Lemma fold_left_commute {A B} (F : B -> A -> B) (G : B -> B) (xs : list A) :
  (forall d a, F (G d) a = G (F d a)) ->
  forall d, fold_left F xs (G d) = G (fold_left F xs d).
Proof.
  intros HF. induction xs as [|a xs IH]; intros d; cbn [fold_left].
  - reflexivity.
  - now rewrite HF, IH.
Qed.

Lemma fold_left_invariant {A B} (P : B -> Prop) (F : B -> A -> B) (xs : list A) :
  (forall acc a, In a xs -> P acc -> P (F acc a)) ->
  forall init, P init -> P (fold_left F xs init).
Proof.
  induction xs as [|a xs IH]; intros HF init Hinit; cbn [fold_left].
  - exact Hinit.
  - apply IH.
    + intros acc b Hb. apply HF. now right.
    + apply HF; [now left|exact Hinit].
Qed.

(** The piece terms neither read nor write [pawnStructure], and they do not
    look at the opponent's record. *)
Ltac frame_cbn :=
  cbn [Evaluation.with_pawnStructure Evaluation.add_pawns Evaluation.add_knights Evaluation.add_bishops
         Evaluation.add_rooks Evaluation.add_kings Evaluation.add_mobility Evaluation.with_pawns
         Evaluation.with_knights Evaluation.with_bishops Evaluation.with_rooks Evaluation.with_kings
         Evaluation.with_mobility Evaluation.pawnAttacks Evaluation.semiOpen Evaluation.available
         Evaluation.passers Evaluation.pawnStructure Evaluation.pawns Evaluation.knights Evaluation.bishops
         Evaluation.rooks Evaluation.queens Evaluation.kings Evaluation.mobility Evaluation.hanging
         Evaluation.pinned Evaluation.kingSafety].

Ltac frame_cases :=
  cbv zeta; frame_cbn;
  repeat (match goal with
          | |- context [if ?b then _ else _] =>
              lazymatch b with
              | context [if _ then _ else _] => fail
              | _ => destruct b
              end
          end; frame_cbn);
  reflexivity.

Lemma evalPawns_frame us pos d v th th' :
  Evaluation.evalPawns us pos (Evaluation.with_pawnStructure d v) th
  = Evaluation.with_pawnStructure (Evaluation.evalPawns us pos d th') v.
Proof.
  unfold Evaluation.evalPawns. cbv zeta.
  change (Evaluation.passers (Evaluation.with_pawnStructure d v)) with (Evaluation.passers d).
  set (G := fun x => Evaluation.with_pawnStructure x v).
  change (Evaluation.with_pawnStructure ?x v) with (G x).
  rewrite <- fold_left_commute.
  - f_equal.
  - intros x a. unfold G. frame_cases.
Qed.

Ltac frame_fold v :=
  let G := fresh "G" in
  set (G := fun x => Evaluation.with_pawnStructure x v);
  repeat match goal with
         | |- context [Evaluation.with_pawnStructure ?x v] =>
             change (Evaluation.with_pawnStructure x v) with (G x)
         end;
  rewrite <- fold_left_commute;
  [ f_equal; unfold G; frame_cases
  | intros ? ?; unfold G; frame_cases ].

Lemma evalKnights_frame t us pos d v th th' :
  Evaluation.evalKnights t us pos (Evaluation.with_pawnStructure d v) th
  = Evaluation.with_pawnStructure (Evaluation.evalKnights t us pos d th') v.
Proof.
  unfold Evaluation.evalKnights. cbv zeta.
  destruct (empty (Boards.knightsT us (Pos.boards pos))); [reflexivity|].
  frame_fold v.
Qed.

Lemma evalBishops_frame t us pos d v th th' :
  Evaluation.evalBishops t us pos (Evaluation.with_pawnStructure d v) th
  = Evaluation.with_pawnStructure (Evaluation.evalBishops t us pos d th') v.
Proof.
  unfold Evaluation.evalBishops. cbv zeta.
  destruct (empty (Boards.bishopsT us (Pos.boards pos))); [reflexivity|].
  frame_fold v.
Qed.

Lemma evalRooks_frame t openFiles us pos d v th th' :
  Evaluation.evalRooks t openFiles us pos (Evaluation.with_pawnStructure d v) th
  = Evaluation.with_pawnStructure (Evaluation.evalRooks t openFiles us pos d th') v.
Proof.
  unfold Evaluation.evalRooks. cbv zeta.
  destruct (empty (Boards.rooksT us (Pos.boards pos))); [reflexivity|].
  frame_fold v.
Qed.

Lemma evalQueens_frame t us pos d v th th' :
  Evaluation.evalQueens t us pos (Evaluation.with_pawnStructure d v) th
  = Evaluation.with_pawnStructure (Evaluation.evalQueens t us pos d th') v.
Proof.
  unfold Evaluation.evalQueens. cbv zeta.
  destruct (empty (Boards.queensT us (Pos.boards pos))); [reflexivity|].
  frame_fold v.
Qed.

Lemma evalKing_frame openFiles us pos d v th th' :
  Evaluation.evalKing openFiles us pos (Evaluation.with_pawnStructure d v) th
  = Evaluation.with_pawnStructure (Evaluation.evalKing openFiles us pos d th') v.
Proof. unfold Evaluation.evalKing. frame_cases. Qed.

(** The piece stage carries a change of the two [pawnStructure] fields
    through unchanged. *)
Lemma pieceStage_frame t pos openFiles bd wd x y :
  Evaluation.pieceStage t pos openFiles
    (Evaluation.with_pawnStructure bd x) (Evaluation.with_pawnStructure wd y)
  = (Evaluation.with_pawnStructure (fst (Evaluation.pieceStage t pos openFiles bd wd)) x,
     Evaluation.with_pawnStructure (snd (Evaluation.pieceStage t pos openFiles bd wd)) y).
Proof.
  unfold Evaluation.pieceStage, Evaluation.evalHangingAndPinned, Evaluation.evalKingSafety.
  cbv zeta. cbn [fst snd].
  set (b1 := Evaluation.evalPawns Black pos bd wd).
  rewrite (evalPawns_frame Black pos bd x _ wd). fold b1.
  set (w1 := Evaluation.evalPawns White pos wd b1).
  rewrite (evalPawns_frame White pos wd y _ b1). fold w1.
  set (b2 := Evaluation.evalKnights t Black pos b1 w1).
  rewrite (evalKnights_frame t Black pos b1 x _ w1). fold b2.
  set (w2 := Evaluation.evalKnights t White pos w1 b2).
  rewrite (evalKnights_frame t White pos w1 y _ b2). fold w2.
  set (b3 := Evaluation.evalBishops t Black pos b2 w2).
  rewrite (evalBishops_frame t Black pos b2 x _ w2). fold b3.
  set (w3 := Evaluation.evalBishops t White pos w2 b3).
  rewrite (evalBishops_frame t White pos w2 y _ b3). fold w3.
  set (b4 := Evaluation.evalRooks t openFiles Black pos b3 w3).
  rewrite (evalRooks_frame t openFiles Black pos b3 x _ w3). fold b4.
  set (w4 := Evaluation.evalRooks t openFiles White pos w3 b4).
  rewrite (evalRooks_frame t openFiles White pos w3 y _ b4). fold w4.
  set (b5 := Evaluation.evalQueens t Black pos b4 w4).
  rewrite (evalQueens_frame t Black pos b4 x _ w4). fold b5.
  set (w5 := Evaluation.evalQueens t White pos w4 b5).
  rewrite (evalQueens_frame t White pos w4 y _ b5). fold w5.
  set (b6 := Evaluation.evalKing openFiles Black pos b5 w5).
  rewrite (evalKing_frame openFiles Black pos b5 x _ w5). fold b6.
  rewrite (evalKing_frame openFiles White pos w5 y _ b6).
  reflexivity.
Qed.


Lemma frame_rebuild d r :
  frame r = frame d ->
  r = Evaluation.with_passers (Evaluation.with_pawnStructure d (Evaluation.pawnStructure r))
        (Evaluation.passers r).
Proof.
  destruct d, r. unfold frame. cbn. intros H. injection H as -> -> -> -> -> -> -> -> -> -> -> -> ->.
  reflexivity.
Qed.

(** [evalPawnStructure] changes [pawnStructure] and [passers] only, and the
    passers it adds are pawns of the side it scores. *)
Lemma evalPawnStructure_result us pos ours theirs :
  let r := Evaluation.evalPawnStructure us pos ours theirs in
  frame r = frame ours
  /\ (forall i, Z.testbit (Evaluation.passers r) i = true ->
                Z.testbit (Evaluation.passers ours) i = true
                \/ Z.testbit (Boards.pawnsT us (Pos.boards pos)) i = true).
Proof.
  cbv zeta. unfold Evaluation.evalPawnStructure. cbv zeta.
  set (ourPawns := Boards.pawnsT us (Pos.boards pos)).
  set (P := fun acc : Evaluation.EvalData =>
              frame acc = frame ours
              /\ (forall i, Z.testbit (Evaluation.passers acc) i = true ->
                            Z.testbit (Evaluation.passers ours) i = true
                            \/ Z.testbit ourPawns i = true)).
  match goal with |- frame ?r = _ /\ _ => change (P r) end.
  apply fold_left_invariant.
  - intros acc a Ha [Hf Hp]. unfold P.
    pose proof (In_squares_nonneg _ _ Ha) as Ha0.
    pose proof (In_squares_testbit _ _ Ha) as Hab.
    assert (Hadd : forall i,
              Z.testbit (Evaluation.passers acc ||| fromSquare a) i = true ->
              Z.testbit (Evaluation.passers ours) i = true
              \/ Z.testbit ourPawns i = true).
    { intros i. rewrite bor_testbit, orb_true_iff.
      intros [Hi|Hi]; [now apply Hp|].
      destruct (Z.lt_ge_cases i 0) as [Hneg|Hi0].
      - rewrite Z.testbit_neg_r in Hi by assumption. discriminate.
      - rewrite fromSquare_testbit in Hi by assumption.
        apply Z.eqb_eq in Hi. subst i. now right. }
    repeat match goal with
           | |- context [if ?b then _ else _] =>
               lazymatch b with
               | context [if _ then _ else _] => fail
               | _ => destruct b
               end
           end;
      (split; [exact Hf|]);
      cbn [Evaluation.passers Evaluation.with_passers
             Evaluation.add_pawnStructure Evaluation.with_pawnStructure];
      first [exact Hp | exact Hadd].
  - apply fold_left_invariant.
    + intros acc a _ [Hf Hp]. split; [exact Hf|exact Hp].
    + split; [reflexivity|]. cbn. auto.
Qed.

Lemma replace_nth_length l i v : length (Evaluation.replace_nth l i v) = length l.
Proof.
  revert i. induction l as [|x l IH]; intros [|i]; cbn; auto.
Qed.

Lemma replace_nth_same l i v d :
  (i < length l)%nat -> nth i (Evaluation.replace_nth l i v) d = v.
Proof.
  revert i. induction l as [|x l IH]; intros [|i] Hi; cbn in *; try lia.
  - reflexivity.
  - apply IH. lia.
Qed.

Lemma replace_nth_other l i j v d :
  i <> j -> nth j (Evaluation.replace_nth l i v) d = nth j l d.
Proof.
  revert i j. induction l as [|x l IH]; intros [|i] [|j] Hne; cbn; auto;
    try contradiction.
Qed.

(** In a table of [2 ^ n] entries the probed slot exists. *)
Lemma probeIndex_in_range cache key (n : nat) :
  length cache = (2 ^ n)%nat ->
  (Evaluation.probeIndex cache key < length cache)%nat.
Proof.
  intros Hlen. unfold Evaluation.probeIndex. rewrite Hlen.
  assert (E : Z.of_nat (2 ^ n) - 1 = Z.ones (Z.of_nat n)).
  { rewrite Z.ones_equiv, Nat2Z.inj_pow. cbn. lia. }
  rewrite E, Z.land_ones by lia.
  pose proof (Z.mod_pos_bound key (2 ^ Z.of_nat n) ltac:(lia)) as Hb.
  apply Nat2Z.inj_lt. rewrite Z2Nat.id by lia.
  rewrite Nat2Z.inj_pow. cbn. lia.
Qed.

(** The slot written on a miss is the slot probed, and it then holds the
    entry written; the other slots keep theirs. *)
Lemma probe_store cache key e (n : nat) :
  length cache = (2 ^ n)%nat ->
  Evaluation.probe (Evaluation.store cache key e) key = e
  /\ length (Evaluation.store cache key e) = length cache
  /\ (forall j, j <> Evaluation.probeIndex cache key ->
                nth j (Evaluation.store cache key e) Evaluation.PawnCacheEntry_empty
                = nth j cache Evaluation.PawnCacheEntry_empty).
Proof.
  intros Hlen. unfold Evaluation.probe, Evaluation.store.
  repeat split.
  - unfold Evaluation.probeIndex at 1. rewrite replace_nth_length.
    fold (Evaluation.probeIndex cache key).
    apply replace_nth_same. now apply probeIndex_in_range with n.
  - apply replace_nth_length.
  - intros j Hj. apply replace_nth_other. congruence.
Qed.

(** Passers of the two sides are recovered from their union through the
    colour boards. *)
Lemma passers_split bl wh pawns pB pW :
  bl &&& wh = 0 ->
  (forall i, Z.testbit pB i = true -> Z.testbit (pawns &&& bl) i = true) ->
  (forall i, Z.testbit pW i = true -> Z.testbit (pawns &&& wh) i = true) ->
  (pB ||| pW) &&& bl = pB /\ (pB ||| pW) &&& wh = pW.
Proof.
  intros Hd HB HW.
  split; apply Z.bits_inj'; intros i Hi;
    specialize (HB i); specialize (HW i);
    apply (f_equal (fun z => Z.testbit z i)) in Hd; cbv beta in Hd;
    rewrite band_testbit, Z.bits_0 in Hd;
    rewrite band_testbit in HB, HW;
    rewrite band_testbit, bor_testbit;
    destruct (Z.testbit pB i), (Z.testbit pW i), (Z.testbit bl i),
      (Z.testbit wh i), (Z.testbit pawns i); cbn in *;
    try reflexivity; try discriminate;
    try (specialize (HB eq_refl); discriminate);
    try (specialize (HW eq_refl); discriminate).
Qed.

Lemma ts_sub_zero a : (a - ts_zero)%ts = a.
Proof. destruct a. unfold ts_sub. cbn. f_equal; lia. Qed.

(** The final score depends on the two [pawnStructure] fields through their
    difference only. *)
Lemma totalOf_structure pos bd wd x y :
  Evaluation.totalOf pos (Evaluation.with_pawnStructure bd x)
    (Evaluation.with_pawnStructure wd y)
  = Evaluation.totalOf pos
      (Evaluation.with_pawnStructure bd ts_zero)
      (Evaluation.with_pawnStructure wd (y - x)%ts).
Proof.
  unfold Evaluation.totalOf. cbv zeta. frame_cbn.
  now rewrite ts_sub_zero.
Qed.

(** The records start without pawn structure score and without passers. *)
Lemma initialData_fresh pos :
  let '(bd, wd, _) := Evaluation.initialData pos in
  Evaluation.pawnStructure bd = ts_zero
  /\ Evaluation.passers bd = 0
  /\ Evaluation.passers wd = 0.
Proof. unfold Evaluation.initialData. cbv zeta. repeat split. Qed.

Lemma evaluate_total t pos cache :
  Evaluation.m_total (fst (Evaluation.evaluate t pos cache))
  = let '(bd0, wd0, openFiles) := Evaluation.initialData pos in
    let '(_, bd, wd, _) := Evaluation.pawnStructureStage pos bd0 wd0 cache in
    stageTotal t pos openFiles bd wd.
Proof.
  unfold Evaluation.evaluate, stageTotal.
  destruct (Evaluation.initialData pos) as [[bd0 wd0] openFiles].
  destruct (Evaluation.pawnStructureStage pos bd0 wd0 cache) as [[[cached bd] wd] pc].
  destruct (Evaluation.pieceStage t pos openFiles bd wd) as [b2 w2].
  reflexivity.
Qed.

Lemma evaluate_final t pos cache :
  Evaluation.m_final (fst (Evaluation.evaluate t pos cache))
  = Evaluation.finalOf pos
      (Evaluation.m_total (fst (Evaluation.evaluate t pos cache))).
Proof.
  unfold Evaluation.evaluate.
  destruct (Evaluation.initialData pos) as [[bd0 wd0] openFiles].
  destruct (Evaluation.pawnStructureStage pos bd0 wd0 cache) as [[[cached bd] wd] pc].
  destruct (Evaluation.pieceStage t pos openFiles bd wd) as [b2 w2].
  reflexivity.
Qed.

Lemma stageTotal_structure t pos openFiles bd wd x y :
  stageTotal t pos openFiles (Evaluation.with_pawnStructure bd x)
    (Evaluation.with_pawnStructure wd y)
  = stageTotal t pos openFiles (Evaluation.with_pawnStructure bd ts_zero)
      (Evaluation.with_pawnStructure wd (y - x)%ts).
Proof.
  unfold stageTotal. rewrite !pieceStage_frame. cbn [fst snd].
  apply totalOf_structure.
Qed.

(** With a valid entry under the probed key, the evaluator built on the cache
    reaches the total of the evaluator built without one. *)
Lemma evaluate_cached_total t pos cache :
  m_colors (Pos.boards pos) Black &&& m_colors (Pos.boards pos) White = 0 ->
  let entry := Evaluation.probe cache (Pos.pawnKey pos) in
  (Evaluation.entry_key entry = Pos.pawnKey pos ->
   Evaluation.entry_eval entry = Evaluation.entry_eval (Evaluation.computedEntry pos)
   /\ Evaluation.entry_passers entry
      = Evaluation.entry_passers (Evaluation.computedEntry pos)) ->
  Evaluation.m_total (fst (Evaluation.evaluate t pos (Some cache)))
  = Evaluation.m_total (fst (Evaluation.evaluate t pos None)).
Proof.
  intros Hcol entry Hvalid.
  rewrite !evaluate_total.
  unfold Evaluation.pawnStructureStage.
  unfold Evaluation.computedEntry, Evaluation.structureOf in Hvalid.
  pose proof (initialData_fresh pos) as Hinit0.
  destruct (Evaluation.initialData pos) as [[bd0 wd0] openFiles].
  destruct Hinit0 as (Hps0 & HpB0 & HpW0).
  fold entry.
  destruct (Z.eqb_spec (Evaluation.entry_key entry) (Pos.pawnKey pos)) as [Hhit|Hmiss];
    [|reflexivity].
  destruct (Hvalid Hhit) as [Hev Hpa]. clear Hvalid.
  cbv zeta in Hev, Hpa |- *.
  cbn [Evaluation.entry_eval Evaluation.entry_passers] in Hev, Hpa.
  destruct (evalPawnStructure_result Black pos bd0 wd0) as [HfB HsB].
  destruct (evalPawnStructure_result White pos wd0
              (Evaluation.evalPawnStructure Black pos bd0 wd0)) as [HfW HsW].
  apply frame_rebuild in HfB, HfW.
  rewrite HpB0 in HsB. rewrite HpW0 in HsW.
  revert Hev Hpa HfB HsB HfW HsW.
  generalize (Evaluation.evalPawnStructure White pos wd0
                (Evaluation.evalPawnStructure Black pos bd0 wd0)).
  generalize (Evaluation.evalPawnStructure Black pos bd0 wd0).
  intros bdN wdN Hev Hpa HfB HsB HfW HsW.
  destruct (passers_split (m_colors (Pos.boards pos) Black)
              (m_colors (Pos.boards pos) White)
              (Boards.pawns (Pos.boards pos))
              (Evaluation.passers bdN) (Evaluation.passers wdN) Hcol)
    as [HsplitB HsplitW].
  { intros i Hi. destruct (HsB i Hi) as [H0|H]; [|exact H].
    rewrite Z.bits_0 in H0. discriminate. }
  { intros i Hi. destruct (HsW i Hi) as [H0|H]; [|exact H].
    rewrite Z.bits_0 in H0. discriminate. }
  unfold Boards.blackOccupancy, Boards.whiteOccupancy.
  rewrite Hev, Hpa, HsplitB, HsplitW. clear Hev Hpa HsplitB HsplitW HsB HsW.
  revert HfB HfW.
  generalize (Evaluation.pawnStructure bdN) (Evaluation.passers bdN)
    (Evaluation.pawnStructure wdN) (Evaluation.passers wdN).
  intros psB pB psW pW -> ->.
  transitivity
    (stageTotal t pos openFiles
       (Evaluation.with_pawnStructure (Evaluation.with_passers bd0 pB) ts_zero)
       (Evaluation.with_pawnStructure (Evaluation.with_passers wd0 pW)
          (psW - psB)%ts)).
  - f_equal. rewrite <- Hps0. destruct bd0; reflexivity.
  - symmetry. apply (stageTotal_structure t pos openFiles
                       (Evaluation.with_passers bd0 pB)
                       (Evaluation.with_passers wd0 pW) psB psW).
Qed.

(** A miss leaves the probed slot holding the computed entry, and the next
    evaluation of the same position hits it. *)
Example evaluate_kpk_cold :
  snd (Evaluation.evaluate ModelTables.tables kpk_position (Some kpk_coldCache))
  = Some kpk_warmCache
  /\ Evaluation.m_cachedPawnStructureEval
       (fst (Evaluation.evaluate ModelTables.tables kpk_position
               (Some kpk_coldCache))) = false
  /\ Evaluation.m_cachedPawnStructureEval
       (fst (Evaluation.evaluate ModelTables.tables kpk_position
               (Some kpk_warmCache))) = true.
Proof. vm_compute. repeat split. Qed.

(** C8. A position evaluated with a pawn cache of [2 ^ n] entries, the two
    colours of its boards disjoint. The probed entry counts as a hit exactly
    when its key is the pawn key of the position, and a hit leaves the cache as
    it is. On a mismatch the probed slot, and no other, is overwritten with
    the pawn key, the white-minus-black pawn structure score and the union of
    the two passer boards that [evalPawnStructure] computes. When the probed
    entry, if its key matches, holds these computed values, [staticEval] with
    the cache returns the score that [staticEval] returns without one. *)
Theorem pawn_cache_refinement t Tempo pos cache (n : nat) :
  length cache = (2 ^ n)%nat ->
  m_colors (Pos.boards pos) Black &&& m_colors (Pos.boards pos) White = 0 ->
  let key := Pos.pawnKey pos in
  let entry := Evaluation.probe cache key in
  let run := Evaluation.evaluate t pos (Some cache) in
  let blackData := fst (Evaluation.structureOf pos) in
  let whiteData := snd (Evaluation.structureOf pos) in
  let computed :=
    Evaluation.mkEntry key
      (Evaluation.pawnStructure whiteData - Evaluation.pawnStructure blackData)%ts
      (Evaluation.passers blackData ||| Evaluation.passers whiteData) in
  (Evaluation.m_cachedPawnStructureEval (fst run) = true
   <-> Evaluation.entry_key entry = key)
  /\ (Evaluation.entry_key entry = key -> snd run = Some cache)
  /\ (Evaluation.entry_key entry <> key ->
      exists cache',
        snd run = Some cache'
        /\ length cache' = length cache
        /\ Evaluation.probe cache' key = computed
        /\ forall j, j <> Evaluation.probeIndex cache key ->
                     nth j cache' Evaluation.PawnCacheEntry_empty
                     = nth j cache Evaluation.PawnCacheEntry_empty)
  /\ ((Evaluation.entry_key entry = key ->
       Evaluation.entry_eval entry = Evaluation.entry_eval computed
       /\ Evaluation.entry_passers entry = Evaluation.entry_passers computed) ->
      fst (Evaluation.staticEval t Tempo pos (Some cache))
      = fst (Evaluation.staticEval t Tempo pos None)).
Proof.
  intros Hlen Hcol key entry run blackData whiteData computed.
  assert (Ecomputed : computed = Evaluation.computedEntry pos).
  { unfold computed, blackData, whiteData, Evaluation.computedEntry.
    destruct (Evaluation.structureOf pos) as [bd wd]. reflexivity. }
  assert (Erun : (Evaluation.m_cachedPawnStructureEval (fst run)
                  = (Evaluation.entry_key entry =? key))
                 /\ snd run
                    = Some (if Evaluation.entry_key entry =? key then cache
                            else Evaluation.store cache key computed)).
  { rewrite Ecomputed.
    unfold run, entry, key, Evaluation.evaluate, Evaluation.computedEntry,
      Evaluation.structureOf, Evaluation.pawnStructureStage.
    destruct (Evaluation.initialData pos) as [[bd0 wd0] openFiles].
    cbv zeta.
    destruct (Evaluation.entry_key
                (Evaluation.probe cache (Pos.pawnKey pos)) =? Pos.pawnKey pos).
    - destruct (Evaluation.pieceStage t pos openFiles _ _). split; reflexivity.
    - destruct (Evaluation.pieceStage t pos openFiles _ _). split; reflexivity. }
  destruct Erun as [Eflag Ecache].
  repeat split.
  - rewrite Eflag. apply Z.eqb_eq.
  - intros Hhit. rewrite Eflag. now apply Z.eqb_eq.
  - intros Hhit. rewrite Ecache. apply Z.eqb_eq in Hhit. now rewrite Hhit.
  - intros Hmiss. exists (Evaluation.store cache key computed).
    apply Z.eqb_neq in Hmiss. rewrite Ecache, Hmiss.
    destruct (probe_store cache key computed n Hlen) as (Hp & Hl & Ho).
    repeat split; assumption.
  - intros Hvalid. rewrite Ecomputed in Hvalid.
    pose proof (evaluate_cached_total t pos cache Hcol Hvalid) as Htotal.
    unfold Evaluation.staticEval.
    pose proof (evaluate_final t pos (Some cache)) as Hf1.
    pose proof (evaluate_final t pos None) as Hf2.
    destruct (Evaluation.evaluate t pos (Some cache)) as [ev1 c1].
    destruct (Evaluation.evaluate t pos None) as [ev2 c2].
    cbn [fst] in *. now rewrite Hf1, Hf2, Htotal.
Qed.

Lemma pawn_cache_refinement_witness :
  (Evaluation.m_cachedPawnStructureEval
     (fst (Evaluation.evaluate ModelTables.tables kpk_position
             (Some kpk_warmCache))) = true
   <-> Evaluation.entry_key (Evaluation.probe kpk_warmCache 0x99) = 0x99)
  /\ fst (Evaluation.staticEval ModelTables.tables 10 kpk_position
            (Some kpk_warmCache))
     = fst (Evaluation.staticEval ModelTables.tables 10 kpk_position None).
Proof.
  destruct (pawn_cache_refinement ModelTables.tables 10 kpk_position
              kpk_warmCache 2 eq_refl eq_refl) as (Hhit & _ & _ & Heq).
  split; [exact Hhit|].
  apply Heq. intros _. vm_compute. split; reflexivity.
Defined.

(** *** The win-rate model *)

Example reduce_As :
  uci.std_reduce uci.As = S754_finite false 6424551674737336 (-46)
  /\ uci.static_cast_i32 (uci.std_reduce uci.As) = Some 91.
Proof. vm_compute. split; reflexivity. Qed.

(** The other grouping of the sum truncates to the same integer. *)
Example reduce_As_right :
  uci.static_cast_i32 (fold_right uci.f64_add (S754_zero false) uci.As) = Some 91.
Proof. vm_compute. reflexivity. Qed.

Lemma digits2_pos_bounds p :
  2 ^ (Zpos (digits2_pos p) - 1) <= Zpos p < 2 ^ Zpos (digits2_pos p).
Proof.
  induction p as [p IH|p IH|]; cbn [digits2_pos].
  - rewrite Pos2Z.inj_succ.
    replace (Z.succ (Zpos (digits2_pos p)) - 1) with (Z.succ (Zpos (digits2_pos p) - 1)) by lia.
    rewrite !Z.pow_succ_r by lia. lia.
  - rewrite Pos2Z.inj_succ.
    replace (Z.succ (Zpos (digits2_pos p)) - 1) with (Z.succ (Zpos (digits2_pos p) - 1)) by lia.
    rewrite !Z.pow_succ_r by lia. lia.
  - cbn. lia.
Qed.

Lemma digits2_pos_iter p k :
  digits2_pos (Pos.iter xO p k) = (digits2_pos p + k)%positive.
Proof.
  induction k as [|k IH] using Pos.peano_ind.
  - cbn. lia.
  - rewrite Pos.iter_succ. cbn [digits2_pos]. rewrite IH. lia.
Qed.

(** An integer of fewer than 53 binary digits converts exactly: its mantissa
    is shifted up to 53 digits. *)
Lemma f64_of_int_pos p (k : positive) :
  Zpos (digits2_pos p) - 53 = Zneg k ->
  uci.f64_of_int (Zpos p) = S754_finite false (Pos.iter xO p k) (Zneg k).
Proof.
  intros Hk. unfold uci.f64_of_int, binary_normalize, binary_round.
  assert (Hfexp : fexp 53 1024 (Zpos (digits2_pos p) + 0) = Zneg k).
  { unfold fexp, emin. rewrite Z.add_0_r. lia. }
  rewrite Hfexp. unfold shl_align. cbn [Z.sub Z.opp Z.add].
  unfold binary_round_aux, shr_fexp. cbn [Zdigits2 shr_record_of_loc].
  rewrite digits2_pos_iter.
  assert (Hfexp' : fexp 53 1024 (Zpos (digits2_pos p + k) + Zneg k) = Zneg k).
  { unfold fexp, emin. rewrite Pos2Z.inj_add. lia. }
  rewrite Hfexp', Z.sub_diag.
  cbn [shr shr_m loc_of_shr_record round_nearest_even Zdigits2 shr_record_of_loc].
  rewrite digits2_pos_iter, Hfexp', Z.sub_diag.
  cbn [shr shr_m].
  destruct (Z.leb_spec (Zneg k) (1024 - 53)) as [_|H]; [reflexivity|lia].
Qed.

(** From 240 on, the converted ply is not below [240.0]. *)
Lemma ply_not_below_240 ply :
  240 <= ply < 2 ^ 32 ->
  SFltb (uci.f64_of_int ply) (uci.f64_of_int 240) = false.
Proof.
  intros [Hlo Hhi].
  destruct ply as [|p|p]; try lia.
  pose proof (digits2_pos_bounds p) as [Hd1 Hd2].
  assert (Hd : 8 <= Zpos (digits2_pos p) <= 32).
  { split.
    - destruct (Z.le_gt_cases 8 (Zpos (digits2_pos p))) as [H|H]; [exact H|].
      assert (2 ^ Zpos (digits2_pos p) <= 2 ^ 7) by (apply Z.pow_le_mono_r; lia).
      lia.
    - destruct (Z.le_gt_cases (Zpos (digits2_pos p)) 32) as [H|H]; [exact H|].
      assert (2 ^ 32 <= 2 ^ (Zpos (digits2_pos p) - 1))
        by (apply Z.pow_le_mono_r; lia).
      lia. }
  destruct (Zpos (digits2_pos p) - 53) as [|k|k] eqn:Hk; try lia.
  rewrite (f64_of_int_pos p k Hk).
  change (uci.f64_of_int 240)
    with (S754_finite false 8444249301319680 (-45)).
  unfold SFltb, SFcompare.
  destruct (Z.compare_spec (Zneg k) (-45)) as [He|Hl|Hg]; try reflexivity.
  - injection He as ->.
    change (Pos.compare_cont Eq (Pos.iter xO p 45) 8444249301319680)
      with (Pos.compare p 240).
    destruct (Pos.compare_spec p 240) as [H|H|H]; try reflexivity. lia.
  - lia.
Qed.

(** Below 240 the argument is checked ply by ply. *)
Lemma winRateModel_m_below_240 ply :
  0 <= ply < 240 -> uci.f64_is (uci.winRateModel_m ply) ply 64 = true.
Proof.
  intros Hply.
  assert (Hall : forallb (fun n => uci.f64_is (uci.winRateModel_m (Z.of_nat n))
                                     (Z.of_nat n) 64)
                         (seq 0 240) = true) by (vm_compute; reflexivity).
  rewrite forallb_forall in Hall.
  specialize (Hall (Z.to_nat ply)).
  rewrite Z2Nat.id in Hall by lia.
  apply Hall, in_seq. lia.
Qed.

(** C9. [NormalizationK] being a value [uci.cpp] compiles with, and [ply] a
    [u32]: the sum of the four coefficients [As], truncated to an integer, is
    [NormalizationK], which is 91; and the argument [m] of the two cubic
    polynomials is exactly [min(ply, 240) / 64]. *)
Theorem winRateModel_constants (std_exp : spec_float -> spec_float)
  (NormalizationK povScore ply : Z) :
  uci.static_assert_NormalizationK NormalizationK = true ->
  0 <= ply < 2 ^ 32 ->
  uci.static_cast_i32 (uci.std_reduce uci.As) = Some NormalizationK
  /\ NormalizationK = 91
  /\ uci.f64_is (uci.winRateModel_m ply) (Z.min ply 240) 64 = true
  /\ uci.winRateModel std_exp povScore ply
     = uci.static_cast_i32
         (uci.f64_add (uci.f64_literal 5 1)
            (uci.f64_div (uci.f64_of_int 1000)
               (uci.f64_add (uci.f64_of_int 1)
                  (std_exp
                     (uci.f64_div
                        (uci.f64_sub (uci.cubic uci.As (uci.winRateModel_m ply))
                           (uci.std_clamp (uci.f64_of_int povScore)
                              (uci.f64_of_int (-4000)) (uci.f64_of_int 4000)))
                        (uci.cubic uci.Bs (uci.winRateModel_m ply))))))).
Proof.
  intros Hassert Hply.
  unfold uci.static_assert_NormalizationK in Hassert.
  destruct reduce_As as [_ Hsum]. rewrite Hsum in Hassert |- *.
  apply Z.eqb_eq in Hassert. subst NormalizationK.
  repeat split.
  destruct (Z.lt_ge_cases ply 240) as [Hlt|Hge].
  - rewrite Z.min_l by lia. apply winRateModel_m_below_240. lia.
  - rewrite Z.min_r by lia. unfold uci.winRateModel_m, uci.std_min.
    rewrite ply_not_below_240 by lia. vm_compute. reflexivity.
Qed.

Lemma winRateModel_constants_witness :
  uci.static_cast_i32 (uci.std_reduce uci.As) = Some 91
  /\ uci.f64_is (uci.winRateModel_m 300) 240 64 = true.
Proof.
  destruct (winRateModel_constants (fun x => x) 91 0 300) as (Hsum & _ & Hm & _).
  - vm_compute. reflexivity.
  - lia.
  - split; [exact Hsum | exact Hm].
Defined.

(** *** The pawn structure depends on the pawns only *)

Lemma fold_left_related {A B} (R : B -> B -> Prop) (F F' : B -> A -> B)
  (xs : list A) :
  (forall d d' a, R d d' -> R (F d a) (F' d' a)) ->
  forall d d', R d d' -> R (fold_left F xs d) (fold_left F' xs d').
Proof.
  intros HF. induction xs as [|a xs IH]; intros d d' Hd; cbn [fold_left].
  - exact Hd.
  - apply IH, HF, Hd.
Qed.

Ltac related_norm H1 H2 H3 :=
  cbn [Evaluation.add_pawnStructure Evaluation.with_passers
         Evaluation.with_pawnStructure Evaluation.pawnAttacks
         Evaluation.passers Evaluation.pawnStructure];
  rewrite <- ?H1, <- ?H2, <- ?H3.

Ltac related_step H1 H2 H3 :=
  related_norm H1 H2 H3;
  repeat (match goal with
          | |- context [if ?b then _ else _] =>
              lazymatch b with
              | context [if _ then _ else _] => fail
              | _ => destruct b
              end
          end; related_norm H1 H2 H3);
  repeat split.

Lemma evalPawnStructure_pawns us pos pos' ours ours' theirs theirs' :
  Boards.blackPawns (Pos.boards pos) = Boards.blackPawns (Pos.boards pos') ->
  Boards.whitePawns (Pos.boards pos) = Boards.whitePawns (Pos.boards pos') ->
  Evaluation.semiOpen theirs = Evaluation.semiOpen theirs' ->
  Evaluation.pawnAttacks ours = Evaluation.pawnAttacks ours'
  /\ Evaluation.passers ours = Evaluation.passers ours'
  /\ Evaluation.pawnStructure ours = Evaluation.pawnStructure ours' ->
  let r := Evaluation.evalPawnStructure us pos ours theirs in
  let r' := Evaluation.evalPawnStructure us pos' ours' theirs' in
  Evaluation.pawnAttacks r = Evaluation.pawnAttacks r'
  /\ Evaluation.passers r = Evaluation.passers r'
  /\ Evaluation.pawnStructure r = Evaluation.pawnStructure r'.
Proof.
  intros HB HW Hsemi Hours. cbv zeta.
  unfold Evaluation.evalPawnStructure. cbv zeta.
  assert (Hus : Boards.pawnsT us (Pos.boards pos)
                = Boards.pawnsT us (Pos.boards pos'))
    by (destruct us; assumption).
  assert (Hthem : Boards.pawnsT (oppColor us) (Pos.boards pos)
                  = Boards.pawnsT (oppColor us) (Pos.boards pos'))
    by (destruct us; assumption).
  rewrite <- Hus, <- Hthem, <- Hsemi.
  set (R := fun d d' : Evaluation.EvalData =>
              Evaluation.pawnAttacks d = Evaluation.pawnAttacks d'
              /\ Evaluation.passers d = Evaluation.passers d'
              /\ Evaluation.pawnStructure d = Evaluation.pawnStructure d').
  change (R ours ours') in Hours.
  match goal with |- ?a = ?a' /\ ?b = ?b' /\ ?c = ?c' =>
    match a with Evaluation.pawnAttacks ?r =>
      match a' with Evaluation.pawnAttacks ?r' => change (R r r') end end end.
  assert (Hstart : R ours ours') by exact Hours.
  clear Hours.
  apply fold_left_related; [|apply fold_left_related].
  - intros d d' square (H1 & H2 & H3). unfold R. related_step H1 H2 H3.
  - intros d d' square (H1 & H2 & H3). unfold R. related_step H1 H2 H3.
  - destruct Hstart as (H1 & H2 & H3). unfold R. related_step H1 H2 H3.
Qed.

Lemma initialData_pawns pos :
  let '(bd, wd, _) := Evaluation.initialData pos in
  let blackPawns := Boards.blackPawns (Pos.boards pos) in
  let whitePawns := Boards.whitePawns (Pos.boards pos) in
  (Evaluation.pawnAttacks bd = shiftDownLeft blackPawns ||| shiftDownRight blackPawns
   /\ Evaluation.semiOpen bd = ~~ fillFile blackPawns
   /\ Evaluation.passers bd = 0
   /\ Evaluation.pawnStructure bd = ts_zero)
  /\ (Evaluation.pawnAttacks wd = shiftUpLeft whitePawns ||| shiftUpRight whitePawns
      /\ Evaluation.semiOpen wd = ~~ fillFile whitePawns
      /\ Evaluation.passers wd = 0
      /\ Evaluation.pawnStructure wd = ts_zero).
Proof. unfold Evaluation.initialData. cbv zeta. repeat split. Qed.

(** Two positions with the same pawns of each colour under the same pawn key
    compute the same cache entry: the entry is a function of the pawn
    configuration. *)
Lemma computedEntry_pawn_configuration pos pos' :
  Boards.blackPawns (Pos.boards pos) = Boards.blackPawns (Pos.boards pos') ->
  Boards.whitePawns (Pos.boards pos) = Boards.whitePawns (Pos.boards pos') ->
  Pos.pawnKey pos = Pos.pawnKey pos' ->
  Evaluation.computedEntry pos = Evaluation.computedEntry pos'.
Proof.
  intros HB HW Hkey.
  unfold Evaluation.computedEntry, Evaluation.structureOf.
  pose proof (initialData_pawns pos) as Hi.
  pose proof (initialData_pawns pos') as Hi'.
  destruct (Evaluation.initialData pos) as [[bd0 wd0] openFiles].
  destruct (Evaluation.initialData pos') as [[bd0' wd0'] openFiles'].
  cbv zeta in Hi, Hi'.
  destruct Hi as ((Ba & Bs & Bp & Bt) & (Wa & Ws & Wp & Wt)).
  destruct Hi' as ((Ba' & Bs' & Bp' & Bt') & (Wa' & Ws' & Wp' & Wt')).
  rewrite <- HB in Ba', Bs'. rewrite <- HW in Wa', Ws'.
  assert (HB0 : Evaluation.pawnAttacks bd0 = Evaluation.pawnAttacks bd0'
                /\ Evaluation.passers bd0 = Evaluation.passers bd0'
                /\ Evaluation.pawnStructure bd0 = Evaluation.pawnStructure bd0')
    by (repeat split; congruence).
  assert (HW0 : Evaluation.pawnAttacks wd0 = Evaluation.pawnAttacks wd0'
                /\ Evaluation.passers wd0 = Evaluation.passers wd0'
                /\ Evaluation.pawnStructure wd0 = Evaluation.pawnStructure wd0')
    by (repeat split; congruence).
  assert (HsemiW : Evaluation.semiOpen wd0 = Evaluation.semiOpen wd0') by congruence.
  pose proof (evalPawnStructure_pawns Black pos pos' bd0 bd0' wd0 wd0'
                HB HW HsemiW HB0) as (_ & HpB & HsB).
  assert (HsemiB1 : Evaluation.semiOpen (Evaluation.evalPawnStructure Black pos bd0 wd0)
                    = Evaluation.semiOpen
                        (Evaluation.evalPawnStructure Black pos' bd0' wd0')).
  { destruct (evalPawnStructure_result Black pos bd0 wd0) as [F1 _].
    destruct (evalPawnStructure_result Black pos' bd0' wd0') as [F2 _].
    apply (f_equal Evaluation.semiOpen) in F1, F2.
    unfold frame in F1, F2.
    cbn [Evaluation.semiOpen Evaluation.with_passers Evaluation.with_pawnStructure]
      in F1, F2.
    congruence. }
  pose proof (evalPawnStructure_pawns White pos pos' wd0 wd0'
                _ _ HB HW HsemiB1 HW0) as (_ & HpW & HsW).
  cbv zeta in HpB, HsB, HpW, HsW.
  now rewrite HpB, HsB, HpW, HsW, Hkey.
Qed.

(** * Further properties of the code *)

(** *** The rejection sampler of [Jsf64Rng] *)

Lemma threshold_mod bound :
  0 < bound < 2 ^ 32 -> Jsf64Rng.threshold bound = 2 ^ 32 mod bound.
Proof.
  intros Hb. unfold Jsf64Rng.threshold, u32. cbv zeta.
  assert (E : (- bound) mod 2 ^ 32 = 2 ^ 32 - bound).
  { symmetry. apply (Z.mod_unique _ _ (-1)); lia. }
  rewrite E.
  destruct (Z.geb_spec (2 ^ 32 - bound) bound) as [H1|H1].
  - assert (E2 : (2 ^ 32 - bound - bound) mod 2 ^ 32 = 2 ^ 32 - bound - bound)
      by (apply Z.mod_small; lia).
    rewrite E2.
    destruct (Z.geb_spec (2 ^ 32 - bound - bound) bound) as [H2|H2].
    + replace (2 ^ 32 - bound - bound) with (2 ^ 32 + (-2) * bound) by lia.
      now rewrite Z.mod_add by lia.
    + apply (Z.mod_unique _ _ 2); lia.
  - apply (Z.mod_unique _ _ 1); lia.
Qed.

(** The threshold that [nextU32(bound)] computes from [-bound] with at most
    one division is the remainder of [2^32] by [bound]. *)
Theorem threshold_is_remainder bound :
  0 < bound < 2 ^ 32 -> Jsf64Rng.threshold bound = 2 ^ 32 mod bound.
Proof. exact (threshold_mod bound). Qed.

Lemma threshold_is_remainder_witness : Jsf64Rng.threshold 10 = 2 ^ 32 mod 10.
Proof. apply threshold_is_remainder. lia. Defined.

Lemma reject_accepts fuel bound t :
  forall m l s m' s',
    (exists x s0, Jsf64Rng.nextU32 s0 = (x, s) /\ m = u64 (x * bound) /\ l = u32 m) ->
    Jsf64Rng.reject fuel bound t m l s = Some (m', s') ->
    exists x s0, Jsf64Rng.nextU32 s0 = (x, s') /\ m' = u64 (x * bound)
                 /\ t <= u32 m'.
Proof.
  induction fuel as [|k IH]; intros m l s m' s' Hinv; cbn [Jsf64Rng.reject].
  - destruct (Z.ltb_spec l t); [discriminate|]. intros [= <- <-].
    destruct Hinv as (x & s0 & Hx & Hm & Hl). exists x, s0.
    repeat split; try assumption. lia.
  - destruct (Z.ltb_spec l t).
    + destruct (Jsf64Rng.nextU32 s) as [x s1] eqn:Ex.
      apply IH. exists x, s. repeat split. exact Ex.
    + intros [= <- <-].
      destruct Hinv as (x & s0 & Hx & Hm & Hl). exists x, s0.
      repeat split; try assumption. lia.
Qed.

(** What [nextU32(bound)] returns is the high half of [x * bound] for the
    draw [x] it made last, and the low half of that product is at least
    [2^32 mod bound]: products below that remainder are always redrawn. *)
Theorem nextU32_bounded_accepts fuel s bound r s' :
  0 < bound < 2 ^ 32 ->
  Jsf64Rng.nextU32_bounded fuel s bound = Some (r, s') ->
  exists x s0,
    Jsf64Rng.nextU32 s0 = (x, s')
    /\ r = x * bound / 2 ^ 32
    /\ 2 ^ 32 mod bound <= (x * bound) mod 2 ^ 32.
Proof.
  intros Hb. unfold Jsf64Rng.nextU32_bounded.
  destruct (Z.eqb_spec bound 0) as [->|_]; [lia|].
  destruct (Jsf64Rng.nextU32 s) as [x s1] eqn:Ex. cbv zeta.
  assert (Hfinal : forall y s2, Jsf64Rng.nextU32 s2 = (y, s') ->
            u32 (Z.shiftr (u64 (y * bound)) 32) = y * bound / 2 ^ 32
            /\ u32 (u64 (y * bound)) = (y * bound) mod 2 ^ 32).
  { intros y s2 Hy.
    pose proof (nextU32_range s2) as Hr. rewrite Hy in Hr. cbn [fst] in Hr.
    assert (Hm : 0 <= y * bound < 2 ^ 32 * bound) by nia.
    rewrite u64_small by (change (2 ^ 64) with (2 ^ 32 * 2 ^ 32); nia).
    rewrite Z.shiftr_div_pow2 by lia. split; [|reflexivity].
    apply Z.mod_small. split.
    - apply Z.div_pos; lia.
    - apply Z.div_lt_upper_bound; lia. }
  destruct (Z.ltb_spec (u32 (u64 (x * bound))) bound) as [Hl|Hl].
  - destruct (Jsf64Rng.reject fuel bound (Jsf64Rng.threshold bound)
                (u64 (x * bound)) (u32 (u64 (x * bound))) s1)
      as [[m' s2]|] eqn:Hrej; [|discriminate].
    intros [= <- <-].
    apply reject_accepts in Hrej.
    + destruct Hrej as (y & s0 & Hy & -> & Ht).
      destruct (Hfinal y s0 Hy) as [Hhi Hlo].
      exists y, s0. rewrite threshold_mod in Ht by lia.
      repeat split; [assumption|assumption|lia].
    + exists x, s. repeat split. exact Ex.
  - intros [= <- <-].
    destruct (Hfinal x s Ex) as [Hhi Hlo].
    exists x, s. repeat split; [assumption|assumption|].
    pose proof (Z.mod_pos_bound (2 ^ 32) bound ltac:(lia)). lia.
Qed.

Lemma nextU32_bounded_accepts_witness :
  exists r s' x s0,
    Jsf64Rng.nextU32_bounded 1 (Jsf64Rng.make 42) 10 = Some (r, s')
    /\ Jsf64Rng.nextU32 s0 = (x, s')
    /\ r = x * 10 / 2 ^ 32
    /\ 2 ^ 32 mod 10 <= (x * 10) mod 2 ^ 32.
Proof.
  destruct (Jsf64Rng.nextU32_bounded 1 (Jsf64Rng.make 42) 10) as [[r s']|] eqn:E.
  - destruct (nextU32_bounded_accepts 1 (Jsf64Rng.make 42) 10 r s'
                ltac:(lia) E) as (x & s0 & H).
    exists r, s', x, s0. split; [reflexivity|exact H].
  - vm_compute in E. discriminate.
Defined.



(** *** The win-rate model saturates *)

Lemma f64_of_int_neg p (k : positive) :
  Zpos (digits2_pos p) - 53 = Zneg k ->
  uci.f64_of_int (Zneg p) = S754_finite true (Pos.iter xO p k) (Zneg k).
Proof.
  intros Hk. unfold uci.f64_of_int, binary_normalize, binary_round.
  assert (Hfexp : fexp 53 1024 (Zpos (digits2_pos p) + 0) = Zneg k).
  { unfold fexp, emin. rewrite Z.add_0_r. lia. }
  rewrite Hfexp. unfold shl_align. cbn [Z.sub Z.opp Z.add].
  unfold binary_round_aux, shr_fexp. cbn [Zdigits2 shr_record_of_loc].
  rewrite digits2_pos_iter.
  assert (Hfexp' : fexp 53 1024 (Zpos (digits2_pos p + k) + Zneg k) = Zneg k).
  { unfold fexp, emin. rewrite Pos2Z.inj_add. lia. }
  rewrite Hfexp', Z.sub_diag.
  cbn [shr shr_m loc_of_shr_record round_nearest_even Zdigits2 shr_record_of_loc].
  rewrite digits2_pos_iter, Hfexp', Z.sub_diag.
  cbn [shr shr_m].
  destruct (Z.leb_spec (Zneg k) (1024 - 53)) as [_|H]; [reflexivity|lia].
Qed.

Lemma compare_cont_iter p q k :
  Pos.compare_cont Eq (Pos.iter xO p k) (Pos.iter xO q k) = Pos.compare p q.
Proof.
  induction k as [|k IH] using Pos.peano_ind.
  - reflexivity.
  - rewrite !Pos.iter_succ. exact IH.
Qed.

Lemma digits2_pos_lt p q :
  (digits2_pos p < digits2_pos q)%positive -> (p < q)%positive.
Proof.
  intros H.
  pose proof (digits2_pos_bounds p) as [_ Hp].
  pose proof (digits2_pos_bounds q) as [Hq _].
  assert (2 ^ Zpos (digits2_pos p) <= 2 ^ (Zpos (digits2_pos q) - 1))
    by (apply Z.pow_le_mono_r; lia).
  lia.
Qed.

Lemma short_exponent p :
  Zpos p < 2 ^ 52 ->
  exists k, Zpos (digits2_pos p) - 53 = Zneg k.
Proof.
  intros Hp.
  pose proof (digits2_pos_bounds p) as [Hd _].
  assert (Hle : Zpos (digits2_pos p) <= 52).
  { destruct (Z.le_gt_cases (Zpos (digits2_pos p)) 52) as [H|H]; [exact H|].
    assert (2 ^ 52 <= 2 ^ (Zpos (digits2_pos p) - 1))
      by (apply Z.pow_le_mono_r; lia).
    lia. }
  destruct (Zpos (digits2_pos p) - 53) as [|k|k] eqn:E; try lia.
  now exists k.
Qed.

(** Integers below [2^52] in magnitude convert to doubles that compare as
    the integers do. *)
Lemma f64_of_int_compare a b :
  Z.abs a < 2 ^ 52 -> Z.abs b < 2 ^ 52 ->
  SFcompare (uci.f64_of_int a) (uci.f64_of_int b) = Some (a ?= b).
Proof.
  intros Ha Hb.
  assert (Hpos : forall p q kp kq,
            Zpos (digits2_pos p) - 53 = Zneg kp ->
            Zpos (digits2_pos q) - 53 = Zneg kq ->
            match Zneg kp ?= Zneg kq with
            | Eq => Pos.compare_cont Eq (Pos.iter xO p kp) (Pos.iter xO q kq)
            | Lt => Lt
            | Gt => Gt
            end = (p ?= q)%positive).
  { intros p q kp kq Hp Hq.
    destruct (Z.compare_spec (Zneg kp) (Zneg kq)) as [E|E|E].
    - injection E as ->. apply compare_cont_iter.
    - symmetry. apply Pos.compare_lt_iff, digits2_pos_lt. lia.
    - symmetry. apply Pos.compare_gt_iff, digits2_pos_lt. lia. }
  destruct a as [|p|p], b as [|q|q]; try reflexivity.
  - destruct (short_exponent q Hb) as [kq Hq].
    now rewrite (f64_of_int_pos q kq Hq).
  - destruct (short_exponent q Hb) as [kq Hq].
    now rewrite (f64_of_int_neg q kq Hq).
  - destruct (short_exponent p Ha) as [kp Hp].
    now rewrite (f64_of_int_pos p kp Hp).
  - destruct (short_exponent p Ha) as [kp Hp].
    destruct (short_exponent q Hb) as [kq Hq].
    rewrite (f64_of_int_pos p kp Hp), (f64_of_int_pos q kq Hq).
    cbn [SFcompare]. f_equal. now apply Hpos.
  - destruct (short_exponent p Ha) as [kp Hp].
    destruct (short_exponent q Hb) as [kq Hq].
    now rewrite (f64_of_int_pos p kp Hp), (f64_of_int_neg q kq Hq).
  - destruct (short_exponent p Ha) as [kp Hp].
    now rewrite (f64_of_int_neg p kp Hp).
  - destruct (short_exponent p Ha) as [kp Hp].
    destruct (short_exponent q Hb) as [kq Hq].
    now rewrite (f64_of_int_neg p kp Hp), (f64_of_int_pos q kq Hq).
  - destruct (short_exponent p Ha) as [kp Hp].
    destruct (short_exponent q Hb) as [kq Hq].
    rewrite (f64_of_int_neg p kp Hp), (f64_of_int_neg q kq Hq).
    cbn [SFcompare]. f_equal.
    pose proof (Hpos p q kp kq Hp Hq) as H.
    change (Zneg p ?= Zneg q) with (CompOpp (p ?= q)%positive).
    rewrite <- H.
    destruct (Zneg kp ?= Zneg kq); reflexivity.
Qed.

Lemma f64_of_int_ltb a b :
  Z.abs a < 2 ^ 52 -> Z.abs b < 2 ^ 52 ->
  SFltb (uci.f64_of_int a) (uci.f64_of_int b) = (a <? b).
Proof.
  intros Ha Hb. unfold SFltb. rewrite f64_of_int_compare by assumption.
  unfold Z.ltb. destruct (a ?= b); reflexivity.
Qed.

(** Beyond ply 240 and beyond a score of 4000 in either direction the model
    returns what it returns at these limits. *)
Theorem winRateModel_saturates (std_exp : spec_float -> spec_float)
  (povScore ply : Z) :
  - 2 ^ 31 <= povScore < 2 ^ 31 ->
  0 <= ply < 2 ^ 32 ->
  uci.winRateModel std_exp povScore ply
  = uci.winRateModel std_exp (Z.max (-4000) (Z.min 4000 povScore))
      (Z.min 240 ply).
Proof.
  intros Hs Hp.
  assert (Hm : uci.winRateModel_m ply = uci.winRateModel_m (Z.min 240 ply)).
  { unfold uci.winRateModel_m, uci.std_min.
    rewrite !f64_of_int_ltb by lia.
    destruct (Z.ltb_spec ply 240) as [H|H].
    - rewrite Z.min_r by lia. destruct (Z.ltb_spec ply 240); [reflexivity|lia].
    - rewrite Z.min_l by lia. reflexivity. }
  assert (Hx : uci.std_clamp (uci.f64_of_int povScore)
                 (uci.f64_of_int (-4000)) (uci.f64_of_int 4000)
               = uci.std_clamp
                   (uci.f64_of_int (Z.max (-4000) (Z.min 4000 povScore)))
                   (uci.f64_of_int (-4000)) (uci.f64_of_int 4000)).
  { unfold uci.std_clamp. rewrite !f64_of_int_ltb by lia.
    destruct (Z.ltb_spec povScore (-4000)) as [H1|H1].
    - rewrite Z.min_r, Z.max_l by lia. reflexivity.
    - destruct (Z.ltb_spec 4000 povScore) as [H2|H2].
      + rewrite Z.min_l, Z.max_r by lia. reflexivity.
      + rewrite Z.min_r, Z.max_r by lia.
        destruct (Z.ltb_spec povScore (-4000)); [lia|].
        destruct (Z.ltb_spec 4000 povScore); [lia|reflexivity]. }
  unfold uci.winRateModel. cbv zeta. now rewrite <- Hm, <- Hx.
Qed.

Lemma winRateModel_saturates_witness :
  uci.winRateModel (fun x => x) 9000 300
  = uci.winRateModel (fun x => x) 4000 240.
Proof. apply (winRateModel_saturates (fun x => x) 9000 300); lia. Defined.

(** *** Attack queries of [Position] *)

Lemma empty_bor a b : empty (a ||| b) = empty a && empty b.
Proof.
  unfold empty, bor.
  destruct (Z.eqb_spec (Z.lor a b) 0) as [E|E].
  - apply Z.lor_eq_0_iff in E as [-> ->]. reflexivity.
  - destruct (Z.eqb_spec a 0) as [->|]; [|reflexivity].
    destruct (Z.eqb_spec b 0) as [->|]; [|reflexivity].
    now rewrite Z.lor_0_l in E.
Qed.

Lemma isAttacked_attackersTo t pos square attacker :
  isAttacked t pos square attacker
  = negb (empty (attackersTo t pos square attacker)).
Proof.
  unfold isAttacked, attackersTo. cbv zeta.
  rewrite !empty_bor.
  change (empty 0) with true. cbn [andb].
  destruct (empty (Boards.knightsOf _ _ &&& _));
    destruct (empty (Boards.pawnsOf _ _ &&& _));
    destruct (empty (Boards.kingsOf _ _ &&& _));
    destruct (empty ((_ ||| Boards.bishopsOf _ _) &&& _));
    destruct (empty ((_ ||| Boards.rooksOf _ _) &&& _)); reflexivity.
Qed.

(** [isAttacked] answers whether [attackersTo] is non-empty: the early
    returns test the same five boards that [attackersTo] unites. *)
Theorem isAttacked_iff_attackersTo t pos square attacker :
  isAttacked t pos square attacker
  = negb (empty (attackersTo t pos square attacker)).
Proof. exact (isAttacked_attackersTo t pos square attacker). Qed.

(** With the two colours apart, the attackers of one colour are the
    attackers of either colour, computed over the whole occupancy, that
    stand on that colour's squares. *)
Theorem attackersTo_of_allAttackersTo t pos square attacker :
  m_colors (Pos.boards pos) Black &&& m_colors (Pos.boards pos) White = 0 ->
  attackersTo t pos square attacker
  = allAttackersTo t pos square (Boards.occupancy (Pos.boards pos))
    &&& Boards.forColor (Pos.boards pos) attacker.
Proof.
  intros Hcol.
  unfold attackersTo, allAttackersTo. cbv zeta.
  unfold Boards.queensOf, Boards.rooksOf, Boards.bishopsOf, Boards.pawnsOf,
    Boards.knightsOf, Boards.kingsOf, Boards.forPieceOf, Boards.blackPawns,
    Boards.whitePawns, Boards.blackOccupancy, Boards.whiteOccupancy,
    Boards.queens, Boards.rooks, Boards.bishops, Boards.knights, Boards.kings,
    Boards.pawns, Boards.forPiece, Boards.forColor.
  destruct attacker; cbn [oppColor]; bitblast.
Qed.

Lemma attackersTo_of_allAttackersTo_witness :
  attackersTo ModelTables.tables rookCheck_position (sq fa 1) Black
  = allAttackersTo ModelTables.tables rookCheck_position (sq fa 1)
      (Boards.occupancy (Pos.boards rookCheck_position))
    &&& Boards.forColor (Pos.boards rookCheck_position) Black.
Proof.
  apply (attackersTo_of_allAttackersTo ModelTables.tables rookCheck_position).
  vm_compute. reflexivity.
Defined.

(** [anyAttacked] finds an attacked square among the set bits of its
    argument, and only there. *)
Theorem anyAttacked_iff t pos sqs attacker :
  0 <= sqs ->
  (anyAttacked t pos sqs attacker = true
   <-> exists square, 0 <= square /\ Z.testbit sqs square = true
                      /\ isAttacked t pos square attacker = true).
Proof.
  intros Hs. unfold anyAttacked. rewrite existsb_exists. split.
  - intros (s & Hin & Hatt). apply squares_In in Hin as (_ & H0 & Hb).
    now exists s.
  - intros (s & H0 & Hb & Hatt). exists s. split; [|exact Hatt].
    apply squares_In. auto.
Qed.

Lemma anyAttacked_iff_witness :
  anyAttacked ModelTables.tables rookCheck_position
    (fromSquare (sq fa 1)) Black = true
  <-> exists square,
        0 <= square /\ Z.testbit (fromSquare (sq fa 1)) square = true
        /\ isAttacked ModelTables.tables rookCheck_position square Black = true.
Proof.
  apply (anyAttacked_iff ModelTables.tables rookCheck_position). vm_compute.
  discriminate.
Defined.

(** [calcCheckers] holds pieces of the opponent only, and it is non-empty
    exactly when the king of the side to move is attacked. *)
Theorem calcCheckers_opponents t pos :
  let us := Pos.toMove pos in
  negb (empty (calcCheckers t pos))
  = isAttacked t pos (Pos.king pos us) (oppColor us)
  /\ calcCheckers t pos &&& Boards.forColor (Pos.boards pos) (oppColor us)
     = calcCheckers t pos.
Proof.
  cbv zeta. split.
  - unfold calcCheckers. cbv zeta. now rewrite isAttacked_attackersTo.
  - unfold calcCheckers, attackersTo. cbv zeta.
    unfold Boards.queensOf, Boards.rooksOf, Boards.bishopsOf, Boards.pawnsOf,
      Boards.knightsOf, Boards.kingsOf, Boards.forPieceOf, Boards.forColor.
    generalize (m_colors (Pos.boards pos) (oppColor (Pos.toMove pos))).
    intros theirs. bitblast.
Qed.

(** *** Likely draws *)

Section LikelyDrawnCounts.

Variable b : PositionBoards.
Hypothesis Hwf : wf_boardsb b = true.

Let cnt := pieceCount b.

Lemma nonPk_eqb_knights c :
  (Boards.nonPk b &&& m_colors b c =? Boards.knights b &&& m_colors b c)
  = (cnt c Bishop + cnt c Rook + cnt c Queen =? 0).
Proof.
  set (rest := m_boards b Bishop ||| (m_boards b Rook ||| m_boards b Queen)).
  assert (Hrest : popcount (rest &&& m_colors b c)
                  = cnt c Bishop + cnt c Rook + cnt c Queen).
  { unfold rest. rewrite popcount_lor_land.
    - fold (Boards.majors b). rewrite (popcount_majors_of b Hwf).
      unfold cnt, pieceCount, Boards.forPieceOf, Boards.forColor. lia.
    - apply (piece_nonneg b Hwf).
    - apply bor_nonneg; apply (piece_nonneg b Hwf).
    - pose proof (pieces_disjoint b Hwf Bishop Rook ltac:(discriminate)).
      pose proof (pieces_disjoint b Hwf Bishop Queen ltac:(discriminate)).
      clear Hwf cnt rest. bitblast. }
  rewrite <- Hrest.
  rewrite <- (lor_eqb_left (Boards.knights b &&& m_colors b c)).
  - f_equal. unfold Boards.nonPk, Boards.minors, Boards.majors, Boards.knights,
      Boards.bishops, Boards.rooks, Boards.queens, Boards.forPiece, rest.
    clear Hwf cnt Hrest rest. bitblast.
  - apply band_nonneg, (piece_nonneg b Hwf).
  - apply band_nonneg. unfold rest.
    repeat apply bor_nonneg; apply (piece_nonneg b Hwf).
  - pose proof (pieces_disjoint b Hwf Knight Bishop ltac:(discriminate)).
    pose proof (pieces_disjoint b Hwf Knight Rook ltac:(discriminate)).
    pose proof (pieces_disjoint b Hwf Knight Queen ltac:(discriminate)).
    unfold Boards.knights, Boards.forPiece, rest.
    clear Hwf cnt Hrest rest. bitblast.
Qed.

Lemma nonPk_eqb_bishops_all :
  (Boards.nonPk b =? Boards.bishops b)
  = (cnt Black Knight + cnt White Knight + (cnt Black Rook + cnt White Rook)
     + (cnt Black Queen + cnt White Queen) =? 0).
Proof.
  set (rest := m_boards b Knight ||| (m_boards b Rook ||| m_boards b Queen)).
  assert (Hrest : popcount rest
                  = cnt Black Knight + cnt White Knight
                    + (cnt Black Rook + cnt White Rook)
                    + (cnt Black Queen + cnt White Queen)).
  { unfold rest. rewrite popcount_lor, popcount_lor.
    - rewrite !(popcount_piece b Hwf). fold cnt. lia.
    - apply (piece_nonneg b Hwf).
    - apply (piece_nonneg b Hwf).
    - apply (pieces_disjoint b Hwf). discriminate.
    - apply (piece_nonneg b Hwf).
    - apply bor_nonneg; apply (piece_nonneg b Hwf).
    - pose proof (pieces_disjoint b Hwf Knight Rook ltac:(discriminate)).
      pose proof (pieces_disjoint b Hwf Knight Queen ltac:(discriminate)).
      clear Hwf cnt rest. bitblast. }
  rewrite <- Hrest.
  rewrite <- (lor_eqb_left (Boards.bishops b)).
  - f_equal. unfold Boards.nonPk, Boards.minors, Boards.majors, Boards.knights,
      Boards.bishops, Boards.rooks, Boards.queens, Boards.forPiece, rest.
    clear Hwf cnt Hrest rest. bitblast.
  - apply (piece_nonneg b Hwf).
  - unfold rest. repeat apply bor_nonneg; apply (piece_nonneg b Hwf).
  - pose proof (pieces_disjoint b Hwf Bishop Knight ltac:(discriminate)).
    pose proof (pieces_disjoint b Hwf Bishop Rook ltac:(discriminate)).
    pose proof (pieces_disjoint b Hwf Bishop Queen ltac:(discriminate)).
    unfold Boards.bishops, Boards.forPiece, rest.
    clear Hwf cnt Hrest rest. bitblast.
Qed.

End LikelyDrawnCounts.

Ltac count_cases :=
  repeat (match goal with
          | |- context [Z.eqb ?a ?b] => destruct (Z.eqb_spec a b)
          | |- context [Z.ltb ?a ?b] => destruct (Z.ltb_spec a b)
          end; cbn [andb orb negb]; try (exfalso; lia)).

Lemma isLikelyDrawn_by_material pos :
  wf_boardsb (Pos.boards pos) = true ->
  (Pos.isLikelyDrawn pos = true <-> material_likelyDrawn (Pos.boards pos)).
Proof.
  intros Hwf. unfold Pos.isLikelyDrawn. cbv zeta.
  set (b := Pos.boards pos) in *.
  unfold Boards.blackNonPk, Boards.whiteNonPk, Boards.blackMinors,
    Boards.whiteMinors, Boards.blackBishops, Boards.whiteBishops,
    Boards.blackKnights, Boards.whiteKnights,
    Boards.blackOccupancy, Boards.whiteOccupancy.
  rewrite (empty_pawns b Hwf), (empty_majors b Hwf), (empty_nonPk b Hwf),
    !(empty_nonPk_of b Hwf), !(nonPk_eqb_knights b Hwf),
    (nonPk_eqb_bishops_all b Hwf), !(multiple_minors_of b Hwf),
    !multiple_bishops_of.
  unfold material_likelyDrawn. cbv zeta.
  change (popcount (Boards.knights b &&& m_colors b White))
    with (pieceCount b White Knight).
  change (popcount (Boards.knights b &&& m_colors b Black))
    with (pieceCount b Black Knight).
  change (popcount (Boards.bishops b &&& m_colors b White))
    with (pieceCount b White Bishop).
  change (popcount (Boards.bishops b &&& m_colors b Black))
    with (pieceCount b Black Bishop).
  pose proof (popcount_nonneg (Boards.forPieceOf b Pawn Black)).
  pose proof (popcount_nonneg (Boards.forPieceOf b Pawn White)).
  pose proof (popcount_nonneg (Boards.forPieceOf b Knight Black)).
  pose proof (popcount_nonneg (Boards.forPieceOf b Knight White)).
  pose proof (popcount_nonneg (Boards.forPieceOf b Bishop Black)).
  pose proof (popcount_nonneg (Boards.forPieceOf b Bishop White)).
  pose proof (popcount_nonneg (Boards.forPieceOf b Rook Black)).
  pose proof (popcount_nonneg (Boards.forPieceOf b Rook White)).
  pose proof (popcount_nonneg (Boards.forPieceOf b Queen Black)).
  pose proof (popcount_nonneg (Boards.forPieceOf b Queen White)).
  fold (pieceCount b Black Pawn) in *. fold (pieceCount b White Pawn) in *.
  fold (pieceCount b Black Knight) in *. fold (pieceCount b White Knight) in *.
  fold (pieceCount b Black Bishop) in *. fold (pieceCount b White Bishop) in *.
  fold (pieceCount b Black Rook) in *. fold (pieceCount b White Rook) in *.
  fold (pieceCount b Black Queen) in *. fold (pieceCount b White Queen) in *.
  assert (Hall : (forall c, pieceCount b c Pawn = 0 /\ pieceCount b c Rook = 0
                            /\ pieceCount b c Queen = 0)
                 <-> pieceCount b Black Pawn + pieceCount b White Pawn = 0
                     /\ pieceCount b Black Rook + pieceCount b White Rook
                        + pieceCount b Black Queen + pieceCount b White Queen = 0).
  { split.
    - intros Hc. pose proof (Hc Black). pose proof (Hc White). lia.
    - intros [? ?] []; lia. }
  rewrite Hall. clear Hall.
  set (cPb := pieceCount b Black Pawn) in *. set (cPw := pieceCount b White Pawn) in *.
  set (cNb := pieceCount b Black Knight) in *. set (cNw := pieceCount b White Knight) in *.
  set (cBb := pieceCount b Black Bishop) in *. set (cBw := pieceCount b White Bishop) in *.
  set (cRb := pieceCount b Black Rook) in *. set (cRw := pieceCount b White Rook) in *.
  set (cQb := pieceCount b Black Queen) in *. set (cQw := pieceCount b White Queen) in *.
  clearbody cPb cPw cNb cNw cBb cBw cRb cRw cQb cQw.
  destruct (Z.eqb_spec (cPb + cPw) 0) as [HP|HP]; cbn [negb orb];
    [|split; [discriminate|intros [[? ?] _]; lia]].
  destruct (Z.eqb_spec (cRb + cRw + cQb + cQw) 0) as [HM|HM]; cbn [negb orb];
    [|split; [discriminate|intros [[? ?] _]; lia]].
  assert (cRb = 0) by lia. assert (cRw = 0) by lia.
  assert (cQb = 0) by lia. assert (cQw = 0) by lia.
  subst cRb cRw cQb cQw. clear HM.
  rewrite !Z.add_0_r.
  assert (Hgoal : forall (x : bool) (Q : Prop),
            (x = true <-> Q) ->
            (x = true <-> (cPb + cPw = 0 /\ 0 = 0) /\ Q)).
  { intros x Q HQ. rewrite HQ. intuition. }
  apply Hgoal. clear Hgoal HP.
  count_cases;
    (split; [ first [ discriminate | intros _; lia ]
            | first [ reflexivity | intros ?; exfalso; lia ] ]).
Qed.

(** [isLikelyDrawn] by the count of pieces: no pawns, rooks or queens, and
    one side bare against at most two knights, or at most one minor piece
    each, or only bishops with at most two against at most one. *)
Theorem isLikelyDrawn_iff pos :
  wf_boardsb (Pos.boards pos) = true ->
  (Pos.isLikelyDrawn pos = true <-> material_likelyDrawn (Pos.boards pos)).
Proof. exact (isLikelyDrawn_by_material pos). Qed.

Lemma isLikelyDrawn_iff_witness :
  Pos.isLikelyDrawn kbkb_position = true
  <-> material_likelyDrawn (Pos.boards kbkb_position).
Proof. apply (isLikelyDrawn_iff kbkb_position). vm_compute. reflexivity. Defined.

(** A position that [isDrawn] calls drawn for its material, the halfmove
    clock and the repetitions not being the reason, is likely drawn as well:
    the evaluation is scaled down in every dead position. *)
Theorem isDrawn_material_isLikelyDrawn pos (threefold : bool) :
  wf_boardsb (Pos.boards pos) = true ->
  Pos.halfmove pos < 100 ->
  occurrences (Pos.key pos) (m_hashes pos) < (if threefold then 2 else 1) ->
  Pos.isDrawn pos threefold = true ->
  Pos.isLikelyDrawn pos = true.
Proof.
  intros Hwf Hhm Hrep Hdrawn.
  apply (isDrawn_by_material pos threefold Hwf Hhm Hrep) in Hdrawn.
  apply (isLikelyDrawn_by_material pos Hwf).
  unfold material_likelyDrawn. cbv zeta.
  unfold material_KK, material_KNK_KBK, material_KBKB_opposite, bareKing,
    loneMinor, loneBishop in Hdrawn.
  pose proof (popcount_nonneg (Boards.forPieceOf (Pos.boards pos) Knight Black)).
  pose proof (popcount_nonneg (Boards.forPieceOf (Pos.boards pos) Knight White)).
  pose proof (popcount_nonneg (Boards.forPieceOf (Pos.boards pos) Bishop Black)).
  pose proof (popcount_nonneg (Boards.forPieceOf (Pos.boards pos) Bishop White)).
  unfold pieceCount in *.
  destruct Hdrawn as [[Hw Hb]|[[[Hw Hb]|[Hb Hw]]|(Hw & Hb & _)]];
    (split; [intros []; lia | lia]).
Qed.

Lemma isDrawn_material_isLikelyDrawn_witness :
  Pos.isLikelyDrawn kbkb_position = true.
Proof.
  apply (isDrawn_material_isLikelyDrawn kbkb_position false);
    vm_compute; reflexivity.
Defined.

(** *** Updating [PositionBoards] *)

Lemma empty_band_fromSquare x s :
  0 <= s -> empty (x &&& fromSquare s) = negb (Z.testbit x s).
Proof.
  intros Hs. unfold empty, band.
  destruct (Z.testbit x s) eqn:E; cbn [negb].
  - apply Z.eqb_neq. intros H.
    apply (f_equal (fun z => Z.testbit z s)) in H. cbv beta in H.
    rewrite Z.land_spec, E, fromSquare_testbit, Z.eqb_refl, Z.bits_0 in H by lia.
    discriminate.
  - apply Z.eqb_eq. apply Z.bits_inj'. intros i Hi.
    rewrite Z.land_spec, fromSquare_testbit, Z.bits_0 by lia.
    destruct (Z.eqb_spec i s) as [->|]; [now rewrite E|apply andb_false_r].
Qed.

(** [pieceAt] reads the bits of its square and nothing else. *)
Lemma pieceAt_bits b s :
  0 <= s ->
  Boards.pieceAt b s
  = let find c :=
      match filter (fun p => Z.testbit (m_boards b p) s) allBasePieces with
      | p :: _ => colorPiece p c
      | [] => Piece_None
      end in
    if Z.testbit (m_colors b Black) s then find Black
    else if Z.testbit (m_colors b White) s then find White
    else Piece_None.
Proof.
  intros Hs. unfold Boards.pieceAt, Boards.blackOccupancy, Boards.whiteOccupancy,
    Boards.forPiece. cbv zeta.
  rewrite !empty_band_fromSquare, !negb_involutive by assumption.
  assert (E : filter (fun p => negb (empty (m_boards b p &&& fromSquare s)))
                allBasePieces
              = filter (fun p => Z.testbit (m_boards b p) s) allBasePieces).
  { apply filter_ext. intros p.
    now rewrite empty_band_fromSquare, negb_involutive. }
  now rewrite E.
Qed.

Lemma pieceAt_same_bits a b s :
  0 <= s ->
  (forall c, Z.testbit (m_colors a c) s = Z.testbit (m_colors b c) s) ->
  (forall p, Z.testbit (m_boards a p) s = Z.testbit (m_boards b p) s) ->
  Boards.pieceAt a s = Boards.pieceAt b s.
Proof.
  intros Hs Hc Hp. rewrite !pieceAt_bits by assumption. cbv zeta.
  rewrite !Hc.
  assert (E : filter (fun p => Z.testbit (m_boards a p) s) allBasePieces
              = filter (fun p => Z.testbit (m_boards b p) s) allBasePieces)
    by (apply filter_ext; intros p; apply Hp).
  now rewrite E.
Qed.

(** The piece on a square whose bits name exactly one colour and one piece. *)
Lemma pieceAt_found b s p c :
  0 <= s ->
  Z.testbit (m_colors b c) s = true ->
  Z.testbit (m_colors b (oppColor c)) s = false ->
  (forall q, Z.testbit (m_boards b q) s = true <-> q = p) ->
  Boards.pieceAt b s = colorPiece p c.
Proof.
  intros Hs Hc Ho Hp. rewrite pieceAt_bits by assumption. cbv zeta.
  assert (E : filter (fun q => Z.testbit (m_boards b q) s) allBasePieces = [p]).
  { assert (Hq : forall q, Z.testbit (m_boards b q) s
                           = if BasePiece_eq_dec q p then true else false).
    { intros q. destruct (BasePiece_eq_dec q p) as [->|Hne].
      - now apply Hp.
      - destruct (Z.testbit (m_boards b q) s) eqn:E; [|reflexivity].
        apply Hp in E. contradiction. }
    cbn [filter allBasePieces]. rewrite !Hq.
    destruct p; reflexivity. }
  rewrite E. destruct c; cbn [oppColor] in Ho; now rewrite ?Hc, ?Ho.
Qed.

Lemma pieceAt_vacant b s :
  0 <= s ->
  Z.testbit (m_colors b Black) s = false ->
  Z.testbit (m_colors b White) s = false ->
  Boards.pieceAt b s = Piece_None.
Proof.
  intros Hs HB HW. rewrite pieceAt_bits by assumption. cbv zeta.
  now rewrite HB, HW.
Qed.

Lemma wf_boards_intro b :
  (forall c, 0 <= m_colors b c < 2 ^ 64) ->
  (forall p, 0 <= m_boards b p < 2 ^ 64) ->
  m_colors b Black &&& m_colors b White = 0 ->
  (forall p q, p <> q -> m_boards b p &&& m_boards b q = 0) ->
  m_boards b Pawn ||| (m_boards b Knight ||| (m_boards b Bishop
    ||| (m_boards b Rook ||| (m_boards b Queen ||| (m_boards b King ||| 0)))))
  = m_colors b Black ||| m_colors b White ->
  wf_boardsb b = true.
Proof.
  intros Hc Hp Hd Hpq Ho.
  assert (Hin : forall x, 0 <= x < 2 ^ 64 -> in_u64 x = true).
  { intros x Hx. unfold in_u64. apply andb_true_iff. split.
    - apply Z.leb_le. lia.
    - apply Z.ltb_lt. lia. }
  unfold wf_boardsb. rewrite !andb_true_iff, !forallb_forall.
  repeat split.
  - apply Hin, Hc.
  - apply Hin, Hc.
  - intros p _. apply Hin, Hp.
  - now apply Z.eqb_eq.
  - intros p _. unfold disjoint_from. apply forallb_forall. intros q _.
    apply orb_true_iff.
    destruct (BasePiece_eq_dec p q) as [->|Hne].
    + left. now apply BasePiece_eqb_eq.
    + right. apply Z.eqb_eq. now apply Hpq.
  - apply Z.eqb_eq. exact Ho.
Qed.

(** Well-formed boards, square by square. *)
Lemma wf_boards_okBits b :
  wf_boardsb b = true
  <-> (forall c, 0 <= m_colors b c < 2 ^ 64)
      /\ (forall p, 0 <= m_boards b p < 2 ^ 64)
      /\ (forall i, 0 <= i -> okBits (bitsAt b i) = true).
Proof.
  split.
  - intros Hwf. destruct (wf_boards_elim b Hwf) as (Hc & Hp & Hd & Hpq & Ho).
    repeat split; try apply Hc; try apply Hp.
    intros i Hi.
    pose proof (Hpq Pawn Knight ltac:(discriminate)) as H01.
    pose proof (Hpq Pawn Bishop ltac:(discriminate)) as H02.
    pose proof (Hpq Pawn Rook ltac:(discriminate)) as H03.
    pose proof (Hpq Pawn Queen ltac:(discriminate)) as H04.
    pose proof (Hpq Pawn King ltac:(discriminate)) as H05.
    pose proof (Hpq Knight Bishop ltac:(discriminate)) as H12.
    pose proof (Hpq Knight Rook ltac:(discriminate)) as H13.
    pose proof (Hpq Knight Queen ltac:(discriminate)) as H14.
    pose proof (Hpq Knight King ltac:(discriminate)) as H15.
    pose proof (Hpq Bishop Rook ltac:(discriminate)) as H23.
    pose proof (Hpq Bishop Queen ltac:(discriminate)) as H24.
    pose proof (Hpq Bishop King ltac:(discriminate)) as H25.
    pose proof (Hpq Rook Queen ltac:(discriminate)) as H34.
    pose proof (Hpq Rook King ltac:(discriminate)) as H35.
    pose proof (Hpq Queen King ltac:(discriminate)) as H45.
    clear Hwf Hc Hp Hpq.
    unfold band, bor in *. bits_at i.
    unfold okBits, bitsAt. cbn [map allBasePieces].
    bits_cases; reflexivity.
  - intros (Hc & Hp & Hbits).
    assert (Hbit : forall i, 0 <= i ->
              okBits (map (fun c => Z.testbit (m_colors b c) i) [Black; White],
                      map (fun p => Z.testbit (m_boards b p) i) allBasePieces)
              = true) by exact Hbits.
    cbn [map allBasePieces] in Hbit.
    apply wf_boards_intro; try assumption.
    + unfold band. apply Z.bits_inj'. intros i Hi. specialize (Hbit i Hi).
      rewrite Z.land_spec, Z.bits_0. revert Hbit. unfold okBits.
      bits_cases.
    + intros p q Hne. unfold band. apply Z.bits_inj'. intros i Hi.
      specialize (Hbit i Hi). rewrite Z.land_spec, Z.bits_0. revert Hbit.
      unfold okBits.
      destruct p, q; try contradiction; bits_cases.
    + unfold bor. apply Z.bits_inj'. intros i Hi. specialize (Hbit i Hi).
      rewrite !Z.lor_spec, Z.bits_0. revert Hbit. unfold okBits.
      bits_cases.
Qed.

Lemma high_bits_clear x i : 0 <= x < 2 ^ 64 -> 64 <= i -> Z.testbit x i = false.
Proof.
  intros Hx Hi. destruct (Z.testbit x i) eqn:E; [|reflexivity].
  apply (testbit_below_64 x i Hx) in E. lia.
Qed.

Lemma range_of_high_bits z :
  (forall i, 64 <= i -> Z.testbit z i = false) -> 0 <= z < 2 ^ 64.
Proof.
  intros H.
  assert (E : z = u64 z).
  { apply Z.bits_inj'. intros i Hi. rewrite u64_testbit by assumption.
    destruct (Z.ltb_spec i 64); [reflexivity|]. now rewrite H. }
  rewrite E. apply u64_range.
Qed.

Lemma lxor_square_range x s :
  0 <= x < 2 ^ 64 -> 0 <= s < 64 -> 0 <= x ^^^ fromSquare s < 2 ^ 64.
Proof.
  intros Hx Hs. apply range_of_high_bits. intros i Hi. unfold bxor.
  rewrite Z.lxor_spec, (high_bits_clear x i Hx Hi), fromSquare_testbit by lia.
  destruct (Z.eqb_spec i s); [lia|reflexivity].
Qed.

Lemma lor_square_range x s :
  0 <= x < 2 ^ 64 -> 0 <= s < 64 -> 0 <= x ||| fromSquare s < 2 ^ 64.
Proof.
  intros Hx Hs. apply range_of_high_bits. intros i Hi. unfold bor.
  rewrite Z.lor_spec, (high_bits_clear x i Hx Hi), fromSquare_testbit by lia.
  destruct (Z.eqb_spec i s); [lia|reflexivity].
Qed.

Lemma ldiff_range x y : 0 <= x < 2 ^ 64 -> 0 <= Z.ldiff x y < 2 ^ 64.
Proof.
  intros Hx. apply range_of_high_bits. intros i Hi.
  now rewrite Z.ldiff_spec, (high_bits_clear x i Hx Hi).
Qed.

Lemma lxor_square_testbit x s i :
  0 <= s -> 0 <= i ->
  Z.testbit (x ^^^ fromSquare s) i = xorb (Z.testbit x i) (i =? s).
Proof. intros Hs Hi. unfold bxor. now rewrite Z.lxor_spec, fromSquare_testbit. Qed.

Lemma lor_square_testbit x s i :
  0 <= s -> 0 <= i ->
  Z.testbit (x ||| fromSquare s) i = Z.testbit x i || (i =? s).
Proof. intros Hs Hi. unfold bor. now rewrite Z.lor_spec, fromSquare_testbit. Qed.

Lemma ldiff_square_testbit x s i :
  0 <= s -> 0 <= i ->
  Z.testbit (Z.ldiff x (fromSquare s)) i = Z.testbit x i && negb (i =? s).
Proof. intros Hs Hi. now rewrite Z.ldiff_spec, fromSquare_testbit. Qed.

(** On well-formed boards a square without a piece has no bit set in any
    of the eight boards. *)
Lemma vacant_bits b s :
  wf_boardsb b = true -> 0 <= s ->
  Boards.pieceAt b s = Piece_None ->
  (forall c, Z.testbit (m_colors b c) s = false)
  /\ (forall p, Z.testbit (m_boards b p) s = false).
Proof.
  intros Hwf Hs Hnone.
  apply wf_boards_okBits in Hwf as (_ & _ & Hok). specialize (Hok s Hs).
  rewrite pieceAt_bits in Hnone by assumption.
  unfold okBits, bitsAt in Hok. cbv zeta in Hnone.
  cbn [map allBasePieces filter] in Hok, Hnone.
  split.
  - intros c. destruct c; revert Hok Hnone; bits_cases.
  - intros p. destruct p; revert Hok Hnone; bits_cases.
Qed.

(** The bits under a piece: its colour, its kind, and no other. *)
Lemma occupied_bits b s p c :
  wf_boardsb b = true -> 0 <= s ->
  Boards.pieceAt b s = colorPiece p c ->
  (forall c', Z.testbit (m_colors b c') s = Color_eqb c' c)
  /\ (forall p', Z.testbit (m_boards b p') s = BasePiece_eqb p' p).
Proof.
  intros Hwf Hs Hat.
  apply wf_boards_okBits in Hwf as (_ & _ & Hok). specialize (Hok s Hs).
  rewrite pieceAt_bits in Hat by assumption.
  unfold okBits, bitsAt in Hok. cbv zeta in Hat.
  cbn [map allBasePieces filter] in Hok, Hat.
  split.
  - intros c'. destruct c', c, p; revert Hok Hat; bits_cases.
  - intros p'. destruct p', c, p; revert Hok Hat; bits_cases.
Qed.

(** [setPiece] on a vacant square of well-formed boards puts the piece
    there, leaves every other square as it was, and keeps the boards
    well formed. *)
Theorem setPiece_vacant b s p c :
  wf_boardsb b = true -> 0 <= s < 64 ->
  Boards.pieceAt b s = Piece_None ->
  wf_boardsb (setPiece b s p c) = true
  /\ Boards.pieceAt (setPiece b s p c) s = colorPiece p c
  /\ (forall s', 0 <= s' -> s' <> s ->
                 Boards.pieceAt (setPiece b s p c) s' = Boards.pieceAt b s').
Proof.
  intros Hwf Hs Hnone.
  destruct (vacant_bits b s Hwf ltac:(lia) Hnone) as [Hvc Hvp].
  assert (Hs0 : 0 <= s) by lia.
  assert (Hcol : forall c' i, 0 <= i ->
            Z.testbit (m_colors (setPiece b s p c) c') i
            = xorb (Z.testbit (m_colors b c') i) (Color_eqb c' c && (i =? s))).
  { intros c' i Hi. unfold setPiece. cbn [m_colors].
    destruct (Color_eq_dec c' c) as [->|Hne].
    - rewrite lxor_square_testbit by assumption.
      now rewrite (proj2 (Color_eqb_eq c c) eq_refl).
    - destruct (Color_eqb c' c) eqn:E;
        [apply Color_eqb_eq in E; contradiction|now rewrite xorb_false_r]. }
  assert (Hpc : forall p' i, 0 <= i ->
            Z.testbit (m_boards (setPiece b s p c) p') i
            = xorb (Z.testbit (m_boards b p') i) (BasePiece_eqb p' p && (i =? s))).
  { intros p' i Hi. unfold setPiece. cbn [m_boards].
    destruct (BasePiece_eq_dec p' p) as [->|Hne].
    - rewrite lxor_square_testbit by assumption.
      now rewrite (proj2 (BasePiece_eqb_eq p p) eq_refl).
    - destruct (BasePiece_eqb p' p) eqn:E;
        [apply BasePiece_eqb_eq in E; contradiction|now rewrite xorb_false_r]. }
  pose proof (proj1 (wf_boards_okBits b) Hwf) as (Hrc & Hrp & Hok).
  split; [|split].
  - apply wf_boards_okBits. repeat split.
    + unfold setPiece. cbn [m_colors].
      destruct (Color_eq_dec c0 c); [apply lxor_square_range; auto|apply Hrc].
    + unfold setPiece. cbn [m_colors].
      destruct (Color_eq_dec c0 c); [apply lxor_square_range; auto|apply Hrc].
    + unfold setPiece. cbn [m_boards].
      destruct (BasePiece_eq_dec p0 p); [apply lxor_square_range; auto|apply Hrp].
    + unfold setPiece. cbn [m_boards].
      destruct (BasePiece_eq_dec p0 p); [apply lxor_square_range; auto|apply Hrp].
    + intros i Hi. specialize (Hok i Hi). unfold bitsAt in *.
      cbn [map allBasePieces] in *. rewrite !Hcol, !Hpc by assumption.
      destruct (Z.eqb_spec i s) as [->|Hne].
      * rewrite !Hvc, !Hvp. destruct c, p; reflexivity.
      * now rewrite !andb_false_r, !xorb_false_r.
  - apply pieceAt_found; try lia.
    + rewrite Hcol, Hvc, Z.eqb_refl by lia.
      now rewrite (proj2 (Color_eqb_eq c c) eq_refl).
    + rewrite Hcol, Hvc by lia. destruct c; reflexivity.
    + intros q. rewrite Hpc, Hvp, Z.eqb_refl, andb_true_r by lia.
      cbn [xorb]. apply BasePiece_eqb_eq.
  - intros s' Hs' Hne. apply pieceAt_same_bits; try assumption.
    + intros c'. rewrite Hcol by assumption.
      destruct (Z.eqb_spec s' s); [contradiction|].
      now rewrite andb_false_r, xorb_false_r.
    + intros p'. rewrite Hpc by assumption.
      destruct (Z.eqb_spec s' s); [contradiction|].
      now rewrite andb_false_r, xorb_false_r.
Qed.

Lemma setPiece_vacant_witness :
  Boards.pieceAt (setPiece kpk_boards (sq fh 8) Rook White) (sq fh 8)
  = colorPiece Rook White.
Proof.
  destruct (setPiece_vacant kpk_boards (sq fh 8) Rook White) as (_ & H & _).
  - vm_compute. reflexivity.
  - vm_compute. split; [discriminate|reflexivity].
  - vm_compute. reflexivity.
  - exact H.
Defined.

Lemma mask_testbit x a b i :
  0 <= a -> 0 <= b -> 0 <= i ->
  Z.testbit (x ^^^ (fromSquare a ||| fromSquare b)) i
  = xorb (Z.testbit x i) ((i =? a) || (i =? b)).
Proof.
  intros Ha Hb Hi. unfold bxor, bor.
  now rewrite Z.lxor_spec, Z.lor_spec, !fromSquare_testbit.
Qed.

Lemma mask_range x a b :
  0 <= x < 2 ^ 64 -> 0 <= a < 64 -> 0 <= b < 64 ->
  0 <= x ^^^ (fromSquare a ||| fromSquare b) < 2 ^ 64.
Proof.
  intros Hx Ha Hb. apply range_of_high_bits. intros i Hi.
  rewrite mask_testbit, (high_bits_clear x i Hx Hi) by lia.
  destruct (Z.eqb_spec i a); [lia|]. destruct (Z.eqb_spec i b); [lia|reflexivity].
Qed.

Lemma Color_eqb_refl c : Color_eqb c c = true.
Proof. destruct c; reflexivity. Qed.

Lemma BasePiece_eqb_refl p : BasePiece_eqb p p = true.
Proof. destruct p; reflexivity. Qed.

Lemma Color_eq_dec_eqb (A : Type) c' c (x y : A) :
  (if Color_eq_dec c' c then x else y) = if Color_eqb c' c then x else y.
Proof. destruct c', c; reflexivity. Qed.

Lemma BasePiece_eq_dec_eqb (A : Type) p' p (x y : A) :
  (if BasePiece_eq_dec p' p then x else y) = if BasePiece_eqb p' p then x else y.
Proof. destruct p', p; reflexivity. Qed.

(** [setPiece] toggles: applied twice it gives the boards back. *)
Theorem setPiece_twice b s p c :
  sameBoards (setPiece (setPiece b s p c) s p c) b.
Proof.
  unfold sameBoards, setPiece. cbn [m_colors m_boards]. split.
  - intros c'. destruct (Color_eq_dec c' c); [|reflexivity].
    unfold bxor. now rewrite Z.lxor_assoc, Z.lxor_nilpotent, Z.lxor_0_r.
  - intros p'. destruct (BasePiece_eq_dec p' p); [|reflexivity].
    unfold bxor. now rewrite Z.lxor_assoc, Z.lxor_nilpotent, Z.lxor_0_r.
Qed.

(** [removePiece] takes the piece off its square, leaves the other squares
    alone and keeps the boards well formed. *)
Theorem removePiece_occupied b s p c :
  wf_boardsb b = true -> 0 <= s < 64 ->
  Boards.pieceAt b s = colorPiece p c ->
  wf_boardsb (removePiece b s p c) = true
  /\ Boards.pieceAt (removePiece b s p c) s = Piece_None
  /\ (forall s', 0 <= s' -> s' <> s ->
                 Boards.pieceAt (removePiece b s p c) s' = Boards.pieceAt b s')
  /\ sameBoards (setPiece (removePiece b s p c) s p c) b.
Proof.
  intros Hwf Hs Hat.
  destruct (occupied_bits b s p c Hwf ltac:(lia) Hat) as [Hoc Hop].
  assert (Hs0 : 0 <= s) by lia.
  assert (Hcol : forall c' i, 0 <= i ->
            Z.testbit (m_colors (removePiece b s p c) c') i
            = Z.testbit (m_colors b c') i && negb (Color_eqb c' c && (i =? s))).
  { intros c' i Hi. unfold removePiece. cbn [m_colors].
    rewrite Color_eq_dec_eqb. destruct (Color_eqb c' c).
    - now rewrite ldiff_square_testbit.
    - now rewrite andb_true_r. }
  assert (Hpc : forall p' i, 0 <= i ->
            Z.testbit (m_boards (removePiece b s p c) p') i
            = Z.testbit (m_boards b p') i && negb (BasePiece_eqb p' p && (i =? s))).
  { intros p' i Hi. unfold removePiece. cbn [m_boards].
    rewrite BasePiece_eq_dec_eqb. destruct (BasePiece_eqb p' p).
    - now rewrite ldiff_square_testbit.
    - now rewrite andb_true_r. }
  pose proof (proj1 (wf_boards_okBits b) Hwf) as (Hrc & Hrp & Hok).
  split; [|split; [|split]].
  - apply wf_boards_okBits. split; [|split].
    + intros c'. unfold removePiece. cbn [m_colors].
      destruct (Color_eq_dec c' c); [apply ldiff_range|]; apply Hrc.
    + intros p'. unfold removePiece. cbn [m_boards].
      destruct (BasePiece_eq_dec p' p); [apply ldiff_range|]; apply Hrp.
    + intros i Hi. specialize (Hok i Hi). unfold bitsAt in *.
      cbn [map allBasePieces] in *. rewrite !Hcol, !Hpc by assumption.
      destruct (Z.eqb_spec i s) as [->|Hne].
      * rewrite !Hoc, !Hop. destruct c, p; reflexivity.
      * now rewrite !andb_false_r, !andb_true_r.
  - apply pieceAt_vacant; try lia.
    + rewrite Hcol, Hoc, Z.eqb_refl by lia. destruct c; reflexivity.
    + rewrite Hcol, Hoc, Z.eqb_refl by lia. destruct c; reflexivity.
  - intros s' Hs' Hne. apply pieceAt_same_bits; try assumption.
    + intros c'. rewrite Hcol by assumption.
      destruct (Z.eqb_spec s' s); [contradiction|].
      now rewrite andb_false_r, andb_true_r.
    + intros p'. rewrite Hpc by assumption.
      destruct (Z.eqb_spec s' s); [contradiction|].
      now rewrite andb_false_r, andb_true_r.
  - split.
    + intros c'. apply Z.bits_inj'. intros i Hi.
      unfold setPiece. cbn [m_colors]. rewrite Color_eq_dec_eqb.
      destruct (Color_eqb c' c) eqn:E.
      * rewrite lxor_square_testbit, Hcol, E by assumption.
        destruct (Z.eqb_spec i s) as [->|].
        -- rewrite Hoc, E. reflexivity.
        -- now rewrite andb_true_r, xorb_false_r.
      * rewrite Hcol, E by assumption. now rewrite andb_true_r.
    + intros p'. apply Z.bits_inj'. intros i Hi.
      unfold setPiece. cbn [m_boards]. rewrite BasePiece_eq_dec_eqb.
      destruct (BasePiece_eqb p' p) eqn:E.
      * rewrite lxor_square_testbit, Hpc, E by assumption.
        destruct (Z.eqb_spec i s) as [->|].
        -- rewrite Hop, E. reflexivity.
        -- now rewrite andb_true_r, xorb_false_r.
      * rewrite Hpc, E by assumption. now rewrite andb_true_r.
Qed.

(** [movePiece] carries the piece from its square to a vacant one: the
    piece stands on [dst], [src] is vacant, nothing else changes, the boards
    stay well formed, and moving the piece back restores them. *)
Theorem movePiece_to_vacant b src dst p c :
  wf_boardsb b = true -> 0 <= src < 64 -> 0 <= dst < 64 -> src <> dst ->
  Boards.pieceAt b src = colorPiece p c ->
  Boards.pieceAt b dst = Piece_None ->
  wf_boardsb (movePiece b src dst p c) = true
  /\ Boards.pieceAt (movePiece b src dst p c) dst = colorPiece p c
  /\ Boards.pieceAt (movePiece b src dst p c) src = Piece_None
  /\ (forall s', 0 <= s' -> s' <> src -> s' <> dst ->
                 Boards.pieceAt (movePiece b src dst p c) s' = Boards.pieceAt b s')
  /\ sameBoards (movePiece (movePiece b src dst p c) dst src p c) b.
Proof.
  intros Hwf Hs Hd Hne Hat Hnone.
  destruct (occupied_bits b src p c Hwf ltac:(lia) Hat) as [Hoc Hop].
  destruct (vacant_bits b dst Hwf ltac:(lia) Hnone) as [Hvc Hvp].
  assert (Hcol : forall c' i, 0 <= i ->
            Z.testbit (m_colors (movePiece b src dst p c) c') i
            = xorb (Z.testbit (m_colors b c') i)
                   (Color_eqb c' c && ((i =? src) || (i =? dst)))).
  { intros c' i Hi. unfold movePiece. cbn [m_colors].
    rewrite Color_eq_dec_eqb. destruct (Color_eqb c' c).
    - now rewrite mask_testbit by lia.
    - now rewrite xorb_false_r. }
  assert (Hpc : forall p' i, 0 <= i ->
            Z.testbit (m_boards (movePiece b src dst p c) p') i
            = xorb (Z.testbit (m_boards b p') i)
                   (BasePiece_eqb p' p && ((i =? src) || (i =? dst)))).
  { intros p' i Hi. unfold movePiece. cbn [m_boards].
    rewrite BasePiece_eq_dec_eqb. destruct (BasePiece_eqb p' p).
    - now rewrite mask_testbit by lia.
    - now rewrite xorb_false_r. }
  pose proof (proj1 (wf_boards_okBits b) Hwf) as (Hrc & Hrp & Hok).
  assert (Esd : (src =? dst) = false) by now apply Z.eqb_neq.
  assert (Eds : (dst =? src) = false) by (apply Z.eqb_neq; congruence).
  split; [|split; [|split; [|split]]].
  - apply wf_boards_okBits. split; [|split].
    + intros c'. unfold movePiece. cbn [m_colors].
      destruct (Color_eq_dec c' c); [apply mask_range; auto|apply Hrc].
    + intros p'. unfold movePiece. cbn [m_boards].
      destruct (BasePiece_eq_dec p' p); [apply mask_range; auto|apply Hrp].
    + intros i Hi. specialize (Hok i Hi). unfold bitsAt in *.
      cbn [map allBasePieces] in *. rewrite !Hcol, !Hpc by assumption.
      destruct (Z.eqb_spec i src) as [->|Hn1].
      * rewrite !Hoc, !Hop. destruct c, p; reflexivity.
      * destruct (Z.eqb_spec i dst) as [->|Hn2].
        -- rewrite !Hvc, !Hvp. destruct c, p; reflexivity.
        -- cbn [orb]. now rewrite !andb_false_r, !xorb_false_r.
  - apply pieceAt_found; try lia.
    + rewrite Hcol, Hvc, Eds, Z.eqb_refl, Color_eqb_refl by lia. reflexivity.
    + rewrite Hcol, Hvc by lia. destruct c; reflexivity.
    + intros q. rewrite Hpc, Hvp, Eds, Z.eqb_refl by lia.
      cbn [orb xorb]. rewrite andb_true_r. apply BasePiece_eqb_eq.
  - apply pieceAt_vacant; try lia.
    + rewrite Hcol, Hoc, Z.eqb_refl by lia. destruct c; reflexivity.
    + rewrite Hcol, Hoc, Z.eqb_refl by lia. destruct c; reflexivity.
  - intros s' Hs' Hn1 Hn2. apply pieceAt_same_bits; try assumption.
    + intros c'. rewrite Hcol by assumption.
      destruct (Z.eqb_spec s' src); [contradiction|].
      destruct (Z.eqb_spec s' dst); [contradiction|].
      now rewrite andb_false_r, xorb_false_r.
    + intros p'. rewrite Hpc by assumption.
      destruct (Z.eqb_spec s' src); [contradiction|].
      destruct (Z.eqb_spec s' dst); [contradiction|].
      now rewrite andb_false_r, xorb_false_r.
  - split.
    + intros c'. unfold movePiece. cbn [m_colors].
      destruct (Color_eq_dec c' c); [|reflexivity].
      unfold bxor, bor. rewrite Z.lxor_assoc.
      rewrite (Z.lor_comm (fromSquare dst)).
      now rewrite Z.lxor_nilpotent, Z.lxor_0_r.
    + intros p'. unfold movePiece. cbn [m_boards].
      destruct (BasePiece_eq_dec p' p); [|reflexivity].
      unfold bxor, bor. rewrite Z.lxor_assoc.
      rewrite (Z.lor_comm (fromSquare dst)).
      now rewrite Z.lxor_nilpotent, Z.lxor_0_r.
Qed.

(** The mask of [movePiece] is one bit when [src] and [dst] coincide: the
    call then toggles the square as [setPiece] does, so a piece "moved" onto
    its own square is taken off the board. *)
Theorem movePiece_same_square b s p c :
  sameBoards (movePiece b s s p c) (setPiece b s p c).
Proof.
  unfold sameBoards, movePiece, setPiece, bor. cbn [m_colors m_boards].
  rewrite Z.lor_diag. split; reflexivity.
Qed.

(** [moveAndChangePiece], the board update of a promotion: the pawn leaves
    [src], the target piece of the same colour stands on the vacant [dst],
    nothing else changes and the boards stay well formed. *)
Theorem moveAndChangePiece_to_vacant b src dst p c target :
  wf_boardsb b = true -> 0 <= src < 64 -> 0 <= dst < 64 -> src <> dst ->
  Boards.pieceAt b src = colorPiece p c ->
  Boards.pieceAt b dst = Piece_None ->
  let b' := moveAndChangePiece b src dst p c target in
  wf_boardsb b' = true
  /\ Boards.pieceAt b' dst = colorPiece target c
  /\ Boards.pieceAt b' src = Piece_None
  /\ (forall s', 0 <= s' -> s' <> src -> s' <> dst ->
                 Boards.pieceAt b' s' = Boards.pieceAt b s').
Proof.
  intros Hwf Hs Hd Hne Hat Hnone b'.
  destruct (occupied_bits b src p c Hwf ltac:(lia) Hat) as [Hoc Hop].
  destruct (vacant_bits b dst Hwf ltac:(lia) Hnone) as [Hvc Hvp].
  assert (Hcol : forall c' i, 0 <= i ->
            Z.testbit (m_colors b' c') i
            = xorb (Z.testbit (m_colors b c') i)
                   (Color_eqb c' c && ((i =? src) || (i =? dst)))).
  { intros c' i Hi. unfold b', moveAndChangePiece. cbn [m_colors].
    rewrite Color_eq_dec_eqb. destruct (Color_eqb c' c).
    - now rewrite mask_testbit by lia.
    - now rewrite xorb_false_r. }
  assert (Hpc : forall p' i, 0 <= i ->
            Z.testbit (m_boards b' p') i
            = (Z.testbit (m_boards b p') i
               && negb (BasePiece_eqb p' p && (i =? src)))
              || (BasePiece_eqb p' target && (i =? dst))).
  { intros p' i Hi. unfold b', moveAndChangePiece. cbv zeta. cbn [m_boards].
    rewrite !BasePiece_eq_dec_eqb.
    destruct (BasePiece_eqb p' target), (BasePiece_eqb p' p);
      rewrite ?lor_square_testbit, ?ldiff_square_testbit by lia;
      cbn [andb negb orb]; now rewrite ?andb_true_r, ?orb_false_r. }
  pose proof (proj1 (wf_boards_okBits b) Hwf) as (Hrc & Hrp & Hok).
  assert (Esd : (src =? dst) = false) by now apply Z.eqb_neq.
  assert (Eds : (dst =? src) = false) by (apply Z.eqb_neq; congruence).
  split; [|split; [|split]].
  - apply wf_boards_okBits. split; [|split].
    + intros c'. unfold b', moveAndChangePiece. cbn [m_colors].
      destruct (Color_eq_dec c' c); [apply mask_range; auto|apply Hrc].
    + intros p'. unfold b', moveAndChangePiece. cbv zeta. cbn [m_boards].
      destruct (BasePiece_eq_dec p' target), (BasePiece_eq_dec p' p);
        try apply lor_square_range; try apply ldiff_range; auto.
    + intros i Hi. specialize (Hok i Hi). unfold bitsAt in *.
      cbn [map allBasePieces] in *. rewrite !Hcol, !Hpc by assumption.
      destruct (Z.eqb_spec i src) as [->|Hn1].
      * rewrite Esd, !Hoc, !Hop. destruct c, p, target; reflexivity.
      * destruct (Z.eqb_spec i dst) as [->|Hn2].
        -- rewrite !Hvc, !Hvp. destruct c, p, target; reflexivity.
        -- cbn [orb]. now rewrite !andb_false_r, !xorb_false_r, !andb_true_r,
             !orb_false_r.
  - apply pieceAt_found; try lia.
    + rewrite Hcol, Hvc, Eds, Z.eqb_refl, Color_eqb_refl by lia. reflexivity.
    + rewrite Hcol, Hvc by lia. destruct c; reflexivity.
    + intros q. rewrite Hpc, Hvp, Z.eqb_refl by lia.
      cbn [andb orb]. rewrite andb_true_r. apply BasePiece_eqb_eq.
  - apply pieceAt_vacant; try lia.
    + rewrite Hcol, Hoc, Z.eqb_refl by lia. destruct c; reflexivity.
    + rewrite Hcol, Hoc, Z.eqb_refl by lia. destruct c; reflexivity.
  - intros s' Hs' Hn1 Hn2. apply pieceAt_same_bits; try assumption.
    + intros c'. rewrite Hcol by assumption.
      destruct (Z.eqb_spec s' src); [contradiction|].
      destruct (Z.eqb_spec s' dst); [contradiction|].
      now rewrite andb_false_r, xorb_false_r.
    + intros p'. rewrite Hpc by assumption.
      destruct (Z.eqb_spec s' src); [contradiction|].
      destruct (Z.eqb_spec s' dst); [contradiction|].
      now rewrite !andb_false_r, andb_true_r, orb_false_r.
Qed.

Lemma removePiece_occupied_witness :
  Boards.pieceAt (removePiece kpk_boards (sq fa 2) Pawn Black) (sq fa 2)
  = Piece_None
  /\ sameBoards (setPiece (removePiece kpk_boards (sq fa 2) Pawn Black)
                   (sq fa 2) Pawn Black)
                kpk_boards.
Proof.
  destruct (removePiece_occupied kpk_boards (sq fa 2) Pawn Black)
    as (_ & H & _ & Hback).
  - vm_compute. reflexivity.
  - vm_compute. split; [discriminate|reflexivity].
  - vm_compute. reflexivity.
  - split; assumption.
Defined.

Lemma movePiece_to_vacant_witness :
  Boards.pieceAt (movePiece kpk_boards (sq fa 1) (sq fb 1) King White) (sq fb 1)
  = colorPiece King White
  /\ Boards.pieceAt (movePiece kpk_boards (sq fa 1) (sq fb 1) King White) (sq fa 1)
     = Piece_None.
Proof.
  destruct (movePiece_to_vacant kpk_boards (sq fa 1) (sq fb 1) King White)
    as (_ & H1 & H2 & _).
  - vm_compute. reflexivity.
  - vm_compute. split; [discriminate|reflexivity].
  - vm_compute. split; [discriminate|reflexivity].
  - vm_compute. discriminate.
  - vm_compute. reflexivity.
  - vm_compute. reflexivity.
  - split; assumption.
Defined.

Lemma moveAndChangePiece_to_vacant_witness :
  Boards.pieceAt
    (moveAndChangePiece kpk_boards (sq fa 2) (sq fb 1) Pawn Black Queen) (sq fb 1)
  = colorPiece Queen Black.
Proof.
  destruct (moveAndChangePiece_to_vacant kpk_boards (sq fa 2) (sq fb 1)
              Pawn Black Queen) as (_ & H & _).
  - vm_compute. reflexivity.
  - vm_compute. split; [discriminate|reflexivity].
  - vm_compute. split; [discriminate|reflexivity].
  - vm_compute. discriminate.
  - vm_compute. reflexivity.
  - vm_compute. reflexivity.
  - exact H.
Defined.

(** *** The three generators outside check *)

Lemma squares_zero : squares 0 = [].
Proof. reflexivity. Qed.

Lemma tableMoves_zero Attacks pieces : tableMoves Attacks pieces 0 = [].
Proof.
  unfold tableMoves. induction (squares pieces) as [|s l IH]; cbn [flat_map].
  - reflexivity.
  - rewrite IH, app_nil_r. unfold standardsFrom, band.
    now rewrite Z.land_0_r.
Qed.

Lemma generateFrcCastling_app t l pos occ king kingDst rook rookDst :
  generateFrcCastling t l pos occ king kingDst rook rookDst
  = l ++ generateFrcCastling t [] pos occ king kingDst rook rookDst.
Proof.
  unfold generateFrcCastling. cbv zeta.
  destruct (_ && _); [reflexivity|now rewrite app_nil_r].
Qed.

(** [generateKings] appends the king table moves onto the mask and, with
    castling, the castling moves. *)
Lemma generateKings_app t o (castling : bool) l pos dstMask :
  generateKings t o castling l pos dstMask
  = l ++ kingMoves t pos dstMask
      ++ (if castling then castlingMoves t o pos else []).
Proof.
  unfold castlingMoves, generateKings, kingMoves. cbv zeta.
  rewrite (precalculated_app _ _ l), (precalculated_app _ _ []).
  rewrite tableMoves_zero. cbn [app].
  set (K := tableMoves _ _ dstMask).
  destruct castling; [|now rewrite app_nil_r].
  destruct (negb (Pos.isCheck pos)); [|now rewrite app_nil_r].
  unfold pushCastling, push.
  destruct (chess960 o), (Pos.toMove pos);
    repeat match goal with
           | |- context [if ?c then _ else _] =>
               lazymatch c with
               | context [if _ then _ else _] => fail
               | _ => destruct c
               end
           end;
    repeat match goal with
           | |- context [generateFrcCastling t ?l0 _ _ _ _ _ _] =>
               lazymatch l0 with
               | [] => fail
               | _ => rewrite (generateFrcCastling_app t l0)
               end
           end;
    cbn [app]; rewrite <- ?app_assoc, ?app_nil_r; cbn [app]; reflexivity.
Qed.

Lemma generatorInvariant_elim pos :
  generatorInvariant pos = true ->
  let b := Pos.boards pos in
  let us := Pos.toMove pos in
  let ep := Pos.enPassant pos in
  (forall c, 0 <= m_colors b c < 2 ^ 64)
  /\ (forall i, Z.testbit (m_colors b Black) i && Z.testbit (m_colors b White) i
                = false)
  /\ (ep <> Square_None ->
      0 <= ep
      /\ Z.testbit (m_colors b Black) ep = false
      /\ Z.testbit (m_colors b White) ep = false
      /\ Z.testbit (promotionRank us) ep = false).
Proof.
  unfold generatorInvariant. cbv zeta.
  rewrite !andb_true_iff, orb_true_iff, !andb_true_iff, !negb_true_iff.
  rewrite !Z.eqb_eq, !Z.leb_le.
  intros [[[Hrb Hrw] Hc] He]. repeat split.
  - destruct c; [apply (in_u64_spec _ Hrb)|apply (in_u64_spec _ Hrw)].
  - destruct c; [apply (in_u64_spec _ Hrb)|apply (in_u64_spec _ Hrw)].
  - intros i. apply (f_equal (fun z => Z.testbit z i)) in Hc. cbv beta in Hc.
    unfold band in Hc. now rewrite Z.land_spec, Z.bits_0 in Hc.
  - destruct He as [He|He]; [contradiction|tauto].
  - destruct He as [He|[[_ He] _]]; [contradiction|].
    unfold Boards.occupancy, bor in He. rewrite Z.lor_spec in He.
    now apply orb_false_iff in He.
  - destruct He as [He|[[_ He] _]]; [contradiction|].
    unfold Boards.occupancy, bor in He. rewrite Z.lor_spec in He.
    now apply orb_false_iff in He.
  - destruct He as [He|He]; [contradiction|tauto].
Qed.

Lemma promotionRank_below_64 us i :
  0 <= i -> Z.testbit (promotionRank us) i = true -> (i <? 64) = true.
Proof.
  intros Hi. rewrite promotionRank_testbit by assumption.
  destruct us; intros H.
  - apply Z.ltb_lt in H. apply Z.ltb_lt. lia.
  - now apply andb_true_iff in H as [_ H].
Qed.

Lemma colour_below_64 x i :
  0 <= x < 2 ^ 64 -> Z.testbit x i = true -> (i <? 64) = true.
Proof. intros Hx H. apply Z.ltb_lt. now apply (testbit_below_64 x). Qed.

(** Pointwise equality of boards, with the facts about the bits at hand. *)
Ltac bb_bits i Hi :=
  unfold band, bor in *;
  repeat first [ rewrite Z.land_spec | rewrite Z.lor_spec
               | rewrite bnot_spec by exact Hi
               | rewrite u64_testbit by exact Hi
               | rewrite Z.bits_0 ].

Ltac bb_cases :=
  repeat match goal with
         | |- context [Z.testbit ?x ?i] =>
             let t := fresh "t" in
             set (t := Z.testbit x i) in *; clearbody t; destruct t
         | H : context [Z.testbit ?x ?i] |- _ =>
             let t := fresh "t" in
             set (t := Z.testbit x i) in *; clearbody t; destruct t
         | |- context [?i <? 64] =>
             let t := fresh "t" in
             set (t := i <? 64) in *; clearbody t; destruct t
         end;
  cbn in *; try congruence; try tauto.

Lemma generator_bits pos i :
  generatorInvariant pos = true -> 0 <= i ->
  let b := Pos.boards pos in
  let us := Pos.toMove pos in
  let epMask := fromSquare (Pos.enPassant pos) in
  Z.testbit (m_colors b Black) i && Z.testbit (m_colors b White) i = false
  /\ Z.testbit (m_colors b Black) i && negb (i <? 64) = false
  /\ Z.testbit (m_colors b White) i && negb (i <? 64) = false
  /\ Z.testbit (promotionRank us) i && negb (i <? 64) = false
  /\ (Pos.enPassant pos <> Square_None ->
      Z.testbit epMask i && Z.testbit (m_colors b Black) i = false
      /\ Z.testbit epMask i && Z.testbit (m_colors b White) i = false
      /\ Z.testbit epMask i && Z.testbit (promotionRank us) i = false).
Proof.
  intros Hinv Hi. cbv zeta.
  destruct (generatorInvariant_elim pos Hinv) as (Hr & Hd & He).
  assert (Himp : forall x y : bool, (x = true -> y = true) -> x && negb y = false).
  { intros [] []; cbn; auto. intros H. symmetry. now apply H. }
  repeat split.
  - apply Hd.
  - apply Himp. apply colour_below_64, Hr.
  - apply Himp. apply colour_below_64, Hr.
  - apply Himp. now apply promotionRank_below_64.
  - destruct (He H) as (H0 & HB & HW & HP).
    rewrite fromSquare_testbit by lia.
    destruct (Z.eqb_spec i (Pos.enPassant pos)) as [->|]; [now rewrite HB|reflexivity].
  - destruct (He H) as (H0 & HB & HW & HP).
    rewrite fromSquare_testbit by lia.
    destruct (Z.eqb_spec i (Pos.enPassant pos)) as [->|]; [now rewrite HW|reflexivity].
  - destruct (He H) as (H0 & HB & HW & HP).
    rewrite fromSquare_testbit by lia.
    destruct (Z.eqb_spec i (Pos.enPassant pos)) as [->|]; [now rewrite HP|reflexivity].
Qed.

(** Outside check the pawn captures, promotions and en-passant captures of
    [generateNoisy] are those of [generateAll], in the same order. *)
Lemma generatePawnsNoisy_masks pos :
  generatorInvariant pos = true ->
  let b := Pos.boards pos in
  let us := Pos.toMove pos in
  let ours := Boards.forColor b us in
  let theirs := Boards.forColor b (oppColor us) in
  let epMask :=
    if negb (Pos.enPassant pos =? Square_None)
    then fromSquare (Pos.enPassant pos) else 0 in
  generatePawnsNoisy [] pos
    (theirs ||| epMask ||| (~~ ours &&& promotionRank us))
  = generatePawnsNoisy [] pos (~~ ours).
Proof.
  intros Hinv. cbv zeta.
  pose proof (fun i Hi => generator_bits pos i Hinv Hi) as Hbits.
  cbv zeta in Hbits.
  unfold generatePawnsNoisy, Boards.forColor.
  destruct (Pos.toMove pos) eqn:Eus; cbn [oppColor];
    unfold generatePawnsNoisy_; cbv zeta;
    unfold Boards.occupancyOf; cbn [oppColor promotionRank shiftUpLeftRelative
      shiftUpRightRelative shiftUpRelative offset_up offset_upLeft offset_upRight];
    unfold shiftDownLeft, shiftDownRight, shiftUpLeft, shiftUpRight;
    set (P := Boards.pawnsT _ (Pos.boards pos));
    destruct (Z.eqb_spec (Pos.enPassant pos) Square_None) as [Ene|Ene];
    cbn [negb].
  all: repeat match goal with
         | |- pushEnPassants _ _ _ = pushEnPassants _ _ _ => f_equal
         | |- pushStandards_offset _ _ _ = pushStandards_offset _ _ _ => f_equal
         | |- pushQueenPromotions _ _ _ = pushQueenPromotions _ _ _ => f_equal
         end.
  all: apply Z.bits_inj'; intros i Hi;
    destruct (Hbits i Hi) as (F1 & F2 & F3 & F4 & F5);
    try (destruct (F5 Ene) as (F6 & F7 & F8)); clear F5 Hbits;
    cbn [promotionRank] in *;
    bb_bits i Hi; bb_cases.
Qed.

(** Outside check the pawn pushes and underpromotions of [generateQuiet]
    are those of [generateAll], in the same order. *)
Lemma generatePawnsQuiet_masks o pos :
  generatorInvariant pos = true ->
  let b := Pos.boards pos in
  let us := Pos.toMove pos in
  let ours := Boards.forColor b us in
  let theirs := Boards.forColor b (oppColor us) in
  generatePawnsQuiet o [] pos
    (~~ (ours ||| theirs) ||| promotionRank us) (ours ||| theirs)
  = generatePawnsQuiet o [] pos (~~ ours) (Boards.occupancy b).
Proof.
  intros Hinv. cbv zeta.
  pose proof (fun i Hi => generator_bits pos i Hinv Hi) as Hbits.
  cbv zeta in Hbits.
  unfold generatePawnsQuiet, Boards.forColor, Boards.occupancy.
  destruct (Pos.toMove pos) eqn:Eus; cbn [oppColor];
    try replace (m_colors (Pos.boards pos) White ||| m_colors (Pos.boards pos) Black)
      with (m_colors (Pos.boards pos) Black ||| m_colors (Pos.boards pos) White)
      by (unfold bor; apply Z.lor_comm);
    unfold generatePawnsQuiet_; cbv zeta;
    unfold Boards.occupancyOf; cbn [oppColor];
    set (P := Boards.pawnsT _ (Pos.boards pos));
    match goal with
    | |- context [shiftUpRelative ?us (?F &&& rankRelative ?us 2)] =>
        pose proof (fun d Hd => double_push_not_promotion us F d Hd) as Hdouble;
        set (D := shiftUpRelative us (F &&& rankRelative us 2)) in *;
        clearbody D
    end;
    cbn [shiftUpLeftRelative shiftUpRightRelative shiftUpRelative];
    unfold shiftDownLeft, shiftDownRight, shiftUpLeft, shiftUpRight;
    set (F := shiftDown P) || set (F := shiftUp P); clearbody F.
  all: repeat match goal with
         | |- pushUnderpromotions _ _ _ _ = pushUnderpromotions _ _ _ _ => f_equal
         | |- pushStandards_offset _ _ _ = pushStandards_offset _ _ _ => f_equal
         end.
  all: apply Z.bits_inj'; intros i Hi;
    destruct (Hbits i Hi) as (F1 & F2 & F3 & F4 & _); clear Hbits;
    specialize (Hdouble i Hi);
    cbn [promotionRank] in *;
    bb_bits i Hi;
    try (destruct (Z.testbit D i); [specialize (Hdouble eq_refl)|clear Hdouble]);
    bb_cases.
Qed.

Lemma bnot_nonneg x : 0 <= ~~ x.
Proof. unfold bnot. apply Z.ldiff_nonneg. left. discriminate. Qed.

Lemma In_squares_masked A mask d :
  0 <= mask ->
  (In d (squares (A &&& mask))
   <-> 0 <= d /\ Z.testbit A d = true /\ Z.testbit mask d = true).
Proof.
  intros Hm. rewrite squares_In, band_testbit, andb_true_iff. split.
  - tauto.
  - intros (H0 & HA & HM). repeat split; try assumption.
    unfold band. apply Z.land_nonneg. now right.
Qed.

(** Onto the squares free of own pieces: onto an enemy piece or onto an
    empty square. *)
Lemma In_tableMoves_split Attacks pieces ours theirs x :
  0 <= theirs < 2 ^ 64 ->
  (forall i, Z.testbit ours i && Z.testbit theirs i = false) ->
  (In x (tableMoves Attacks pieces (~~ ours))
   <-> In x (tableMoves Attacks pieces theirs)
       \/ In x (tableMoves Attacks pieces (~~ (ours ||| theirs)))).
Proof.
  intros Ht Hd.
  assert (Hbit : forall d, 0 <= d ->
            Z.testbit (~~ ours) d
            = Z.testbit theirs d || Z.testbit (~~ (ours ||| theirs)) d).
  { intros d Hd0. rewrite !bnot_spec, bor_testbit by assumption.
    specialize (Hd d).
    pose proof (colour_below_64 theirs d Ht) as H64.
    destruct (Z.testbit theirs d).
    - rewrite (H64 eq_refl). destruct (Z.testbit ours d); [discriminate|reflexivity].
    - cbn [orb]. now rewrite orb_false_r. }
  rewrite !In_tableMoves. split.
  - intros (s & d & Hs & Hin & ->).
    apply In_squares_masked in Hin; [|apply bnot_nonneg].
    destruct Hin as (H0 & HA & HM). rewrite Hbit in HM by assumption.
    apply orb_true_iff in HM as [HM|HM]; [left|right]; exists s, d;
      repeat split; try assumption; apply In_squares_masked;
      try (apply bnot_nonneg); try lia; auto.
  - intros [(s & d & Hs & Hin & ->)|(s & d & Hs & Hin & ->)];
      exists s, d; repeat split; try assumption.
    + apply In_squares_masked in Hin; [|lia].
      destruct Hin as (H0 & HA & HM).
      apply In_squares_masked; [apply bnot_nonneg|].
      repeat split; try assumption. rewrite Hbit by assumption.
      now rewrite HM.
    + apply In_squares_masked in Hin; [|apply bnot_nonneg].
      destruct Hin as (H0 & HA & HM).
      apply In_squares_masked; [apply bnot_nonneg|].
      repeat split; try assumption. rewrite Hbit by assumption.
      rewrite HM. apply orb_true_r.
Qed.

(** Outside check [generateAll] emits the moves of [generateNoisy] and the
    moves of [generateQuiet], and no others. *)
Theorem generateAll_splits t o pos sm :
  generatorInvariant pos = true ->
  Pos.isCheck pos = false ->
  (In sm (generateAll t o [] pos)
   <-> In sm (generateNoisy t o [] pos) \/ In sm (generateQuiet t o [] pos)).
Proof.
  intros Hinv Hcheck.
  pose proof (generatePawnsNoisy_masks pos Hinv) as HN.
  pose proof (generatePawnsQuiet_masks o pos Hinv) as HQ.
  destruct (generatorInvariant_elim pos Hinv) as (Hr & Hd & _).
  cbv zeta in HN, HQ.
  assert (Hsplit : forall Attacks pieces,
    In sm (tableMoves Attacks pieces
             (~~ Boards.forColor (Pos.boards pos) (Pos.toMove pos)))
    <-> In sm (tableMoves Attacks pieces
                 (Boards.forColor (Pos.boards pos) (oppColor (Pos.toMove pos))))
        \/ In sm (tableMoves Attacks pieces
                    (~~ (Boards.forColor (Pos.boards pos) (Pos.toMove pos)
                         ||| Boards.forColor (Pos.boards pos)
                               (oppColor (Pos.toMove pos)))))).
  { intros Attacks pieces. apply In_tableMoves_split.
    - apply Hr.
    - intros i. unfold Boards.forColor.
      destruct (Pos.toMove pos); cbn [oppColor];
        [apply Hd|rewrite andb_comm; apply Hd]. }
  unfold generateAll, generateNoisy, generateQuiet. cbv zeta.
  rewrite Hcheck.
  assert (Eprom : forall us, match us with Black => Rank1 | White => Rank8 end
                             = promotionRank us) by (intros []; reflexivity).
  rewrite Eprom.
  destruct (negb (Pos.enPassant pos =? Square_None)) eqn:Eep;
    rewrite !generateKings_app; unfold generateKnights;
    rewrite !precalculated_app, !generateSliders_app, !app_nil_l;
    rewrite !(generatePawnsNoisy_app (sliderMoves _ _ _));
    rewrite !(generatePawnsQuiet_app o (_ ++ _)),
      !(generatePawnsQuiet_app o (sliderMoves _ _ _));
    rewrite HN, HQ;
    unfold sliderMoves, kingMoves; cbv zeta;
    rewrite !in_app_iff, !Hsplit;
    cbn [In]; tauto.
Qed.

Lemma generateAll_splits_witness :
  let sm := scored (Move_promotion (sq fb 7) (sq fa 8) Queen) in
  In sm (generateAll ModelTables.tables standardOptions [] pawnOnSeventh_position)
  <-> In sm (generateNoisy ModelTables.tables standardOptions []
               pawnOnSeventh_position)
      \/ In sm (generateQuiet ModelTables.tables standardOptions []
                  pawnOnSeventh_position).
Proof.
  apply (generateAll_splits ModelTables.tables standardOptions
           pawnOnSeventh_position); vm_compute; reflexivity.
Defined.

Lemma testbit_true_nonneg x i : Z.testbit x i = true -> 0 <= i.
Proof.
  intros H. destruct (Z.lt_ge_cases i 0) as [Hneg|]; [|assumption].
  rewrite Z.testbit_neg_r in H by assumption. discriminate.
Qed.

(** The shape of a noisy pawn move: a pawn of the mover steps from [src] to
    a square of the mask below [h8]; it is a capture short of the last rank,
    a queen promotion on the last rank, or an en-passant capture onto the
    en-passant square. *)
Lemma pawnNoisy_shape pos dstMask sm :
  In sm (generatePawnsNoisy [] pos dstMask) ->
  let us := Pos.toMove pos in
  let b := Pos.boards pos in
  let theirs := Boards.forColor b (oppColor us) in
  let m := move sm in
  0 <= dst m < 64
  /\ Z.testbit dstMask (dst m) = true
  /\ Z.testbit (Boards.pawnsT us b) (src m) = true
  /\ ((type m = Standard /\ targetIdx m = 0
       /\ Z.testbit theirs (dst m) = true
       /\ Z.testbit (promotionRank us) (dst m) = false)
      \/ (type m = Promotion /\ targetIdx m = 3
          /\ Z.testbit (promotionRank us) (dst m) = true)
      \/ (type m = EnPassant /\ targetIdx m = 0
          /\ Pos.enPassant pos <> Square_None
          /\ dst m = Pos.enPassant pos)).
Proof.
  unfold generatePawnsNoisy. cbv zeta.
  assert (Hgen : forall us,
    In sm (generatePawnsNoisy_ us [] pos dstMask) ->
    0 <= dst (move sm) < 64
    /\ Z.testbit dstMask (dst (move sm)) = true
    /\ Z.testbit (Boards.pawnsT us (Pos.boards pos)) (src (move sm)) = true
    /\ ((type (move sm) = Standard /\ targetIdx (move sm) = 0
         /\ Z.testbit (Boards.forColor (Pos.boards pos) (oppColor us))
              (dst (move sm)) = true
         /\ Z.testbit (promotionRank us) (dst (move sm)) = false)
        \/ (type (move sm) = Promotion /\ targetIdx (move sm) = 3
            /\ Z.testbit (promotionRank us) (dst (move sm)) = true)
        \/ (type (move sm) = EnPassant /\ targetIdx (move sm) = 0
            /\ Pos.enPassant pos <> Square_None
            /\ dst (move sm) = Pos.enPassant pos))).
  { intros us. unfold generatePawnsNoisy_. cbv zeta.
    unfold Boards.occupancyOf, Boards.forColor.
    set (theirs := m_colors (Pos.boards pos) (oppColor us)).
    set (pawns := Boards.pawnsT us (Pos.boards pos)).
    rewrite !pushQueenPromotions_app, !pushStandards_offset_app, !app_nil_l.
    intros Hin.
    assert (Hmain :
      In sm (queenPromotionsBy (offset_upLeft us)
               (shiftUpLeftRelative us pawns &&& dstMask &&& theirs &&& promotionRank us))
      \/ In sm (queenPromotionsBy (offset_upRight us)
               (shiftUpRightRelative us pawns &&& dstMask &&& theirs &&& promotionRank us))
      \/ In sm (queenPromotionsBy (offset_up us)
               (shiftUpRelative us pawns
                &&& (dstMask &&& promotionRank us &&& ~~ theirs)))
      \/ In sm (standardsBy (offset_upLeft us)
               (shiftUpLeftRelative us pawns &&& dstMask &&& theirs &&& ~~ promotionRank us))
      \/ In sm (standardsBy (offset_upRight us)
               (shiftUpRightRelative us pawns &&& dstMask &&& theirs &&& ~~ promotionRank us))
      \/ (Pos.enPassant pos <> Square_None
          /\ (In sm (enPassantsBy (offset_upLeft us)
                       (shiftUpLeftRelative us pawns &&& dstMask
                        &&& fromSquare (Pos.enPassant pos)))
              \/ In sm (enPassantsBy (offset_upRight us)
                          (shiftUpRightRelative us pawns &&& dstMask
                           &&& fromSquare (Pos.enPassant pos)))))).
    { destruct (Z.eqb_spec (Pos.enPassant pos) Square_None) as [E|E];
        cbn [negb] in Hin.
      - rewrite !in_app_iff in Hin. tauto.
      - rewrite !pushEnPassants_app, !in_app_iff in Hin. tauto. }
    clear Hin.
    assert (Hleft64 : forall d, 0 <= d ->
              Z.testbit (shiftUpLeftRelative us pawns) d = true -> d < 64).
    { intros d Hd. destruct us; cbn [shiftUpLeftRelative];
        unfold shiftDownLeft, shiftUpLeft;
        rewrite band_testbit, bnot_spec, !andb_true_iff by assumption;
        intros (_ & H & _); now apply Z.ltb_lt in H. }
    assert (Hright64 : forall d, 0 <= d ->
              Z.testbit (shiftUpRightRelative us pawns) d = true -> d < 64).
    { intros d Hd. destruct us; cbn [shiftUpRightRelative];
        unfold shiftDownRight, shiftUpRight;
        rewrite band_testbit, bnot_spec, !andb_true_iff by assumption;
        intros (_ & H & _); now apply Z.ltb_lt in H. }
    destruct Hmain as [H|[H|[H|[H|[H|(Hep & [H|H])]]]]].
    - apply In_queenPromotionsBy in H. destruct H as (d & Hd & ->). cbn.
      pose proof (In_squares_nonneg _ _ Hd) as Hd0.
      apply In_squares_testbit in Hd.
      rewrite !band_testbit, !andb_true_iff in Hd.
      destruct Hd as [[[Hs Hm] Ht] Hp].
      pose proof (Hleft64 d Hd0 Hs).
      apply shiftUpLeftRelative_src in Hs; [|assumption]. auto 10.
    - apply In_queenPromotionsBy in H. destruct H as (d & Hd & ->). cbn.
      pose proof (In_squares_nonneg _ _ Hd) as Hd0.
      apply In_squares_testbit in Hd.
      rewrite !band_testbit, !andb_true_iff in Hd.
      destruct Hd as [[[Hs Hm] Ht] Hp].
      pose proof (Hright64 d Hd0 Hs).
      apply shiftUpRightRelative_src in Hs; [|assumption]. auto 10.
    - apply In_queenPromotionsBy in H. destruct H as (d & Hd & ->). cbn.
      pose proof (In_squares_nonneg _ _ Hd) as Hd0.
      apply In_squares_testbit in Hd.
      rewrite !band_testbit, bnot_spec, !andb_true_iff in Hd by assumption.
      destruct Hd as [Hs [[Hm Hp] [H64 Ht]]]. apply Z.ltb_lt in H64.
      apply shiftUpRelative_src in Hs; [|assumption]. auto 10.
    - apply In_standardsBy in H. destruct H as (d & Hd & ->). cbn.
      pose proof (In_squares_nonneg _ _ Hd) as Hd0.
      apply In_squares_testbit in Hd.
      rewrite !band_testbit, bnot_spec, !andb_true_iff in Hd by assumption.
      destruct Hd as [[[Hs Hm] Ht] [_ Hp]]. apply negb_true_iff in Hp.
      pose proof (Hleft64 d Hd0 Hs).
      apply shiftUpLeftRelative_src in Hs; [|assumption]. auto 10.
    - apply In_standardsBy in H. destruct H as (d & Hd & ->). cbn.
      pose proof (In_squares_nonneg _ _ Hd) as Hd0.
      apply In_squares_testbit in Hd.
      rewrite !band_testbit, bnot_spec, !andb_true_iff in Hd by assumption.
      destruct Hd as [[[Hs Hm] Ht] [_ Hp]]. apply negb_true_iff in Hp.
      pose proof (Hright64 d Hd0 Hs).
      apply shiftUpRightRelative_src in Hs; [|assumption]. auto 10.
    - apply In_enPassantsBy in H. destruct H as (d & Hd & ->). cbn.
      pose proof (In_squares_nonneg _ _ Hd) as Hd0.
      apply In_squares_testbit in Hd.
      rewrite !band_testbit, !andb_true_iff in Hd.
      destruct Hd as [[Hs Hm] He].
      pose proof (Hleft64 d Hd0 Hs).
      apply shiftUpLeftRelative_src in Hs; [|assumption].
      assert (d = Pos.enPassant pos).
      { destruct (Z.lt_ge_cases (Pos.enPassant pos) 0) as [Hn|Hn].
        - unfold fromSquare in He. rewrite Z.shiftl_spec in He by assumption.
          change 1 with (2 * 0 + 1) in He.
          destruct (Z.eq_dec (d - Pos.enPassant pos) 0) as [E0|E0]; [lia|].
          replace (d - Pos.enPassant pos)
            with (Z.succ (d - Pos.enPassant pos - 1)) in He by lia.
          rewrite Z.testbit_odd_succ, Z.testbit_0_l in He by lia. discriminate.
        - rewrite fromSquare_testbit in He by assumption.
          now apply Z.eqb_eq. }
      auto 10.
    - apply In_enPassantsBy in H. destruct H as (d & Hd & ->). cbn.
      pose proof (In_squares_nonneg _ _ Hd) as Hd0.
      apply In_squares_testbit in Hd.
      rewrite !band_testbit, !andb_true_iff in Hd.
      destruct Hd as [[Hs Hm] He].
      pose proof (Hright64 d Hd0 Hs).
      apply shiftUpRightRelative_src in Hs; [|assumption].
      assert (d = Pos.enPassant pos).
      { destruct (Z.lt_ge_cases (Pos.enPassant pos) 0) as [Hn|Hn].
        - unfold fromSquare in He. rewrite Z.shiftl_spec in He by assumption.
          change 1 with (2 * 0 + 1) in He.
          destruct (Z.eq_dec (d - Pos.enPassant pos) 0) as [E0|E0]; [lia|].
          replace (d - Pos.enPassant pos)
            with (Z.succ (d - Pos.enPassant pos - 1)) in He by lia.
          rewrite Z.testbit_odd_succ, Z.testbit_0_l in He by lia. discriminate.
        - rewrite fromSquare_testbit in He by assumption.
          now apply Z.eqb_eq. }
      auto 10. }
  destruct (Pos.toMove pos); apply Hgen.
Qed.

(** The shape of a quiet pawn move: a pawn of the mover steps from [src] to
    a square of the mask below [h8]; it is an underpromotion on the last
    rank, or a push short of it onto a square free of enemy pieces. *)
Lemma pawnQuiet_shape o pos dstMask occ sm :
  In sm (generatePawnsQuiet o [] pos dstMask occ) ->
  let us := Pos.toMove pos in
  let b := Pos.boards pos in
  let theirs := Boards.forColor b (oppColor us) in
  let m := move sm in
  0 <= dst m < 64
  /\ Z.testbit dstMask (dst m) = true
  /\ Z.testbit (Boards.pawnsT us b) (src m) = true
  /\ ((type m = Promotion /\ targetIdx m <> 3
       /\ Z.testbit (promotionRank us) (dst m) = true)
      \/ (type m = Standard /\ targetIdx m = 0
          /\ Z.testbit theirs (dst m) = false
          /\ Z.testbit (promotionRank us) (dst m) = false)).
Proof.
  unfold generatePawnsQuiet. cbv zeta.
  assert (Hgen : forall us,
    In sm (generatePawnsQuiet_ o us [] (Pos.boards pos) dstMask occ) ->
    0 <= dst (move sm) < 64
    /\ Z.testbit dstMask (dst (move sm)) = true
    /\ Z.testbit (Boards.pawnsT us (Pos.boards pos)) (src (move sm)) = true
    /\ ((type (move sm) = Promotion /\ targetIdx (move sm) <> 3
         /\ Z.testbit (promotionRank us) (dst (move sm)) = true)
        \/ (type (move sm) = Standard /\ targetIdx (move sm) = 0
            /\ Z.testbit (Boards.forColor (Pos.boards pos) (oppColor us))
                 (dst (move sm)) = false
            /\ Z.testbit (promotionRank us) (dst (move sm)) = false))).
  { intros us. unfold generatePawnsQuiet_. cbv zeta.
    unfold Boards.occupancyOf, Boards.forColor.
    set (theirs := m_colors (Pos.boards pos) (oppColor us)).
    set (pawns := Boards.pawnsT us (Pos.boards pos)).
    rewrite !pushUnderpromotions_app, !pushStandards_offset_app, !app_nil_l,
      !in_app_iff.
    assert (Hunder : forall off board,
      (forall d, 0 <= d -> Z.testbit board d = true ->
                 d < 64 /\ Z.testbit dstMask d = true
                 /\ Z.testbit pawns (d - off) = true
                 /\ Z.testbit (promotionRank us) d = true) ->
      In sm (underpromotionsBy o off board) ->
      0 <= dst (move sm) < 64
      /\ Z.testbit dstMask (dst (move sm)) = true
      /\ Z.testbit pawns (src (move sm)) = true
      /\ type (move sm) = Promotion /\ targetIdx (move sm) <> 3
      /\ Z.testbit (promotionRank us) (dst (move sm)) = true).
    { intros off board Hb H. apply In_underpromotionsBy in H.
      destruct H as (d & p & Hd & Hq & _ & _ & ->). cbn.
      pose proof (In_squares_nonneg _ _ Hd) as Hd0.
      apply In_squares_testbit, Hb in Hd; [|assumption].
      destruct Hd as (? & ? & ? & ?).
      repeat split; auto using targetIdx_of_under. }
    assert (Hleft64 : forall d, 0 <= d ->
              Z.testbit (shiftUpLeftRelative us pawns) d = true -> d < 64).
    { intros d Hd. destruct us; cbn [shiftUpLeftRelative];
        unfold shiftDownLeft, shiftUpLeft;
        rewrite band_testbit, bnot_spec, !andb_true_iff by assumption;
        intros (_ & H & _); now apply Z.ltb_lt in H. }
    assert (Hright64 : forall d, 0 <= d ->
              Z.testbit (shiftUpRightRelative us pawns) d = true -> d < 64).
    { intros d Hd. destruct us; cbn [shiftUpRightRelative];
        unfold shiftDownRight, shiftUpRight;
        rewrite band_testbit, bnot_spec, !andb_true_iff by assumption;
        intros (_ & H & _); now apply Z.ltb_lt in H. }
    intros [[[[H|H]|H]|H]|H].
    - apply Hunder in H; [tauto|]. intros d Hd.
      rewrite !band_testbit, !andb_true_iff. intros [[[Hs Hm] Ht] Hp].
      pose proof (Hleft64 d Hd Hs).
      apply shiftUpLeftRelative_src in Hs; auto.
    - apply Hunder in H; [tauto|]. intros d Hd.
      rewrite !band_testbit, !andb_true_iff. intros [[[Hs Hm] Ht] Hp].
      pose proof (Hright64 d Hd Hs).
      apply shiftUpRightRelative_src in Hs; auto.
    - apply Hunder in H; [tauto|]. intros d Hd.
      rewrite !band_testbit, !bnot_spec, !andb_true_iff by assumption.
      intros [[[Hs [H64 _]] [Hm _]] Hp]. apply Z.ltb_lt in H64.
      apply shiftUpRelative_src in Hs; auto.
    - apply In_standardsBy in H. destruct H as (d & Hd & ->). cbn.
      pose proof (In_squares_nonneg _ _ Hd) as Hd0.
      apply In_squares_testbit in Hd.
      rewrite band_testbit, andb_true_iff in Hd. destruct Hd as [Hsh Hm].
      pose proof (double_push_not_promotion us _ d Hd0 Hsh) as Hnp.
      rewrite band_testbit, bnot_spec, !andb_true_iff in Hm by assumption.
      destruct Hm as [Hm [H64 Ht]]. apply Z.ltb_lt in H64.
      apply negb_true_iff in Ht.
      apply shiftUpRelative_src in Hsh; [|assumption].
      rewrite !band_testbit, !andb_true_iff in Hsh.
      destruct Hsh as [[Hsh _] _].
      pose proof (testbit_true_nonneg _ _ Hsh) as Hmid.
      apply shiftUpRelative_src in Hsh; [|assumption].
      replace (d - offset_up us - offset_up us) with (d - offset_up us * 2)
        in Hsh by lia.
      auto 10.
    - apply In_standardsBy in H. destruct H as (d & Hd & ->). cbn.
      pose proof (In_squares_nonneg _ _ Hd) as Hd0.
      apply In_squares_testbit in Hd.
      rewrite !band_testbit, !bnot_spec, !andb_true_iff in Hd by assumption.
      destruct Hd as [[[Hs [H64 _]] [Hm [_ Ht]]] [_ Hp]].
      apply Z.ltb_lt in H64. apply negb_true_iff in Ht, Hp.
      apply shiftUpRelative_src in Hs; [|assumption]. auto 10. }
  destruct (Pos.toMove pos); apply Hgen.
Qed.

Lemma tableMoves_shape Attacks pieces dstMask sm :
  In sm (tableMoves Attacks pieces dstMask) ->
  let m := move sm in
  type m = Standard /\ targetIdx m = 0
  /\ 0 <= src m /\ Z.testbit pieces (src m) = true
  /\ 0 <= dst m /\ Z.testbit (Attacks (src m)) (dst m) = true
  /\ Z.testbit dstMask (dst m) = true.
Proof.
  rewrite In_tableMoves. intros (s & d & Hs & Hd & ->). cbn.
  pose proof (In_squares_nonneg _ _ Hs). pose proof (In_squares_nonneg _ _ Hd).
  apply In_squares_testbit in Hs. apply In_squares_band in Hd as [? ?].
  auto 10.
Qed.

Lemma generateFrcCastling_shape t pos occ king kingDst rook rookDst sm :
  In sm (generateFrcCastling t [] pos occ king kingDst rook rookDst) ->
  move sm = Move_castling king rook.
Proof.
  unfold generateFrcCastling, pushCastling, push. cbv zeta.
  destruct (_ && _); cbn [app In]; [|contradiction].
  intros [<-|[]]. reflexivity.
Qed.

(** Castling moves start on the king square of the side to move and are
    emitted outside check only. *)
Lemma castlingMoves_shape t o pos sm :
  In sm (castlingMoves t o pos) ->
  type (move sm) = Castling
  /\ targetIdx (move sm) = 0
  /\ src (move sm) = Pos.king pos (Pos.toMove pos)
  /\ Pos.isCheck pos = false.
Proof.
  unfold castlingMoves, generateKings. cbv zeta.
  rewrite precalculated_app, tableMoves_zero. cbn [app].
  destruct (Pos.isCheck pos); cbn [negb]; [contradiction|].
  unfold pushCastling, push, Pos.blackKing, Pos.whiteKing, Pos.king.
  destruct (chess960 o), (Pos.toMove pos);
    repeat match goal with
           | |- context [if ?c then _ else _] =>
               lazymatch c with
               | context [if _ then _ else _] => fail
               | _ => destruct c
               end
           end;
    repeat match goal with
           | |- context [generateFrcCastling t ?l0 _ _ _ _ _ _] =>
               lazymatch l0 with
               | [] => fail
               | _ => rewrite (generateFrcCastling_app t l0)
               end
           end;
    cbn [app]; rewrite ?in_app_iff; cbn [In];
    intros H;
    repeat match goal with
           | H : _ \/ _ |- _ => destruct H as [H|H]
           | H : In _ (generateFrcCastling _ [] _ _ _ _ _ _) |- _ =>
               apply generateFrcCastling_shape in H; rewrite H
           | H : _ = sm |- _ => rewrite <- H
           | H : False |- _ => contradiction
           end;
    cbn; auto.
Qed.

(** Outside check every move of [generateAll] is a castling move of the
    king, or takes a piece of the side to move from its square to a square
    of the board that holds no piece of that side. *)
Theorem generateAll_moves_own_pieces t o pos sm :
  Pos.isCheck pos = false ->
  In sm (generateAll t o [] pos) ->
  let m := move sm in
  let ours := Boards.forColor (Pos.boards pos) (Pos.toMove pos) in
  (type m = Castling /\ src m = Pos.king pos (Pos.toMove pos))
  \/ (type m <> Castling
      /\ Z.testbit ours (src m) = true
      /\ 0 <= dst m < 64
      /\ Z.testbit ours (dst m) = false).
Proof.
  intros Hcheck. cbv zeta.
  unfold generateAll. cbv zeta. rewrite Hcheck.
  assert (Hmask : forall d, 0 <= d ->
            Z.testbit (~~ Boards.forColor (Pos.boards pos) (Pos.toMove pos)) d = true ->
            0 <= d < 64
            /\ Z.testbit (Boards.forColor (Pos.boards pos) (Pos.toMove pos)) d = false).
  { intros d Hd. rewrite bnot_spec, andb_true_iff, negb_true_iff by assumption.
    intros [H64 Ho]. apply Z.ltb_lt in H64. auto. }
  assert (Hpiece : forall p s,
            Z.testbit (Boards.forPieceOf (Pos.boards pos) p (Pos.toMove pos)) s = true ->
            Z.testbit (Boards.forColor (Pos.boards pos) (Pos.toMove pos)) s = true).
  { intros p s. unfold Boards.forPieceOf. rewrite band_testbit, andb_true_iff. tauto. }
  assert (Hpawn : forall s,
            Z.testbit (Boards.pawnsT (Pos.toMove pos) (Pos.boards pos)) s = true ->
            Z.testbit (Boards.forColor (Pos.boards pos) (Pos.toMove pos)) s = true).
  { intros s. unfold Boards.forColor.
    destruct (Pos.toMove pos); cbn [Boards.pawnsT];
      unfold Boards.blackPawns, Boards.whitePawns, Boards.blackOccupancy,
        Boards.whiteOccupancy; rewrite band_testbit, andb_true_iff; tauto. }
  assert (Htable : forall Attacks p,
            In sm (tableMoves Attacks
                     (Boards.forPieceOf (Pos.boards pos) p (Pos.toMove pos))
                     (~~ Boards.forColor (Pos.boards pos) (Pos.toMove pos))) ->
            type (move sm) <> Castling
            /\ Z.testbit (Boards.forColor (Pos.boards pos) (Pos.toMove pos))
                 (src (move sm)) = true
            /\ 0 <= dst (move sm) < 64
            /\ Z.testbit (Boards.forColor (Pos.boards pos) (Pos.toMove pos))
                 (dst (move sm)) = false).
  { intros Attacks p H. apply tableMoves_shape in H.
    destruct H as (Hty & _ & _ & Hs & Hd0 & _ & Hm).
    destruct (Hmask _ Hd0 Hm). apply Hpiece in Hs.
    repeat split; try assumption; try lia. rewrite Hty. discriminate. }
  assert (Htable2 : forall Attacks p q,
            In sm (tableMoves Attacks
                     (Boards.forPieceOf (Pos.boards pos) p (Pos.toMove pos)
                      ||| Boards.forPieceOf (Pos.boards pos) q (Pos.toMove pos))
                     (~~ Boards.forColor (Pos.boards pos) (Pos.toMove pos))) ->
            type (move sm) <> Castling
            /\ Z.testbit (Boards.forColor (Pos.boards pos) (Pos.toMove pos))
                 (src (move sm)) = true
            /\ 0 <= dst (move sm) < 64
            /\ Z.testbit (Boards.forColor (Pos.boards pos) (Pos.toMove pos))
                 (dst (move sm)) = false).
  { intros Attacks p q H. apply tableMoves_shape in H.
    destruct H as (Hty & _ & _ & Hs & Hd0 & _ & Hm).
    destruct (Hmask _ Hd0 Hm).
    rewrite bor_testbit, orb_true_iff in Hs.
    assert (Z.testbit (Boards.forColor (Pos.boards pos) (Pos.toMove pos))
              (src (move sm)) = true) by (destruct Hs as [Hs|Hs]; now apply Hpiece in Hs).
    repeat split; try assumption; try lia. rewrite Hty. discriminate. }
  destruct (negb (Pos.enPassant pos =? Square_None));
    rewrite !generateKings_app; unfold generateKnights;
    rewrite !precalculated_app, !generateSliders_app, !app_nil_l;
    rewrite !(generatePawnsNoisy_app (sliderMoves _ _ _));
    rewrite !(generatePawnsQuiet_app o (_ ++ _));
    unfold sliderMoves, kingMoves, Boards.queensOf, Boards.rooksOf,
      Boards.bishopsOf; cbv zeta;
    rewrite !in_app_iff;
    (intros [[[[[H|H]|H]|H]|H]|[H|H]];
     [ right; now apply Htable2 in H
     | right; now apply Htable2 in H
     | right; apply pawnNoisy_shape in H; cbv zeta in H;
       destruct H as (Hd & Hm & Hs & Hk); apply Hpawn in Hs;
       destruct (Hmask _ (proj1 Hd) Hm) as [_ Hfree];
       repeat split; try assumption; try lia;
       destruct Hk as [(E & _)|[(E & _)|(E & _)]]; rewrite E; discriminate
     | right; apply pawnQuiet_shape in H; cbv zeta in H;
       destruct H as (Hd & Hm & Hs & Hk); apply Hpawn in Hs;
       destruct (Hmask _ (proj1 Hd) Hm) as [_ Hfree];
       repeat split; try assumption; try lia;
       destruct Hk as [(E & _)|(E & _)]; rewrite E; discriminate
     | right; now apply Htable in H
     | right; now apply Htable in H
     | left; apply castlingMoves_shape in H; tauto ]).
Qed.

Lemma generateAll_moves_own_pieces_witness :
  let m := Move_standard (sq ff 3) (sq fe 5) in
  let ours := Boards.forColor (Pos.boards knightFork_position)
                (Pos.toMove knightFork_position) in
  (type m = Castling
   /\ src m = Pos.king knightFork_position (Pos.toMove knightFork_position))
  \/ (type m <> Castling
      /\ Z.testbit ours (src m) = true
      /\ 0 <= dst m < 64
      /\ Z.testbit ours (dst m) = false).
Proof.
  apply (generateAll_moves_own_pieces ModelTables.tables standardOptions
           knightFork_position (scored (Move_standard (sq ff 3) (sq fe 5)))).
  - vm_compute. reflexivity.
  - vm_compute. repeat (first [left; reflexivity | right]).
Defined.

(** *** Noisy and quiet moves *)

Lemma pieceAt_occupied b s c :
  wf_boardsb b = true -> 0 <= s ->
  Z.testbit (m_colors b c) s = true ->
  Boards.pieceAt b s <> Piece_None.
Proof.
  intros Hwf Hs Hc.
  apply wf_boards_okBits in Hwf as (_ & _ & Hok). specialize (Hok s Hs).
  rewrite pieceAt_bits by assumption. cbv zeta.
  unfold okBits, bitsAt in Hok. cbn [map allBasePieces filter] in *.
  destruct c; revert Hok Hc; bits_cases.
Qed.

(** The moves [generateNoisy] emits, in any position: a standard move onto
    an enemy piece or a checker, a queen promotion, an en-passant capture. *)
Lemma generateNoisy_kinds t o pos sm :
  In sm (generateNoisy t o [] pos) ->
  let m := move sm in
  let theirs := Boards.forColor (Pos.boards pos) (oppColor (Pos.toMove pos)) in
  0 <= dst m
  /\ ((type m = Standard /\ targetIdx m = 0
       /\ (Z.testbit theirs (dst m) = true
           \/ Z.testbit (Pos.checkers pos) (dst m) = true))
      \/ (type m = Promotion /\ targetIdx m = 3)
      \/ type m = EnPassant).
Proof.
  cbv zeta. unfold generateNoisy. cbv zeta.
  assert (Htable : forall Attacks pieces mask,
            (mask = Boards.forColor (Pos.boards pos) (oppColor (Pos.toMove pos))
             \/ mask = Pos.checkers pos) ->
            In sm (tableMoves Attacks pieces mask) ->
            0 <= dst (move sm)
            /\ ((type (move sm) = Standard /\ targetIdx (move sm) = 0
                 /\ (Z.testbit (Boards.forColor (Pos.boards pos)
                                  (oppColor (Pos.toMove pos))) (dst (move sm)) = true
                     \/ Z.testbit (Pos.checkers pos) (dst (move sm)) = true))
                \/ (type (move sm) = Promotion /\ targetIdx (move sm) = 3)
                \/ type (move sm) = EnPassant)).
  { intros Attacks pieces mask Hmask H. apply tableMoves_shape in H.
    destruct H as (Hty & Hti & _ & _ & Hd0 & _ & Hm).
    split; [assumption|]. left. repeat split; try assumption.
    destruct Hmask as [->| ->]; auto. }
  assert (Hpawn : forall mask,
            In sm (generatePawnsNoisy [] pos mask) ->
            0 <= dst (move sm)
            /\ ((type (move sm) = Standard /\ targetIdx (move sm) = 0
                 /\ (Z.testbit (Boards.forColor (Pos.boards pos)
                                  (oppColor (Pos.toMove pos))) (dst (move sm)) = true
                     \/ Z.testbit (Pos.checkers pos) (dst (move sm)) = true))
                \/ (type (move sm) = Promotion /\ targetIdx (move sm) = 3)
                \/ type (move sm) = EnPassant)).
  { intros mask H. pose proof (pawnNoisy_shape pos mask sm H) as Hs.
    cbv zeta in Hs. destruct Hs as (Hd & _ & _ & Hk).
    split; [lia|].
    destruct Hk as [(E & Hi & Ht & _)|[(E & Hi & _)|(E & _)]]; auto 10. }
  destruct (negb (Pos.enPassant pos =? Square_None));
    destruct (Pos.isCheck pos);
    try destruct (multiple (Pos.checkers pos));
    rewrite !generateKings_app; unfold generateKnights;
    rewrite ?precalculated_app, ?generateSliders_app, ?app_nil_l;
    rewrite ?(generatePawnsNoisy_app (sliderMoves _ _ _));
    unfold sliderMoves, kingMoves; cbv zeta;
    rewrite !in_app_iff; cbn [In];
    intros H;
    repeat match goal with
           | H : _ \/ _ |- _ => destruct H as [H|H]
           | H : False |- _ => contradiction
           | H : In _ (tableMoves _ _ _) |- _ =>
               apply Htable in H; [exact H|auto]
           | H : In _ (generatePawnsNoisy _ _ _) |- _ =>
               apply Hpawn in H; exact H
           end.
Qed.

(** The moves [generateQuiet] emits outside check: a standard move onto
    an empty square, an underpromotion, a castling move. *)
Lemma generateQuiet_kinds t o pos sm :
  Pos.isCheck pos = false ->
  In sm (generateQuiet t o [] pos) ->
  let m := move sm in
  let b := Pos.boards pos in
  (type m = Standard /\ targetIdx m = 0 /\ 0 <= dst m
   /\ Z.testbit (m_colors b Black) (dst m) = false
   /\ Z.testbit (m_colors b White) (dst m) = false)
  \/ (type m = Promotion /\ targetIdx m <> 3)
  \/ (type m = Castling /\ targetIdx m = 0).
Proof.
  intros Hcheck. cbv zeta. unfold generateQuiet. cbv zeta. rewrite Hcheck.
  set (ours := Boards.forColor (Pos.boards pos) (Pos.toMove pos)).
  set (theirs := Boards.forColor (Pos.boards pos) (oppColor (Pos.toMove pos))).
  assert (Hempty : forall d, 0 <= d ->
            Z.testbit (~~ (ours ||| theirs)) d = true ->
            Z.testbit (m_colors (Pos.boards pos) Black) d = false
            /\ Z.testbit (m_colors (Pos.boards pos) White) d = false).
  { intros d Hd. rewrite bnot_spec, bor_testbit, andb_true_iff, negb_true_iff,
      orb_false_iff by assumption.
    unfold ours, theirs, Boards.forColor.
    destruct (Pos.toMove pos); cbn [oppColor]; tauto. }
  assert (Htable : forall Attacks pieces,
            In sm (tableMoves Attacks pieces (~~ (ours ||| theirs))) ->
            (type (move sm) = Standard /\ targetIdx (move sm) = 0
             /\ 0 <= dst (move sm)
             /\ Z.testbit (m_colors (Pos.boards pos) Black) (dst (move sm)) = false
             /\ Z.testbit (m_colors (Pos.boards pos) White) (dst (move sm)) = false)
            \/ (type (move sm) = Promotion /\ targetIdx (move sm) <> 3)
            \/ (type (move sm) = Castling /\ targetIdx (move sm) = 0)).
  { intros Attacks pieces H. apply tableMoves_shape in H.
    destruct H as (Hty & Hti & _ & _ & Hd0 & _ & Hm).
    destruct (Hempty _ Hd0 Hm). auto 10. }
  rewrite !generateKings_app; unfold generateKnights;
    rewrite ?precalculated_app, ?generateSliders_app, ?app_nil_l;
    rewrite ?(generatePawnsQuiet_app o (sliderMoves _ _ _));
    unfold sliderMoves, kingMoves; cbv zeta;
    rewrite !in_app_iff.
  intros [[[[H|H]|H]|H]|[H|H]]; try (now apply Htable in H).
  - pose proof (pawnQuiet_shape o pos _ _ sm H) as Hs. cbv zeta in Hs.
    destruct Hs as (Hd & Hm & _ & Hk).
    destruct Hk as [(E & Hi & _)|(E & Hi & _ & Hp)]; [auto|].
    left. rewrite bor_testbit, Hp, orb_false_r in Hm.
    destruct (Hempty _ (proj1 Hd) Hm). repeat split; auto. lia.
  - pose proof (castlingMoves_shape t o pos sm H) as (Hty & Hi & _). auto.
Qed.

Lemma pieceAt_not_none b s :
  Piece_eqb (Boards.pieceAt b s) Piece_None = false
  <-> Boards.pieceAt b s <> Piece_None.
Proof.
  destruct (Boards.pieceAt b s) as [|p c]; cbn.
  - split; [discriminate|intros H; now contradiction H].
  - split; [discriminate|reflexivity].
Qed.

(** Every move of [generateNoisy] is noisy in the sense of [isNoisy], the
    checkers of the position being pieces of the opponent. *)
Theorem generateNoisy_isNoisy t o pos sm :
  wf_boardsb (Pos.boards pos) = true ->
  Pos.checkers pos
    &&& Boards.forColor (Pos.boards pos) (oppColor (Pos.toMove pos))
  = Pos.checkers pos ->
  In sm (generateNoisy t o [] pos) ->
  PosMove.isNoisy pos (move sm) = true.
Proof.
  intros Hwf Hchk Hin.
  pose proof (generateNoisy_kinds t o pos sm Hin) as Hk. cbv zeta in Hk.
  destruct Hk as (Hd & [(Hty & Hi & Hdst)|[(Hty & Hi)|Hty]]);
    unfold PosMove.isNoisy, Move_target; rewrite Hty; cbn [MoveType_eqb negb andb orb].
  - rewrite Hi. cbn [Z.to_nat nth BasePiece_eqb orb].
    apply negb_true_iff, pieceAt_not_none.
    assert (Ht : Z.testbit (Boards.forColor (Pos.boards pos)
                              (oppColor (Pos.toMove pos))) (dst (move sm)) = true).
    { destruct Hdst as [Ht|Hc]; [exact Ht|].
      rewrite <- Hchk, band_testbit in Hc. now apply andb_true_iff in Hc. }
    now apply (pieceAt_occupied _ _ (oppColor (Pos.toMove pos))).
  - rewrite Hi. reflexivity.
  - reflexivity.
Qed.

Lemma generateNoisy_isNoisy_witness :
  PosMove.isNoisy knightFork_position (Move_standard (sq ff 3) (sq fe 5)) = true.
Proof.
  apply (generateNoisy_isNoisy ModelTables.tables standardOptions
           knightFork_position (scored (Move_standard (sq ff 3) (sq fe 5)))).
  - vm_compute. reflexivity.
  - vm_compute. reflexivity.
  - vm_compute. repeat (first [left; reflexivity | right]).
Defined.

(** Outside check a move of [generateQuiet] that [isNoisy] calls noisy is an
    underpromotion; all other quiet moves are quiet for [isNoisy] too. *)
Theorem generateQuiet_isNoisy t o pos sm :
  Pos.isCheck pos = false ->
  In sm (generateQuiet t o [] pos) ->
  PosMove.isNoisy pos (move sm) = true ->
  type (move sm) = Promotion /\ Move_target (move sm) <> Queen.
Proof.
  intros Hcheck Hin.
  pose proof (generateQuiet_kinds t o pos sm Hcheck Hin) as Hk. cbv zeta in Hk.
  destruct Hk as [(Hty & Hi & Hd & HB & HW)|[(Hty & Hi)|(Hty & Hi)]];
    unfold PosMove.isNoisy, Move_target; rewrite Hty;
    cbn [MoveType_eqb negb andb orb].
  - rewrite Hi, (pieceAt_vacant _ _ Hd HB HW). discriminate.
  - intros _. split; [reflexivity|].
    intros HQ. apply Hi.
    destruct (Z.to_nat (targetIdx (move sm))) as [|[|[|[|n]]]] eqn:En;
      cbn in HQ; try discriminate; try lia.
    destruct n; discriminate.
  - discriminate.
Qed.

Lemma generateQuiet_isNoisy_witness :
  let m := Move_promotion (sq fb 7) (sq fa 8) Knight in
  type m = Promotion /\ Move_target m <> Queen.
Proof.
  apply (generateQuiet_isNoisy ModelTables.tables standardOptions
           pawnOnSeventh_position
           (scored (Move_promotion (sq fb 7) (sq fa 8) Knight))).
  - vm_compute. reflexivity.
  - vm_compute. repeat (first [left; reflexivity | right]).
  - vm_compute. reflexivity.
Defined.

(** Outside check the noisy and the quiet generator share no move. *)
Theorem generateNoisy_generateQuiet_disjoint t o pos sn sq :
  Pos.isCheck pos = false ->
  In sn (generateNoisy t o [] pos) ->
  In sq (generateQuiet t o [] pos) ->
  move sn <> move sq.
Proof.
  intros Hcheck Hn Hq E.
  pose proof (generateNoisy_kinds t o pos sn Hn) as Hkn.
  pose proof (generateQuiet_kinds t o pos sq Hcheck Hq) as Hkq.
  cbv zeta in Hkn, Hkq. rewrite <- E in Hkq.
  assert (Hc0 : Pos.checkers pos = 0).
  { unfold Pos.isCheck in Hcheck. apply negb_false_iff in Hcheck.
    unfold empty in Hcheck. now apply Z.eqb_eq in Hcheck. }
  destruct Hkn as (Hd & [(Hty & Hi & Hdst)|[(Hty & Hi)|Hty]]);
    destruct Hkq as [(Hty' & Hi' & Hd' & HB & HW)|[(Hty' & Hi')|(Hty' & Hi')]];
    try congruence.
  destruct Hdst as [Ht|Ht].
  - unfold Boards.forColor in Ht.
    destruct (oppColor (Pos.toMove pos)); congruence.
  - rewrite Hc0, Z.bits_0 in Ht. discriminate.
Qed.

Lemma generateNoisy_generateQuiet_disjoint_witness :
  Move_promotion (sq fb 7) (sq fa 8) Queen
  <> Move_promotion (sq fb 7) (sq fa 8) Knight.
Proof.
  apply (generateNoisy_generateQuiet_disjoint ModelTables.tables standardOptions
           pawnOnSeventh_position
           (scored (Move_promotion (sq fb 7) (sq fa 8) Queen))
           (scored (Move_promotion (sq fb 7) (sq fa 8) Knight))).
  - vm_compute. reflexivity.
  - vm_compute. repeat (first [left; reflexivity | right]).
  - vm_compute. repeat (first [left; reflexivity | right]).
Defined.

(** *** The generators append *)

Ltac generator_append :=
  cbv zeta;
  destruct (negb (Pos.enPassant _ =? Square_None));
  destruct (Pos.isCheck _); try destruct (multiple (Pos.checkers _));
  rewrite !generateKings_app; unfold generateKnights;
  rewrite ?precalculated_app, ?generateSliders_app, ?app_nil_l;
  repeat (first [ rewrite (generatePawnsQuiet_app _ (_ ++ _))
                | rewrite (generatePawnsNoisy_app (_ ++ _))
                | rewrite (generatePawnsQuiet_app _ (sliderMoves _ _ _))
                | rewrite (generatePawnsNoisy_app (sliderMoves _ _ _)) ]);
  rewrite <- ?app_assoc; reflexivity.

Lemma generateNoisy_app t o l pos :
  generateNoisy t o l pos = l ++ generateNoisy t o [] pos.
Proof. unfold generateNoisy. generator_append. Qed.

Lemma generateQuiet_app t o l pos :
  generateQuiet t o l pos = l ++ generateQuiet t o [] pos.
Proof.
  unfold generateQuiet. cbv zeta.
  destruct (Pos.isCheck pos); try destruct (multiple (Pos.checkers pos));
    rewrite !generateKings_app; unfold generateKnights;
    rewrite ?precalculated_app, ?generateSliders_app, ?app_nil_l;
    repeat (first [ rewrite (generatePawnsQuiet_app _ (_ ++ _))
                  | rewrite (generatePawnsQuiet_app _ (sliderMoves _ _ _)) ]);
    rewrite <- ?app_assoc; reflexivity.
Qed.

Lemma generateAll_app t o l pos :
  generateAll t o l pos = l ++ generateAll t o [] pos.
Proof. unfold generateAll. generator_append. Qed.

(** The three generators leave the entries already in the list where they
    are and put their moves behind them, the same moves whatever the list
    held. *)
Theorem generators_append t o l pos :
  generateNoisy t o l pos = l ++ generateNoisy t o [] pos
  /\ generateQuiet t o l pos = l ++ generateQuiet t o [] pos
  /\ generateAll t o l pos = l ++ generateAll t o [] pos.
Proof.
  repeat split;
    [apply generateNoisy_app|apply generateQuiet_app|apply generateAll_app].
Qed.

(** *** Where the moves of the staged generator come from *)

Lemma In_firstn_skipn_map (f : ScoredMove -> ScoredMove) (srt : list ScoredMove -> list ScoredMove)
  k l sm :
  (forall x, move (f x) = move x) ->
  (forall l' x, In x (srt l') -> In x l') ->
  In sm (firstn k l ++ srt (map f (skipn k l))) ->
  exists sm', In sm' l /\ move sm = move sm'.
Proof.
  intros Hf Hs H. apply in_app_or in H. destruct H as [H|H].
  - exists sm. split; [|reflexivity].
    rewrite <- (firstn_skipn k l). apply in_or_app. now left.
  - apply Hs, in_map_iff in H. destruct H as (x & <- & Hx).
    exists x. split; [|apply Hf].
    rewrite <- (firstn_skipn k l). apply in_or_app. now right.
Qed.

Lemma In_firstn_skipn (srt : list ScoredMove -> list ScoredMove) k l sm :
  (forall l' x, In x (srt l') -> In x l') ->
  In sm (firstn k l ++ srt (skipn k l)) -> In sm l.
Proof.
  intros Hs H. rewrite <- (firstn_skipn k l). apply in_or_app.
  apply in_app_or in H. destruct H as [H|H]; [now left|right; now apply Hs].
Qed.

Lemma at_In l i : In (at_ l i) l \/ at_ l i = mkScored NullMove 0.
Proof.
  unfold at_. destruct (nth_in_or_default (Z.to_nat i) l (mkScored NullMove 0));
    auto.
Qed.

Lemma set_at_In l i v sm : In sm (set_at l i v) -> sm = v \/ In sm l.
Proof.
  revert i. induction l as [|x l IH]; intros i H; [destruct i; contradiction H|].
  destruct i; cbn [set_at] in H; destruct H as [H|H]; cbn [In]; auto.
  destruct (IH _ H); auto.
Qed.

Section Provenance.

Variable t : AttackTables.
Variable o : GlobalOptions.
Variable c : Collaborators.
Variable G : Position -> Move -> Prop.
Hypothesis G_noisy :
  forall pos sm, In sm (generateNoisy t o [] pos) -> G pos (move sm).
Hypothesis G_quiet :
  forall pos sm, In sm (generateQuiet t o [] pos) -> G pos (move sm).

Lemma continues_refl g : continues G g g.
Proof.
  repeat split. intros sm H. right. right. now exists sm.
Qed.

Lemma listed_continues g g' mv :
  continues G g g' -> listed G g' mv -> listed G g mv.
Proof.
  intros (Hp & _ & _ & _ & _ & Hl) [H|[H|(sm & Hin & <-)]].
  - now left.
  - right. left. now rewrite <- Hp.
  - now apply Hl.
Qed.

Lemma ordered_continues g g' mv :
  continues G g g' -> ordered g' mv -> ordered g mv.
Proof.
  intros (_ & Hh & Hk & Hi & Hm & _). unfold ordered.
  now rewrite Hh, Hk, Hi, Hm.
Qed.

Lemma continues_trans g g' g'' :
  continues G g g' -> continues G g' g'' -> continues G g g''.
Proof.
  intros H1 H2.
  pose proof H1 as (Hp & Hh & Hk & Hi & Hm & Hl).
  pose proof H2 as (Hp' & Hh' & Hk' & Hi' & Hm' & Hl').
  repeat split; try congruence.
  intros sm Hin. apply (listed_continues g g'); auto.
Qed.

Lemma continues_same g g' :
  m_pos g' = m_pos g -> m_hashMove g' = m_hashMove g ->
  m_killer g' = m_killer g -> m_history g' = m_history g ->
  m_prevMove g' = m_prevMove g -> m_moves g' = m_moves g ->
  continues G g g'.
Proof.
  intros Hp Hh Hk Hi Hm Hl. repeat split; auto.
  intros sm Hin. rewrite Hl in Hin. right. right. now exists sm.
Qed.

Lemma genNoisy_continues g : continues G g (genNoisy t o c g).
Proof.
  repeat split. intros sm Hin.
  unfold genNoisy, scoreNoisy in Hin.
  cbn [m_moves m_idx m_pos set_moves set_noisyEnd set_goodNoisyEnd] in Hin.
  apply (In_firstn_skipn stableSortByScore) in Hin;
    [|intros l' x; apply stableSortByScore_In].
  apply (In_firstn_skipn_map (scoreNoisyMove c (m_pos g)) (fun l => l)) in Hin;
    [|reflexivity|auto].
  destruct Hin as (sm' & Hin & ->).
  rewrite generateNoisy_app in Hin. apply in_app_or in Hin.
  destruct Hin as [Hin|Hin].
  - right. right. now exists sm'.
  - right. left. now apply G_noisy.
Qed.

Lemma genQuiet_continues g : continues G g (genQuiet t o g).
Proof.
  repeat split. intros sm Hin.
  unfold genQuiet, scoreQuiet in Hin.
  cbn [m_moves m_idx m_pos m_noisyEnd set_moves set_noisyEnd set_goodNoisyEnd] in Hin.
  match type of Hin with
  | In _ (_ ++ map ?f _) =>
      apply (In_firstn_skipn_map f (fun l => l)) in Hin; [|reflexivity|auto]
  end.
  destruct Hin as (sm' & Hin & ->).
  rewrite generateQuiet_app in Hin. apply in_app_or in Hin.
  destruct Hin as [Hin|Hin].
  - right. right. now exists sm'.
  - right. left. now apply G_quiet.
Qed.

Lemma listed_at g i : listed G g (move (at_ (m_moves g) i)).
Proof.
  destruct (at_In (m_moves g) i) as [H|H].
  - right. right. eauto.
  - left. now rewrite H.
Qed.

Lemma findNext_continues g :
  continues G g (snd (findNext g)) /\ listed G g (fst (findNext g)).
Proof.
  unfold findNext.
  destruct (m_stage g =? MovegenStage.GoodNoisy).
  - cbn [fst snd]. split; [now apply continues_same|apply listed_at].
  - cbv zeta.
    set (best := scanBest _ _ _ _).
    destruct (negb (best =? m_idx g)); cbn [fst snd].
    + assert (Hl : forall sm,
                In sm (set_at (set_at (m_moves g) (Z.to_nat (m_idx g))
                                 (at_ (m_moves g) best))
                         (Z.to_nat best) (at_ (m_moves g) (m_idx g))) ->
                listed G g (move sm)).
      { intros sm Hin. apply set_at_In in Hin. destruct Hin as [->|Hin];
          [apply listed_at|].
        apply set_at_In in Hin. destruct Hin as [->|Hin]; [apply listed_at|].
        right. right. eauto. }
      split.
      * repeat split. exact Hl.
      * cbn [m_moves set_moves m_idx].
        destruct (at_In (set_at (set_at (m_moves g) (Z.to_nat (m_idx g))
                                   (at_ (m_moves g) best))
                           (Z.to_nat best) (at_ (m_moves g) (m_idx g)))
                    (m_idx g)) as [H|H].
        -- now apply Hl.
        -- left. now rewrite H.
    + split; [now apply continues_same|apply listed_at].
Qed.

Lemma stages_continues q fuel : forall g r,
  stages t o c q fuel g = Some r ->
  match r with
  | inl (mv, g') => continues G g g' /\ ordered g mv
  | inr g' => continues G g g'
  end.
Proof.
  induction fuel as [|k IH]; intros g r; cbn [stages];
    destruct ((m_idx g =? size (m_moves g)) || (m_idx g =? m_goodNoisyEnd g));
    try discriminate;
    try (intros [= <-]; apply continues_refl).
  cbn [m_stage set_stage m_hashMove m_killer m_history m_prevMove m_pos
         m_countermove set_countermove].
  set (g1 := set_stage g (m_stage g + 1)).
  assert (H1 : continues G g g1) by now apply continues_same.
  assert (Hrec : forall g2, continues G g g2 ->
            stages t o c q k g2 = Some r ->
            match r with
            | inl (mv, g') => continues G g g' /\ ordered g mv
            | inr g' => continues G g g'
            end).
  { intros g2 H2 Hs. specialize (IH g2 r Hs).
    destruct r as [[mv g']|g'].
    - destruct IH as (Hc & Ho). split.
      + now apply (continues_trans g g2).
      + now apply (ordered_continues g g2).
    - now apply (continues_trans g g2). }
  destruct (m_stage g + 1 =? MovegenStage.Hash).
  { destruct (Move_isSome (m_hashMove g)).
    - intros [= <-]. split; [exact H1|]. right. now left.
    - now apply Hrec. }
  destruct (m_stage g + 1 =? MovegenStage.GoodNoisy).
  { apply Hrec. apply (continues_trans g (genNoisy t o c g1)).
    - apply (continues_trans g g1); [exact H1|apply genNoisy_continues].
    - destruct q; [now apply continues_same|apply continues_refl]. }
  destruct (m_stage g + 1 =? MovegenStage.Killer).
  { destruct (_ && _).
    - intros [= <-]. split; [exact H1|]. right. right. now left.
    - now apply Hrec. }
  destruct (m_stage g + 1 =? MovegenStage.Countermove).
  { destruct (m_history g) as [h|] eqn:Eh; [|now apply Hrec].
    destruct (HistoryMove_isSome (m_prevMove g)); [|now apply Hrec].
    destruct (_ && _).
    - intros [= <-]. split; [now apply continues_same|].
      right. right. right. exists h. split; [exact Eh|reflexivity].
    - apply Hrec. now apply continues_same. }
  destruct (m_stage g + 1 =? MovegenStage.Quiet).
  { apply Hrec. apply (continues_trans g g1); [exact H1|apply genQuiet_continues]. }
  destruct (m_stage g + 1 =? MovegenStage.BadNoisy).
  { now apply Hrec. }
  intros [= <-]. split; [exact H1|now left].
Qed.

Lemma next_continues q fuel : forall g mv g',
  next t o c q fuel g = Some (mv, g') ->
  continues G g g' /\ (ordered g mv \/ listed G g mv).
Proof.
  induction fuel as [|k IH]; intros g mv g'; cbn [next]; [discriminate|].
  destruct (stages t o c q 16 g) as [[[mv1 g1]|g1]|] eqn:Es; [| |discriminate].
  - intros [= <- <-]. apply stages_continues in Es. destruct Es. auto.
  - apply stages_continues in Es.
    destruct (m_idx g1 =? size (m_moves g1)).
    + intros [= <- <-]. split; [exact Es|]. left. now left.
    + pose proof (findNext_continues g1) as (Hc & Hl).
      destruct (findNext g1) as [mv2 g2]. cbn [fst snd] in Hc, Hl.
      destruct (_ && _).
      * intros [= <- <-]. split.
        -- now apply (continues_trans g g1).
        -- right. now apply (listed_continues g g1).
      * intros Hn. apply IH in Hn. destruct Hn as (Hc' & Hm).
        assert (Hc2 : continues G g g2) by now apply (continues_trans g g1).
        split; [now apply (continues_trans g g2)|].
        destruct Hm as [Hm|Hm].
        -- left. now apply (ordered_continues g g2).
        -- right. now apply (listed_continues g g2).
Qed.

Lemma drain_continues q calls : forall g mv,
  In mv (drain t o c q calls g) ->
  Move_isSome mv = true /\ (ordered g mv \/ listed G g mv).
Proof.
  induction calls as [|k IH]; intros g mv; cbn [drain]; [contradiction|].
  destruct (next t o c q 512 g) as [[mv1 g1]|] eqn:En; [|contradiction].
  destruct (Move_isSome mv1) eqn:Es; [|contradiction].
  apply next_continues in En. destruct En as (Hc & Hm).
  intros [<-|Hin]; [auto|].
  apply IH in Hin. destruct Hin as (Hs & [Ho|Hl]).
  - split; [exact Hs|]. left. now apply (ordered_continues g g1).
  - split; [exact Hs|]. right. now apply (listed_continues g g1).
Qed.

End Provenance.

(** Every move the staged generator hands out is the hash move, the killer,
    the countermove of the history table for the previous move, or a move of
    [generateNoisy] or [generateQuiet] for the position. *)
Theorem drain_provenance t o c q calls pos killer hashMove prevMove prevPrevMove
  history mv :
  In mv (drain t o c q calls
           (MoveGenerator_new pos killer hashMove prevMove prevPrevMove history)) ->
  mv = hashMove
  \/ mv = killer
  \/ (exists h, history = Some h /\ mv = entry_countermove h prevMove)
  \/ (exists sm, In sm (generateNoisy t o [] pos) /\ move sm = mv)
  \/ (exists sm, In sm (generateQuiet t o [] pos) /\ move sm = mv).
Proof.
  intros Hin.
  apply (drain_continues t o c
           (fun p m => (exists sm, In sm (generateNoisy t o [] p) /\ move sm = m)
                       \/ (exists sm, In sm (generateQuiet t o [] p) /\ move sm = m)))
    in Hin; [|intros p sm H; left; eauto|intros p sm H; right; eauto].
  destruct Hin as (Hs & [Ho|Hl]).
  - destruct Ho as [->|[Ho|[Ho|Ho]]]; [discriminate Hs|auto..].
  - destruct Hl as [->|[[Hl|Hl]|(sm & Hc & _)]];
      [discriminate Hs|auto..|contradiction Hc].
Qed.

(** The knight's retreat to g1 in the fork position comes from
    [generateQuiet]. *)
Lemma drain_provenance_witness :
  let mv := Move_standard (sq ff 3) (sq fg 1) in
  mv = NullMove
  \/ mv = NullMove
  \/ (exists h, Some knightFork_history = Some h
                /\ mv = entry_countermove h kingToG8)
  \/ (exists sm,
        In sm (generateNoisy ModelTables.tables standardOptions []
                 knightFork_position)
        /\ move sm = mv)
  \/ (exists sm,
        In sm (generateQuiet ModelTables.tables standardOptions []
                 knightFork_position)
        /\ move sm = mv).
Proof.
  apply (drain_provenance ModelTables.tables standardOptions
           ModelCollaborators.collaborators false 64 knightFork_position
           NullMove NullMove kingToG8 HistoryMove_none (Some knightFork_history)).
  vm_compute. repeat (first [left; reflexivity | right]).
Defined.

(** *** The quiescence generator *)

Lemma findIf_range p l : 0 <= findIf p l <= size l.
Proof.
  unfold size. induction l as [|x l IH]; cbn [findIf length]; [lia|].
  destruct (p x); lia.
Qed.

Lemma scanBest_keeps l : forall i best bestScore,
  (forall x, In x l -> score x <= bestScore) ->
  scanBest l i best bestScore = best.
Proof.
  induction l as [|x l IH]; intros i best bs H; cbn [scanBest]; [reflexivity|].
  destruct (Z.ltb_spec bs (score x)) as [Hlt|Hge].
  - specialize (H x (or_introl eq_refl)). lia.
  - apply IH. intros y Hy. apply H. now right.
Qed.

Lemma sorted_tail_below l : StronglySorted scoreDescending l ->
  forall n x d, (n < length l)%nat -> In x (skipn (S n) l) ->
                score x <= score (nth n l d).
Proof.
  induction 1 as [|a l Hs IH Ha]; intros n x d Hn Hin; [cbn in Hn; lia|].
  destruct n as [|n]; cbn [skipn nth] in *.
  - rewrite Forall_forall in Ha. now apply Ha.
  - apply IH; [cbn in Hn; lia|exact Hin].
Qed.

Section Quiescence.

Variable t : AttackTables.
Variable o : GlobalOptions.
Variable c : Collaborators.
Variable pos : Position.
Variable hashMove : Move.

Lemma genNoisy_quiescence g v :
  quiescenceStart pos hashMove g ->
  quiescenceRun t o c pos hashMove
    (set_stage (genNoisy t o c (set_stage g v)) MovegenStage.End).
Proof.
  intros (_ & Hm & Hi & Hp & Hh).
  unfold quiescenceRun, genNoisy, scoreNoisy, sortedNoisy.
  cbn [m_moves m_idx m_pos m_goodNoisyEnd m_noisyEnd m_stage m_hashMove
         set_moves set_noisyEnd set_goodNoisyEnd set_stage].
  rewrite Hm, Hi, Hp. cbn [Z.to_nat firstn skipn app Z.add].
  repeat split; auto; try lia; apply findIf_range.
Qed.

Lemma quiescenceRun_set_stage g :
  quiescenceRun t o c pos hashMove g ->
  quiescenceRun t o c pos hashMove (set_stage g (m_stage g + 1)).
Proof.
  intros (Hs & Hm & Hg & Hi & Hp & Hh).
  unfold quiescenceRun.
  cbn [m_stage m_moves m_goodNoisyEnd m_idx m_pos m_hashMove set_stage].
  repeat split; try assumption; try lia.
Qed.

Lemma stages_quiescence_run fuel g r :
  quiescenceRun t o c pos hashMove g ->
  stages t o c true fuel g = Some r ->
  match r with
  | inl (mv, g') => quiescenceRun t o c pos hashMove g' /\ mv = NullMove
  | inr g' =>
      quiescenceRun t o c pos hashMove g'
      /\ m_idx g' <> m_goodNoisyEnd g'
      /\ m_idx g' <> size (m_moves g')
  end.
Proof.
  intros Hrun.
  assert (Hout : (m_idx g =? size (m_moves g)) || (m_idx g =? m_goodNoisyEnd g)
                 = false ->
                 quiescenceRun t o c pos hashMove g
                 /\ m_idx g <> m_goodNoisyEnd g
                 /\ m_idx g <> size (m_moves g)).
  { intros H. apply orb_false_iff in H. destruct H as (H1 & H2).
    apply Z.eqb_neq in H1, H2. auto. }
  destruct fuel as [|k]; cbn [stages];
    destruct ((m_idx g =? size (m_moves g)) || (m_idx g =? m_goodNoisyEnd g));
    try discriminate; try (intros [= <-]; now apply Hout).
  cbn [m_stage set_stage].
  pose proof Hrun as (Hs & _). change MovegenStage.End with 7 in Hs.
  change MovegenStage.Hash with 1; change MovegenStage.GoodNoisy with 2;
    change MovegenStage.Killer with 3; change MovegenStage.Countermove with 4;
    change MovegenStage.Quiet with 5; change MovegenStage.BadNoisy with 6.
  repeat match goal with
         | |- context [?a =? ?b] =>
             destruct (Z.eqb_spec a b) as [?|_]; [lia|]
         end.
  intros [= <-]. split; [now apply quiescenceRun_set_stage|reflexivity].
Qed.

Lemma stages_quiescence fuel : forall g r,
  quiescenceStart pos hashMove g \/ quiescenceRun t o c pos hashMove g ->
  stages t o c true fuel g = Some r ->
  match r with
  | inl (mv, g') =>
      (quiescenceStart pos hashMove g' \/ quiescenceRun t o c pos hashMove g')
      /\ (mv = NullMove \/ mv = hashMove)
  | inr g' =>
      quiescenceRun t o c pos hashMove g'
      /\ m_idx g' <> m_goodNoisyEnd g'
      /\ m_idx g' <> size (m_moves g')
  end.
Proof.
  induction fuel as [|k IH]; intros g r [Hst|Hrun] Hs;
    try (apply stages_quiescence_run in Hs; [|exact Hrun];
         destruct r as [[mv g']|g']; [destruct Hs; auto|exact Hs]).
  - destruct Hst as (_ & Hm & Hi & _). cbn [stages] in Hs.
    rewrite Hm, Hi in Hs. discriminate Hs.
  - pose proof Hst as (Hstage & Hm & Hi & Hp & Hh). cbn [stages] in Hs.
    rewrite Hm, Hi in Hs. change (0 =? size []) with true in Hs.
    cbn [orb m_stage set_stage m_hashMove] in Hs.
    destruct Hstage as [E|E]; rewrite E in Hs.
    + change (MovegenStage.Start + 1 =? MovegenStage.Hash) with true in Hs.
      cbv iota in Hs.
      destruct (Move_isSome (m_hashMove g)).
      * injection Hs as <-. split; [|now right].
        left. unfold quiescenceStart.
        cbn [m_stage m_moves m_idx m_pos m_hashMove set_stage]. auto 10.
      * apply IH in Hs; [exact Hs|].
        left. unfold quiescenceStart.
        cbn [m_stage m_moves m_idx m_pos m_hashMove set_stage]. auto 10.
    + change (MovegenStage.Hash + 1 =? MovegenStage.Hash) with false in Hs.
      change (MovegenStage.Hash + 1 =? MovegenStage.GoodNoisy) with true in Hs.
      cbv iota in Hs.
      apply IH in Hs; [exact Hs|].
      right. now apply genNoisy_quiescence.
Qed.

Lemma findNext_quiescence g :
  quiescenceRun t o c pos hashMove g ->
  m_idx g <> m_goodNoisyEnd g ->
  m_idx g <> size (m_moves g) ->
  quiescenceRun t o c pos hashMove (snd (findNext g))
  /\ goodNoisy t o c pos (fst (findNext g)).
Proof.
  intros (Hs & Hm & Hg & Hi & Hp & Hh) Hne Hsz.
  pose proof (findIf_range (fun v => score v <? GoodNoisyThreshold)
                (sortedNoisy t o c pos)) as Hr.
  rewrite <- Hg, <- Hm in Hr.
  assert (Hlen : (Z.to_nat (m_idx g) < length (m_moves g))%nat).
  { unfold size in *. lia. }
  pose proof (stableSortByScore_sorted
                (map (scoreNoisyMove c pos) (generateNoisy t o [] pos))) as Hsorted.
  fold (sortedNoisy t o c pos) in Hsorted. rewrite <- Hm in Hsorted.
  unfold findNext.
  destruct (Z.eqb_spec (m_stage g) MovegenStage.GoodNoisy) as [E|_].
  { change MovegenStage.End with 7 in Hs.
    change MovegenStage.GoodNoisy with 2 in E. lia. }
  cbv zeta.
  rewrite scanBest_keeps.
  2:{ intros x Hx. unfold at_.
      apply (sorted_tail_below _ Hsorted); [exact Hlen|].
      replace (S (Z.to_nat (m_idx g))) with (Z.to_nat (m_idx g + 1)) by lia.
      exact Hx. }
  rewrite Z.eqb_refl. cbn [negb fst snd m_moves set_idx].
  split.
  - repeat split; auto; cbn [m_idx m_goodNoisyEnd set_idx]; lia.
  - unfold at_.
    destruct (nth_error (m_moves g) (Z.to_nat (m_idx g))) as [sm|] eqn:En.
    2:{ apply nth_error_None in En. lia. }
    rewrite (nth_error_nth _ _ _ En).
    pose proof (findIf_boundary GoodNoisyThreshold _ Hsorted _ _ En) as Hb.
    assert (Hge : GoodNoisyThreshold <= score sm).
    { destruct (Z.lt_ge_cases (score sm) GoodNoisyThreshold) as [Hlt|]; [|assumption].
      apply Hb in Hlt. rewrite Hm, <- Hg in Hlt. lia. }
    apply nth_error_In in En. rewrite Hm in En.
    unfold sortedNoisy in En. apply stableSortByScore_In, in_map_iff in En.
    destruct En as (sm' & <- & Hin).
    exists sm'. repeat split; auto.
Qed.

Lemma next_quiescence fuel : forall g mv g',
  quiescenceStart pos hashMove g \/ quiescenceRun t o c pos hashMove g ->
  next t o c true fuel g = Some (mv, g') ->
  (quiescenceStart pos hashMove g' \/ quiescenceRun t o c pos hashMove g')
  /\ (mv = NullMove \/ mv = hashMove \/ goodNoisy t o c pos mv).
Proof.
  induction fuel as [|k IH]; intros g mv g' Hinv; cbn [next]; [discriminate|].
  destruct (stages t o c true 16 g) as [[[mv1 g1]|g1]|] eqn:Es; [| |discriminate].
  - intros [= <- <-]. apply stages_quiescence in Es; [|exact Hinv].
    destruct Es as (Hq & [-> | ->]); auto.
  - apply stages_quiescence in Es; [|exact Hinv].
    destruct Es as (Hrun & Hne & Hsz).
    destruct (Z.eqb_spec (m_idx g1) (size (m_moves g1))) as [E|_];
      [now contradiction Hsz|].
    pose proof (findNext_quiescence g1 Hrun Hne Hsz) as (Hrun2 & Hgood).
    destruct (findNext g1) as [mv2 g2]. cbn [fst snd] in Hrun2, Hgood.
    destruct (_ && _).
    + intros [= <- <-]. auto.
    + apply IH. now right.
Qed.

Lemma drain_quiescence calls : forall g mv,
  quiescenceStart pos hashMove g \/ quiescenceRun t o c pos hashMove g ->
  In mv (drain t o c true calls g) ->
  mv = hashMove \/ goodNoisy t o c pos mv.
Proof.
  induction calls as [|k IH]; intros g mv Hinv; cbn [drain]; [contradiction|].
  destruct (next t o c true 512 g) as [[mv1 g1]|] eqn:En; [|contradiction].
  destruct (Move_isSome mv1) eqn:Es; [|contradiction].
  apply next_quiescence in En; [|exact Hinv]. destruct En as (Hinv1 & Hm).
  intros [<-|Hin].
  - destruct Hm as [->|Hm]; [discriminate Es|exact Hm].
  - now apply (IH g1).
Qed.

End Quiescence.

(** The quiescence generator hands out the hash move and noisy moves only,
    and of the noisy moves those that [scoreNoisy] scores at
    [GoodNoisyThreshold] or more: no killer, no countermove, no quiet move
    and no noisy move below the threshold leaves it. *)
Theorem quiescence_yields_good_noisy t o c calls pos killer hashMove prevMove
  prevPrevMove history mv :
  In mv (drain t o c true calls
           (MoveGenerator_new pos killer hashMove prevMove prevPrevMove history)) ->
  mv = hashMove
  \/ exists sm, In sm (generateNoisy t o [] pos) /\ move sm = mv
                /\ GoodNoisyThreshold <= score (scoreNoisyMove c pos sm).
Proof.
  apply drain_quiescence. left. repeat split. now left.
Qed.

(** In the exchange position the quiescence generator hands out the knight's
    capture and keeps the queen's losing capture back. *)
Lemma quiescence_yields_good_noisy_witness :
  let mv := Move_standard (sq ff 3) (sq fe 5) in
  mv = NullMove
  \/ exists sm,
       In sm (generateNoisy ModelTables.tables standardOptions [] exchange_position)
       /\ move sm = mv
       /\ GoodNoisyThreshold
          <= score (scoreNoisyMove ModelCollaborators.collaborators
                      exchange_position sm).
Proof.
  apply (quiescence_yields_good_noisy ModelTables.tables standardOptions
           ModelCollaborators.collaborators 64 exchange_position NullMove NullMove
           HistoryMove_none HistoryMove_none None).
  vm_compute. repeat (first [left; reflexivity | right]).
Defined.

(** *** The selection step of [findNext] *)

Lemma scanBest_spec l : forall i best bestScore,
  let r := scanBest l i best bestScore in
  (r = best /\ forall x, In x l -> score x <= bestScore)
  \/ (exists k, r = i + Z.of_nat k /\ (k < length l)%nat
                /\ bestScore < score (nth k l (mkScored NullMove 0))
                /\ forall x, In x l ->
                             score x <= score (nth k l (mkScored NullMove 0))).
Proof.
  induction l as [|x l IH]; intros i best bs; cbv zeta; cbn [scanBest].
  - left. split; [reflexivity|intros x []].
  - destruct (Z.ltb_spec bs (score x)) as [Hlt|Hge].
    + right. destruct (IH (i + 1) i (score x)) as [(Hr & Hall)|(k & Hr & Hk & Hb & Hall)].
      * exists 0%nat. cbn [nth length]. repeat split; [lia|lia|exact Hlt|].
        intros y [<-|Hy]; [lia|now apply Hall].
      * exists (S k). cbn [nth length]. repeat split; [lia|lia|lia|].
        intros y [<-|Hy]; [lia|now apply Hall].
    + destruct (IH (i + 1) best bs) as [(Hr & Hall)|(k & Hr & Hk & Hb & Hall)].
      * left. split; [exact Hr|]. intros y [<-|Hy]; [lia|now apply Hall].
      * right. exists (S k). cbn [nth length]. repeat split; [lia|lia|exact Hb|].
        intros y [<-|Hy]; [lia|now apply Hall].
Qed.

Lemma split_at_nth (l : list ScoredMove) : forall n d,
  (n < length l)%nat ->
  l = firstn n l ++ nth n l d :: skipn (S n) l.
Proof.
  induction l as [|x l IH]; intros n d Hn; [cbn in Hn; lia|].
  destruct n as [|n]; [reflexivity|].
  cbn [firstn nth skipn app]. f_equal. apply IH. cbn in Hn. lia.
Qed.

Lemma set_at_app (A L : list ScoredMove) j v :
  set_at (A ++ L) (length A + j) v = A ++ set_at L j v.
Proof.
  induction A as [|x A IH]; [reflexivity|].
  cbn [app length Nat.add set_at]. now rewrite IH.
Qed.

Lemma set_at_head x (R : list ScoredMove) v : set_at (x :: R) 0 v = v :: R.
Proof. reflexivity. Qed.

Lemma set_at_tail x (R : list ScoredMove) j v :
  set_at (x :: R) (S j) v = x :: set_at R j v.
Proof. reflexivity. Qed.

Lemma set_at_Permutation (R : list ScoredMove) : forall k a d,
  (k < length R)%nat ->
  Permutation (nth k R d :: set_at R k a) (a :: R).
Proof.
  induction R as [|x R IH]; intros k a d Hk; [cbn in Hk; lia|].
  destruct k as [|k]; cbn [nth set_at].
  - apply perm_swap.
  - rewrite perm_swap. rewrite (IH k a d) by (cbn in Hk; lia). apply perm_swap.
Qed.

(** Past the good noisy moves [findNext] is one step of a selection sort: it
    moves an entry with the largest score of the entries from [m_idx] on to
    [m_idx], hands its move out and steps over it; the entries before
    [m_idx] stay and the list keeps its entries. *)
Theorem findNext_selects_best g :
  m_stage g <> MovegenStage.GoodNoisy ->
  0 <= m_idx g < size (m_moves g) ->
  let mv := fst (findNext g) in
  let g' := snd (findNext g) in
  let n := Z.to_nat (m_idx g) in
  Permutation (m_moves g') (m_moves g)
  /\ firstn n (m_moves g') = firstn n (m_moves g)
  /\ m_idx g' = m_idx g + 1
  /\ mv = move (at_ (m_moves g') (m_idx g))
  /\ forall sm, In sm (skipn n (m_moves g')) ->
                score sm <= score (at_ (m_moves g') (m_idx g)).
Proof.
  intros Hstage Hidx. cbv zeta. unfold findNext.
  destruct (Z.eqb_spec (m_stage g) MovegenStage.GoodNoisy) as [E|_];
    [now contradiction Hstage|].
  cbv zeta.
  set (d := mkScored NullMove 0).
  set (n := Z.to_nat (m_idx g)).
  assert (Hn : (n < length (m_moves g))%nat) by (unfold size in Hidx; lia).
  pose proof (split_at_nth (m_moves g) n d Hn) as Hsplit.
  set (A := firstn n (m_moves g)) in *.
  set (R := skipn (S n) (m_moves g)) in *.
  assert (HA : length A = n) by (unfold A; rewrite length_firstn; lia).
  assert (Ha : at_ (m_moves g) (m_idx g) = nth n (m_moves g) d) by reflexivity.
  replace (Z.to_nat (m_idx g + 1)) with (S n) by lia. fold R.
  rewrite Ha.
  set (a := nth n (m_moves g) d) in *.
  assert (Hfirst : forall X, firstn n (A ++ X) = A).
  { intros X. rewrite <- HA, firstn_app, firstn_all, Nat.sub_diag.
    cbn [firstn]. apply app_nil_r. }
  assert (Hskip : forall X, skipn n (A ++ X) = X).
  { intros X. rewrite <- HA, skipn_app, skipn_all, Nat.sub_diag. reflexivity. }
  assert (Hat : forall X x, at_ (A ++ x :: X) (m_idx g) = x).
  { intros X x. unfold at_. fold n. rewrite <- HA.
    rewrite nth_middle. reflexivity. }
  destruct (scanBest_spec R (m_idx g + 1) (m_idx g) (score a))
    as [(Hr & Hall)|(k & Hr & Hk & Hb & Hall)]; cbv zeta in Hr; rewrite Hr.
  - rewrite Z.eqb_refl. cbn [negb fst snd m_moves m_idx set_idx].
    rewrite Ha. fold a. repeat split; auto.
    intros sm Hin. rewrite Hsplit, Hskip in Hin.
    destruct Hin as [<-|Hin]; [lia|now apply Hall].
  - destruct (Z.eqb_spec (m_idx g + 1 + Z.of_nat k) (m_idx g)) as [E|_]; [lia|].
    cbn [negb fst snd m_moves m_idx set_idx set_moves].
    assert (Hb' : at_ (m_moves g) (m_idx g + 1 + Z.of_nat k) = nth k R d).
    { unfold at_. fold d.
      replace (Z.to_nat (m_idx g + 1 + Z.of_nat k)) with (length A + S k)%nat by lia.
      rewrite Hsplit at 1. rewrite app_nth2_plus. reflexivity. }
    rewrite Hb'.
    replace (Z.to_nat (m_idx g + 1 + Z.of_nat k)) with (length A + S k)%nat by lia.
    fold n.
    assert (E : set_at (set_at (m_moves g) n (nth k R d)) (length A + S k) a
                = A ++ nth k R d :: set_at R k a).
    { rewrite Hsplit. replace n with (length A + 0)%nat at 1 by lia.
      now rewrite set_at_app, set_at_head, set_at_app, set_at_tail. }
    rewrite E, Hat, Hfirst, Hskip. subst d.
    repeat split; auto.
    + rewrite Hsplit. apply Permutation_app_head.
      now apply set_at_Permutation.
    + intros sm [<-|Hin]; [lia|].
      apply set_at_In in Hin. destruct Hin as [->|Hin]; [lia|now apply Hall].
Qed.

Lemma findNext_selects_best_witness :
  let g := set_stage
             (genQuiet ModelTables.tables standardOptions
                (MoveGenerator_new knightFork_position NullMove NullMove
                   HistoryMove_none HistoryMove_none (Some knightFork_history)))
             MovegenStage.Quiet in
  Permutation (m_moves (snd (findNext g))) (m_moves g)
  /\ m_idx (snd (findNext g)) = 1.
Proof.
  cbv zeta.
  destruct (findNext_selects_best
              (set_stage
                 (genQuiet ModelTables.tables standardOptions
                    (MoveGenerator_new knightFork_position NullMove NullMove
                       HistoryMove_none HistoryMove_none
                       (Some knightFork_history)))
                 MovegenStage.Quiet)) as (Hp & _ & Hi & _).
  - vm_compute. discriminate.
  - vm_compute. split; [discriminate|reflexivity].
  - split; [exact Hp|exact Hi].
Defined.

(** *** Evaluating twice on the pawn cache *)

(** What one evaluation does with the cache. *)
Lemma evaluate_with_cache t pos cache :
  let key := Pos.pawnKey pos in
  let hit := Evaluation.entry_key (Evaluation.probe cache key) =? key in
  Evaluation.m_cachedPawnStructureEval
    (fst (Evaluation.evaluate t pos (Some cache))) = hit
  /\ snd (Evaluation.evaluate t pos (Some cache))
     = Some (if hit then cache
             else Evaluation.store cache key (Evaluation.computedEntry pos)).
Proof.
  cbv zeta.
  unfold Evaluation.evaluate, Evaluation.computedEntry,
    Evaluation.structureOf, Evaluation.pawnStructureStage.
  destruct (Evaluation.initialData pos) as [[bd0 wd0] openFiles].
  cbv zeta.
  destruct (Evaluation.entry_key
              (Evaluation.probe cache (Pos.pawnKey pos)) =? Pos.pawnKey pos).
  - destruct (Evaluation.pieceStage t pos openFiles _ _). split; reflexivity.
  - destruct (Evaluation.pieceStage t pos openFiles _ _). split; reflexivity.
Qed.

Lemma staticEval_evaluate t Tempo pos cache :
  Evaluation.staticEval t Tempo pos cache
  = (i32 (i32 (Evaluation.finalOf pos
                 (Evaluation.m_total (fst (Evaluation.evaluate t pos cache)))
               * (match Pos.toMove pos with Black => -1 | White => 1 end))
          + Tempo),
     snd (Evaluation.evaluate t pos cache)).
Proof.
  unfold Evaluation.staticEval.
  pose proof (evaluate_final t pos cache) as Hf.
  destruct (Evaluation.evaluate t pos cache) as [ev c1].
  cbn [fst snd] in *. now rewrite Hf.
Qed.

(** Evaluating a position again on the cache its evaluation left is a hit,
    returns the same score and leaves that cache as it is: what a miss
    stores is what a hit needs. *)
Theorem staticEval_cache_idempotent t Tempo pos cache (n : nat) :
  length cache = (2 ^ n)%nat ->
  m_colors (Pos.boards pos) Black &&& m_colors (Pos.boards pos) White = 0 ->
  let first := Evaluation.staticEval t Tempo pos (Some cache) in
  Evaluation.staticEval t Tempo pos (snd first) = first
  /\ Evaluation.m_cachedPawnStructureEval
       (fst (Evaluation.evaluate t pos (snd first))) = true.
Proof.
  intros Hlen Hcol. cbv zeta.
  pose proof (evaluate_cached_total t pos cache Hcol) as Htotal.
  cbv zeta in Htotal.
  rewrite (staticEval_evaluate t Tempo pos (Some cache)). cbn [snd].
  destruct (evaluate_with_cache t pos cache) as (Hflag & Hcache).
  cbv zeta in Hflag, Hcache. rewrite Hcache.
  revert Hflag Hcache Htotal.
  destruct (Z.eqb_spec (Evaluation.entry_key
                          (Evaluation.probe cache (Pos.pawnKey pos)))
              (Pos.pawnKey pos)) as [Hhit|Hmiss]; intros Hflag Hcache Htotal.
  - rewrite (staticEval_evaluate t Tempo pos (Some cache)), Hcache.
    split; [reflexivity|]. exact Hflag.
  - set (cache1 := Evaluation.store cache (Pos.pawnKey pos)
                     (Evaluation.computedEntry pos)).
    destruct (probe_store cache (Pos.pawnKey pos) (Evaluation.computedEntry pos)
                n Hlen) as (Hp & Hl & _).
    fold cache1 in Hp, Hl.
    assert (Hkey : Evaluation.entry_key (Evaluation.probe cache1 (Pos.pawnKey pos))
                   = Pos.pawnKey pos).
    { rewrite Hp. unfold Evaluation.computedEntry.
      destruct (Evaluation.structureOf pos). reflexivity. }
    destruct (evaluate_with_cache t pos cache1) as (Hflag1 & Hcache1).
    cbv zeta in Hflag1, Hcache1.
    apply Z.eqb_eq in Hkey. rewrite Hkey in Hflag1, Hcache1.
    split; [|exact Hflag1].
    rewrite (staticEval_evaluate t Tempo pos (Some cache1)), Hcache1.
    rewrite (evaluate_cached_total t pos cache1 Hcol)
      by (intros _; now rewrite Hp).
    rewrite Htotal by (intros H; now contradiction Hmiss).
    reflexivity.
Qed.

Lemma staticEval_cache_idempotent_witness :
  let first :=
    Evaluation.staticEval ModelTables.tables 10 kpk_position (Some kpk_coldCache) in
  Evaluation.staticEval ModelTables.tables 10 kpk_position (snd first) = first
  /\ Evaluation.m_cachedPawnStructureEval
       (fst (Evaluation.evaluate ModelTables.tables kpk_position (snd first)))
     = true.
Proof.
  apply (staticEval_cache_idempotent ModelTables.tables 10 kpk_position
           kpk_coldCache 2); reflexivity.
Defined.

(** *** The passers of [evalPawnStructure] *)

Lemma fold_passers (F : Evaluation.EvalData -> Square -> Evaluation.EvalData)
  (Q : Square -> bool) :
  (forall acc s,
      Evaluation.passers (F acc s)
      = if Q s then Evaluation.passers acc ||| fromSquare s
        else Evaluation.passers acc) ->
  forall L acc i,
    (forall s, In s L -> 0 <= s) -> 0 <= i ->
    Z.testbit (Evaluation.passers (fold_left F L acc)) i
    = Z.testbit (Evaluation.passers acc) i
      || existsb (fun s => (s =? i) && Q s) L.
Proof.
  intros HF L. induction L as [|s L IH]; intros acc i HL Hi;
    cbn [fold_left existsb].
  - now rewrite orb_false_r.
  - rewrite IH by (auto; intros x Hx; apply HL; now right).
    rewrite HF.
    assert (Hs : 0 <= s) by (apply HL; now left).
    destruct (Q s).
    + rewrite bor_testbit, fromSquare_testbit by assumption.
      rewrite (Z.eqb_sym s i), andb_true_r. now rewrite orb_assoc.
    + now rewrite andb_false_r.
Qed.

Lemma existsb_squares (Q : Square -> bool) b i :
  0 <= b -> 0 <= i ->
  existsb (fun s => (s =? i) && Q s) (squares b) = Z.testbit b i && Q i.
Proof.
  intros Hb Hi. apply eq_true_iff_eq.
  rewrite existsb_exists, andb_true_iff. split.
  - intros (s & Hin & H). apply andb_true_iff in H. destruct H as (E & HQ).
    apply Z.eqb_eq in E. subst s. split; [|exact HQ].
    now apply In_squares_testbit.
  - intros (Hbit & HQ). exists i. split.
    + apply squares_In. auto.
    + now rewrite Z.eqb_refl.
Qed.

(** The passers [evalPawnStructure] marks, bit by bit: those marked before,
    and every pawn of the side scored with no enemy pawn on the squares of
    [AntiPasserMasks], the squares ahead of it on its file and the two
    beside. *)
Theorem evalPawnStructure_passers us pos ours theirs i :
  0 <= Boards.pawnsT us (Pos.boards pos) ->
  0 <= i ->
  Z.testbit (Evaluation.passers (Evaluation.evalPawnStructure us pos ours theirs)) i
  = Z.testbit (Evaluation.passers ours) i
    || (Z.testbit (Boards.pawnsT us (Pos.boards pos)) i
        && empty (Boards.pawnsT (oppColor us) (Pos.boards pos)
                  &&& Evaluation.AntiPasserMasks us i)).
Proof.
  intros Hb Hi. unfold Evaluation.evalPawnStructure. cbv zeta.
  set (ourPawns := Boards.pawnsT us (Pos.boards pos)) in *.
  set (theirPawns := Boards.pawnsT (oppColor us) (Pos.boards pos)).
  set (Q := fun s => empty (theirPawns &&& Evaluation.AntiPasserMasks us s)).
  match goal with
  | |- Z.testbit (Evaluation.passers (fold_left ?F _ ?a)) _ = _ =>
      rewrite (fold_passers F Q); [| |apply In_squares_nonneg|exact Hi];
      [assert (Ha : Evaluation.passers a = Evaluation.passers ours)|]
  end.
  - apply (fold_left_invariant
             (fun acc => Evaluation.passers acc = Evaluation.passers ours)).
    + intros acc a _ H. exact H.
    + reflexivity.
  - rewrite Ha, existsb_squares by assumption. reflexivity.
  - intros acc s. unfold Q.
    repeat match goal with
           | |- context [if ?b then _ else _] =>
               lazymatch b with
               | context [if _ then _ else _] => fail
               | _ => destruct b
               end
           end; reflexivity.
Qed.

(** The black pawn on a2 of the pawn ending is a passer. *)
Lemma evalPawnStructure_passers_witness :
  Z.testbit
    (Evaluation.passers
       (Evaluation.evalPawnStructure Black kpk_position Evaluation.EvalData_zero
          Evaluation.EvalData_zero)) (sq fa 2)
  = Z.testbit (Evaluation.passers Evaluation.EvalData_zero) (sq fa 2)
    || (Z.testbit (Boards.pawnsT Black (Pos.boards kpk_position)) (sq fa 2)
        && empty (Boards.pawnsT (oppColor Black) (Pos.boards kpk_position)
                  &&& Evaluation.AntiPasserMasks Black (sq fa 2))).
Proof.
  apply (evalPawnStructure_passers Black kpk_position Evaluation.EvalData_zero
           Evaluation.EvalData_zero (sq fa 2)); vm_compute; discriminate.
Defined.
